(** * The B+tree key-value store of [src/b+tree/kvs.c]

    A shallow embedding of the store (arena, Bloom filter, B+tree index,
    cursor and snapshot codec) together with the invariants of its
    reachable states.

    Memory is modelled as the program uses it:
    - [BPNode] records live in a heap indexed by node address; [calloc]
      hands out the addresses [1, 2, 3, ...] in allocation order;
    - [Entry] records live in the arena ([pool]) and are addressed by their
      byte offset, which is what [pool_alloc] returns;
    - the key and value bytes copied into the arena are never overwritten
      afterwards, so a [char *] into the arena is modelled by the bytes it
      points to;
    - the Bloom bit vector is a sparse map from byte index to byte, an
      absent index standing for a zero byte ([calloc]).

    A computation is a partial state transformer: [None] stands for
    undefined behaviour (a null or dangling dereference, an access past the
    end of an array, a division by zero) and for a loop that does not
    terminate.  Pointer-chasing loops are given as fuel the number of
    allocated nodes: a deterministic walk that takes more steps than there
    are nodes revisits a node and never ends. *)

From stdpp Require Import gmap list sorting.
From Stdlib Require Import ZArith Lia Strings.Byte.

Local Open Scope Z_scope.

(** ** Configuration ([kvs.h]) *)

Definition KVS_DEFAULT_POOL_SIZE : Z := 128 * 1024 * 1024.
Definition KVS_BPTREE_ORDER : nat := 64.
Definition KVS_BLOOM_INIT_BITS : Z := Z.shiftl 1 20.
Definition KVS_BLOOM_MAX_BITS : Z := Z.shiftl 1 26.

Definition ORDER : nat := KVS_BPTREE_ORDER.
Definition MIN_KEYS : nat := ((ORDER - 1) / 2)%nat.

Inductive KVSError := KVS_OK | KVS_ERR_NOMEM | KVS_ERR_NOTFOUND | KVS_ERR_IO | KVS_ERR_FULL.

(** ** Machine integers and bytes *)

(** [uint32_t] and [size_t] (LP64) arithmetic wraps around. *)
Definition wrap32 (z : Z) : Z := z mod 2 ^ 32.
Definition wrap64 (z : Z) : Z := z mod 2 ^ 64.

(** The value of a byte read as [uint8_t] and as (signed) [char]. *)
Definition u8 (b : byte) : Z := Z.of_N (Byte.to_N b).
Definition schar (b : byte) : Z := if u8 b <? 128 then u8 b else u8 b - 256.

(** [sizeof(Entry)] on LP64: two pointers, two [uint32_t], one [uint8_t],
    padded to the pointer alignment. *)
Definition SIZEOF_ENTRY : Z := 32.

Abbreviation ptr := positive (only parsing).
Abbreviation eptr := Z (only parsing).

(** ** Data *)

Record Entry := mkEntry {
  key : list byte;
  value : list byte;
  klen : Z;
  vlen : Z;
  deleted : bool
}.

(** The arrays of a node have their declared sizes; [num_keys] says how much
    of them is in use.  The C union of [children] and [entries] is two
    fields: a node reads only the one its [is_leaf] selects. *)
Record BPNode := mkBPNode {
  is_leaf : bool;
  num_keys : nat;
  keys : list (list byte);
  klens : list Z;
  children : list (option ptr);
  entries : list (option eptr);
  next : option ptr;
  prev : option ptr
}.

Record KVS := mkKVS {
  pool : gmap Z Entry;
  pool_size : Z;
  pool_pos : Z;
  heap : gmap positive BPNode;
  brk : positive;
  root : option ptr;
  first_leaf : option ptr;
  count : Z;
  height : Z;
  node_count : Z;
  bloom : gmap Z Z;
  bloom_bits : Z;
  bloom_set_bits : Z
}.

Record KVSCursor := mkCursor {
  node : option ptr;
  index : Z
}.

Record KVSStats := mkStats {
  st_count : Z;
  st_memory_used : Z;
  st_bloom_bits : Z;
  st_tree_height : Z;
  st_node_count : Z
}.

(** Field updates. *)
Definition set_value v (e : Entry) := mkEntry (key e) v (klen e) (vlen e) (deleted e).
Definition set_vlen l (e : Entry) := mkEntry (key e) (value e) (klen e) l (deleted e).
Definition set_deleted d (e : Entry) := mkEntry (key e) (value e) (klen e) (vlen e) d.

Definition set_is_leaf x (n : BPNode) :=
  mkBPNode x (num_keys n) (keys n) (klens n) (children n) (entries n) (next n) (prev n).
Definition set_num_keys x (n : BPNode) :=
  mkBPNode (is_leaf n) x (keys n) (klens n) (children n) (entries n) (next n) (prev n).
Definition set_keys x (n : BPNode) :=
  mkBPNode (is_leaf n) (num_keys n) x (klens n) (children n) (entries n) (next n) (prev n).
Definition set_klens x (n : BPNode) :=
  mkBPNode (is_leaf n) (num_keys n) (keys n) x (children n) (entries n) (next n) (prev n).
Definition set_children x (n : BPNode) :=
  mkBPNode (is_leaf n) (num_keys n) (keys n) (klens n) x (entries n) (next n) (prev n).
Definition set_entries x (n : BPNode) :=
  mkBPNode (is_leaf n) (num_keys n) (keys n) (klens n) (children n) x (next n) (prev n).
Definition set_next x (n : BPNode) :=
  mkBPNode (is_leaf n) (num_keys n) (keys n) (klens n) (children n) (entries n) x (prev n).
Definition set_prev x (n : BPNode) :=
  mkBPNode (is_leaf n) (num_keys n) (keys n) (klens n) (children n) (entries n) (next n) x.

Definition set_pool x (db : KVS) :=
  mkKVS x (pool_size db) (pool_pos db) (heap db) (brk db) (root db) (first_leaf db)
        (count db) (height db) (node_count db) (bloom db) (bloom_bits db) (bloom_set_bits db).
Definition set_pool_pos x (db : KVS) :=
  mkKVS (pool db) (pool_size db) x (heap db) (brk db) (root db) (first_leaf db)
        (count db) (height db) (node_count db) (bloom db) (bloom_bits db) (bloom_set_bits db).
Definition set_heap x (db : KVS) :=
  mkKVS (pool db) (pool_size db) (pool_pos db) x (brk db) (root db) (first_leaf db)
        (count db) (height db) (node_count db) (bloom db) (bloom_bits db) (bloom_set_bits db).
Definition set_brk x (db : KVS) :=
  mkKVS (pool db) (pool_size db) (pool_pos db) (heap db) x (root db) (first_leaf db)
        (count db) (height db) (node_count db) (bloom db) (bloom_bits db) (bloom_set_bits db).
Definition set_root x (db : KVS) :=
  mkKVS (pool db) (pool_size db) (pool_pos db) (heap db) (brk db) x (first_leaf db)
        (count db) (height db) (node_count db) (bloom db) (bloom_bits db) (bloom_set_bits db).
Definition set_first_leaf x (db : KVS) :=
  mkKVS (pool db) (pool_size db) (pool_pos db) (heap db) (brk db) (root db) x
        (count db) (height db) (node_count db) (bloom db) (bloom_bits db) (bloom_set_bits db).
Definition set_count x (db : KVS) :=
  mkKVS (pool db) (pool_size db) (pool_pos db) (heap db) (brk db) (root db) (first_leaf db)
        x (height db) (node_count db) (bloom db) (bloom_bits db) (bloom_set_bits db).
Definition set_height x (db : KVS) :=
  mkKVS (pool db) (pool_size db) (pool_pos db) (heap db) (brk db) (root db) (first_leaf db)
        (count db) x (node_count db) (bloom db) (bloom_bits db) (bloom_set_bits db).
Definition set_node_count x (db : KVS) :=
  mkKVS (pool db) (pool_size db) (pool_pos db) (heap db) (brk db) (root db) (first_leaf db)
        (count db) (height db) x (bloom db) (bloom_bits db) (bloom_set_bits db).
Definition set_bloom x (db : KVS) :=
  mkKVS (pool db) (pool_size db) (pool_pos db) (heap db) (brk db) (root db) (first_leaf db)
        (count db) (height db) (node_count db) x (bloom_bits db) (bloom_set_bits db).
Definition set_bloom_bits x (db : KVS) :=
  mkKVS (pool db) (pool_size db) (pool_pos db) (heap db) (brk db) (root db) (first_leaf db)
        (count db) (height db) (node_count db) (bloom db) x (bloom_set_bits db).
Definition set_bloom_set_bits x (db : KVS) :=
  mkKVS (pool db) (pool_size db) (pool_pos db) (heap db) (brk db) (root db) (first_leaf db)
        (count db) (height db) (node_count db) (bloom db) (bloom_bits db) x.

(** ** The monad of the store's operations *)

Definition M (A : Type) : Type := KVS → option (A * KVS).

Definition ret {A} (a : A) : M A := λ db, Some (a, db).
Definition bind {A B} (m : M A) (f : A → M B) : M B :=
  λ db, match m db with Some (a, db') => f a db' | None => None end.
Definition crash {A} : M A := λ _, None.
Definition gets {A} (f : KVS → A) : M A := λ db, Some (f db, db).
Definition modify (f : KVS → KVS) : M unit := λ db, Some (tt, f db).
Definition must {A} (o : option A) : M A :=
  λ db, match o with Some a => Some (a, db) | None => None end.

Notation "x <- m ;; k" := (bind m (λ x, k))
  (at level 100, m at next level, right associativity).
Notation "m ;; k" := (bind m (λ _, k))
  (at level 100, right associativity).

(** [*p] for a node pointer, and [*p = n]. *)
Definition load_node (p : ptr) : M BPNode := λ db, must (heap db !! p) db.
Definition store_node (p : ptr) (n : BPNode) : M unit :=
  λ db, match heap db !! p with
        | Some _ => Some (tt, set_heap (<[p:=n]> (heap db)) db)
        | None => None
        end.
Definition upd_node (p : ptr) (f : BPNode → BPNode) : M unit :=
  n <- load_node p ;; store_node p (f n).

(** [*e] for an entry pointer, and [*e = x]. *)
Definition load_entry (e : eptr) : M Entry := λ db, must (pool db !! e) db.
Definition store_entry (e : eptr) (x : Entry) : M unit :=
  modify (λ db, set_pool (<[e:=x]> (pool db)) db).
Definition upd_entry (e : eptr) (f : Entry → Entry) : M unit :=
  x <- load_entry e ;; store_entry e (f x).

(** [a[i]] and [a[i] = x] on an array of fixed size. *)
Definition aget {A} (a : list A) (i : nat) : option A := a !! i.
Definition aset {A} (a : list A) (i : nat) (x : A) : option (list A) :=
  if decide (i < length a)%nat then Some (<[i:=x]> a) else None.

(** ** Hash functions *)

Definition fnv1a (k : list byte) (len : nat) : Z :=
  fold_left (λ h b, wrap32 (Z.lxor h (u8 b) * 16777619)) (take len k) 2166136261.

(** [k[i]] is a [char]: it is promoted to [int] and converted to
    [uint32_t] before the exclusive or, resp. the addition. *)
Definition hash2 (k : list byte) (l : nat) : Z :=
  fold_left (λ h b, Z.lxor (wrap32 (wrap32 (Z.shiftl h 5) + h)) (wrap32 (schar b)))
            (take l k) 0x5bd1e995.

Definition hash3 (k : list byte) (l : nat) : Z :=
  fold_left (λ h b, wrap32 (wrap32 (h * 31) + schar b)) (take l k) 0x811c9dc5.

(** ** Bloom filter *)

Definition bloom_byte (db : KVS) (idx : Z) : Z := default 0 (bloom db !! idx).

Definition bloom_set_bit (pos : Z) : M unit := λ db,
  let idx := Z.shiftr pos 3 in
  let mask := Z.shiftl 1 (Z.land pos 7) in
  if Z.land (bloom_byte db idx) mask =? 0 then
    Some (tt, set_bloom_set_bits (wrap64 (bloom_set_bits db + 1))
                (set_bloom (<[idx := Z.lor (bloom_byte db idx) mask]> (bloom db)) db))
  else Some (tt, db).

Definition bloom_get_bit (db : KVS) (pos : Z) : bool :=
  negb (Z.land (bloom_byte db (Z.shiftr pos 3)) (Z.shiftl 1 (Z.land pos 7)) =? 0).

(** [x % bits] is undefined for [bits = 0]. *)
Definition umod (x bits : Z) : option Z :=
  if bits =? 0 then None else Some (x mod bits).

Definition bloom_add (k : list byte) (l : nat) : M unit :=
  bits <- gets bloom_bits ;;
  p1 <- must (umod (fnv1a k l) bits) ;; bloom_set_bit p1 ;;
  p2 <- must (umod (hash2 k l) bits) ;; bloom_set_bit p2 ;;
  p3 <- must (umod (hash3 k l) bits) ;; bloom_set_bit p3.

Definition bloom_maybe (k : list byte) (l : nat) : M bool :=
  bits <- gets bloom_bits ;;
  p1 <- must (umod (fnv1a k l) bits) ;;
  b1 <- gets (λ db, bloom_get_bit db p1) ;;
  if b1 then
    p2 <- must (umod (hash2 k l) bits) ;;
    b2 <- gets (λ db, bloom_get_bit db p2) ;;
    if b2 then
      p3 <- must (umod (hash3 k l) bits) ;;
      gets (λ db, bloom_get_bit db p3)
    else ret false
  else ret false.

(** ** Key comparison *)

(** [memcmp] on the first [n] bytes; only the sign of the result is
    specified, the difference of the first differing bytes is one such
    value. *)
Fixpoint memcmp (a b : list byte) (n : nat) : Z :=
  match n with
  | O => 0
  | S n' =>
      match a, b with
      | x :: a', y :: b' => if u8 x =? u8 y then memcmp a' b' n' else u8 x - u8 y
      | _, _ => 0
      end
  end.

Definition keycmp (k1 : list byte) (l1 : Z) (k2 : list byte) (l2 : Z) : Z :=
  let min := if l1 <? l2 then l1 else l2 in
  let cmp := memcmp k1 k2 (Z.to_nat min) in
  if negb (cmp =? 0) then cmp
  else if l1 <? l2 then -1 else if l1 >? l2 then 1 else 0.

(** ** Memory pool *)

(** Returns the offset of the block in the pool, or [None] for [NULL]. *)
Definition pool_alloc (size : Z) : M (option eptr) := λ db,
  let size := Z.land (wrap64 (size + 7)) (wrap64 (Z.lnot 7)) in
  if wrap64 (pool_pos db + size) >? pool_size db then Some (None, db)
  else Some (Some (pool_pos db), set_pool_pos (wrap64 (pool_pos db + size)) db).

(** ** B+tree nodes *)

(** A node as [calloc] returns it. *)
Definition zero_node : BPNode :=
  mkBPNode false 0 (replicate (ORDER - 1) []) (replicate (ORDER - 1) 0)
           (replicate ORDER None) (replicate (ORDER - 1) None) None None.

Definition bpnode_new (leaf : bool) : M ptr := λ db,
  let n := brk db in
  Some (n, set_node_count (wrap64 (node_count db + 1))
             (set_brk (Pos.succ n)
                (set_heap (<[n := set_is_leaf leaf zero_node]> (heap db)) db))).

(** Reads and writes of one array cell of a node. *)
Definition get_key (p : ptr) (i : nat) : M (list byte) :=
  n <- load_node p ;; must (aget (keys n) i).
Definition get_klen (p : ptr) (i : nat) : M Z :=
  n <- load_node p ;; must (aget (klens n) i).
Definition get_child (p : ptr) (i : nat) : M (option ptr) :=
  n <- load_node p ;; must (aget (children n) i).
Definition get_entry (p : ptr) (i : nat) : M (option eptr) :=
  n <- load_node p ;; must (aget (entries n) i).
Definition put_key (p : ptr) (i : nat) (x : list byte) : M unit :=
  n <- load_node p ;; a <- must (aset (keys n) i x) ;; store_node p (set_keys a n).
Definition put_klen (p : ptr) (i : nat) (x : Z) : M unit :=
  n <- load_node p ;; a <- must (aset (klens n) i x) ;; store_node p (set_klens a n).
Definition put_child (p : ptr) (i : nat) (x : option ptr) : M unit :=
  n <- load_node p ;; a <- must (aset (children n) i x) ;; store_node p (set_children a n).
Definition put_entry (p : ptr) (i : nat) (x : option eptr) : M unit :=
  n <- load_node p ;; a <- must (aset (entries n) i x) ;; store_node p (set_entries a n).

(** The smallest index whose key is [>=] the target. *)
Fixpoint leaf_find_loop (leaf : BPNode) (k : list byte) (kl : Z)
    (fuel lo hi : nat) : option nat :=
  if (lo <? hi)%nat then
    match fuel with
    | O => None
    | S fuel' =>
        let mid := ((lo + hi) / 2)%nat in
        km ← aget (keys leaf) mid;
        lm ← aget (klens leaf) mid;
        if keycmp km lm k kl <? 0
        then leaf_find_loop leaf k kl fuel' (mid + 1)%nat hi
        else leaf_find_loop leaf k kl fuel' lo mid
    end
  else Some lo.

Definition leaf_find_pos (leaf : BPNode) (k : list byte) (kl : Z) : option nat :=
  leaf_find_loop leaf k kl (num_keys leaf) 0 (num_keys leaf).

(** The smallest index whose key is [>] the target. *)
Fixpoint internal_find_loop (nd : BPNode) (k : list byte) (kl : Z)
    (fuel lo hi : nat) : option nat :=
  if (lo <? hi)%nat then
    match fuel with
    | O => None
    | S fuel' =>
        let mid := ((lo + hi) / 2)%nat in
        km ← aget (keys nd) mid;
        lm ← aget (klens nd) mid;
        if keycmp km lm k kl <=? 0
        then internal_find_loop nd k kl fuel' (mid + 1)%nat hi
        else internal_find_loop nd k kl fuel' lo mid
    end
  else Some lo.

Definition internal_find_pos (nd : BPNode) (k : list byte) (kl : Z) : option nat :=
  internal_find_loop nd k kl (num_keys nd) 0 (num_keys nd).

(** Fuel of the pointer-chasing loops. *)
Definition walk_fuel (db : KVS) : nat := size (heap db).

Fixpoint find_leaf_loop (fuel : nat) (n : ptr) (k : list byte) (kl : Z) : M ptr :=
  nd <- load_node n ;;
  if is_leaf nd then ret n
  else
    match fuel with
    | O => crash
    | S fuel' =>
        pos <- must (internal_find_pos nd k kl) ;;
        c <- must (aget (children nd) pos) ;;
        c <- must c ;;
        find_leaf_loop fuel' c k kl
    end.

Definition find_leaf (k : list byte) (kl : Z) : M (option ptr) :=
  r <- gets root ;;
  match r with
  | None => ret None
  | Some n =>
      fuel <- gets walk_fuel ;;
      l <- find_leaf_loop fuel n k kl ;;
      ret (Some l)
  end.

(** [for (i = 0; i < cnt; i++)] of [split_leaf]. *)
Fixpoint split_leaf_copy (leaf new_leaf : ptr) (mid i cnt : nat) : M unit :=
  match cnt with
  | O => ret tt
  | S cnt' =>
      x <- get_key leaf (mid + i) ;; put_key new_leaf i x ;;
      x <- get_klen leaf (mid + i) ;; put_klen new_leaf i x ;;
      x <- get_entry leaf (mid + i) ;; put_entry new_leaf i x ;;
      split_leaf_copy leaf new_leaf mid (S i) cnt'
  end.

(** [for (i = parent->num_keys; i > parent_pos; i--)], the same loop in
    [split_leaf] and [split_internal]. *)
Fixpoint shift_parent (parent : ptr) (parent_pos i : nat) : M unit :=
  match i with
  | O => ret tt
  | S i' =>
      if (parent_pos <? i)%nat then
        x <- get_key parent i' ;; put_key parent i x ;;
        x <- get_klen parent i' ;; put_klen parent i x ;;
        x <- get_child parent i ;; put_child parent (i + 1) x ;;
        shift_parent parent parent_pos i'
      else ret tt
  end.

(** The tail shared by both splits: hang [right] beside [left] under a new
    root, or insert it into the parent at [parent_pos]. *)
Definition link_parent (left right : ptr) (up_key : list byte) (up_klen : Z)
    (parent : option ptr) (parent_pos : nat) : M unit :=
  match parent with
  | None =>
      new_root <- bpnode_new false ;;
      upd_node new_root (set_num_keys 1) ;;
      put_key new_root 0 up_key ;;
      put_klen new_root 0 up_klen ;;
      put_child new_root 0 (Some left) ;;
      put_child new_root 1 (Some right) ;;
      modify (set_root (Some new_root)) ;;
      modify (λ db, set_height (wrap64 (height db + 1)) db)
  | Some parent =>
      pn <- load_node parent ;;
      shift_parent parent parent_pos (num_keys pn) ;;
      put_key parent parent_pos up_key ;;
      put_klen parent parent_pos up_klen ;;
      put_child parent (parent_pos + 1) (Some right) ;;
      upd_node parent (λ n, set_num_keys (S (num_keys n)) n)
  end.

Definition split_leaf (leaf : ptr) (parent : option ptr) (parent_pos : nat) : M unit :=
  new_leaf <- bpnode_new true ;;
  l <- load_node leaf ;;
  let mid := (num_keys l / 2)%nat in
  upd_node new_leaf (set_num_keys (num_keys l - mid)) ;;
  split_leaf_copy leaf new_leaf mid 0 (num_keys l - mid) ;;
  upd_node leaf (set_num_keys mid) ;;
  upd_node new_leaf (set_next (next l)) ;;
  upd_node new_leaf (set_prev (Some leaf)) ;;
  match next l with
  | Some nx => upd_node nx (set_prev (Some new_leaf))
  | None => ret tt
  end ;;
  upd_node leaf (set_next (Some new_leaf)) ;;
  up_key <- get_key new_leaf 0 ;;
  up_klen <- get_klen new_leaf 0 ;;
  link_parent leaf new_leaf up_key up_klen parent parent_pos.

(** [for (i = 0; i < cnt; i++)] of [split_internal]. *)
Fixpoint split_internal_copy (nd new_node : ptr) (mid i cnt : nat) : M unit :=
  match cnt with
  | O => ret tt
  | S cnt' =>
      x <- get_key nd (mid + 1 + i) ;; put_key new_node i x ;;
      x <- get_klen nd (mid + 1 + i) ;; put_klen new_node i x ;;
      x <- get_child nd (mid + 1 + i) ;; put_child new_node i x ;;
      split_internal_copy nd new_node mid (S i) cnt'
  end.

Definition split_internal (nd : ptr) (parent : option ptr) (parent_pos : nat) : M unit :=
  new_node <- bpnode_new false ;;
  n <- load_node nd ;;
  let mid := (num_keys n / 2)%nat in
  up_key <- get_key nd mid ;;
  up_klen <- get_klen nd mid ;;
  let cnt := (num_keys n - mid - 1)%nat in
  upd_node new_node (set_num_keys cnt) ;;
  split_internal_copy nd new_node mid 0 cnt ;;
  x <- get_child nd (num_keys n) ;; put_child new_node cnt x ;;
  upd_node nd (set_num_keys mid) ;;
  link_parent nd new_node up_key up_klen parent parent_pos.

(** [for (i = node->num_keys; i > pos; i--)] of [insert_recursive]. *)
Fixpoint shift_leaf (nd : ptr) (pos i : nat) : M unit :=
  match i with
  | O => ret tt
  | S i' =>
      if (pos <? i)%nat then
        x <- get_key nd i' ;; put_key nd i x ;;
        x <- get_klen nd i' ;; put_klen nd i x ;;
        x <- get_entry nd i' ;; put_entry nd i x ;;
        shift_leaf nd pos i'
      else ret tt
  end.

Fixpoint insert_recursive (fuel : nat) (nd : ptr) (parent : option ptr)
    (parent_pos : nat) (k : list byte) (kl : Z) (entry : eptr) : M Z :=
  n <- load_node nd ;;
  if is_leaf n then
    pos <- must (leaf_find_pos n k kl) ;;
    hit <- (if (pos <? num_keys n)%nat then
              kp <- get_key nd pos ;;
              lp <- get_klen nd pos ;;
              ret (keycmp kp lp k kl =? 0)
            else ret false) ;;
    if hit then
      e <- get_entry nd pos ;;
      e <- must e ;;
      old <- load_entry e ;;
      if negb (deleted old) then
        new <- load_entry entry ;;
        upd_entry e (set_value (value new)) ;;
        upd_entry e (set_vlen (vlen new)) ;;
        ret 0
      else
        put_entry nd pos (Some entry) ;;
        ret 1
    else
      shift_leaf nd pos (num_keys n) ;;
      new <- load_entry entry ;;
      put_key nd pos (key new) ;;
      put_klen nd pos (wrap32 kl) ;;
      put_entry nd pos (Some entry) ;;
      upd_node nd (λ n, set_num_keys (S (num_keys n)) n) ;;
      n' <- load_node nd ;;
      (if (ORDER - 1 <=? num_keys n')%nat
       then split_leaf nd parent parent_pos else ret tt) ;;
      ret 1
  else
    match fuel with
    | O => crash
    | S fuel' =>
        pos <- must (internal_find_pos n k kl) ;;
        c <- get_child nd pos ;;
        c <- must c ;;
        added <- insert_recursive fuel' c (Some nd) pos k kl entry ;;
        n' <- load_node nd ;;
        (if (ORDER - 1 <=? num_keys n')%nat
         then split_internal nd parent parent_pos else ret tt) ;;
        ret added
    end.

(** ** Bloom rebuild and growth *)

(** [for (i = 0; i < leaf->num_keys; i++)] of [bloom_rebuild]. *)
Fixpoint bloom_rebuild_leaf (leaf : ptr) (i cnt : nat) : M unit :=
  match cnt with
  | O => ret tt
  | S cnt' =>
      e <- get_entry leaf i ;;
      e <- must e ;;
      x <- load_entry e ;;
      (if negb (deleted x) then
         kp <- get_key leaf i ;;
         lp <- get_klen leaf i ;;
         bloom_add kp (Z.to_nat lp)
       else ret tt) ;;
      bloom_rebuild_leaf leaf (S i) cnt'
  end.

Fixpoint bloom_rebuild_loop (fuel : nat) (leaf : option ptr) : M unit :=
  match leaf with
  | None => ret tt
  | Some l =>
      match fuel with
      | O => crash
      | S fuel' =>
          n <- load_node l ;;
          bloom_rebuild_leaf l 0 (num_keys n) ;;
          bloom_rebuild_loop fuel' (next n)
      end
  end.

Definition bloom_rebuild : M unit :=
  fuel <- gets walk_fuel ;;
  leaf <- gets first_leaf ;;
  bloom_rebuild_loop fuel leaf.

Definition bloom_expand : M unit :=
  bits <- gets bloom_bits ;;
  let new_bits := wrap64 (bits * 4) in
  let new_bits := if new_bits >? KVS_BLOOM_MAX_BITS then KVS_BLOOM_MAX_BITS else new_bits in
  if new_bits =? bits then ret tt
  else
    modify (set_bloom ∅) ;;
    modify (set_bloom_bits new_bits) ;;
    modify (set_bloom_set_bits 0) ;;
    bloom_rebuild.

(** [fill >= 0.5] for [fill = (double)set_bits / bits]: both operands are
    below [2^53], so the conversions are exact, the quotient is correctly
    rounded and rounding is monotone around the representable [0.5]; the
    test is that of the exact quotient.  For [bits = 0] the quotient is
    infinite for a positive numerator and not a number for zero. *)
Definition fill_reached (set_bits bits : Z) : bool :=
  if bits =? 0 then 0 <? set_bits else bits <=? 2 * set_bits.

Definition bloom_check_expand : M unit :=
  sb <- gets bloom_set_bits ;;
  bits <- gets bloom_bits ;;
  if fill_reached sb bits && (bits <? KVS_BLOOM_MAX_BITS)
  then bloom_expand else ret tt.

(** ** Public API *)

(** A store as [kvs_open] returns it when its allocations succeed. *)
Definition kvs_open : KVS :=
  let db := mkKVS ∅ KVS_DEFAULT_POOL_SIZE 0 ∅ 1%positive None None 0 0 0
                  ∅ KVS_BLOOM_INIT_BITS 0 in
  match bpnode_new true db with
  | Some (r, db) => set_height 1 (set_first_leaf (Some r) (set_root (Some r) db))
  | None => db
  end.

(** [while (!n->is_leaf) n = n->children[0]]. *)
Fixpoint leftmost_loop (fuel : nat) (n : ptr) : M ptr :=
  nd <- load_node n ;;
  if is_leaf nd then ret n
  else
    match fuel with
    | O => crash
    | S fuel' =>
        c <- must (aget (children nd) 0) ;;
        c <- must c ;;
        leftmost_loop fuel' c
    end.

Definition kvs_put_raw (k v : list byte) : M KVSError :=
  let kl := Z.of_nat (length k) in
  let vl := Z.of_nat (length v) in
  e <- pool_alloc SIZEOF_ENTRY ;;
  kp <- pool_alloc (wrap64 (kl + 1)) ;;
  vp <- pool_alloc (wrap64 (vl + 1)) ;;
  match e, kp, vp with
  | Some e, Some _, Some _ =>
      store_entry e (mkEntry k v (wrap32 kl) (wrap32 vl) false) ;;
      bloom_add k (length k) ;;
      r <- gets root ;;
      r <- must r ;;
      fuel <- gets walk_fuel ;;
      added <- insert_recursive fuel r None 0 k kl e ;;
      (if negb (added =? 0)
       then modify (λ db, set_count (wrap64 (count db + 1)) db) else ret tt) ;;
      r <- gets root ;;
      r <- must r ;;
      fuel <- gets walk_fuel ;;
      n <- leftmost_loop fuel r ;;
      modify (set_first_leaf (Some n)) ;;
      c <- gets count ;;
      (if c mod 1000 =? 0 then bloom_check_expand else ret tt) ;;
      ret KVS_OK
  | _, _, _ => ret KVS_ERR_NOMEM
  end.

(** [strlen] of the string a [const char *] points to. *)
Fixpoint strlen (s : list byte) : nat :=
  match s with
  | [] => 0
  | b :: s' => if u8 b =? 0 then 0%nat else S (strlen s')
  end.

Definition kvs_put (k v : list byte) : M KVSError :=
  kvs_put_raw (take (strlen k) k) (take (strlen v) v).

(** The lookup shared by [kvs_get_raw], [kvs_exists] and [kvs_delete]: the
    entry of the key when it is present and not tombstoned. *)
Definition lookup_live (k : list byte) (kl : nat) : M (option eptr) :=
  b <- bloom_maybe k kl ;;
  if negb b then ret None
  else
    leaf <- find_leaf k (Z.of_nat kl) ;;
    match leaf with
    | None => ret None
    | Some leaf =>
        n <- load_node leaf ;;
        pos <- must (leaf_find_pos n k (Z.of_nat kl)) ;;
        if (pos <? num_keys n)%nat then
          kp <- get_key leaf pos ;;
          lp <- get_klen leaf pos ;;
          if keycmp kp lp k (Z.of_nat kl) =? 0 then
            e <- get_entry leaf pos ;;
            e <- must e ;;
            x <- load_entry e ;;
            if negb (deleted x) then ret (Some e) else ret None
          else ret None
        else ret None
    end.

(** The result is the fresh copy of the value and [*vlen]. *)
Definition kvs_get_raw (k : list byte) (kl : nat) : M (option (list byte * Z)) :=
  e <- lookup_live k kl ;;
  match e with
  | Some e =>
      x <- load_entry e ;;
      ret (Some (take (Z.to_nat (vlen x)) (value x), vlen x))
  | None => ret None
  end.

Definition kvs_get (k : list byte) : M (option (list byte)) :=
  r <- kvs_get_raw k (strlen k) ;;
  ret (fst <$> r).

Definition kvs_exists (k : list byte) : M bool :=
  e <- lookup_live k (strlen k) ;;
  ret (bool_decide (is_Some e)).

Definition kvs_delete (k : list byte) : M KVSError :=
  e <- lookup_live k (strlen k) ;;
  match e with
  | Some e =>
      upd_entry e (set_deleted true) ;;
      modify (λ db, set_count (wrap64 (count db - 1)) db) ;;
      ret KVS_OK
  | None => ret KVS_ERR_NOTFOUND
  end.

(** ** Cursor *)

(** Fuel of the cursor loops: one step per array cell of a node. *)
Definition cursor_fuel (db : KVS) : nat := (S (size (heap db)) * ORDER)%nat.

Definition kvs_cursor_new : KVSCursor := mkCursor None 0.

Definition kvs_cursor_valid (cur : KVSCursor) : M bool :=
  match node cur with
  | None => ret false
  | Some p =>
      if 0 <=? index cur then
        n <- load_node p ;;
        ret (index cur <? Z.of_nat (num_keys n))
      else ret false
  end.

(** The entry the cursor stands on: [cur->node->entries[cur->index]]. *)
Definition cursor_entry (p : ptr) (i : Z) : M Entry :=
  if i <? 0 then crash
  else
    e <- get_entry p (Z.to_nat i) ;;
    e <- must e ;;
    load_entry e.

(** The [do ... while] of [kvs_cursor_next]. *)
Fixpoint cursor_next_loop (fuel : nat) (p : ptr) (i : Z) : M KVSCursor :=
  match fuel with
  | O => crash
  | S fuel' =>
      let i := i + 1 in
      n <- load_node p ;;
      let cur := if Z.of_nat (num_keys n) <=? i then mkCursor (next n) 0
                 else mkCursor (Some p) i in
      match node cur with
      | None => ret cur
      | Some q =>
          nq <- load_node q ;;
          if index cur <? Z.of_nat (num_keys nq) then
            x <- cursor_entry q (index cur) ;;
            if deleted x then cursor_next_loop fuel' q (index cur) else ret cur
          else ret cur
      end
  end.

Definition kvs_cursor_next (cur : KVSCursor) : M (KVSCursor * bool) :=
  match node cur with
  | None => ret (cur, false)
  | Some p =>
      fuel <- gets cursor_fuel ;;
      cur <- cursor_next_loop fuel p (index cur) ;;
      b <- kvs_cursor_valid cur ;;
      ret (cur, b)
  end.

(** The [do ... while] of [kvs_cursor_prev]. *)
Fixpoint cursor_prev_loop (fuel : nat) (p : ptr) (i : Z) : M KVSCursor :=
  match fuel with
  | O => crash
  | S fuel' =>
      let i := i - 1 in
      cur <- (if i <? 0 then
                n <- load_node p ;;
                match prev n with
                | None => ret (mkCursor None i)
                | Some q =>
                    nq <- load_node q ;;
                    ret (mkCursor (Some q) (Z.of_nat (num_keys nq) - 1))
                end
              else ret (mkCursor (Some p) i)) ;;
      match node cur with
      | None => ret cur
      | Some q =>
          if 0 <=? index cur then
            x <- cursor_entry q (index cur) ;;
            if deleted x then cursor_prev_loop fuel' q (index cur) else ret cur
          else ret cur
      end
  end.

Definition kvs_cursor_prev (cur : KVSCursor) : M (KVSCursor * bool) :=
  match node cur with
  | None => ret (cur, false)
  | Some p =>
      fuel <- gets cursor_fuel ;;
      cur <- cursor_prev_loop fuel p (index cur) ;;
      b <- kvs_cursor_valid cur ;;
      ret (cur, b)
  end.

(** The [while] of [kvs_cursor_first]. *)
Fixpoint cursor_first_loop (fuel : nat) (cur : KVSCursor) : M KVSCursor :=
  match node cur with
  | None => ret cur
  | Some p =>
      n <- load_node p ;;
      if index cur <? Z.of_nat (num_keys n) then
        x <- cursor_entry p (index cur) ;;
        if deleted x then
          match fuel with
          | O => crash
          | S fuel' =>
              r <- kvs_cursor_next cur ;;
              cursor_first_loop fuel' (fst r)
          end
        else ret cur
      else ret cur
  end.

Definition kvs_cursor_first : M (KVSCursor * bool) :=
  fl <- gets first_leaf ;;
  fuel <- gets cursor_fuel ;;
  cur <- cursor_first_loop fuel (mkCursor fl 0) ;;
  b <- kvs_cursor_valid cur ;;
  ret (cur, b).

(** [while (!n->is_leaf) n = n->children[n->num_keys]]. *)
Fixpoint rightmost_loop (fuel : nat) (n : ptr) : M ptr :=
  nd <- load_node n ;;
  if is_leaf nd then ret n
  else
    match fuel with
    | O => crash
    | S fuel' =>
        c <- must (aget (children nd) (num_keys nd)) ;;
        c <- must c ;;
        rightmost_loop fuel' c
    end.

(** The [while] of [kvs_cursor_last]; it dereferences [cur->node] without
    a null test. *)
Fixpoint cursor_last_loop (fuel : nat) (cur : KVSCursor) : M KVSCursor :=
  if 0 <=? index cur then
    p <- must (node cur) ;;
    x <- cursor_entry p (index cur) ;;
    if deleted x then
      match fuel with
      | O => crash
      | S fuel' =>
          r <- kvs_cursor_prev cur ;;
          cursor_last_loop fuel' (fst r)
      end
    else ret cur
  else ret cur.

Definition kvs_cursor_last : M (KVSCursor * bool) :=
  r <- gets root ;;
  r <- must r ;;
  fuel <- gets walk_fuel ;;
  n <- rightmost_loop fuel r ;;
  nd <- load_node n ;;
  fuel <- gets cursor_fuel ;;
  cur <- cursor_last_loop fuel (mkCursor (Some n) (Z.of_nat (num_keys nd) - 1)) ;;
  b <- kvs_cursor_valid cur ;;
  ret (cur, b).

Definition kvs_cursor_seek (cur : KVSCursor) (k : list byte) : M (KVSCursor * bool) :=
  let kl := strlen k in
  leaf <- find_leaf k (Z.of_nat kl) ;;
  match leaf with
  | None => ret (mkCursor None (index cur), false)
  | Some l =>
      n <- load_node l ;;
      pos <- must (leaf_find_pos n k (Z.of_nat kl)) ;;
      let cur := if (num_keys n <=? pos)%nat then mkCursor (next n) 0
                 else mkCursor (Some l) (Z.of_nat pos) in
      b <- kvs_cursor_valid cur ;;
      ret (cur, b)
  end.

(** [kvs_cursor_key] and [kvs_cursor_value] with their length outputs. *)
Definition kvs_cursor_key (cur : KVSCursor) : M (option (list byte * Z)) :=
  b <- kvs_cursor_valid cur ;;
  if b then
    p <- must (node cur) ;;
    kp <- get_key p (Z.to_nat (index cur)) ;;
    lp <- get_klen p (Z.to_nat (index cur)) ;;
    ret (Some (kp, lp))
  else ret None.

Definition kvs_cursor_value (cur : KVSCursor) : M (option (list byte * Z)) :=
  b <- kvs_cursor_valid cur ;;
  if b then
    p <- must (node cur) ;;
    x <- cursor_entry p (index cur) ;;
    ret (Some (value x, vlen x))
  else ret None.

(** ** Iteration *)

(** One call of the callback: [(key, klen, value, vlen)]. *)
Definition visit : Type := list byte * Z * list byte * Z.

(** [for (i = 0; i < leaf->num_keys; i++)] of [kvs_foreach]; the calls are
    accumulated in reverse. *)
Fixpoint foreach_leaf (leaf : ptr) (i cnt : nat) (acc : list visit) : M (list visit) :=
  match cnt with
  | O => ret acc
  | S cnt' =>
      e <- get_entry leaf i ;;
      e <- must e ;;
      x <- load_entry e ;;
      foreach_leaf leaf (S i) cnt'
        (if negb (deleted x) then (key x, klen x, value x, vlen x) :: acc else acc)
  end.

Fixpoint foreach_loop (fuel : nat) (leaf : option ptr) (acc : list visit) : M (list visit) :=
  match leaf with
  | None => ret acc
  | Some l =>
      match fuel with
      | O => crash
      | S fuel' =>
          n <- load_node l ;;
          acc <- foreach_leaf l 0 (num_keys n) acc ;;
          foreach_loop fuel' (next n) acc
      end
  end.

(** The calls made to the callback, in order, and the returned count. *)
Definition kvs_foreach : M (list visit * Z) :=
  fuel <- gets walk_fuel ;;
  leaf <- gets first_leaf ;;
  acc <- foreach_loop fuel leaf [] ;;
  ret (rev acc, wrap64 (Z.of_nat (length acc))).

(** The [while (kvs_cursor_valid(cur))] of [kvs_range]. *)
Fixpoint range_loop (fuel : nat) (cur : KVSCursor) (to : list byte) (to_len : Z)
    (acc : list visit) : M (list visit) :=
  b <- kvs_cursor_valid cur ;;
  if b then
    match fuel with
    | O => crash
    | S fuel' =>
        kk <- kvs_cursor_key cur ;;
        kk <- must kk ;;
        if keycmp (fst kk) (snd kk) to to_len >? 0 then ret acc
        else
          vv <- kvs_cursor_value cur ;;
          vv <- must vv ;;
          r <- kvs_cursor_next cur ;;
          range_loop fuel' (fst r) to to_len ((fst kk, snd kk, fst vv, snd vv) :: acc)
    end
  else ret acc.

Definition kvs_range (from to : list byte) : M (list visit * Z) :=
  let to_len := strlen to in
  r <- kvs_cursor_seek kvs_cursor_new from ;;
  fuel <- gets cursor_fuel ;;
  acc <- range_loop fuel (fst r) to (Z.of_nat to_len) [] ;;
  ret (rev acc, wrap64 (Z.of_nat (length acc))).

Definition kvs_stats (db : KVS) : KVSStats :=
  mkStats (count db) (pool_pos db) (bloom_bits db) (height db) (node_count db).

(** ** Persistence *)

Definition KVS_MAGIC : Z := 0x54504253.
Definition SIZEOF_SIZE_T : nat := 8.

Definition byte_of (z : Z) : byte := default x00 (Byte.of_N (Z.to_N (z mod 256))).

(** The object representation of an unsigned integer of [n] bytes
    (little endian), and the value of such a representation. *)
Fixpoint le_bytes (n : nat) (z : Z) : list byte :=
  match n with
  | O => []
  | S n' => byte_of z :: le_bytes n' (z / 256)
  end.

Fixpoint le_value (bs : list byte) : Z :=
  match bs with
  | [] => 0
  | b :: bs' => u8 b + 256 * le_value bs'
  end.

(** The bytes [db->bloom[i .. i + n)] of the Bloom vector. *)
Fixpoint bloom_read (db : KVS) (i : Z) (n : nat) : list byte :=
  match n with
  | O => []
  | S n' => byte_of (bloom_byte db i) :: bloom_read db (i + 1) n'
  end.

Definition bloom_bytes (db : KVS) : list byte :=
  bloom_read db 0 (Z.to_nat (bloom_bits db / 8)).

(** The four [fwrite]s of one live entry. *)
Definition entry_bytes (x : Entry) : list byte :=
  le_bytes 4 (klen x) ++ le_bytes 4 (vlen x)
  ++ take (Z.to_nat (klen x)) (key x) ++ take (Z.to_nat (vlen x)) (value x).

Fixpoint save_leaf (leaf : ptr) (i cnt : nat) (out : list byte) : M (list byte) :=
  match cnt with
  | O => ret out
  | S cnt' =>
      e <- get_entry leaf i ;;
      e <- must e ;;
      x <- load_entry e ;;
      save_leaf leaf (S i) cnt' (if negb (deleted x) then out ++ entry_bytes x else out)
  end.

Fixpoint save_loop (fuel : nat) (leaf : option ptr) (out : list byte) : M (list byte) :=
  match leaf with
  | None => ret out
  | Some l =>
      match fuel with
      | O => crash
      | S fuel' =>
          n <- load_node l ;;
          out <- save_leaf l 0 (num_keys n) out ;;
          save_loop fuel' (next n) out
      end
  end.

(** The bytes [kvs_save] writes to the file it has opened. *)
Definition kvs_save : M (list byte) :=
  c <- gets count ;;
  bits <- gets bloom_bits ;;
  bl <- gets bloom_bytes ;;
  fuel <- gets walk_fuel ;;
  leaf <- gets first_leaf ;;
  save_loop fuel leaf
    (le_bytes 4 KVS_MAGIC ++ le_bytes SIZEOF_SIZE_T c ++ le_bytes SIZEOF_SIZE_T bits ++ bl).

(** [fread(dst, size, 1, f)]: the bytes the file still has, at most [size],
    overwrite the beginning of the destination, whose previous content is
    [dst]; the rest of the destination keeps it.  The result is the
    destination and the unread rest of the file.  No caller looks at the
    returned item count. *)
Definition fread (dst : list byte) (size : nat) (f : list byte) : list byte * list byte :=
  let got := take size f in
  (got ++ drop (length got) dst, drop size f).

(** The content of [n] bytes of memory that was never written: [junk]
    gives the byte found at each offset. *)
Definition uninit (junk : nat → byte) (n : nat) : list byte := map junk (seq 0 n).

(** The Bloom vector whose bytes from index [i] on are [bs]. *)
Fixpoint bloom_of_bytes (i : Z) (bs : list byte) : gmap Z Z :=
  match bs with
  | [] => ∅
  | b :: bs' => <[i := u8 b]> (bloom_of_bytes (i + 1) bs')
  end.

(** The objects [kvs_load] reads into without having written them are
    numbered: [magic] is 0, [count] 1, the Bloom vector 2, and in iteration
    [i] of the loop [klen] is [4 * i + 3], [vlen] [4 * i + 4], the key
    buffer [4 * i + 5] and the value buffer [4 * i + 6].  [junk o] gives
    what is found in object [o]; the objects are unrelated. *)
Definition klen_object (i : nat) : nat := (4 * i + 3)%nat.
Definition vlen_object (i : nat) : nat := (4 * i + 4)%nat.
Definition key_object (i : nat) : nat := (4 * i + 5)%nat.
Definition value_object (i : nat) : nat := (4 * i + 6)%nat.

(** [for (i = 0; i < count; i++)] of [kvs_load], from iteration [i] on.
    [malloc(klen + 1)] is computed in [uint32_t]: when it wraps to zero the
    buffer is too short for the terminator written at [key[klen]]. *)
Fixpoint load_entries (junk : nat → nat → byte) (i cnt : nat) (f : list byte) : M unit :=
  match cnt with
  | O => ret tt
  | S cnt' =>
      let '(kb, f) := fread (uninit (junk (klen_object i)) 4) 4 f in
      let '(vb, f) := fread (uninit (junk (vlen_object i)) 4) 4 f in
      let kl := le_value kb in
      let vl := le_value vb in
      if (wrap32 (kl + 1) =? 0) || (wrap32 (vl + 1) =? 0) then crash
      else
        let '(k, f) := fread (uninit (junk (key_object i)) (Z.to_nat kl)) (Z.to_nat kl) f in
        let '(v, f) := fread (uninit (junk (value_object i)) (Z.to_nat vl)) (Z.to_nat vl) f in
        kvs_put_raw k v ;;
        load_entries junk (S i) cnt' f
  end.

(** [kvs_load] on the content [f] of the file it has opened: [Some None] is
    the [NULL] result, [Some (Some db)] a store. *)
Definition kvs_load (junk : nat → nat → byte) (f : list byte) : option (option KVS) :=
  let '(mb, f) := fread (uninit (junk 0%nat) 4) 4 f in
  if negb (le_value mb =? KVS_MAGIC) then Some None
  else
    let db := kvs_open in
    let '(cb, f) := fread (uninit (junk 1%nat) SIZEOF_SIZE_T) SIZEOF_SIZE_T f in
    let '(bb, f) := fread (le_bytes SIZEOF_SIZE_T (bloom_bits db)) SIZEOF_SIZE_T f in
    let db := set_bloom_bits (le_value bb) db in
    let nbytes := Z.to_nat (bloom_bits db / 8) in
    let '(bl, f) := fread (uninit (junk 2%nat) nbytes) nbytes f in
    let db := set_bloom (bloom_of_bytes 0 bl) db in
    match load_entries junk 0 (Z.to_nat (le_value cb)) f db with
    | Some (_, db) => Some (Some db)
    | None => None
    end.

(** ** Runs of the public operations *)

Inductive op :=
  | Put (k v : list byte)
  | Delete (k : list byte)
  | Get (k : list byte).

Definition run_op (o : op) : M unit :=
  match o with
  | Put k v => kvs_put_raw k v ;; ret tt
  | Delete k => kvs_delete k ;; ret tt
  | Get k => kvs_get k ;; ret tt
  end.

Fixpoint run (ops : list op) : M unit :=
  match ops with
  | [] => ret tt
  | o :: ops' => run_op o ;; run ops'
  end.

Local Close Scope Z_scope.

Local Open Scope Z_scope.

(** * The order on keys *)

Global Instance byte_eq_decision : EqDecision byte := Byte.byte_eq_dec.

Global Instance byte_countable : Countable byte :=
  inj_countable Byte.to_N Byte.of_N Byte.of_to_N.

Definition len (k : list byte) : Z := Z.of_nat (length k).

(** Lexicographic comparison of the bytes, a proper prefix being smaller. *)
Fixpoint kcompare (a b : list byte) : comparison :=
  match a, b with
  | [], [] => Eq
  | [], _ :: _ => Lt
  | _ :: _, [] => Gt
  | x :: a', y :: b' =>
      match u8 x ?= u8 y with
      | Eq => kcompare a' b'
      | c => c
      end
  end.

Definition klt (a b : list byte) : Prop := kcompare a b = Lt.
Definition kle (a b : list byte) : Prop := kcompare a b ≠ Gt.

Lemma u8_inj x y : u8 x = u8 y → x = y.
Proof.
  unfold u8. intros H. apply N2Z.inj in H.
  assert (Some x = Some y) as [= ->]; [|done].
  by rewrite <- (Byte.of_to_N x), <- (Byte.of_to_N y), H.
Qed.

Lemma u8_range b : 0 ≤ u8 b < 256.
Proof.
  unfold u8. pose proof (Byte.to_N_bounded b). lia.
Qed.

Lemma kcompare_refl a : kcompare a a = Eq.
Proof. induction a as [|x a IH]; simpl; [done|]. by rewrite Z.compare_refl. Qed.

Lemma kcompare_eq a b : kcompare a b = Eq → a = b.
Proof.
  revert b. induction a as [|x a IH]; intros [|y b]; simpl; try done.
  destruct (Z.compare_spec (u8 x) (u8 y)) as [H| |]; try done.
  intros Hc. f_equal; [by apply u8_inj | by apply IH].
Qed.

Lemma kcompare_antisym a b : kcompare b a = CompOpp (kcompare a b).
Proof.
  revert b. induction a as [|x a IH]; intros [|y b]; simpl; try done.
  rewrite (Z.compare_antisym (u8 x) (u8 y)).
  destruct (u8 x ?= u8 y); simpl; auto.
Qed.

Lemma kcompare_trans a b c :
  kcompare a b = Lt → kcompare b c = Lt → kcompare a c = Lt.
Proof.
  revert b c. induction a as [|x a IH]; intros [|y b] [|z c]; simpl; try done.
  destruct (Z.compare_spec (u8 x) (u8 y)) as [Hxy|Hxy|Hxy]; try done;
  destruct (Z.compare_spec (u8 y) (u8 z)) as [Hyz|Hyz|Hyz]; try done; intros H1 H2.
  - rewrite Hxy, Hyz, Z.compare_refl. eauto.
  - assert ((u8 x ?= u8 z) = Lt) as -> by (apply Z.compare_lt_iff; lia). done.
  - assert ((u8 x ?= u8 z) = Lt) as -> by (apply Z.compare_lt_iff; lia). done.
  - assert ((u8 x ?= u8 z) = Lt) as -> by (apply Z.compare_lt_iff; lia). done.
Qed.

Lemma klt_irrefl a : ¬ klt a a.
Proof. unfold klt. by rewrite kcompare_refl. Qed.

Lemma klt_trans a b c : klt a b → klt b c → klt a c.
Proof. apply kcompare_trans. Qed.

Lemma klt_asym a b : klt a b → ¬ klt b a.
Proof. unfold klt. rewrite (kcompare_antisym a b). by intros ->. Qed.

Lemma kle_lt_trans a b c : kle a b → klt b c → klt a c.
Proof.
  unfold kle, klt. destruct (kcompare a b) eqn:Hab; try done; intros _ H.
  - apply kcompare_eq in Hab. by subst.
  - eapply kcompare_trans; eauto.
Qed.

Lemma klt_le_trans a b c : klt a b → kle b c → klt a c.
Proof.
  unfold kle, klt. destruct (kcompare b c) eqn:Hbc; try done; intros H _.
  - apply kcompare_eq in Hbc. by subst.
  - eapply kcompare_trans; eauto.
Qed.

Lemma kle_trans a b c : kle a b → kle b c → kle a c.
Proof.
  intros Hab Hbc. unfold kle. intros Hgt.
  assert (klt c a) as Hca.
  { unfold klt. rewrite (kcompare_antisym a c), Hgt. done. }
  pose proof (klt_le_trans _ _ _ Hca Hab) as Hcb.
  apply Hbc. rewrite (kcompare_antisym c b), Hcb. done.
Qed.

Lemma kle_refl a : kle a a.
Proof. unfold kle. by rewrite kcompare_refl. Qed.

Lemma klt_kle a b : klt a b → kle a b.
Proof. unfold klt, kle. by intros ->. Qed.

Lemma not_klt_kle a b : ¬ klt a b ↔ kle b a.
Proof.
  unfold klt, kle. rewrite (kcompare_antisym a b).
  destruct (kcompare a b); simpl; split; try done; intros H; try done; by destruct H.
Qed.

Lemma not_kle_klt a b : ¬ kle a b ↔ klt b a.
Proof.
  unfold klt, kle. rewrite (kcompare_antisym a b).
  destruct (kcompare a b); simpl; split; try done; intros H; try done;
    try (by destruct H); by intros ?.
Qed.

Lemma kle_antisym a b : kle a b → kle b a → a = b.
Proof.
  unfold kle. rewrite (kcompare_antisym a b).
  destruct (kcompare a b) eqn:H; simpl; try done.
  intros _ _. by apply kcompare_eq.
Qed.

Global Instance klt_dec a b : Decision (klt a b).
Proof. unfold klt. apply _. Defined.
Global Instance kle_dec a b : Decision (kle a b).
Proof. unfold kle. apply _. Defined.

(** [keycmp] on keys with their true lengths computes [kcompare]. *)
Lemma memcmp_cons x y a b n :
  memcmp (x :: a) (y :: b) (S n) = if u8 x =? u8 y then memcmp a b n else u8 x - u8 y.
Proof. reflexivity. Qed.

Lemma keycmp_nil_l b : keycmp [] 0 b (len b) = if decide (b = []) then 0 else -1.
Proof.
  unfold keycmp, len. by destruct b as [|y b].
Qed.

Lemma keycmp_cons x a y b :
  keycmp (x :: a) (len (x :: a)) (y :: b) (len (y :: b)) =
  if u8 x =? u8 y then keycmp a (len a) b (len b) else u8 x - u8 y.
Proof.
  unfold keycmp, len. simpl length.
  set (la := length a). set (lb := length b).
  assert (Hmin : Z.to_nat (if Z.of_nat (S la) <? Z.of_nat (S lb) then Z.of_nat (S la) else Z.of_nat (S lb))
               = S (Z.to_nat (if Z.of_nat la <? Z.of_nat lb then Z.of_nat la else Z.of_nat lb))).
  { destruct (Z.ltb_spec (Z.of_nat (S la)) (Z.of_nat (S lb)));
    destruct (Z.ltb_spec (Z.of_nat la) (Z.of_nat lb)); lia. }
  rewrite Hmin, memcmp_cons.
  destruct (Z.eqb_spec (u8 x) (u8 y)) as [Heq|Hne].
  - assert (Hlt : (Z.of_nat (S la) <? Z.of_nat (S lb)) = (Z.of_nat la <? Z.of_nat lb)).
    { destruct (Z.ltb_spec (Z.of_nat (S la)) (Z.of_nat (S lb)));
      destruct (Z.ltb_spec (Z.of_nat la) (Z.of_nat lb)); lia. }
    assert (Hgt : (Z.of_nat (S la) >? Z.of_nat (S lb)) = (Z.of_nat la >? Z.of_nat lb)).
    { rewrite !Z.gtb_ltb.
      destruct (Z.ltb_spec (Z.of_nat (S lb)) (Z.of_nat (S la)));
      destruct (Z.ltb_spec (Z.of_nat lb) (Z.of_nat la)); lia. }
    by rewrite Hlt, Hgt.
  - rewrite (proj2 (Z.eqb_neq (u8 x - u8 y) 0)) by lia. done.
Qed.

Lemma keycmp_kcompare a b :
  match kcompare a b with
  | Lt => keycmp a (len a) b (len b) < 0
  | Eq => keycmp a (len a) b (len b) = 0
  | Gt => keycmp a (len a) b (len b) > 0
  end.
Proof.
  revert b. induction a as [|x a IH]; intros [|y b].
  - done.
  - change (len []) with 0. rewrite keycmp_nil_l. simpl. done.
  - simpl. unfold keycmp, len. simpl length.
    change (Z.of_nat 0) with 0.
    rewrite (proj2 (Z.ltb_ge _ _)) by lia.
    rewrite (proj2 (Z.gtb_lt _ _)) by lia.
    done.
  - rewrite keycmp_cons. simpl.
    destruct (Z.compare_spec (u8 x) (u8 y)) as [H|H|H].
    + rewrite H, Z.eqb_refl. apply IH.
    + rewrite (proj2 (Z.eqb_neq _ _)) by lia. lia.
    + rewrite (proj2 (Z.eqb_neq _ _)) by lia. lia.
Qed.

Lemma keycmp_lt a b : (keycmp a (len a) b (len b) <? 0) = bool_decide (klt a b).
Proof.
  pose proof (keycmp_kcompare a b) as H. unfold klt.
  case_bool_decide as Hd; destruct (Z.ltb_spec (keycmp a (len a) b (len b)) 0); try done;
    destruct (kcompare a b); try done; lia.
Qed.

Lemma keycmp_le a b : (keycmp a (len a) b (len b) <=? 0) = bool_decide (kle a b).
Proof.
  pose proof (keycmp_kcompare a b) as H. unfold kle.
  case_bool_decide as Hd; destruct (Z.leb_spec (keycmp a (len a) b (len b)) 0); try done;
    destruct (kcompare a b); try done; try lia.
Qed.

Lemma keycmp_eq a b : (keycmp a (len a) b (len b) =? 0) = bool_decide (a = b).
Proof.
  pose proof (keycmp_kcompare a b) as H.
  case_bool_decide as Hd; destruct (Z.eqb_spec (keycmp a (len a) b (len b)) 0) as [He|He]; try done.
  - subst. rewrite kcompare_refl in H. done.
  - destruct (kcompare a b) eqn:Hc; try lia. by apply kcompare_eq in Hc.
Qed.

Lemma keycmp_gt a b : (keycmp a (len a) b (len b) >? 0) = bool_decide (klt b a).
Proof.
  pose proof (keycmp_kcompare a b) as H. rewrite Z.gtb_ltb.
  case_bool_decide as Hd; unfold klt in Hd; rewrite (kcompare_antisym a b) in Hd;
    destruct (Z.ltb_spec 0 (keycmp a (len a) b (len b))); try done;
    destruct (kcompare a b); simpl in *; try done; lia.
Qed.

Local Close Scope Z_scope.

Local Open Scope Z_scope.

(** * Running the monad *)

Lemma bind_run {A B} (m : M A) (f : A → M B) db a db1 :
  m db = Some (a, db1) → (x <- m ;; f x) db = f a db1.
Proof. unfold bind. by intros ->. Qed.

Lemma bind_inv {A B} (m : M A) (f : A → M B) db b db2 :
  (x <- m ;; f x) db = Some (b, db2) →
  ∃ a db1, m db = Some (a, db1) ∧ f a db1 = Some (b, db2).
Proof. unfold bind. destruct (m db) as [[a db1]|]; [eauto|done]. Qed.

Lemma ret_run {A} (a : A) db : ret a db = Some (a, db).
Proof. done. Qed.

Lemma must_run {A} (o : option A) a db : o = Some a → must o db = Some (a, db).
Proof. by intros ->. Qed.

Lemma must_inv {A} (o : option A) a db db' :
  must o db = Some (a, db') → o = Some a ∧ db' = db.
Proof. unfold must. destruct o; naive_solver. Qed.

Lemma gets_run {A} (f : KVS → A) db : gets f db = Some (f db, db).
Proof. done. Qed.

Lemma modify_run f db : modify f db = Some (tt, f db).
Proof. done. Qed.

Lemma set_heap_id db : set_heap (heap db) db = db.
Proof. by destruct db. Qed.

(** ** Fields an operation keeps *)

Definition keeps {A B} (f : KVS → B) (m : M A) : Prop :=
  ∀ db a db', m db = Some (a, db') → f db' = f db.

Lemma keeps_ret {A B} (f : KVS → B) (a : A) : keeps f (ret a).
Proof. intros db a' db' [= _ ->]. done. Qed.

Lemma keeps_crash {A B} (f : KVS → B) : keeps f (@crash A).
Proof. intros db a' db' [=]. Qed.

Lemma keeps_must {A B} (f : KVS → B) (o : option A) : keeps f (must o).
Proof. intros db a' db' H. apply must_inv in H as [_ ->]. done. Qed.

Lemma keeps_gets {A B} (f : KVS → B) (g : KVS → A) : keeps f (gets g).
Proof. intros db a' db' [= _ ->]. done. Qed.

Lemma keeps_bind {A B C} (f : KVS → C) (m : M A) (k : A → M B) :
  keeps f m → (∀ a, keeps f (k a)) → keeps f (x <- m ;; k x).
Proof.
  intros Hm Hk db b db' H. apply bind_inv in H as (a & db1 & H1 & H2).
  rewrite (Hk _ _ _ _ H2). eauto.
Qed.

Lemma keeps_modify {B} (f : KVS → B) g :
  (∀ db, f (g db) = f db) → keeps f (modify g).
Proof. intros Hg db a db' [= _ <-]. done. Qed.

(** A field that no node operation touches. *)
Class OffHeap {B} (f : KVS → B) : Prop := {
  off_heap h db : f (set_heap h db) = f db;
  off_brk b db : f (set_brk b db) = f db;
  off_node_count c db : f (set_node_count c db) = f db;
  off_root r db : f (set_root r db) = f db;
  off_height x db : f (set_height x db) = f db
}.

(** A field that no Bloom operation touches. *)
Class OffBloom {B} (f : KVS → B) : Prop := {
  off_bloom b db : f (set_bloom b db) = f db;
  off_bloom_bits b db : f (set_bloom_bits b db) = f db;
  off_bloom_set_bits b db : f (set_bloom_set_bits b db) = f db
}.

(** A field that no entry operation touches. *)
Class OffPool {B} (f : KVS → B) : Prop :=
  off_pool p db : f (set_pool p db) = f db.

Global Instance pool_pos_off_heap : OffHeap pool_pos. Proof. by split. Qed.
Global Instance pool_size_off_heap : OffHeap pool_size. Proof. by split. Qed.
Global Instance pool_off_heap : OffHeap pool. Proof. by split. Qed.
Global Instance first_leaf_off_heap : OffHeap first_leaf. Proof. by split. Qed.
Global Instance count_off_heap : OffHeap count. Proof. by split. Qed.
Global Instance bloom_off_heap : OffHeap bloom. Proof. by split. Qed.
Global Instance bloom_bits_off_heap : OffHeap bloom_bits. Proof. by split. Qed.
Global Instance bloom_set_bits_off_heap : OffHeap bloom_set_bits. Proof. by split. Qed.

Global Instance pool_pos_off_bloom : OffBloom pool_pos. Proof. by split. Qed.
Global Instance pool_size_off_bloom : OffBloom pool_size. Proof. by split. Qed.
Global Instance pool_off_bloom : OffBloom pool. Proof. by split. Qed.
Global Instance heap_off_bloom : OffBloom heap. Proof. by split. Qed.
Global Instance brk_off_bloom : OffBloom brk. Proof. by split. Qed.
Global Instance root_off_bloom : OffBloom root. Proof. by split. Qed.
Global Instance first_leaf_off_bloom : OffBloom first_leaf. Proof. by split. Qed.
Global Instance count_off_bloom : OffBloom count. Proof. by split. Qed.
Global Instance height_off_bloom : OffBloom height. Proof. by split. Qed.
Global Instance node_count_off_bloom : OffBloom node_count. Proof. by split. Qed.

Global Instance pool_pos_off_pool : OffPool pool_pos. Proof. done. Qed.
Global Instance pool_size_off_pool : OffPool pool_size. Proof. done. Qed.
Global Instance heap_off_pool : OffPool heap. Proof. done. Qed.
Global Instance brk_off_pool : OffPool brk. Proof. done. Qed.
Global Instance root_off_pool : OffPool root. Proof. done. Qed.
Global Instance first_leaf_off_pool : OffPool first_leaf. Proof. done. Qed.
Global Instance count_off_pool : OffPool count. Proof. done. Qed.
Global Instance height_off_pool : OffPool height. Proof. done. Qed.
Global Instance node_count_off_pool : OffPool node_count. Proof. done. Qed.
Global Instance bloom_off_pool : OffPool bloom. Proof. done. Qed.
Global Instance bloom_bits_off_pool : OffPool bloom_bits. Proof. done. Qed.
Global Instance bloom_set_bits_off_pool : OffPool bloom_set_bits. Proof. done. Qed.

Lemma keeps_load_node {B} (f : KVS → B) p : keeps f (load_node p).
Proof. intros db a db' H. apply must_inv in H as [_ ->]. done. Qed.

Lemma keeps_store_node {B} (f : KVS → B) `{!OffHeap f} p n : keeps f (store_node p n).
Proof.
  intros db a db'. unfold store_node. destruct (heap db !! p); [|done].
  intros [= _ <-]. apply off_heap.
Qed.

Lemma keeps_load_entry {B} (f : KVS → B) e : keeps f (load_entry e).
Proof. intros db a db' H. apply must_inv in H as [_ ->]. done. Qed.

Lemma keeps_store_entry {B} (f : KVS → B) `{!OffPool f} e x : keeps f (store_entry e x).
Proof. apply keeps_modify. intros db. apply off_pool. Qed.

(** Decompose a goal [keeps f m] along the structure of [m]. *)
Ltac keeps_step :=
  match goal with
  | |- keeps _ (bind _ _) => apply keeps_bind; [|intros ?]
  | |- keeps _ (ret _) => apply keeps_ret
  | |- keeps _ crash => apply keeps_crash
  | |- keeps _ (must _) => apply keeps_must
  | |- keeps _ (gets _) => apply keeps_gets
  | |- keeps _ (load_node _) => apply keeps_load_node
  | |- keeps _ (store_node _ _) => apply keeps_store_node; apply _
  | |- keeps _ (load_entry _) => apply keeps_load_entry
  | |- keeps _ (store_entry _ _) => apply keeps_store_entry; apply _
  | |- keeps _ (modify _) =>
      apply keeps_modify; intros ?;
      first [ apply off_heap | apply off_brk | apply off_node_count | apply off_root
            | apply off_height | apply off_bloom | apply off_bloom_bits
            | apply off_bloom_set_bits | apply off_pool | reflexivity ]
  | |- keeps _ (if ?b then _ else _) => destruct b
  | |- keeps _ (match ?o with Some _ => _ | None => _ end) => destruct o
  | |- keeps _ (match ?o with O => _ | S _ => _ end) => destruct o
  | H : _ |- keeps _ _ => apply H
  end.

Ltac keeps_tac := repeat keeps_step.

Section keeps_nodes.
Context {B} (f : KVS → B) `{!OffHeap f}.

Lemma keeps_upd_node p g : keeps f (upd_node p g).
Proof. unfold upd_node. keeps_tac. Qed.
Lemma keeps_get_key p i : keeps f (get_key p i).
Proof. unfold get_key. keeps_tac. Qed.
Lemma keeps_get_klen p i : keeps f (get_klen p i).
Proof. unfold get_klen. keeps_tac. Qed.
Lemma keeps_get_child p i : keeps f (get_child p i).
Proof. unfold get_child. keeps_tac. Qed.
Lemma keeps_get_entry p i : keeps f (get_entry p i).
Proof. unfold get_entry. keeps_tac. Qed.
Lemma keeps_put_key p i x : keeps f (put_key p i x).
Proof. unfold put_key. keeps_tac. Qed.
Lemma keeps_put_klen p i x : keeps f (put_klen p i x).
Proof. unfold put_klen. keeps_tac. Qed.
Lemma keeps_put_child p i x : keeps f (put_child p i x).
Proof. unfold put_child. keeps_tac. Qed.
Lemma keeps_put_entry p i x : keeps f (put_entry p i x).
Proof. unfold put_entry. keeps_tac. Qed.

Lemma keeps_bpnode_new l : keeps f (bpnode_new l).
Proof.
  intros db a db' [= _ <-].
  by rewrite off_node_count, off_brk, off_heap.
Qed.
End keeps_nodes.

Ltac keeps_node_step :=
  first
    [ keeps_step
    | apply keeps_upd_node; apply _
    | apply keeps_get_key | apply keeps_get_klen
    | apply keeps_get_child | apply keeps_get_entry
    | apply keeps_put_key; apply _ | apply keeps_put_klen; apply _
    | apply keeps_put_child; apply _ | apply keeps_put_entry; apply _
    | apply keeps_bpnode_new; apply _ ].

Ltac keeps_nodes := repeat keeps_node_step.

Section keeps_tree.
Context {B} (f : KVS → B) `{!OffHeap f}.

Lemma keeps_split_leaf_copy leaf new_leaf mid i cnt :
  keeps f (split_leaf_copy leaf new_leaf mid i cnt).
Proof. revert i. induction cnt as [|cnt IH]; intros i; simpl; keeps_nodes. Qed.

Lemma keeps_split_internal_copy nd new_node mid i cnt :
  keeps f (split_internal_copy nd new_node mid i cnt).
Proof. revert i. induction cnt as [|cnt IH]; intros i; simpl; keeps_nodes. Qed.

Lemma keeps_shift_parent parent pos i : keeps f (shift_parent parent pos i).
Proof. induction i as [|i IH]; simpl; keeps_nodes. Qed.

Lemma keeps_shift_leaf nd pos i : keeps f (shift_leaf nd pos i).
Proof. induction i as [|i IH]; simpl; keeps_nodes. Qed.

Lemma keeps_link_parent l r uk ul parent pos :
  keeps f (link_parent l r uk ul parent pos).
Proof.
  unfold link_parent. destruct parent; keeps_nodes;
    apply keeps_shift_parent.
Qed.

Lemma keeps_split_leaf leaf parent pos : keeps f (split_leaf leaf parent pos).
Proof.
  unfold split_leaf. keeps_nodes;
    first [apply keeps_split_leaf_copy | apply keeps_link_parent].
Qed.

Lemma keeps_split_internal nd parent pos : keeps f (split_internal nd parent pos).
Proof.
  unfold split_internal. keeps_nodes;
    first [apply keeps_split_internal_copy | apply keeps_link_parent].
Qed.

Lemma keeps_find_leaf_loop fuel n k kl : keeps f (find_leaf_loop fuel n k kl).
Proof. revert n. induction fuel as [|fuel IH]; intros n; simpl; keeps_nodes. Qed.

Lemma keeps_leftmost_loop fuel n : keeps f (leftmost_loop fuel n).
Proof. revert n. induction fuel as [|fuel IH]; intros n; simpl; keeps_nodes. Qed.
End keeps_tree.

Lemma keeps_insert_recursive {B} (f : KVS → B) `{!OffHeap f} `{!OffPool f}
    fuel nd parent pos k kl e :
  keeps f (insert_recursive fuel nd parent pos k kl e).
Proof.
  revert nd parent pos. induction fuel as [|fuel IH]; intros nd parent pos; simpl;
    keeps_nodes;
    try (unfold upd_entry; keeps_nodes);
    first [apply keeps_shift_leaf | apply keeps_split_leaf | apply keeps_split_internal]; apply _.
Qed.

Local Close Scope Z_scope.

(** * Arrays and their prefixes *)

Definition is_prefix {A} (l a : list A) : Prop :=
  ∀ j x, l !! j = Some x → a !! j = Some x.

Definition linsert {A} (pos : nat) (x : A) (l : list A) : list A :=
  take pos l ++ x :: drop pos l.

Lemma length_linsert {A} pos (x : A) l : length (linsert pos x l) = S (length l).
Proof.
  unfold linsert. rewrite length_app, length_take. simpl. rewrite length_drop. lia.
Qed.

Lemma lookup_linsert {A} pos (x : A) l j :
  pos ≤ length l →
  linsert pos x l !! j =
    if decide (j < pos) then l !! j
    else if decide (j = pos) then Some x else l !! (j - 1).
Proof.
  intros Hpos. unfold linsert.
  destruct (decide (j < pos)).
  - rewrite lookup_app_l by (rewrite length_take; lia). by rewrite lookup_take_lt.
  - rewrite lookup_app_r by (rewrite length_take; lia).
    rewrite length_take, Nat.min_l by lia.
    destruct (decide (j = pos)) as [->|].
    + by rewrite Nat.sub_diag.
    + destruct (j - pos) as [|m] eqn:Hm; [lia|]. simpl.
      rewrite lookup_drop. f_equal. lia.
Qed.

Lemma fmap_linsert {A B} (f : A → B) pos x l :
  f <$> linsert pos x l = linsert pos (f x) (f <$> l).
Proof. unfold linsert. by rewrite fmap_app, fmap_cons, fmap_take, fmap_drop. Qed.

Lemma is_prefix_length {A} (l a : list A) : is_prefix l a → length l ≤ length a.
Proof.
  intros H. destruct (decide (length l ≤ length a)); [done|].
  destruct (lookup_lt_is_Some_2 l (length a)) as [x Hx]; [lia|].
  apply H in Hx. apply lookup_lt_Some in Hx. lia.
Qed.

Lemma is_prefix_take {A} (l a : list A) : is_prefix l a ↔ take (length l) a = l.
Proof.
  split.
  - intros H. apply list_eq. intros j.
    destruct (decide (j < length l)).
    + rewrite lookup_take_lt by done.
      destruct (lookup_lt_is_Some_2 l j) as [x Hx]; [done|]. by rewrite Hx, (H _ _ Hx).
    + rewrite lookup_take_ge by lia. symmetry. apply lookup_ge_None. lia.
  - intros <- j x Hx. apply lookup_take_Some in Hx. tauto.
Qed.

(** The array after [for (i = n; i > pos; i--) a[i] = a[i - 1]]. *)
Definition shifted {A} (a a' : list A) (pos n : nat) : Prop :=
  length a' = length a
  ∧ ∀ j, a' !! j = if decide (pos < j ≤ n) then a !! (j - 1) else a !! j.

Lemma shifted_refl {A} (a : list A) pos n : n ≤ pos → shifted a a pos n.
Proof. intros H. split; [done|]. intros j. case_decide; [lia|done]. Qed.

Lemma shifted_step {A} (a a' : list A) pos n x :
  pos < S n → S n < length a → a !! n = Some x →
  shifted (<[S n := x]> a) a' pos n → shifted a a' pos (S n).
Proof.
  intros Hpos Hlen Hx [Hl Hs]. split; [by rewrite Hl, length_insert|].
  intros j. rewrite Hs.
  destruct (decide (j = S n)) as [->|].
  - rewrite decide_False by lia. rewrite decide_True by lia.
    rewrite list_lookup_insert_eq by lia. by rewrite Nat.sub_succ, Nat.sub_0_r.
  - repeat case_decide; try lia; try done; by rewrite list_lookup_insert_ne by lia.
Qed.

Lemma shifted_insert_prefix {A} (a a' l : list A) pos x :
  is_prefix l a → shifted a a' pos (length l) →
  pos ≤ length l → length l < length a →
  is_prefix (linsert pos x l) (<[pos := x]> a').
Proof.
  intros Hp [Hl Hs] Hpos Hlen j y. rewrite lookup_linsert by done.
  repeat case_decide; subst.
  - intros Hy. rewrite list_lookup_insert_ne by lia. rewrite Hs.
    rewrite decide_False by lia. by apply Hp.
  - intros [= ->]. rewrite list_lookup_insert_eq by lia. done.
  - intros Hy. rewrite list_lookup_insert_ne by lia. rewrite Hs.
    pose proof (lookup_lt_Some _ _ _ Hy).
    rewrite decide_True by lia. by apply Hp.
Qed.

(** The array after [for (i = 0; i < cnt; i++) a[i0 + i] = src[off + i0 + i]]. *)
Definition copied {A} (src a a' : list A) (off i0 cnt : nat) : Prop :=
  length a' = length a
  ∧ ∀ j, a' !! j = if decide (i0 ≤ j < i0 + cnt) then src !! (off + j) else a !! j.

Lemma copied_refl {A} (src a : list A) off i0 : copied src a a off i0 0.
Proof. split; [done|]. intros j. case_decide; [lia|done]. Qed.

Lemma copied_step {A} (src a a' : list A) off i0 cnt x :
  i0 < length a → src !! (off + i0) = Some x →
  copied src (<[i0 := x]> a) a' off (S i0) cnt → copied src a a' off i0 (S cnt).
Proof.
  intros Hlen Hx [Hl Hs]. split; [by rewrite Hl, length_insert|].
  intros j. rewrite Hs.
  destruct (decide (j = i0)) as [->|].
  - rewrite decide_False by lia. rewrite decide_True by lia.
    by rewrite list_lookup_insert_eq by lia.
  - repeat case_decide; try lia; try done; by rewrite list_lookup_insert_ne by lia.
Qed.

Lemma copied_prefix {A} (src a a' l : list A) off cnt :
  is_prefix l src → copied src a a' off 0 cnt → off + cnt ≤ length l →
  is_prefix (take cnt (drop off l)) a'.
Proof.
  intros Hp [Hl Hs] Hlen j y Hy.
  apply lookup_take_Some in Hy as [Hy Hj]. rewrite lookup_drop in Hy.
  rewrite Hs. rewrite decide_True by lia. by apply Hp.
Qed.

Lemma is_prefix_mono {A} (l l' a : list A) :
  is_prefix l a → (∀ j x, l' !! j = Some x → l !! j = Some x) → is_prefix l' a.
Proof. intros H H' j x Hx. eauto. Qed.

Lemma is_prefix_take_l {A} (l a : list A) n : is_prefix l a → is_prefix (take n l) a.
Proof. intros H j x Hx. apply lookup_take_Some in Hx as [Hx _]. eauto. Qed.

(** * Sorted key arrays and binary search *)

Definition ksorted (ks : list (list byte)) : Prop :=
  ∀ i j x y, ks !! i = Some x → ks !! j = Some y → i < j → klt x y.

Definition lower_bound (ks : list (list byte)) (k : list byte) (pos : nat) : Prop :=
  pos ≤ length ks
  ∧ (∀ j x, ks !! j = Some x → j < pos → klt x k)
  ∧ (∀ j x, ks !! j = Some x → pos ≤ j → kle k x).

Definition upper_bound (ks : list (list byte)) (k : list byte) (pos : nat) : Prop :=
  pos ≤ length ks
  ∧ (∀ j x, ks !! j = Some x → j < pos → kle x k)
  ∧ (∀ j x, ks !! j = Some x → pos ≤ j → klt k x).

Lemma lower_bound_unique ks k p q : lower_bound ks k p → lower_bound ks k q → p = q.
Proof.
  intros (Hp & Hp1 & Hp2) (Hq & Hq1 & Hq2).
  destruct (decide (p = q)) as [|Hne]; [done|exfalso].
  destruct (decide (p < q)).
  - destruct (lookup_lt_is_Some_2 ks p) as [x Hx]; [lia|].
    pose proof (Hq1 _ _ Hx ltac:(lia)). pose proof (Hp2 _ _ Hx ltac:(lia)).
    by apply not_klt_kle in H0.
  - destruct (lookup_lt_is_Some_2 ks q) as [x Hx]; [lia|].
    pose proof (Hp1 _ _ Hx ltac:(lia)). pose proof (Hq2 _ _ Hx ltac:(lia)).
    by apply not_klt_kle in H0.
Qed.

Lemma upper_bound_unique ks k p q : upper_bound ks k p → upper_bound ks k q → p = q.
Proof.
  intros (Hp & Hp1 & Hp2) (Hq & Hq1 & Hq2).
  destruct (decide (p = q)) as [|Hne]; [done|exfalso].
  destruct (decide (p < q)).
  - destruct (lookup_lt_is_Some_2 ks p) as [x Hx]; [lia|].
    pose proof (Hq1 _ _ Hx ltac:(lia)). pose proof (Hp2 _ _ Hx ltac:(lia)).
    by apply not_klt_kle in H.
  - destruct (lookup_lt_is_Some_2 ks q) as [x Hx]; [lia|].
    pose proof (Hp1 _ _ Hx ltac:(lia)). pose proof (Hq2 _ _ Hx ltac:(lia)).
    by apply not_klt_kle in H.
Qed.

(** A node whose arrays start with the keys [ks] and their lengths. *)
Definition keys_repr (n : BPNode) (ks : list (list byte)) : Prop :=
  num_keys n = length ks
  ∧ is_prefix ks (keys n) ∧ is_prefix (len <$> ks) (klens n).

Lemma keys_repr_lookup n ks j x :
  keys_repr n ks → ks !! j = Some x →
  aget (keys n) j = Some x ∧ aget (klens n) j = Some (len x).
Proof.
  intros (_ & Hk & Hl) Hx. split; [by apply Hk|].
  apply Hl. by rewrite list_lookup_fmap, Hx.
Qed.

Lemma div2_mid lo hi : lo < hi → lo ≤ (lo + hi) / 2 < hi.
Proof.
  intros H. split.
  - apply Nat.div_le_lower_bound; lia.
  - apply Nat.Div0.div_lt_upper_bound; lia.
Qed.

Lemma leaf_find_loop_S leaf k kl fuel lo hi :
  leaf_find_loop leaf k kl (S fuel) lo hi =
  if lo <? hi then
    let mid := (lo + hi) / 2 in
    km ← aget (keys leaf) mid;
    lm ← aget (klens leaf) mid;
    if (keycmp km lm k kl <? 0)%Z
    then leaf_find_loop leaf k kl fuel (mid + 1) hi
    else leaf_find_loop leaf k kl fuel lo mid
  else Some lo.
Proof. reflexivity. Qed.

Lemma internal_find_loop_S nd k kl fuel lo hi :
  internal_find_loop nd k kl (S fuel) lo hi =
  if lo <? hi then
    let mid := (lo + hi) / 2 in
    km ← aget (keys nd) mid;
    lm ← aget (klens nd) mid;
    if (keycmp km lm k kl <=? 0)%Z
    then internal_find_loop nd k kl fuel (mid + 1) hi
    else internal_find_loop nd k kl fuel lo mid
  else Some lo.
Proof. reflexivity. Qed.

Lemma leaf_find_loop_spec n ks k fuel lo hi :
  keys_repr n ks → ksorted ks →
  lo ≤ hi ≤ length ks → hi - lo ≤ fuel →
  (∀ j x, ks !! j = Some x → j < lo → klt x k) →
  (∀ j x, ks !! j = Some x → hi ≤ j → kle k x) →
  ∃ pos, leaf_find_loop n k (len k) fuel lo hi = Some pos ∧ lower_bound ks k pos.
Proof.
  intros Hn Hs. revert lo hi. induction fuel as [|fuel IH]; intros lo hi Hr Hf Hlo Hhi.
  - assert (lo = hi) as -> by lia. simpl. rewrite Nat.ltb_irrefl.
    exists hi. split; [done|]. split; [lia|]. split; done.
  - rewrite leaf_find_loop_S. destruct (Nat.ltb_spec lo hi) as [Hlt|Hge].
    + pose proof (div2_mid lo hi Hlt) as Hmid.
      set (mid := (lo + hi) / 2) in *. cbv zeta.
      destruct (lookup_lt_is_Some_2 ks mid) as [x Hx]; [lia|].
      destruct (keys_repr_lookup _ _ _ _ Hn Hx) as [-> ->]. cbn [mbind option_bind].
      rewrite keycmp_lt. case_bool_decide as Hc.
      * apply IH; [lia|lia| |done].
        intros j y Hy Hj. destruct (decide (j = mid)) as [->|]; [congruence|].
        eapply klt_trans; [|exact Hc]. eapply Hs; eauto. lia.
      * apply IH; [lia|lia|done|].
        intros j y Hy Hj. apply not_klt_kle in Hc.
        destruct (decide (j = mid)) as [->|]; [congruence|].
        eapply kle_trans; [exact Hc|]. apply klt_kle. eapply Hs; eauto. lia.
    + assert (lo = hi) as -> by lia.
      exists hi. split; [done|]. split; [lia|]. split; done.
Qed.

Lemma leaf_find_pos_spec n ks k :
  keys_repr n ks → ksorted ks →
  ∃ pos, leaf_find_pos n k (len k) = Some pos ∧ lower_bound ks k pos.
Proof.
  intros Hn Hs. unfold leaf_find_pos. destruct Hn as (Hnk & Hk).
  rewrite Hnk. apply leaf_find_loop_spec; try done; try lia.
  - intros j x Hx Hj. apply lookup_lt_Some in Hx. lia.
Qed.

Lemma internal_find_loop_spec n ks k fuel lo hi :
  keys_repr n ks → ksorted ks →
  lo ≤ hi ≤ length ks → hi - lo ≤ fuel →
  (∀ j x, ks !! j = Some x → j < lo → kle x k) →
  (∀ j x, ks !! j = Some x → hi ≤ j → klt k x) →
  ∃ pos, internal_find_loop n k (len k) fuel lo hi = Some pos ∧ upper_bound ks k pos.
Proof.
  intros Hn Hs. revert lo hi. induction fuel as [|fuel IH]; intros lo hi Hr Hf Hlo Hhi.
  - assert (lo = hi) as -> by lia. simpl. rewrite Nat.ltb_irrefl.
    exists hi. split; [done|]. split; [lia|]. split; done.
  - rewrite internal_find_loop_S. destruct (Nat.ltb_spec lo hi) as [Hlt|Hge].
    + pose proof (div2_mid lo hi Hlt) as Hmid.
      set (mid := (lo + hi) / 2) in *. cbv zeta.
      destruct (lookup_lt_is_Some_2 ks mid) as [x Hx]; [lia|].
      destruct (keys_repr_lookup _ _ _ _ Hn Hx) as [-> ->]. cbn [mbind option_bind].
      rewrite keycmp_le. case_bool_decide as Hc.
      * apply IH; [lia|lia| |done].
        intros j y Hy Hj. destruct (decide (j = mid)) as [->|]; [congruence|].
        eapply kle_trans; [|exact Hc]. apply klt_kle. eapply Hs; eauto. lia.
      * apply IH; [lia|lia|done|].
        intros j y Hy Hj. apply not_kle_klt in Hc.
        destruct (decide (j = mid)) as [->|]; [congruence|].
        eapply klt_trans; [exact Hc|]. eapply Hs; eauto. lia.
    + assert (lo = hi) as -> by lia.
      exists hi. split; [done|]. split; [lia|]. split; done.
Qed.

Lemma internal_find_pos_spec n ks k :
  keys_repr n ks → ksorted ks →
  ∃ pos, internal_find_pos n k (len k) = Some pos ∧ upper_bound ks k pos.
Proof.
  intros Hn Hs. unfold internal_find_pos. destruct Hn as (Hnk & Hk).
  rewrite Hnk. apply internal_find_loop_spec; try done; try lia.
  - intros j x Hx Hj. apply lookup_lt_Some in Hx. lia.
Qed.

(** * Node primitives *)

Section prims.
Context (db : KVS) (p : positive) (n : BPNode).
Hypothesis Hp : heap db !! p = Some n.

Lemma load_node_run : load_node p db = Some (n, db).
Proof. unfold load_node. by rewrite Hp. Qed.

Lemma store_node_run n' :
  store_node p n' db = Some (tt, set_heap (<[p := n']> (heap db)) db).
Proof. unfold store_node. by rewrite Hp. Qed.

Lemma upd_node_run f :
  upd_node p f db = Some (tt, set_heap (<[p := f n]> (heap db)) db).
Proof. unfold upd_node. rewrite (bind_run _ _ _ _ _ load_node_run). apply store_node_run. Qed.

Lemma get_key_run i x : keys n !! i = Some x → get_key p i db = Some (x, db).
Proof. intros H. unfold get_key. rewrite (bind_run _ _ _ _ _ load_node_run). by apply must_run. Qed.
Lemma get_klen_run i x : klens n !! i = Some x → get_klen p i db = Some (x, db).
Proof. intros H. unfold get_klen. rewrite (bind_run _ _ _ _ _ load_node_run). by apply must_run. Qed.
Lemma get_child_run i x : children n !! i = Some x → get_child p i db = Some (x, db).
Proof. intros H. unfold get_child. rewrite (bind_run _ _ _ _ _ load_node_run). by apply must_run. Qed.
Lemma get_entry_run i x : entries n !! i = Some x → get_entry p i db = Some (x, db).
Proof. intros H. unfold get_entry. rewrite (bind_run _ _ _ _ _ load_node_run). by apply must_run. Qed.

Lemma put_key_run i x :
  i < length (keys n) →
  put_key p i x db = Some (tt, set_heap (<[p := set_keys (<[i:=x]> (keys n)) n]> (heap db)) db).
Proof.
  intros H. unfold put_key. rewrite (bind_run _ _ _ _ _ load_node_run).
  unfold aset. rewrite decide_True by done.
  rewrite (bind_run _ _ _ _ _ (must_run _ _ _ eq_refl)). apply store_node_run.
Qed.
Lemma put_klen_run i x :
  i < length (klens n) →
  put_klen p i x db = Some (tt, set_heap (<[p := set_klens (<[i:=x]> (klens n)) n]> (heap db)) db).
Proof.
  intros H. unfold put_klen. rewrite (bind_run _ _ _ _ _ load_node_run).
  unfold aset. rewrite decide_True by done.
  rewrite (bind_run _ _ _ _ _ (must_run _ _ _ eq_refl)). apply store_node_run.
Qed.
Lemma put_child_run i x :
  i < length (children n) →
  put_child p i x db = Some (tt, set_heap (<[p := set_children (<[i:=x]> (children n)) n]> (heap db)) db).
Proof.
  intros H. unfold put_child. rewrite (bind_run _ _ _ _ _ load_node_run).
  unfold aset. rewrite decide_True by done.
  rewrite (bind_run _ _ _ _ _ (must_run _ _ _ eq_refl)). apply store_node_run.
Qed.
Lemma put_entry_run i x :
  i < length (entries n) →
  put_entry p i x db = Some (tt, set_heap (<[p := set_entries (<[i:=x]> (entries n)) n]> (heap db)) db).
Proof.
  intros H. unfold put_entry. rewrite (bind_run _ _ _ _ _ load_node_run).
  unfold aset. rewrite decide_True by done.
  rewrite (bind_run _ _ _ _ _ (must_run _ _ _ eq_refl)). apply store_node_run.
Qed.
End prims.

Lemma set_heap_twice h h' db : set_heap h (set_heap h' db) = set_heap h db.
Proof. done. Qed.

Lemma heap_set_heap h db : heap (set_heap h db) = h.
Proof. done. Qed.

(** Normal forms of states and nodes: the record constructors applied to
    the fields. *)
Tactic Notation "norm_db" "in" hyp(H) :=
  unfold set_pool, set_pool_pos, set_heap, set_brk, set_root, set_first_leaf,
    set_count, set_height, set_node_count, set_bloom, set_bloom_bits,
    set_bloom_set_bits in H;
  cbn [pool pool_size pool_pos heap brk root first_leaf count height node_count
       bloom bloom_bits bloom_set_bits
       is_leaf num_keys keys klens children entries next prev
       set_is_leaf set_num_keys set_keys set_klens set_children set_entries
       set_next set_prev] in H.

Tactic Notation "norm_db" :=
  unfold set_pool, set_pool_pos, set_heap, set_brk, set_root, set_first_leaf,
    set_count, set_height, set_node_count, set_bloom, set_bloom_bits,
    set_bloom_set_bits;
  cbn [pool pool_size pool_pos heap brk root first_leaf count height node_count
       bloom bloom_bits bloom_set_bits
       is_leaf num_keys keys klens children entries next prev
       set_is_leaf set_num_keys set_keys set_klens set_children set_entries
       set_next set_prev].

Ltac heap_lookup := norm_db; simplify_map_eq; done.

Ltac side_cond :=
  first [ heap_lookup | eassumption
        | norm_db; rewrite ?length_insert; first [done | lia] | idtac ].

(** Run the first action of a bind with the lemma [lem]; the side
    conditions are lookups in the current heap. *)
Ltac mrun lem :=
  (erewrite bind_run; [| eapply lem; side_cond]); norm_db.

(** The fields of a node that the array loops leave alone. *)
Definition same_meta (n n' : BPNode) : Prop :=
  is_leaf n' = is_leaf n ∧ num_keys n' = num_keys n
  ∧ next n' = next n ∧ prev n' = prev n.

Lemma same_meta_refl n : same_meta n n.
Proof. done. Qed.

Lemma shift_leaf_run pos i : ∀ db nd n,
  heap db !! nd = Some n →
  i < length (keys n) → i < length (klens n) → i < length (entries n) →
  ∃ n', shift_leaf nd pos i db = Some (tt, set_heap (<[nd := n']> (heap db)) db)
    ∧ same_meta n n' ∧ children n' = children n
    ∧ shifted (keys n) (keys n') pos i
    ∧ shifted (klens n) (klens n') pos i
    ∧ shifted (entries n) (entries n') pos i.
Proof.
  induction i as [|i IH]; intros db nd n Hn Hk Hl He.
  - exists n. simpl. rewrite insert_id by done. rewrite set_heap_id.
    repeat split; try done; intros j; case_decide; (lia || done).
  - simpl. destruct (Nat.ltb_spec pos (S i)) as [Hlt|Hge].
    + destruct (lookup_lt_is_Some_2 (keys n) i) as [xk Hxk]; [lia|].
      destruct (lookup_lt_is_Some_2 (klens n) i) as [xl Hxl]; [lia|].
      destruct (lookup_lt_is_Some_2 (entries n) i) as [xe Hxe]; [lia|].
      mrun get_key_run. mrun put_key_run.
      mrun get_klen_run. mrun put_klen_run.
      mrun get_entry_run. mrun put_entry_run.
      rewrite !insert_insert_eq.
      match goal with |- context [<[nd := ?x]> (heap db)] => set (n1 := x) end.
      edestruct (IH (set_heap (<[nd:=n1]> (heap db)) db) nd n1)
        as (n' & Hrun & Hm & Hc & Hsk & Hsl & Hse).
      { heap_lookup. }
      { subst n1. norm_db. rewrite length_insert. lia. }
      { subst n1. norm_db. rewrite length_insert. lia. }
      { subst n1. norm_db. rewrite length_insert. lia. }
      exists n'. split.
      { etrans; [exact Hrun|]. norm_db. by rewrite insert_insert_eq. }
      split; [done|]. split; [done|].
      subst n1. norm_db in Hsk. norm_db in Hsl. norm_db in Hse.
      split; [eapply shifted_step; [| | |exact Hsk]; [lia|lia|done]|].
      split; [eapply shifted_step; [| | |exact Hsl]; [lia|lia|done]|].
      eapply shifted_step; [| | |exact Hse]; [lia|lia|done].
    + exists n. rewrite insert_id by done. rewrite set_heap_id.
      repeat split; try done; intros j; case_decide; (lia || done).
Qed.

Lemma shift_parent_run pos i : ∀ db nd n,
  heap db !! nd = Some n →
  i < length (keys n) → i < length (klens n) → S i < length (children n) →
  ∃ n', shift_parent nd pos i db = Some (tt, set_heap (<[nd := n']> (heap db)) db)
    ∧ same_meta n n' ∧ entries n' = entries n
    ∧ shifted (keys n) (keys n') pos i
    ∧ shifted (klens n) (klens n') pos i
    ∧ shifted (children n) (children n') (S pos) (S i).
Proof.
  induction i as [|i IH]; intros db nd n Hn Hk Hl He.
  - exists n. simpl. rewrite insert_id by done. rewrite set_heap_id.
    repeat split; try done; intros j; case_decide; (lia || done).
  - simpl. destruct (Nat.ltb_spec pos (S i)) as [Hlt|Hge].
    + destruct (lookup_lt_is_Some_2 (keys n) i) as [xk Hxk]; [lia|].
      destruct (lookup_lt_is_Some_2 (klens n) i) as [xl Hxl]; [lia|].
      destruct (lookup_lt_is_Some_2 (children n) (S i)) as [xe Hxe]; [lia|].
      mrun get_key_run. mrun put_key_run.
      mrun get_klen_run. mrun put_klen_run.
      mrun get_child_run. replace (i + 1) with (S i) by lia. mrun put_child_run.
      rewrite !insert_insert_eq.
      match goal with |- context [<[nd := ?x]> (heap db)] => set (n1 := x) end.
      edestruct (IH (set_heap (<[nd:=n1]> (heap db)) db) nd n1)
        as (n' & Hrun & Hm & Hc & Hsk & Hsl & Hse).
      { heap_lookup. }
      { subst n1. norm_db. rewrite length_insert. lia. }
      { subst n1. norm_db. rewrite length_insert. lia. }
      { subst n1. norm_db. rewrite length_insert. lia. }
      exists n'. split.
      { etrans; [exact Hrun|]. norm_db. by rewrite insert_insert_eq. }
      split; [done|]. split; [done|].
      subst n1. norm_db in Hsk. norm_db in Hsl. norm_db in Hse.
      split; [eapply shifted_step; [| | |exact Hsk]; [lia|lia|done]|].
      split; [eapply shifted_step; [| | |exact Hsl]; [lia|lia|done]|].
      eapply shifted_step; [| | |exact Hse]; [lia|lia|done].
    + exists n. rewrite insert_id by done. rewrite set_heap_id.
      repeat split; try done; intros j; case_decide; (lia || done).
Qed.

Lemma split_leaf_copy_run mid cnt : ∀ i db leaf new_leaf l n,
  leaf ≠ new_leaf →
  heap db !! leaf = Some l → heap db !! new_leaf = Some n →
  mid + i + cnt ≤ length (keys l) → mid + i + cnt ≤ length (klens l) →
  mid + i + cnt ≤ length (entries l) →
  i + cnt ≤ length (keys n) → i + cnt ≤ length (klens n) → i + cnt ≤ length (entries n) →
  ∃ n', split_leaf_copy leaf new_leaf mid i cnt db
          = Some (tt, set_heap (<[new_leaf := n']> (heap db)) db)
    ∧ same_meta n n' ∧ children n' = children n
    ∧ copied (keys l) (keys n) (keys n') mid i cnt
    ∧ copied (klens l) (klens n) (klens n') mid i cnt
    ∧ copied (entries l) (entries n) (entries n') mid i cnt.
Proof.
  induction cnt as [|cnt IH]; intros i db leaf new_leaf l n Hne Hl Hn Hk1 Hk2 Hk3 Hn1 Hn2 Hn3.
  - exists n. simpl. rewrite insert_id by done. rewrite set_heap_id.
    repeat split; try done; intros j; case_decide; (lia || done).
  - simpl.
    destruct (lookup_lt_is_Some_2 (keys l) (mid + i)) as [xk Hxk]; [lia|].
    destruct (lookup_lt_is_Some_2 (klens l) (mid + i)) as [xl Hxl]; [lia|].
    destruct (lookup_lt_is_Some_2 (entries l) (mid + i)) as [xe Hxe]; [lia|].
    mrun get_key_run. mrun put_key_run.
    mrun get_klen_run. mrun put_klen_run.
    mrun get_entry_run. mrun put_entry_run.
    rewrite !insert_insert_eq.
    match goal with |- context [<[new_leaf := ?x]> (heap db)] => set (n1 := x) end.
    edestruct (IH (S i) (set_heap (<[new_leaf:=n1]> (heap db)) db) leaf new_leaf l n1)
      as (n' & Hrun & Hm & Hc & Hsk & Hsl & Hse); try done.
    { heap_lookup. }
    { heap_lookup. }
    { lia. } { lia. } { lia. }
    { subst n1. norm_db. rewrite length_insert. lia. }
    { subst n1. norm_db. rewrite length_insert. lia. }
    { subst n1. norm_db. rewrite length_insert. lia. }
    exists n'. split.
    { etrans; [exact Hrun|]. norm_db. by rewrite insert_insert_eq. }
    split; [done|]. split; [done|].
    subst n1. norm_db in Hsk. norm_db in Hsl. norm_db in Hse.
    split; [eapply copied_step; [| |exact Hsk]; [lia|done]|].
    split; [eapply copied_step; [| |exact Hsl]; [lia|done]|].
    eapply copied_step; [| |exact Hse]; [lia|done].
Qed.

Lemma split_internal_copy_run mid cnt : ∀ i db nd new_node l n,
  nd ≠ new_node →
  heap db !! nd = Some l → heap db !! new_node = Some n →
  mid + 1 + i + cnt ≤ length (keys l) → mid + 1 + i + cnt ≤ length (klens l) →
  mid + 1 + i + cnt ≤ length (children l) →
  i + cnt ≤ length (keys n) → i + cnt ≤ length (klens n) → i + cnt ≤ length (children n) →
  ∃ n', split_internal_copy nd new_node mid i cnt db
          = Some (tt, set_heap (<[new_node := n']> (heap db)) db)
    ∧ same_meta n n' ∧ entries n' = entries n
    ∧ copied (keys l) (keys n) (keys n') (mid + 1) i cnt
    ∧ copied (klens l) (klens n) (klens n') (mid + 1) i cnt
    ∧ copied (children l) (children n) (children n') (mid + 1) i cnt.
Proof.
  induction cnt as [|cnt IH]; intros i db nd new_node l n Hne Hl Hn Hk1 Hk2 Hk3 Hn1 Hn2 Hn3.
  - exists n. simpl. rewrite insert_id by done. rewrite set_heap_id.
    repeat split; try done; intros j; case_decide; (lia || done).
  - simpl.
    destruct (lookup_lt_is_Some_2 (keys l) (mid + 1 + i)) as [xk Hxk]; [lia|].
    destruct (lookup_lt_is_Some_2 (klens l) (mid + 1 + i)) as [xl Hxl]; [lia|].
    destruct (lookup_lt_is_Some_2 (children l) (mid + 1 + i)) as [xe Hxe]; [lia|].
    mrun get_key_run. mrun put_key_run.
    mrun get_klen_run. mrun put_klen_run.
    mrun get_child_run. mrun put_child_run.
    rewrite !insert_insert_eq.
    match goal with |- context [<[new_node := ?x]> (heap db)] => set (n1 := x) end.
    edestruct (IH (S i) (set_heap (<[new_node:=n1]> (heap db)) db) nd new_node l n1)
      as (n' & Hrun & Hm & Hc & Hsk & Hsl & Hse); try done.
    { heap_lookup. }
    { heap_lookup. }
    { lia. } { lia. } { lia. }
    { subst n1. norm_db. rewrite length_insert. lia. }
    { subst n1. norm_db. rewrite length_insert. lia. }
    { subst n1. norm_db. rewrite length_insert. lia. }
    exists n'. split.
    { etrans; [exact Hrun|]. norm_db. by rewrite insert_insert_eq. }
    split; [done|]. split; [done|].
    subst n1. norm_db in Hsk. norm_db in Hsl. norm_db in Hse.
    split; [eapply copied_step; [| |exact Hsk]; [lia|done]|].
    split; [eapply copied_step; [| |exact Hsl]; [lia|done]|].
    eapply copied_step; [| |exact Hse]; [lia|done].
Qed.

(** * The tree a heap represents *)

Set Warnings "-register-all".

Inductive tree :=
  | TLeaf (p : positive) (ks : list (list byte)) (es : list Z)
  | TNode (p : positive) (ks : list (list byte)) (cs : list tree).

Definition tptr (t : tree) : positive :=
  match t with TLeaf p _ _ | TNode p _ _ => p end.

Definition tkeys (t : tree) : list (list byte) :=
  match t with TLeaf _ ks _ | TNode _ ks _ => ks end.

Fixpoint subtrees (t : tree) : list tree :=
  t :: match t with
       | TLeaf _ _ _ => []
       | TNode _ _ cs => flat_map subtrees cs
       end.

Definition ptrs (t : tree) : list positive := tptr <$> subtrees t.

(** The leaves from left to right, and the (key, entry) slots they hold. *)
Fixpoint leaves (t : tree) : list positive :=
  match t with
  | TLeaf p _ _ => [p]
  | TNode _ _ cs => flat_map leaves cs
  end.

Fixpoint contents (t : tree) : list (list byte * Z) :=
  match t with
  | TLeaf _ ks es => zip ks es
  | TNode _ _ cs => flat_map contents cs
  end.

Fixpoint depth (t : tree) : nat :=
  match t with
  | TLeaf _ _ _ => 0
  | TNode _ _ cs => S (foldr Nat.max 0 (map depth cs))
  end.

Lemma tree_ind' (P : tree → Prop) :
  (∀ p ks es, P (TLeaf p ks es)) →
  (∀ p ks cs, Forall P cs → P (TNode p ks cs)) →
  ∀ t, P t.
Proof.
  intros Hl Hn. fix IH 1. intros [p ks es|p ks cs]; [apply Hl|].
  apply Hn. induction cs as [|c cs IHcs]; constructor; [apply IH|apply IHcs].
Qed.

Definition arrays_ok (n : BPNode) : Prop :=
  length (keys n) = ORDER - 1 ∧ length (klens n) = ORDER - 1
  ∧ length (children n) = ORDER ∧ length (entries n) = ORDER - 1.

Definition leaf_repr (n : BPNode) (ks : list (list byte)) (es : list Z) : Prop :=
  is_leaf n = true ∧ arrays_ok n ∧ keys_repr n ks
  ∧ length es = length ks ∧ is_prefix (Some <$> es) (entries n).

Definition node_repr (n : BPNode) (ks : list (list byte)) (cps : list positive) : Prop :=
  is_leaf n = false ∧ arrays_ok n ∧ keys_repr n ks
  ∧ length cps = S (length ks) ∧ is_prefix (Some <$> cps) (children n).

Definition tree_repr (n : BPNode) (t : tree) : Prop :=
  match t with
  | TLeaf _ ks es => leaf_repr n ks es
  | TNode _ ks cs => node_repr n ks (tptr <$> cs)
  end.

Definition node_ok (h : gmap positive BPNode) (t : tree) : Prop :=
  ∃ n, h !! tptr t = Some n ∧ tree_repr n t.

Definition repr (h : gmap positive BPNode) (t : tree) : Prop :=
  Forall (node_ok h) (subtrees t).

(** What [repr] reads of a node: everything but the sibling links. *)
Definition strip (n : BPNode) : BPNode := set_next None (set_prev None n).

Lemma tree_repr_strip n t : tree_repr (strip n) t ↔ tree_repr n t.
Proof. by destruct t. Qed.

Lemma Forall_flat_map {A B} (P : B → Prop) (f : A → list B) (l : list A) :
  Forall P (flat_map f l) ↔ Forall (λ x, Forall P (f x)) l.
Proof.
  induction l as [|x l IH]; simpl; [by split; constructor|].
  rewrite Forall_app, Forall_cons. naive_solver.
Qed.

Lemma repr_leaf h p ks es : repr h (TLeaf p ks es) ↔ node_ok h (TLeaf p ks es).
Proof. unfold repr. simpl. rewrite Forall_singleton. done. Qed.

Lemma repr_node h p ks cs :
  repr h (TNode p ks cs) ↔ node_ok h (TNode p ks cs) ∧ Forall (repr h) cs.
Proof. unfold repr. simpl. rewrite Forall_cons, Forall_flat_map. done. Qed.

Lemma ptrs_leaf p ks es : ptrs (TLeaf p ks es) = [p].
Proof. done. Qed.

Lemma ptrs_node p ks cs : ptrs (TNode p ks cs) = p :: flat_map ptrs cs.
Proof.
  unfold ptrs. cbn [subtrees fmap list_fmap]. f_equal.
  induction cs as [|c cs IH]; cbn [flat_map]; [done|]. by rewrite fmap_app, IH.
Qed.

Lemma tptr_in_ptrs t : tptr t ∈ ptrs t.
Proof. destruct t; [rewrite ptrs_leaf|rewrite ptrs_node]; simpl; set_solver. Qed.

Lemma elem_of_flat_map {A B} (f : A → list B) (l : list A) y :
  y ∈ flat_map f l ↔ ∃ x, x ∈ l ∧ y ∈ f x.
Proof.
  rewrite !list_elem_of_In, in_flat_map.
  split; intros (x & H1 & H2); exists x; by rewrite ?list_elem_of_In in *.
Qed.

Lemma repr_frame h h' t :
  (∀ p, p ∈ ptrs t → strip <$> h' !! p = strip <$> h !! p) →
  repr h t → repr h' t.
Proof.
  unfold repr, ptrs. intros Hf Hr. rewrite Forall_forall in *. intros s Hs.
  destruct (Hr s Hs) as (n & Hn & Hrepr).
  assert (Hin : tptr s ∈ tptr <$> subtrees t) by (apply list_elem_of_fmap; eauto).
  specialize (Hf (tptr s) Hin). rewrite Hn in Hf.
  destruct (h' !! tptr s) as [n'|] eqn:Hn'; simpl in Hf; [|done].
  exists n'. split; [done|].
  assert (Heq : strip n' = strip n) by congruence.
  apply (proj1 (tree_repr_strip n' s)). rewrite Heq.
  by apply (proj2 (tree_repr_strip n s)).
Qed.

(** * Node operations on represented nodes *)

Lemma ORDER_val : ORDER = 64.
Proof. reflexivity. Qed.

Lemma arrays_ok_zero l : arrays_ok (set_is_leaf l zero_node).
Proof. by destruct l. Qed.

Lemma is_prefix_nil {A} (a : list A) : is_prefix [] a.
Proof. intros j x Hx. done. Qed.

Lemma is_prefix_insert_snoc {A} (l a : list A) x :
  is_prefix l a → length l < length a → is_prefix (l ++ [x]) (<[length l := x]> a).
Proof.
  intros Hp Hlen j y Hy.
  destruct (decide (j = length l)) as [->|Hne].
  - rewrite lookup_app_r in Hy by lia. rewrite Nat.sub_diag in Hy.
    injection Hy as ->. by rewrite list_lookup_insert_eq.
  - rewrite list_lookup_insert_ne by done.
    assert (j < length l).
    { apply lookup_lt_Some in Hy. rewrite length_app in Hy. simpl in Hy. lia. }
    rewrite lookup_app_l in Hy by done. by apply Hp.
Qed.

Lemma link_parent_some_run db pp P pks pcps ppos left right uk :
  heap db !! pp = Some P → node_repr P pks pcps →
  length pks < ORDER - 1 → ppos ≤ length pks →
  ∃ P', link_parent left right uk (len uk) (Some pp) ppos db
          = Some (tt, set_heap (<[pp := P']> (heap db)) db)
    ∧ node_repr P' (linsert ppos uk pks) (linsert (S ppos) right pcps)
    ∧ next P' = next P ∧ prev P' = prev P.
Proof.
  intros Hpp (Hleaf & (Ha1 & Ha2 & Ha3 & Ha4) & (Hnk & Hk & Hl) & Hlen & Hc) Hcap Hpos.
  rewrite ORDER_val in *.
  unfold link_parent.
  mrun load_node_run.
  destruct (shift_parent_run ppos (num_keys P) db pp P) as
    (P1 & Hrun & (Hm1 & Hm2 & Hm3 & Hm4) & He & (Hsk1 & Hsk) & (Hsl1 & Hsl) & (Hsc1 & Hsc));
    [done|lia|lia|lia|].
  mrun Hrun.
  mrun put_key_run. mrun put_klen_run.
  replace (ppos + 1) with (S ppos) by lia.
  mrun put_child_run.
  rewrite !insert_insert_eq.
  eexists. split.
  { etrans; [eapply upd_node_run; heap_lookup|]. norm_db. by rewrite insert_insert_eq. }
  norm_db. split; [|split; congruence].
  unfold node_repr, arrays_ok, keys_repr. norm_db.
  rewrite !length_insert, !length_linsert, He, !ORDER_val.
  split; [congruence|]. split; [lia|]. split; [|split; [lia|]].
  - split; [lia|]. split.
    + apply (shifted_insert_prefix (keys P)); [done| |lia|lia]. split; [done|]. by rewrite <- Hnk.
    + rewrite fmap_linsert.
      pose proof (shifted_insert_prefix (klens P) (klens P1) (len <$> pks) ppos (len uk) Hl) as H.
      rewrite length_fmap in H. apply H; [|lia|lia]. split; [done|]. by rewrite <- Hnk.
  - rewrite fmap_linsert.
    pose proof (shifted_insert_prefix (children P) (children P1) (Some <$> pcps) (S ppos) (Some right) Hc) as H.
    rewrite length_fmap, Hlen in H. apply H; [|lia|lia]. split; [done|]. by rewrite <- Hnk.
Qed.

Lemma link_parent_none_run db left right uk ppos :
  ∃ db' R, link_parent left right uk (len uk) None ppos db = Some (tt, db')
    ∧ heap db' = <[brk db := R]> (heap db)
    ∧ brk db' = Pos.succ (brk db) ∧ root db' = Some (brk db)
    ∧ pool db' = pool db
    ∧ node_repr R [uk] [left; right].
Proof.
  unfold link_parent.
  erewrite bind_run; [|reflexivity]. norm_db.
  mrun upd_node_run. mrun put_key_run. mrun put_klen_run.
  mrun put_child_run. mrun put_child_run.
  rewrite !insert_insert_eq.
  eexists _, _. split; [reflexivity|]. norm_db.
  split; [reflexivity|]. split; [done|]. split; [done|]. split; [done|].
  split; [done|]. split.
  { unfold arrays_ok. repeat split; reflexivity. }
  split; [|split; [done|]].
  - split; [done|]. split; intros [|j] x Hx; simpl in *; naive_solver.
  - intros [|[|j]] x Hx; simpl in *; naive_solver.
  - simpl. lia.
  - simpl. lia.
  - simpl. lia.
  - simpl. lia.
Qed.

Lemma bpnode_new_run l db :
  bpnode_new l db
  = Some (brk db, set_node_count (wrap64 (node_count db + 1))
                    (set_brk (Pos.succ (brk db))
                       (set_heap (<[brk db := set_is_leaf l zero_node]> (heap db)) db))).
Proof. done. Qed.

Lemma div2_le n : n / 2 ≤ n.
Proof. apply Nat.Div0.div_le_upper_bound. lia. Qed.

Lemma div2_lt n : 1 ≤ n → n / 2 < n.
Proof. intros. apply Nat.Div0.div_lt_upper_bound. lia. Qed.

Lemma div2_pos n : 2 ≤ n → 1 ≤ n / 2.
Proof. intros. apply Nat.div_le_lower_bound; lia. Qed.

Lemma split_leaf_pre db leaf L ks es parent ppos :
  heap db !! leaf = Some L → leaf_repr L ks es → 1 ≤ length ks →
  heap db !! brk db = None →
  (∀ nx, next L = Some nx → nx ≠ leaf ∧ is_Some (heap db !! nx)) →
  let b := brk db in
  let mid := length ks / 2 in
  ∃ db1 L' N' uk,
    split_leaf leaf parent ppos db = link_parent leaf b uk (len uk) parent ppos db1
    ∧ ks !! mid = Some uk
    ∧ brk db1 = Pos.succ b ∧ root db1 = root db
    ∧ heap db1 !! leaf = Some L' ∧ leaf_repr L' (take mid ks) (take mid es)
    ∧ next L' = Some b ∧ prev L' = prev L
    ∧ heap db1 !! b = Some N' ∧ leaf_repr N' (drop mid ks) (drop mid es)
    ∧ next N' = next L ∧ prev N' = Some leaf
    ∧ (∀ nx, next L = Some nx → heap db1 !! nx = set_prev (Some b) <$> heap db !! nx)
    ∧ (∀ p, p ≠ leaf → p ≠ b → next L ≠ Some p → heap db1 !! p = heap db !! p).
Proof.
  intros HL (Hleaf & (Ha1 & Ha2 & Ha3 & Ha4) & (Hnk & Hk & Hl) & Hlen & He) Hnk1 Hfresh Hnx b mid.
  assert (Hne : leaf ≠ b) by (intros ->; unfold b in HL; congruence).
  pose proof (div2_le (length ks)) as Hmid1.
  pose proof (div2_lt (length ks) Hnk1) as Hmid2. fold mid in Hmid1, Hmid2.
  rewrite ORDER_val in *.
  pose proof (is_prefix_length _ _ Hk) as Hklen.
  unfold split_leaf.
  erewrite bind_run; [|apply bpnode_new_run]. norm_db. fold b.
  mrun load_node_run. rewrite Hnk. fold mid.
  mrun upd_node_run. rewrite insert_insert_eq.
  set (N0 := set_num_keys (length ks - mid) (set_is_leaf true zero_node)).
  match goal with |- context [mkKVS ?a1 ?a2 ?a3 ?a4 ?a5 ?a6 ?a7 ?a8 ?a9 ?a10 ?a11 ?a12 ?a13] =>
    set (db0 := mkKVS a1 a2 a3 a4 a5 a6 a7 a8 a9 a10 a11 a12 a13) end.
  destruct (split_leaf_copy_run mid (length ks - mid) 0 db0 leaf b L N0 Hne)
    as (N1 & Hrun & (Hm1 & Hm2 & Hm3 & Hm4) & Hc & Hck & Hcl & Hce).
  { subst db0. heap_lookup. }
  { subst db0. heap_lookup. }
  { lia. } { lia. } { lia. }
  { subst N0. simpl. lia. } { subst N0. simpl. lia. } { subst N0. simpl. lia. }
  mrun Hrun. subst db0. norm_db. rewrite insert_insert_eq.
  mrun upd_node_run. mrun upd_node_run. mrun upd_node_run.
  destruct (ks !! mid) as [uk|] eqn:Huk; [|apply lookup_ge_None in Huk; lia].
  assert (Hk0 : keys N1 !! 0 = Some uk).
  { destruct Hck as [_ Hck]. rewrite Hck. rewrite decide_True by lia.
    rewrite Nat.add_0_r. by apply Hk. }
  assert (Hl0 : klens N1 !! 0 = Some (len uk)).
  { destruct Hcl as [_ Hcl]. rewrite Hcl. rewrite decide_True by lia.
    rewrite Nat.add_0_r. apply Hl. by rewrite list_lookup_fmap, Huk. }
  assert (HreprL : ∀ nx, leaf_repr (set_next nx (set_num_keys mid L)) (take mid ks) (take mid es)).
  { intros nx. split; [done|]. split; [unfold arrays_ok; simpl; rewrite ORDER_val; done|].
    split; [|split].
    - split; [simpl; rewrite length_take; lia|]. split; simpl.
      + by apply is_prefix_take_l.
      + rewrite fmap_take. by apply is_prefix_take_l.
    - rewrite !length_take. lia.
    - simpl. rewrite fmap_take. by apply is_prefix_take_l. }
  assert (HreprN : ∀ nx pv, leaf_repr (set_prev pv (set_next nx N1)) (drop mid ks) (drop mid es)).
  { intros nx pv. split; [simpl; by rewrite Hm1|]. split.
    { unfold arrays_ok. simpl. rewrite Hc. destruct Hck as [-> _], Hcl as [-> _], Hce as [-> _].
      subst N0. repeat split; reflexivity. }
    split; [|split].
    - split; [simpl; rewrite length_drop; by rewrite Hm2|]. split; simpl.
      + rewrite <- (take_ge (drop mid ks) (length ks - mid)) by (rewrite length_drop; lia).
        eapply copied_prefix; [exact Hk|exact Hck|lia].
      + rewrite <- (take_ge (drop mid ks) (length ks - mid)) by (rewrite length_drop; lia).
        rewrite fmap_take, fmap_drop.
        eapply copied_prefix; [exact Hl|exact Hcl|rewrite length_fmap; lia].
    - rewrite !length_drop. lia.
    - simpl. rewrite <- (take_ge (drop mid es) (length ks - mid)) by (rewrite length_drop; lia).
      rewrite fmap_take, fmap_drop.
      eapply copied_prefix; [exact He|exact Hce|rewrite length_fmap; lia]. }
  destruct (next L) as [nx|] eqn:HnxL.
  - destruct (Hnx nx eq_refl) as [Hnxl [NX HNX]].
    assert (nx ≠ b) by (intros ->; unfold b in HNX; congruence).
    mrun upd_node_run. mrun upd_node_run.
    mrun get_key_run. mrun get_klen_run.
    eexists _, _, _, uk. split; [reflexivity|]. norm_db.
    split; [done|]. split; [done|]. split; [done|].
    split; [by simplify_map_eq|]. split; [apply HreprL|].
    split; [done|]. split; [done|].
    split; [by simplify_map_eq|]. split; [apply HreprN|].
    split; [done|]. split; [done|]. split.
    + intros nx' [= <-]. by simplify_map_eq.
    + intros p Hp1 Hp2 Hp3. assert (p ≠ nx) by congruence. by simplify_map_eq.
  - erewrite bind_run; [|reflexivity].
    mrun upd_node_run.
    mrun get_key_run. mrun get_klen_run.
    eexists _, _, _, uk. split; [reflexivity|]. norm_db.
    split; [done|]. split; [done|]. split; [done|].
    split; [by simplify_map_eq|]. split; [apply HreprL|].
    split; [done|]. split; [done|].
    split; [by simplify_map_eq|]. split; [apply HreprN|].
    split; [done|]. split; [done|]. split.
    + intros nx' [=].
    + intros p Hp1 Hp2 Hp3. by simplify_map_eq.
Qed.

Lemma drop_snoc_last {A} (l : list A) m x :
  S m ≤ length l → l !! (length l - 1) = Some x →
  drop m l = take (length l - m - 1) (drop m l) ++ [x].
Proof.
  intros Hm Hx. apply list_eq. intros j.
  destruct (decide (j < length l - m - 1)).
  - rewrite lookup_app_l by (rewrite length_take, length_drop; lia).
    by rewrite lookup_take_lt.
  - rewrite lookup_app_r by (rewrite length_take, length_drop; lia).
    rewrite length_take, length_drop, Nat.min_l by lia.
    rewrite lookup_drop.
    destruct (decide (j = length l - m - 1)) as [->|].
    + rewrite Nat.sub_diag. simpl. rewrite <- Hx. f_equal. lia.
    + rewrite lookup_ge_None_2 by lia.
      destruct (j - (length l - m - 1)) as [|i] eqn:Hi; [lia|]. done.
Qed.

Lemma split_internal_pre db nd N ks cps parent ppos :
  heap db !! nd = Some N → node_repr N ks cps → 1 ≤ length ks →
  heap db !! brk db = None →
  let b := brk db in
  let mid := length ks / 2 in
  ∃ db1 L' N' uk,
    split_internal nd parent ppos db = link_parent nd b uk (len uk) parent ppos db1
    ∧ ks !! mid = Some uk
    ∧ brk db1 = Pos.succ b ∧ root db1 = root db
    ∧ heap db1 !! nd = Some L' ∧ node_repr L' (take mid ks) (take (S mid) cps)
    ∧ next L' = next N ∧ prev L' = prev N
    ∧ heap db1 !! b = Some N' ∧ node_repr N' (drop (S mid) ks) (drop (S mid) cps)
    ∧ (∀ p, p ≠ nd → p ≠ b → heap db1 !! p = heap db !! p).
Proof.
  intros HN (Hleaf & (Ha1 & Ha2 & Ha3 & Ha4) & (Hnk & Hk & Hl) & Hlen & Hc) Hnk1 Hfresh b mid.
  assert (Hne : nd ≠ b) by (intros ->; unfold b in HN; congruence).
  pose proof (div2_le (length ks)) as Hmid1.
  pose proof (div2_lt (length ks) Hnk1) as Hmid2. fold mid in Hmid1, Hmid2.
  rewrite ORDER_val in *.
  pose proof (is_prefix_length _ _ Hk) as Hklen.
  pose proof (is_prefix_length _ _ Hc) as Hclen. rewrite length_fmap in Hclen.
  unfold split_internal.
  erewrite bind_run; [|apply bpnode_new_run]. norm_db. fold b.
  mrun load_node_run. rewrite Hnk. fold mid.
  destruct (ks !! mid) as [uk|] eqn:Huk; [|apply lookup_ge_None in Huk; lia].
  assert (HkN : keys N !! mid = Some uk) by (by apply Hk).
  assert (HlN : klens N !! mid = Some (len uk)) by (apply Hl; by rewrite list_lookup_fmap, Huk).
  mrun get_key_run. mrun get_klen_run.
  mrun upd_node_run. rewrite insert_insert_eq.
  set (cnt := length ks - mid - 1).
  set (N0 := set_num_keys cnt (set_is_leaf false zero_node)).
  match goal with |- context [mkKVS ?a1 ?a2 ?a3 ?a4 ?a5 ?a6 ?a7 ?a8 ?a9 ?a10 ?a11 ?a12 ?a13] =>
    set (db0 := mkKVS a1 a2 a3 a4 a5 a6 a7 a8 a9 a10 a11 a12 a13) end.
  destruct (split_internal_copy_run mid cnt 0 db0 nd b N N0 Hne)
    as (N1 & Hrun & (Hm1 & Hm2 & Hm3 & Hm4) & He & Hck & Hcl & Hcc).
  { subst db0. heap_lookup. }
  { subst db0. heap_lookup. }
  { lia. } { lia. } { lia. }
  { subst N0. simpl. lia. } { subst N0. simpl. lia. } { subst N0. simpl. lia. }
  mrun Hrun. subst db0. norm_db. rewrite insert_insert_eq.
  destruct (cps !! length ks) as [cl|] eqn:Hcl'; [|apply lookup_ge_None in Hcl'; lia].
  assert (HcN : children N !! length ks = Some (Some cl)).
  { apply Hc. by rewrite list_lookup_fmap, Hcl'. }
  mrun get_child_run.
  mrun put_child_run; [|destruct Hcc as [-> _]; subst N0; simpl; lia].
  rewrite insert_insert_eq.
  mrun upd_node_run.
  eexists _, _, _, uk. split; [reflexivity|]. norm_db.
  split; [done|]. split; [done|]. split; [done|].
  split; [by simplify_map_eq|]. split.
  { split; [done|]. split; [unfold arrays_ok; simpl; rewrite ORDER_val; done|].
    split; [|split].
    - split; [simpl; rewrite length_take; lia|]. split; simpl.
      + by apply is_prefix_take_l.
      + rewrite fmap_take. by apply is_prefix_take_l.
    - rewrite !length_take. lia.
    - simpl. rewrite fmap_take. by apply is_prefix_take_l. }
  split; [done|]. split; [done|].
  split; [by simplify_map_eq|]. split.
  { split; [simpl; by rewrite Hm1|]. split.
    { unfold arrays_ok. simpl. rewrite He, length_insert.
      destruct Hck as [-> _], Hcl as [-> _], Hcc as [-> _].
      subst N0. repeat split; reflexivity. }
    split; [|split].
    - split; [simpl; rewrite length_drop; rewrite Hm2; subst N0 cnt; simpl; lia|].
      split; simpl.
      + rewrite <- (take_ge (drop (S mid) ks) cnt) by (rewrite length_drop; lia).
        replace (S mid) with (mid + 1) by lia.
        eapply copied_prefix; [exact Hk|exact Hck|lia].
      + rewrite <- (take_ge (drop (S mid) ks) cnt) by (rewrite length_drop; lia).
        rewrite fmap_take, fmap_drop. replace (S mid) with (mid + 1) by lia.
        eapply copied_prefix; [exact Hl|exact Hcl|rewrite length_fmap; lia].
    - rewrite !length_drop. lia.
    - simpl. rewrite fmap_drop.
      rewrite (drop_snoc_last (Some <$> cps) (S mid) (Some cl));
        [|rewrite length_fmap; lia
         |rewrite length_fmap, list_lookup_fmap, Hlen; simpl;
          rewrite Nat.sub_0_r, Hcl'; done].
      rewrite length_fmap, Hlen.
      replace (S (length ks) - S mid - 1) with cnt by (subst cnt; lia).
      assert (Hpre : is_prefix (take cnt (drop (S mid) (Some <$> cps))) (children N1)).
      { replace (S mid) with (mid + 1) by lia.
        eapply copied_prefix; [exact Hc|exact Hcc|rewrite length_fmap; lia]. }
      pose proof (is_prefix_insert_snoc _ _ (Some cl) Hpre) as Hs.
      rewrite length_take, length_drop, length_fmap, Hlen in Hs.
      replace (cnt `min` (S (length ks) - S mid)) with cnt in Hs by (subst cnt; lia).
      apply Hs. destruct Hcc as [-> _]. subst N0 cnt. simpl. lia. }
  intros p Hp1 Hp2. by simplify_map_eq.
Qed.

(** * The leaf chain *)

Definition links (n : BPNode) : option positive * option positive := (prev n, next n).

Definition head_or {A} (l : list A) (d : option A) : option A :=
  match l with [] => d | x :: _ => Some x end.

Definition last_or {A} (l : list A) (d : option A) : option A :=
  match last l with Some x => Some x | None => d end.

(** [ls] is a segment of the doubly linked list, entered from [pv] and
    left to [nx]. *)
Fixpoint chain (h : gmap positive BPNode) (pv : option positive)
    (ls : list positive) (nx : option positive) : Prop :=
  match ls with
  | [] => True
  | l :: ls' =>
      ∃ n, h !! l = Some n ∧ prev n = pv ∧ next n = head_or ls' nx
           ∧ chain h (Some l) ls' nx
  end.

Lemma head_or_app {A} (l1 l2 : list A) d :
  head_or (l1 ++ l2) d = head_or l1 (head_or l2 d).
Proof. by destruct l1. Qed.

Lemma last_or_cons {A} (x : A) l d : last_or (x :: l) d = last_or l (Some x).
Proof.
  unfold last_or. destruct l as [|y l]; [done|].
  change (last (x :: y :: l)) with (last (y :: l)).
  destruct (last (y :: l)) eqn:H; [done|]. by apply last_None in H.
Qed.

Lemma last_or_app {A} (l1 l2 : list A) d :
  last_or (l1 ++ l2) d = last_or l2 (last_or l1 d).
Proof.
  revert d. induction l1 as [|x l1 IH]; intros d; [done|].
  simpl. by rewrite !last_or_cons, IH.
Qed.

Lemma chain_app h pv l1 l2 nx :
  chain h pv (l1 ++ l2) nx ↔
  chain h pv l1 (head_or l2 nx) ∧ chain h (last_or l1 pv) l2 nx.
Proof.
  revert pv. induction l1 as [|x l1 IH]; intros pv; simpl.
  - unfold last_or. simpl. tauto.
  - rewrite last_or_cons. setoid_rewrite IH. rewrite head_or_app.
    split.
    + intros (n & ? & ? & ? & ? & ?). eauto 10.
    + intros ((n & ? & ? & ? & ?) & ?). eauto 10.
Qed.

Lemma chain_frame h h' pv ls nx :
  (∀ l, l ∈ ls → links <$> h' !! l = links <$> h !! l) →
  chain h pv ls nx → chain h' pv ls nx.
Proof.
  revert pv. induction ls as [|l ls IH]; intros pv Hf; simpl; [done|].
  intros (n & Hn & Hp & Hx & Hc).
  pose proof (Hf l ltac:(set_solver)) as Hl. rewrite Hn in Hl.
  destruct (h' !! l) as [n'|]; [|done]. simpl in Hl.
  injection Hl as Hl1 Hl2.
  exists n'. split; [done|]. split; [congruence|]. split; [congruence|].
  apply IH; [|done]. intros l' Hl'. apply Hf. set_solver.
Qed.

Lemma chain_in h pv ls nx l : chain h pv ls nx → l ∈ ls → is_Some (h !! l).
Proof.
  revert pv. induction ls as [|x ls IH]; intros pv; simpl; [set_solver|].
  intros (n & Hn & _ & _ & Hc) Hl. apply elem_of_cons in Hl as [->|Hl]; eauto.
Qed.

(** Splitting the leaf [l] of the chain into [l] and the new leaf [b]. *)
Lemma chain_split h h' A B l b L L' N' :
  chain h None (A ++ l :: B) None →
  NoDup (A ++ l :: B) → b ∉ A ++ l :: B →
  h !! l = Some L →
  h' !! l = Some L' → next L' = Some b → prev L' = prev L →
  h' !! b = Some N' → next N' = next L → prev N' = Some l →
  (∀ nx, next L = Some nx → h' !! nx = set_prev (Some b) <$> h !! nx) →
  (∀ q, q ∈ A ++ B → next L ≠ Some q → links <$> h' !! q = links <$> h !! q) →
  chain h' None (A ++ l :: b :: B) None.
Proof.
  intros Hc Hnd Hb HL HL' HL'n HL'p HN' HN'n HN'p Hnx Hfr.
  apply chain_app in Hc as [HcA HcB]. simpl in HcA, HcB.
  destruct HcB as (L0 & HL0 & HLp & HLn & HcB). rewrite HL in HL0. injection HL0 as <-.
  apply NoDup_app in Hnd as (HndA & HAB & HndB).
  apply NoDup_cons in HndB as [HlB HndB].
  apply chain_app. split.
  - simpl. eapply chain_frame; [|exact HcA].
    intros a Ha. apply Hfr; [set_solver|].
    rewrite HLn. intros Hh. destruct B as [|x B]; [done|]. injection Hh as ->.
    apply (HAB a Ha). set_solver.
  - simpl. exists L'. split; [done|]. split; [congruence|]. split; [done|].
    exists N'. split; [done|]. split; [done|]. split; [congruence|].
    destruct B as [|x B]; [done|]. simpl in *.
    destruct HcB as (X & HX & HXp & HXn & HcB).
    rewrite (Hnx x HLn), HX. simpl.
    eexists. split; [done|]. split; [done|]. split; [done|].
    eapply chain_frame; [|exact HcB].
    apply NoDup_cons in HndB as [HxB HndB].
    intros a Ha. apply Hfr; [set_solver|].
    rewrite HLn. intros [= ->]. done.
Qed.

(** * Insertion on trees *)

(** What an insertion did at the leaf: it overwrote the value of the live
    entry [e0], it replaced the tombstoned entry [e0], or it took a new
    slot. *)
Inductive kind := Updated (e0 : Z) | Replaced (e0 : Z) | Inserted.

(** What [insert_recursive] leaves of a subtree: the subtree, or its two
    halves and the separator to hang in the parent. *)
Inductive ires :=
  | IDone (t : tree)
  | ISplit (l : tree) (u : list byte) (r : tree).

Definition res_trees (r : ires) : list tree :=
  match r with IDone t => [t] | ISplit l _ rr => [l; rr] end.

Definition finish_leaf (p b : positive) (ks : list (list byte)) (es : list Z)
    : ires * positive :=
  if decide (ORDER - 1 ≤ length ks) then
    let mid := length ks / 2 in
    (ISplit (TLeaf p (take mid ks) (take mid es)) (default [] (ks !! mid))
            (TLeaf b (drop mid ks) (drop mid es)), Pos.succ b)
  else (IDone (TLeaf p ks es), b).

Definition finish_node (p b : positive) (ks : list (list byte)) (cs : list tree)
    : ires * positive :=
  if decide (ORDER - 1 ≤ length ks) then
    let mid := length ks / 2 in
    (ISplit (TNode p (take mid ks) (take (S mid) cs)) (default [] (ks !! mid))
            (TNode b (drop (S mid) ks) (drop (S mid) cs)), Pos.succ b)
  else (IDone (TNode p ks cs), b).

Definition graft (pos : nat) (r : ires) (ks : list (list byte)) (cs : list tree)
    : list (list byte) * list tree :=
  match r with
  | IDone c => (ks, <[pos := c]> cs)
  | ISplit l u rr => (linsert pos u ks, linsert (S pos) rr (<[pos := l]> cs))
  end.

Inductive ins (pl : gmap Z Entry) (k : list byte) (e : Z)
    : tree → positive → ires → positive → kind → Prop :=
  | ins_update p ks es b pos e0 x :
      lower_bound ks k pos → ks !! pos = Some k → es !! pos = Some e0 →
      pl !! e0 = Some x → deleted x = false →
      ins pl k e (TLeaf p ks es) b (IDone (TLeaf p ks es)) b (Updated e0)
  | ins_replace p ks es b pos e0 x :
      lower_bound ks k pos → ks !! pos = Some k → es !! pos = Some e0 →
      pl !! e0 = Some x → deleted x = true →
      ins pl k e (TLeaf p ks es) b (IDone (TLeaf p ks (<[pos := e]> es))) b (Replaced e0)
  | ins_insert p ks es b pos r b' :
      lower_bound ks k pos → ks !! pos ≠ Some k →
      finish_leaf p b (linsert pos k ks) (linsert pos e es) = (r, b') →
      ins pl k e (TLeaf p ks es) b r b' Inserted
  | ins_node p ks cs b pos c rc b1 kd ks' cs' r b' :
      upper_bound ks k pos → cs !! pos = Some c →
      ins pl k e c b rc b1 kd →
      graft pos rc ks cs = (ks', cs') →
      finish_node p b1 ks' cs' = (r, b') →
      ins pl k e (TNode p ks cs) b r b' kd.

Definition node_wf (t : tree) : Prop :=
  match t with
  | TLeaf _ ks es => length es = length ks ∧ length ks < ORDER - 1
  | TNode _ ks cs => length cs = S (length ks) ∧ length ks < ORDER - 1
  end.

Definition wf (t : tree) : Prop := Forall node_wf (subtrees t).

Definition sorted_nodes (t : tree) : Prop :=
  Forall (λ s, ksorted (tkeys s)) (subtrees t).

Lemma wf_node p ks cs : wf (TNode p ks cs) ↔ node_wf (TNode p ks cs) ∧ Forall wf cs.
Proof. unfold wf. simpl. rewrite Forall_cons, Forall_flat_map. done. Qed.

Lemma wf_leaf p ks es : wf (TLeaf p ks es) ↔ node_wf (TLeaf p ks es).
Proof. unfold wf. simpl. by rewrite Forall_singleton. Qed.

Lemma sorted_nodes_node p ks cs :
  sorted_nodes (TNode p ks cs) ↔ ksorted ks ∧ Forall sorted_nodes cs.
Proof. unfold sorted_nodes. simpl. rewrite Forall_cons, Forall_flat_map. done. Qed.

Lemma sorted_nodes_leaf p ks es : sorted_nodes (TLeaf p ks es) ↔ ksorted ks.
Proof. unfold sorted_nodes. simpl. by rewrite Forall_singleton. Qed.

(** ** Pointers of the result *)

Lemma finish_leaf_tptr p b ks es r b' :
  finish_leaf p b ks es = (r, b') → tptr <$> head (res_trees r) = Some p.
Proof. unfold finish_leaf. case_decide; intros [= <- <-]; done. Qed.

Lemma finish_node_tptr p b ks cs r b' :
  finish_node p b ks cs = (r, b') → tptr <$> head (res_trees r) = Some p.
Proof. unfold finish_node. case_decide; intros [= <- <-]; done. Qed.

Lemma ins_tptr pl k e t b r b' kd :
  ins pl k e t b r b' kd → tptr <$> head (res_trees r) = Some (tptr t).
Proof.
  destruct 1; simpl; try done.
  - eapply finish_leaf_tptr; eauto.
  - eapply finish_node_tptr; eauto.
Qed.

Lemma ins_tptr_done pl k e t b t' b' kd :
  ins pl k e t b (IDone t') b' kd → tptr t' = tptr t.
Proof. intros H. apply ins_tptr in H. simpl in H. congruence. Qed.

Lemma ins_tptr_split pl k e t b l u rr b' kd :
  ins pl k e t b (ISplit l u rr) b' kd → tptr l = tptr t.
Proof. intros H. apply ins_tptr in H. simpl in H. congruence. Qed.

Definition res_ptrs (r : ires) : list positive := flat_map ptrs (res_trees r).

Lemma flat_map_insert {A B} (f : A → list B) (l : list A) i x y :
  l !! i = Some x →
  flat_map f (<[i := y]> l) = flat_map f (take i l) ++ f y ++ flat_map f (drop (S i) l).
Proof.
  intros Hx. rewrite <- (take_drop_middle l i x Hx) at 1.
  rewrite insert_app_r_alt by (rewrite length_take; lia).
  rewrite length_take, Nat.min_l by (apply lookup_lt_Some in Hx; lia).
  rewrite Nat.sub_diag. simpl. by rewrite flat_map_app.
Qed.

Lemma flat_map_middle {A B} (f : A → list B) (l : list A) i x :
  l !! i = Some x →
  flat_map f l = flat_map f (take i l) ++ f x ++ flat_map f (drop (S i) l).
Proof.
  intros Hx. rewrite <- (take_drop_middle l i x Hx) at 1.
  by rewrite flat_map_app.
Qed.

Lemma flat_map_graft_split {A B} (f : A → list B) (l : list A) i x y z :
  l !! i = Some x →
  flat_map f (linsert (S i) z (<[i := y]> l))
  = flat_map f (take i l) ++ f y ++ f z ++ flat_map f (drop (S i) l).
Proof.
  intros Hx. pose proof (lookup_lt_Some _ _ _ Hx) as Hi.
  unfold linsert. rewrite flat_map_app. simpl.
  rewrite (take_S_r _ _ y) by (by rewrite list_lookup_insert_eq).
  rewrite take_insert_ge by lia. rewrite drop_insert_lt by lia.
  rewrite flat_map_app. simpl. rewrite app_nil_r. by rewrite <- !app_assoc.
Qed.

Lemma flat_map_take_drop {A B} (f : A → list B) (l : list A) i :
  flat_map f (take i l) ++ flat_map f (drop i l) = flat_map f l.
Proof. by rewrite <- flat_map_app, take_drop. Qed.

(** The pointers of the result are those of the tree and the nodes
    allocated meanwhile. *)
Definition ptrs_grow (old : list positive) (b : positive) (new : list positive)
    (b' : positive) : Prop :=
  (b ≤ b')%positive
  ∧ ∀ p, p ∈ new → p ∈ old ∨ (b ≤ p < b')%positive.

Lemma res_ptrs_done t : res_ptrs (IDone t) = ptrs t.
Proof. unfold res_ptrs. simpl. by rewrite app_nil_r. Qed.

Lemma res_ptrs_split l u rr : res_ptrs (ISplit l u rr) = ptrs l ++ ptrs rr.
Proof. unfold res_ptrs. simpl. by rewrite app_nil_r. Qed.

Lemma ins_ptrs pl k e t b r b' kd :
  ins pl k e t b r b' kd → ptrs_grow (ptrs t) b (res_ptrs r) b'.
Proof.
  induction 1 as [| |p ks es b pos r b' Hlb Hne Hf
                  |p ks cs b pos c rc b1 kd ks' cs' r b' Hub Hc Hins IH Hg Hf].
  - split; [lia|]. rewrite res_ptrs_done. auto.
  - split; [lia|]. rewrite res_ptrs_done, !ptrs_leaf. auto.
  - unfold finish_leaf in Hf. case_decide; injection Hf as <- <-.
    + split; [lia|]. rewrite res_ptrs_split, !ptrs_leaf. intros q.
      intros [->|[->|[]%elem_of_nil]%elem_of_cons]%elem_of_cons; [left; set_solver|right; lia].
    + split; [lia|]. rewrite res_ptrs_done, !ptrs_leaf. auto.
  - destruct IH as [Hb IH].
    assert (Hcs' : ∀ q, q ∈ flat_map ptrs cs' → q ∈ flat_map ptrs cs ∨ (b ≤ q < b1)%positive).
    { intros q Hq. rewrite (flat_map_middle ptrs cs pos c Hc).
      destruct rc as [c'|l u rr]; injection Hg as <- <-.
      - rewrite (flat_map_insert _ _ _ _ _ Hc) in Hq. rewrite res_ptrs_done in IH.
        rewrite !elem_of_app in *. destruct Hq as [?|[Hq|?]]; auto.
        destruct (IH q) as [?|?]; auto.
      - rewrite (flat_map_graft_split _ _ _ _ _ _ Hc) in Hq. rewrite res_ptrs_split in IH.
        rewrite !elem_of_app in *. destruct Hq as [?|[Hq|[Hq|?]]]; auto.
        + destruct (IH q) as [?|?]; auto. set_solver.
        + destruct (IH q) as [?|?]; auto. set_solver. }
    unfold finish_node in Hf. case_decide; injection Hf as <- <-.
    + split; [lia|]. rewrite res_ptrs_split, !ptrs_node. intros q Hq.
      assert (q = p ∨ q = b1 ∨ q ∈ flat_map ptrs cs') as [->|[->|Hq']].
      { rewrite <- (flat_map_take_drop ptrs cs' (S (length ks' / 2))). set_solver. }
      * left. set_solver.
      * right. lia.
      * destruct (Hcs' q Hq'); [left; set_solver|right; lia].
    + split; [lia|]. rewrite res_ptrs_done, !ptrs_node. intros q.
      intros [->|Hq]%elem_of_cons; [left; set_solver|].
      destruct (Hcs' q Hq); [left; set_solver|right; lia].
Qed.

(** * [insert_recursive] refines the insertion on trees *)

Definition fresh_from (h : gmap positive BPNode) (b : positive) : Prop :=
  ∀ p, (b ≤ p)%positive → h !! p = None.

Definition entries_in (pl : gmap Z Entry) (t : tree) : Prop :=
  ∀ ke, ke ∈ contents t → is_Some (pl !! ke.2).

Definition pool_post (pl pl' : gmap Z Entry) (kd : kind) (new : Entry) : Prop :=
  match kd with
  | Updated e0 =>
      ∃ old, pl !! e0 = Some old
             ∧ pl' = <[e0 := set_vlen (vlen new) (set_value (value new) old)]> pl
  | _ => pl' = pl
  end.

Definition parent_pre (h : gmap positive BPNode) (t : tree) (AB : list positive)
    (parent : option positive) (ppos : nat)
    (pks : list (list byte)) (pcps : list positive) : Prop :=
  match parent with
  | None => True
  | Some pp =>
      pp ∉ ptrs t ∧ pp ∉ AB
      ∧ ∃ P, h !! pp = Some P ∧ node_repr P pks pcps
             ∧ length pks < ORDER - 1 ∧ ppos ≤ length pks
  end.

Definition parent_post (db db' : KVS) (parent : option positive) (ppos : nat)
    (pks : list (list byte)) (pcps : list positive) (r : ires) (b' : positive) : Prop :=
  match parent, r with
  | Some pp, IDone _ =>
      strip <$> heap db' !! pp = strip <$> heap db !! pp
      ∧ root db' = root db ∧ brk db' = b'
  | Some pp, ISplit l u rr =>
      (∃ P', heap db' !! pp = Some P'
             ∧ node_repr P' (linsert ppos u pks) (linsert (S ppos) (tptr rr) pcps))
      ∧ root db' = root db ∧ brk db' = b'
  | None, IDone _ => root db' = root db ∧ brk db' = b'
  | None, ISplit l u rr =>
      (∃ R, heap db' !! b' = Some R ∧ node_repr R [u] [tptr l; tptr rr])
      ∧ root db' = Some b' ∧ brk db' = Pos.succ b'
  end.

Record ir_pre (db : KVS) (t : tree) (parent : option positive) (ppos : nat)
    (pks : list (list byte)) (pcps : list positive) (A B : list positive)
    (k : list byte) (e : Z) (new : Entry) : Prop := {
  pre_repr : repr (heap db) t;
  pre_wf : wf t;
  pre_sorted : sorted_nodes t;
  pre_nodup : NoDup (ptrs t);
  pre_below : ∀ p, p ∈ ptrs t → (p < brk db)%positive;
  pre_fresh : fresh_from (heap db) (brk db);
  pre_entries : entries_in (pool db) t;
  pre_new : pool db !! e = Some new;
  pre_key : key new = k;
  pre_len : (len k < 2 ^ 32)%Z;
  pre_parent : parent_pre (heap db) t (A ++ B) parent ppos pks pcps;
  pre_chain : chain (heap db) None (A ++ leaves t ++ B) None;
  pre_chain_nodup : NoDup (A ++ leaves t ++ B);
  pre_disj : ∀ q, q ∈ A ++ B → q ∉ ptrs t
}.

Definition ir_post (db : KVS) (t : tree) (parent : option positive) (ppos : nat)
    (pks : list (list byte)) (pcps : list positive) (A B : list positive)
    (k : list byte) (e : Z) (new : Entry) (added : Z) (db' : KVS) : Prop :=
  ∃ r b' kd,
    added = (if kd is Updated _ then 0 else 1)%Z
    ∧ ins (pool db) k e t (brk db) r b' kd
    ∧ pool_post (pool db) (pool db') kd new
    ∧ Forall (repr (heap db')) (res_trees r)
    ∧ parent_post db db' parent ppos pks pcps r b'
    ∧ (∀ p, p ∉ ptrs t → parent ≠ Some p → (p < brk db)%positive →
            strip <$> heap db' !! p = strip <$> heap db !! p)
    ∧ fresh_from (heap db') (brk db')
    ∧ chain (heap db') None (A ++ flat_map leaves (res_trees r) ++ B) None.

(** The leaf branch of [insert_recursive]. *)
Definition insert_leaf (nd : positive) (n : BPNode) (parent : option positive)
    (parent_pos : nat) (k : list byte) (kl : Z) (entry : Z) : M Z :=
  pos <- must (leaf_find_pos n k kl) ;;
  hit <- (if (pos <? num_keys n)%nat then
            kp <- get_key nd pos ;;
            lp <- get_klen nd pos ;;
            ret (keycmp kp lp k kl =? 0)%Z
          else ret false) ;;
  if hit then
    e <- get_entry nd pos ;;
    e <- must e ;;
    old <- load_entry e ;;
    if negb (deleted old) then
      new <- load_entry entry ;;
      upd_entry e (set_value (value new)) ;;
      upd_entry e (set_vlen (vlen new)) ;;
      ret 0%Z
    else
      put_entry nd pos (Some entry) ;;
      ret 1%Z
  else
    shift_leaf nd pos (num_keys n) ;;
    new <- load_entry entry ;;
    put_key nd pos (key new) ;;
    put_klen nd pos (wrap32 kl) ;;
    put_entry nd pos (Some entry) ;;
    upd_node nd (λ n, set_num_keys (S (num_keys n)) n) ;;
    n' <- load_node nd ;;
    (if (ORDER - 1 <=? num_keys n')%nat
     then split_leaf nd parent parent_pos else ret tt) ;;
    ret 1%Z.

Lemma insert_recursive_at_leaf fuel nd parent ppos k kl e db n :
  heap db !! nd = Some n → is_leaf n = true →
  insert_recursive fuel nd parent ppos k kl e db = insert_leaf nd n parent ppos k kl e db.
Proof.
  intros Hn Hl. destruct fuel; simpl;
    rewrite (bind_run _ _ _ _ _ (load_node_run _ _ _ Hn)), Hl; reflexivity.
Qed.

Lemma insert_recursive_at_node fuel nd parent ppos k kl e db n :
  heap db !! nd = Some n → is_leaf n = false →
  insert_recursive (S fuel) nd parent ppos k kl e db =
  (pos <- must (internal_find_pos n k kl) ;;
   c <- get_child nd pos ;;
   c <- must c ;;
   added <- insert_recursive fuel c (Some nd) pos k kl e ;;
   n' <- load_node nd ;;
   (if (ORDER - 1 <=? num_keys n')%nat
    then split_internal nd parent ppos else ret tt) ;;
   ret added) db.
Proof.
  intros Hn Hl. simpl.
  rewrite (bind_run _ _ _ _ _ (load_node_run _ _ _ Hn)), Hl. reflexivity.
Qed.

Lemma load_entry_run db e x : pool db !! e = Some x → load_entry e db = Some (x, db).
Proof. intros H. unfold load_entry. by rewrite H. Qed.

Lemma upd_entry_run db e x f :
  pool db !! e = Some x →
  upd_entry e f db = Some (tt, set_pool (<[e := f x]> (pool db)) db).
Proof.
  intros H. unfold upd_entry. rewrite (bind_run _ _ _ _ _ (load_entry_run _ _ _ H)). done.
Qed.

Lemma wrap32_small z : (0 ≤ z < 2 ^ 32)%Z → wrap32 z = z.
Proof. intros. unfold wrap32. by apply Z.mod_small. Qed.

Lemma leaf_insert_steps db nd n ks es pos k e new :
  heap db !! nd = Some n → leaf_repr n ks es →
  length ks < ORDER - 1 → pos ≤ length ks →
  pool db !! e = Some new → key new = k → (len k < 2 ^ 32)%Z →
  ∃ n', leaf_repr n' (linsert pos k ks) (linsert pos e es) ∧ links n' = links n
    ∧ ∀ A (K : M A),
        (shift_leaf nd pos (num_keys n) ;;
         new <- load_entry e ;;
         put_key nd pos (key new) ;;
         put_klen nd pos (wrap32 (len k)) ;;
         put_entry nd pos (Some e) ;;
         upd_node nd (λ n, set_num_keys (S (num_keys n)) n) ;;
         K) db
        = K (set_heap (<[nd := n']> (heap db)) db).
Proof.
  intros Hn (Hleaf & (Ha1 & Ha2 & Ha3 & Ha4) & (Hnk & Hk & Hl) & Hlen & He) Hcap Hpos Hnew Hkey Hklen.
  rewrite ORDER_val in *.
  destruct (shift_leaf_run pos (num_keys n) db nd n Hn) as
    (n1 & Hrun & (Hm1 & Hm2 & Hm3 & Hm4) & Hc & (Hsk1 & Hsk) & (Hsl1 & Hsl) & (Hse1 & Hse));
    [lia|lia|lia|].
  rewrite wrap32_small by (unfold len in *; lia).
  eexists. split; [|split]; [| |intros A K].
  3: {
    mrun Hrun. mrun load_entry_run.
    mrun put_key_run. mrun put_klen_run. mrun put_entry_run. mrun upd_node_run.
    rewrite !insert_insert_eq. rewrite Hkey. reflexivity. }
  - unfold leaf_repr, arrays_ok, keys_repr. norm_db.
    rewrite !length_insert, !length_linsert, Hc, !ORDER_val.
    split; [congruence|]. split; [lia|]. split; [|split; [lia|]].
    + split; [lia|]. split.
      * apply (shifted_insert_prefix (keys n)); [done| |lia|lia]. split; [done|]. by rewrite <- Hnk.
      * rewrite fmap_linsert.
        pose proof (shifted_insert_prefix (klens n) (klens n1) (len <$> ks) pos (len k) Hl) as H.
        rewrite length_fmap in H. apply H; [|lia|lia]. split; [done|]. by rewrite <- Hnk.
    + rewrite fmap_linsert.
      pose proof (shifted_insert_prefix (entries n) (entries n1) (Some <$> es) pos (Some e) He) as H.
      rewrite length_fmap, Hlen in H. apply H; [|lia|lia]. split; [done|]. by rewrite <- Hnk.
  - unfold links. norm_db. congruence.
Qed.

Ltac mmust :=
  (erewrite bind_run; [| apply must_run; first [eassumption | reflexivity]]); norm_db.

Lemma bind_assoc {A B C} (m : M A) (f : A → M B) (g : B → M C) db :
  (x <- (y <- m ;; f y) ;; g x) db = (y <- m ;; x <- f y ;; g x) db.
Proof. unfold bind. by destruct (m db) as [[a db1]|]. Qed.

Lemma strip_set_prev x n : strip (set_prev x n) = strip n.
Proof. done. Qed.

Lemma fresh_from_insert h b p n :
  fresh_from h b → (p < b)%positive → fresh_from (<[p := n]> h) b.
Proof. intros Hf Hp q Hq. rewrite lookup_insert_ne by lia. by apply Hf. Qed.

Lemma fresh_below h b p : fresh_from h b → is_Some (h !! p) → (p < b)%positive.
Proof.
  intros Hf [n Hn]. destruct (decide (p < b)%positive); [done|].
  rewrite Hf in Hn by lia. done.
Qed.

Lemma chain_leaf_next h pv A p B nx n :
  chain h pv (A ++ p :: B) nx → h !! p = Some n →
  next n = head_or B nx ∧ prev n = last_or A pv.
Proof.
  intros Hc Hn. apply chain_app in Hc as [_ Hc]. simpl in Hc.
  destruct Hc as (n' & Hn' & Hp & Hx & _). rewrite Hn in Hn'. injection Hn' as <-. done.
Qed.

Lemma leaf_contents_in (ks : list (list byte)) (es : list Z) pos k e :
  ks !! pos = Some k → es !! pos = Some e → (k, e) ∈ zip ks es.
Proof.
  intros Hk He. apply list_elem_of_lookup. exists pos.
  rewrite lookup_zip_with, Hk. simpl. by rewrite He.
Qed.

Lemma leaf_p_below db p ks es parent ppos pks pcps A B k e new :
  ir_pre db (TLeaf p ks es) parent ppos pks pcps A B k e new → (p < brk db)%positive.
Proof. intros Hpre. apply (pre_below _ _ _ _ _ _ _ _ _ _ _ Hpre). rewrite ptrs_leaf. set_solver. Qed.

Lemma leaf_parent_ne db p ks es pp ppos pks pcps A B k e new :
  ir_pre db (TLeaf p ks es) (Some pp) ppos pks pcps A B k e new → pp ≠ p.
Proof.
  intros Hpre. destruct (pre_parent _ _ _ _ _ _ _ _ _ _ _ Hpre) as (Hpp & _).
  rewrite ptrs_leaf in Hpp. set_solver.
Qed.

(** A post-state that differs from [db] in the node [p] only, and keeps
    its links. *)
Lemma leaf_local_post db p ks es parent ppos pks pcps A B k e new n n' ks' es' kd db' added :
  ir_pre db (TLeaf p ks es) parent ppos pks pcps A B k e new →
  heap db !! p = Some n →
  heap db' = <[p := n']> (heap db) → links n' = links n →
  leaf_repr n' ks' es' →
  root db' = root db → brk db' = brk db →
  pool_post (pool db) (pool db') kd new →
  added = (if kd is Updated _ then 0 else 1)%Z →
  ins (pool db) k e (TLeaf p ks es) (brk db) (IDone (TLeaf p ks' es')) (brk db) kd →
  ir_post db (TLeaf p ks es) parent ppos pks pcps A B k e new added db'.
Proof.
  intros Hpre Hn Hh Hl Hr Hroot Hbrk Hpool Hadd Hins.
  exists (IDone (TLeaf p ks' es')), (brk db), kd.
  split; [done|]. split; [done|]. split; [done|].
  split.
  { constructor; [|constructor]. apply repr_leaf. exists n'. split; [|done].
    rewrite Hh. by simplify_map_eq. }
  split.
  { destruct parent as [pp|]; simpl; [|done].
    split; [|done]. rewrite Hh. rewrite lookup_insert_ne; [done|].
    intros ->. by eapply leaf_parent_ne. }
  split.
  { intros q Hq _ _. rewrite Hh. rewrite lookup_insert_ne; [done|].
    intros ->. apply Hq. rewrite ptrs_leaf. set_solver. }
  split.
  { rewrite Hh, Hbrk. apply fresh_from_insert; [apply Hpre|by eapply leaf_p_below]. }
  simpl.
  eapply chain_frame; [|apply (pre_chain _ _ _ _ _ _ _ _ _ _ _ Hpre)].
  intros l _. rewrite Hh. destruct (decide (l = p)) as [->|].
  - rewrite lookup_insert_eq, Hn. simpl. by rewrite Hl.
  - by rewrite lookup_insert_ne.
Qed.

Lemma chain_members_below h b pv ls nx l :
  chain h pv ls nx → fresh_from h b → l ∈ ls → (l < b)%positive.
Proof. intros Hc Hf Hl. eapply fresh_below; [done|]. eapply chain_in; eauto. Qed.

Lemma leaf_fresh_refines db p ks es parent ppos pks pcps A B k e new n pos :
  ir_pre db (TLeaf p ks es) parent ppos pks pcps A B k e new →
  heap db !! p = Some n → leaf_repr n ks es →
  lower_bound ks k pos → ks !! pos ≠ Some k →
  ∃ db',
    (shift_leaf p pos (num_keys n) ;;
     new <- load_entry e ;;
     put_key p pos (key new) ;;
     put_klen p pos (wrap32 (len k)) ;;
     put_entry p pos (Some e) ;;
     upd_node p (λ n, set_num_keys (S (num_keys n)) n) ;;
     n' <- load_node p ;;
     (if (ORDER - 1 <=? num_keys n')%nat
      then split_leaf p parent ppos else ret tt) ;;
     ret 1%Z) db = Some (1%Z, db')
    ∧ ir_post db (TLeaf p ks es) parent ppos pks pcps A B k e new 1%Z db'.
Proof.
  intros Hpre Hn Hrepr Hlb Hne.
  pose proof (pre_wf _ _ _ _ _ _ _ _ _ _ _ Hpre) as Hwf.
  apply wf_leaf in Hwf as [Hwf1 Hwf2].
  destruct Hlb as (Hpos & Hlb1 & Hlb2).
  destruct (leaf_insert_steps db p n ks es pos k e new Hn Hrepr Hwf2 Hpos)
    as (n' & Hrepr' & Hlinks & Hsteps);
    [apply Hpre|apply Hpre|apply Hpre|].
  rewrite Hsteps. clear Hsteps.
  set (ks' := linsert pos k ks) in *. set (es' := linsert pos e es) in *.
  set (db1 := set_heap (<[p:=n']> (heap db)) db).
  assert (Hn1 : heap db1 !! p = Some n') by (subst db1; heap_lookup).
  mrun load_node_run.
  assert (Hnk' : num_keys n' = length ks') by apply Hrepr'.
  pose proof (leaf_p_below _ _ _ _ _ _ _ _ _ _ _ _ _ Hpre) as Hpb.
  rewrite Hnk'. destruct (Nat.leb_spec (ORDER - 1) (length ks')) as [Hfull|Hfit].
  - (* the leaf is full: split *)
    assert (Hnext : ∀ nx, next n' = Some nx → nx ≠ p ∧ is_Some (heap db1 !! nx) ∧ nx ∈ B).
    { intros nx Hnx.
      destruct (chain_leaf_next _ _ _ _ _ _ _ (pre_chain _ _ _ _ _ _ _ _ _ _ _ Hpre) Hn) as [Hx _].
      injection Hlinks as _ Hl2. rewrite Hl2, Hx in Hnx.
      destruct B as [|x B']; [done|]. injection Hnx as ->.
      pose proof (pre_chain_nodup _ _ _ _ _ _ _ _ _ _ _ Hpre) as Hnd. simpl in Hnd.
      apply NoDup_app in Hnd as (_ & _ & Hnd). apply NoDup_cons in Hnd as [Hnd _].
      assert (nx ≠ p) by set_solver. split; [done|]. split; [|set_solver].
      subst db1. norm_db. rewrite lookup_insert_ne by done.
      eapply chain_in; [apply (pre_chain _ _ _ _ _ _ _ _ _ _ _ Hpre)|]. set_solver. }
    destruct (split_leaf_pre db1 p n' ks' es' parent ppos Hn1 Hrepr')
      as (db2 & L' & N' & uk & Hsplit & Huk & Hbrk2 & Hroot2 & HL' & HreprL & HL'n & HL'p
          & HN' & HreprN & HN'n & HN'p & Hnx2 & Hfr2).
    { subst ks'. rewrite length_linsert. lia. }
    { subst db1. norm_db. rewrite lookup_insert_ne by lia. apply Hpre. lia. }
    { intros nx Hnx. destruct (Hnext nx Hnx) as (? & ? & ?). done. }
    change (brk db1) with (brk db) in *. change (root db1) with (root db) in *.
    set (b := brk db) in *. set (mid := length ks' / 2) in *.
    unfold bind at 1. rewrite Hsplit.
    assert (Hins : ins (pool db) k e (TLeaf p ks es) b
                     (ISplit (TLeaf p (take mid ks') (take mid es')) uk
                             (TLeaf b (drop mid ks') (drop mid es'))) (Pos.succ b) Inserted).
    { eapply ins_insert; [done|done|]. unfold finish_leaf. fold ks' es'.
      rewrite decide_True by done. fold mid. by rewrite Huk. }
    assert (HbAB : b ∉ A ++ p :: B).
    { intros Hb. pose proof (chain_members_below _ _ _ _ _ _
        (pre_chain _ _ _ _ _ _ _ _ _ _ _ Hpre) (pre_fresh _ _ _ _ _ _ _ _ _ _ _ Hpre) Hb). lia. }
    assert (Hold : ∀ q, q ≠ p → heap db1 !! q = heap db !! q).
    { intros q Hq. subst db1. norm_db. by rewrite lookup_insert_ne. }
    assert (Hmem : ∀ q, q ∈ A ++ B → q ≠ p ∧ q ≠ b ∧ (q < b)%positive).
    { intros q Hq.
      assert (Hq' : q ∈ A ++ p :: B) by set_solver.
      pose proof (chain_members_below _ _ _ _ _ _
        (pre_chain _ _ _ _ _ _ _ _ _ _ _ Hpre) (pre_fresh _ _ _ _ _ _ _ _ _ _ _ Hpre) Hq').
      split; [|split; [unfold b; lia|done]].
      pose proof (pre_disj _ _ _ _ _ _ _ _ _ _ _ Hpre q Hq) as Hd.
      rewrite ptrs_leaf in Hd. set_solver. }
    assert (Hpar_out : ∀ q, parent = Some q → q ≠ p ∧ q ∉ A ++ B).
    { intros q Hq. pose proof (pre_parent _ _ _ _ _ _ _ _ _ _ _ Hpre) as Hpp.
      rewrite Hq in Hpp. destruct Hpp as (H1 & H2 & _).
      rewrite ptrs_leaf in H1. set_solver. }
    assert (Hlk1 : prev n' = prev n) by (injection Hlinks; congruence).
    assert (Hlk2 : next n' = next n) by (injection Hlinks; congruence).
    (* what both ways of linking share *)
    assert (Hcommon : ∀ db3,
      (∀ q, (q < b)%positive → heap db3 !! q = heap db2 !! q ∨
            (parent = Some q ∧ links <$> heap db3 !! q = links <$> heap db2 !! q)) →
      heap db3 !! b = heap db2 !! b →
      (∀ q, q ∉ ptrs (TLeaf p ks es) → parent ≠ Some q → (q < b)%positive →
            strip <$> heap db3 !! q = strip <$> heap db !! q)
      ∧ Forall (repr (heap db3)) [TLeaf p (take mid ks') (take mid es');
                                  TLeaf b (drop mid ks') (drop mid es')]
      ∧ chain (heap db3) None (A ++ [p; b] ++ B) None).
    { intros db3 Hsame Hsameb.
      assert (Hp3 : heap db3 !! p = Some L').
      { destruct (Hsame p Hpb) as [->|[Hpar _]]; [done|].
        by destruct (Hpar_out p Hpar). }
      split; [|split].
      - intros q Hq Hqp Hqb. rewrite ptrs_leaf in Hq.
        assert (q ≠ p) by set_solver.
        destruct (Hsame q Hqb) as [->|[Hpar _]]; [|congruence].
        destruct (decide (next n' = Some q)) as [Hq'|Hq'].
        + rewrite (Hnx2 q Hq'), Hold by done.
          destruct (heap db !! q); simpl; [|done]. by rewrite strip_set_prev.
        + rewrite Hfr2 by (done || unfold b in *; lia). by rewrite Hold.
      - constructor; [|constructor; [|constructor]]; apply repr_leaf.
        + exists L'. done.
        + exists N'. simpl. rewrite Hsameb. done.
      - eapply (chain_split (heap db) _ A B p b n L' N');
          [apply (pre_chain _ _ _ _ _ _ _ _ _ _ _ Hpre)
          |apply (pre_chain_nodup _ _ _ _ _ _ _ _ _ _ _ Hpre)
          |exact HbAB|exact Hn|exact Hp3|done|congruence
          |by rewrite Hsameb|congruence|done| | ].
        + intros nx Hnx. rewrite <- Hlk2 in Hnx.
          destruct (Hnext nx Hnx) as (Hnxp & Hsome & HnxB).
          destruct (Hmem nx ltac:(set_solver)) as (_ & _ & Hnxb).
          destruct (Hsame nx Hnxb) as [->|[Hpar _]].
          * rewrite (Hnx2 nx Hnx). by rewrite Hold.
          * destruct (Hpar_out nx Hpar) as [_ Hout]. set_solver.
        + intros q Hq Hq3. rewrite <- Hlk2 in Hq3.
          destruct (Hmem q Hq) as (Hq1 & Hq2 & Hqb).
          destruct (Hsame q Hqb) as [->|[Hpar ->]];
            rewrite Hfr2 by done; by rewrite Hold. }
    assert (Hfresh2 : ∀ q, (Pos.succ b ≤ q)%positive → heap db2 !! q = None).
    { intros q Hq. assert (q ≠ p) by lia. assert (q ≠ b) by lia.
      assert (next n' ≠ Some q).
      { intros Hx. destruct (Hnext q Hx) as (_ & [X HX] & _). rewrite Hold in HX by done.
        rewrite (pre_fresh _ _ _ _ _ _ _ _ _ _ _ Hpre) in HX; [done|]. unfold b in *. lia. }
      rewrite Hfr2 by done. rewrite Hold by done.
      apply Hpre. unfold b in *. lia. }
    destruct parent as [pp|] eqn:Hparent.
    + (* into the parent *)
      destruct (pre_parent _ _ _ _ _ _ _ _ _ _ _ Hpre) as (Hpp1 & Hpp2 & P & HP & HreprP & HcapP & HposP).
      assert (Hppp : pp ≠ p) by (rewrite ptrs_leaf in Hpp1; set_solver).
      assert (Hppb : (pp < b)%positive).
      { eapply fresh_below; [apply Hpre|]. by rewrite HP. }
      assert (Hppn : next n' ≠ Some pp).
      { intros Hx. destruct (Hnext pp Hx) as (_ & _ & Hin). set_solver. }
      assert (HP2 : heap db2 !! pp = Some P).
      { rewrite Hfr2 by (done || lia). rewrite Hold by done. done. }
      destruct (link_parent_some_run db2 pp P pks pcps ppos p b uk HP2 HreprP HcapP HposP)
        as (P' & Hlink & HreprP' & HP'n & HP'p).
      rewrite Hlink. eexists. split; [reflexivity|].
      eexists _, _, Inserted. split; [reflexivity|]. split; [exact Hins|].
      norm_db.
      assert (Hpool : pool db2 = pool db).
      { pose proof (keeps_split_leaf pool p (Some pp) ppos db1 tt
          (set_heap (<[pp:=P']> (heap db2)) db2)) as Hk.
        rewrite Hsplit, Hlink in Hk. specialize (Hk eq_refl). exact Hk. }
      split; [exact Hpool|].
      destruct (Hcommon (set_heap (<[pp:=P']> (heap db2)) db2)) as (Hc1 & Hc2 & Hc3).
      { intros q Hq. norm_db. destruct (decide (q = pp)) as [->|].
        - right. split; [done|]. rewrite lookup_insert_eq, HP2. simpl.
          unfold links. congruence.
        - left. by rewrite lookup_insert_ne. }
      { norm_db. rewrite lookup_insert_ne by lia. done. }
      split; [exact Hc2|].
      split.
      { simpl. split; [|by rewrite Hroot2]. exists P'.
        rewrite lookup_insert_eq. done. }
      split; [exact Hc1|].
      split; [|exact Hc3].
      rewrite Hbrk2. intros q Hq. rewrite lookup_insert_ne by lia. by apply Hfresh2.
    + (* under a new root *)
      destruct (link_parent_none_run db2 p b uk ppos)
        as (db3 & R & Hlink & Hh3 & Hbrk3 & Hroot3 & Hpool3 & HreprR).
      rewrite Hlink. eexists. split; [reflexivity|].
      eexists _, _, Inserted. split; [reflexivity|]. split; [exact Hins|].
      assert (Hpool : pool db3 = pool db).
      { pose proof (keeps_split_leaf pool p None ppos db1 tt db3) as Hk.
        rewrite Hsplit, Hlink in Hk. specialize (Hk eq_refl). exact Hk. }
      split; [exact Hpool|].
      rewrite Hbrk2 in *.
      destruct (Hcommon db3) as (Hc1 & Hc2 & Hc3).
      { intros q Hq. left. rewrite Hh3. rewrite lookup_insert_ne by lia. done. }
      { rewrite Hh3. rewrite lookup_insert_ne by lia. done. }
      split; [exact Hc2|].
      split.
      { simpl. split; [|done]. exists R. rewrite Hh3, lookup_insert_eq. done. }
      split; [exact Hc1|].
      split; [|exact Hc3].
      rewrite Hbrk3, Hh3. intros q Hq. rewrite lookup_insert_ne by lia.
      apply Hfresh2. lia.
  - (* the leaf has room *)
    erewrite bind_run; [|reflexivity]. eexists. split; [reflexivity|].
    eapply (leaf_local_post _ _ _ _ _ _ _ _ _ _ _ _ _ n n' ks' es' Inserted); eauto.
    + done.
    + eapply ins_insert; [done|done|]. unfold finish_leaf. fold ks' es'.
      rewrite decide_False by lia. done.
Qed.

Lemma insert_leaf_refines fuel db p ks es parent ppos pks pcps A B k e new :
  ir_pre db (TLeaf p ks es) parent ppos pks pcps A B k e new →
  ∃ added db',
    insert_recursive fuel p parent ppos k (len k) e db = Some (added, db')
    ∧ ir_post db (TLeaf p ks es) parent ppos pks pcps A B k e new added db'.
Proof.
  intros Hpre.
  pose proof (pre_repr _ _ _ _ _ _ _ _ _ _ _ Hpre) as Hr.
  apply repr_leaf in Hr as (n & Hn & Hrepr). simpl in Hn, Hrepr.
  pose proof Hrepr as (Hleaf & Harr & Hkr & Hlen & Hes).
  pose proof (pre_sorted _ _ _ _ _ _ _ _ _ _ _ Hpre) as Hs.
  apply sorted_nodes_leaf in Hs.
  rewrite (insert_recursive_at_leaf _ _ _ _ _ _ _ _ n Hn Hleaf).
  unfold insert_leaf.
  destruct (leaf_find_pos_spec n ks k Hkr Hs) as (pos & Hfind & Hlb).
  mmust.
  pose proof Hkr as (Hnk & Hkp & Hlp).
  assert (Hfresh : ks !! pos ≠ Some k →
    ∃ added db',
      (shift_leaf p pos (num_keys n) ;;
       new <- load_entry e ;;
       put_key p pos (key new) ;;
       put_klen p pos (wrap32 (len k)) ;;
       put_entry p pos (Some e) ;;
       upd_node p (λ n, set_num_keys (S (num_keys n)) n) ;;
       n' <- load_node p ;;
       (if (ORDER - 1 <=? num_keys n')%nat
        then split_leaf p parent ppos else ret tt) ;;
       ret 1%Z) db = Some (added, db')
      ∧ ir_post db (TLeaf p ks es) parent ppos pks pcps A B k e new added db').
  { intros Hne.
    destruct (leaf_fresh_refines _ _ _ _ _ _ _ _ _ _ _ _ _ _ pos Hpre Hn Hrepr Hlb Hne)
      as (db' & Hrun & Hpost).
    eauto. }
  rewrite Hnk in Hfresh |- *. destruct (Nat.ltb_spec pos (length ks)) as [Hlt|Hge].
  - destruct (lookup_lt_is_Some_2 ks pos Hlt) as [kp Hkp'].
    destruct (keys_repr_lookup _ _ _ _ Hkr Hkp') as [Hk1 Hk2].
    rewrite bind_assoc. mrun get_key_run.
    rewrite bind_assoc. mrun get_klen_run.
    erewrite bind_run; [|reflexivity].
    rewrite keycmp_eq. case_bool_decide as Heq.
    + subst kp.
      destruct (lookup_lt_is_Some_2 es pos) as [e0 He0]; [lia|].
      assert (He0' : entries n !! pos = Some (Some e0)).
      { apply Hes. by rewrite list_lookup_fmap, He0. }
      destruct (pre_entries _ _ _ _ _ _ _ _ _ _ _ Hpre (k, e0)) as [old Hold].
      { simpl. by eapply leaf_contents_in. }
      simpl in Hold.
      mrun get_entry_run. mmust. mrun load_entry_run.
      destruct (deleted old) eqn:Hdel; simpl.
      * (* the slot holds a tombstone: replace the entry *)
        assert (pos < length (entries n)) by (by apply lookup_lt_Some in He0').
        mrun put_entry_run.
        eexists _, _. split; [reflexivity|].
        eapply (leaf_local_post _ _ _ _ _ _ _ _ _ _ _ _ _ n _ ks (<[pos := e]> es) (Replaced e0));
          try done.
        -- split; [done|]. split; [unfold arrays_ok; norm_db; by rewrite length_insert|].
           split; [done|]. split; [by rewrite length_insert|].
           norm_db. intros j x Hx. rewrite list_lookup_fmap in Hx.
           destruct (decide (j = pos)) as [->|Hj].
           ++ rewrite list_lookup_insert_eq in Hx by lia. simpl in Hx. injection Hx as <-.
              rewrite list_lookup_insert_eq; [done|].
              apply lookup_lt_Some in He0'. done.
           ++ rewrite list_lookup_insert_ne in Hx by done.
              rewrite list_lookup_insert_ne by done. apply Hes.
              by rewrite list_lookup_fmap.
        -- eapply ins_replace; eauto.
      * (* the slot holds a live entry: overwrite its value *)
        pose proof (pre_new _ _ _ _ _ _ _ _ _ _ _ Hpre) as Hnew.
        mrun load_entry_run.
        mrun upd_entry_run.
        erewrite bind_run; [|eapply upd_entry_run; norm_db; by rewrite lookup_insert_eq].
        norm_db. rewrite insert_insert_eq.
        eexists _, _. split; [reflexivity|].
        eapply (leaf_local_post _ _ _ _ _ _ _ _ _ _ _ _ _ n n ks es (Updated e0));
          try done.
        -- norm_db. by rewrite insert_id.
        -- norm_db. exists old. done.
        -- eapply ins_update; eauto.
    + apply Hfresh. congruence.
  - erewrite bind_run; [|reflexivity].
    apply Hfresh. rewrite lookup_ge_None_2 by lia. done.
Qed.

(** * The internal branch of [insert_recursive] *)

Definition parent_ready (h : gmap positive BPNode) (p : positive)
    (parent : option positive) (ppos : nat)
    (pks : list (list byte)) (pcps : list positive) : Prop :=
  match parent with
  | None => True
  | Some pp =>
      pp ≠ p ∧ ∃ P, h !! pp = Some P ∧ node_repr P pks pcps
                    ∧ length pks < ORDER - 1 ∧ ppos ≤ length pks
  end.

(** What follows the recursive call: the node is read again and split when
    the child's separator filled it. *)
Lemma node_finish_run db1 p Pn ks' cs' parent ppos pks pcps (added : Z) r b' :
  heap db1 !! p = Some Pn → node_repr Pn ks' (tptr <$> cs') →
  fresh_from (heap db1) (brk db1) →
  parent_ready (heap db1) p parent ppos pks pcps →
  finish_node p (brk db1) ks' cs' = (r, b') →
  ∃ db3,
    (n' <- load_node p ;;
     (if (ORDER - 1 <=? num_keys n')%nat then split_internal p parent ppos else ret tt) ;;
     ret added) db1 = Some (added, db3)
    ∧ pool db3 = pool db1
    ∧ Forall (node_ok (heap db3)) (res_trees r)
    ∧ parent_post db1 db3 parent ppos pks pcps r b'
    ∧ (∀ q, q ≠ p → parent ≠ Some q → (q < brk db1)%positive →
            heap db3 !! q = heap db1 !! q)
    ∧ (∀ q, (q < brk db1)%positive → links <$> heap db3 !! q = links <$> heap db1 !! q)
    ∧ fresh_from (heap db3) (brk db3).
Proof.
  intros Hp Hrepr Hfresh Hpar Hfin.
  pose proof Hrepr as (_ & _ & (Hnk & _) & Hlen & _).
  pose proof (fresh_below _ _ _ Hfresh (mk_is_Some _ _ Hp)) as Hpb.
  mrun load_node_run. rewrite Hnk.
  unfold finish_node in Hfin. case_decide as Hfull; injection Hfin as <- <-;
    change (fst (Nat.divmod (length ks') 1 0 1)) with (length ks' / 2).
  2: { rewrite (proj2 (Nat.leb_gt _ _)) by lia.
       exists db1. split; [done|]. split; [done|]. split.
       { apply Forall_singleton. by exists Pn. }
       split; [|done].
       unfold parent_post. destruct parent; done. }
  rewrite (proj2 (Nat.leb_le _ _)) by lia.
  rewrite ORDER_val in Hfull.
  destruct (split_internal_pre db1 p Pn ks' (tptr <$> cs') parent ppos Hp Hrepr)
    as (db2 & L' & N' & uk & Hrun & Huk & Hbrk2 & Hroot2 & HL' & HL'r & HL'n & HL'p
        & HN' & HN'r & Hfr2); [lia|apply Hfresh; lia|].
  rewrite <- fmap_take in HL'r. rewrite <- fmap_drop in HN'r.
  rewrite Huk. cbn [default].
  destruct parent as [pp|].
  - destruct Hpar as (Hppne & P & HP & HPr & HPlen & Hppos).
    pose proof (fresh_below _ _ _ Hfresh (mk_is_Some _ _ HP)) as Hppb.
    assert (HP2 : heap db2 !! pp = Some P).
    { rewrite Hfr2; [done|done|lia]. }
    destruct (link_parent_some_run db2 pp P pks pcps ppos p (brk db1) uk HP2 HPr HPlen Hppos)
      as (P' & Hlink & HP'r & HP'n & HP'p).
    exists (set_heap (<[pp := P']> (heap db2)) db2).
    assert (Hrun3 : split_internal p (Some pp) ppos db1
                    = Some (tt, set_heap (<[pp := P']> (heap db2)) db2)) by congruence.
    split.
    { erewrite bind_run; [|exact Hrun3]. done. }
    split.
    { norm_db.
      pose proof (keeps_split_internal pool p (Some pp) ppos _ _ _ Hrun3) as Hk.
      exact Hk. }
    norm_db. split.
    { repeat constructor.
      - exists L'. simpl. rewrite lookup_insert_ne by done. done.
      - exists N'. simpl. rewrite lookup_insert_ne by lia. done. }
    split.
    { simpl. split; [|done]. exists P'. by rewrite lookup_insert_eq. }
    split; [|split].
    + intros q Hq1 Hq2 Hq3. rewrite lookup_insert_ne by congruence.
      apply Hfr2; [done|lia].
    + intros q Hq. destruct (decide (q = pp)) as [->|Hne].
      { rewrite lookup_insert_eq, HP. simpl. unfold links. congruence. }
      rewrite lookup_insert_ne by done.
      destruct (decide (q = p)) as [->|Hne'].
      { rewrite HL', Hp. simpl. unfold links. congruence. }
      rewrite Hfr2; [done|done|lia].
    + rewrite Hbrk2. intros q Hq. rewrite lookup_insert_ne by lia.
      rewrite Hfr2 by lia. apply Hfresh. lia.
  - destruct (link_parent_none_run db2 p (brk db1) uk ppos)
      as (db3 & R & Hlink & Hh3 & Hbrk3 & Hroot3 & Hpool3 & HRr).
    exists db3.
    assert (Hrun3 : split_internal p None ppos db1 = Some (tt, db3)) by congruence.
    split.
    { erewrite bind_run; [|exact Hrun3]. done. }
    split.
    { exact (keeps_split_internal pool p None ppos _ _ _ Hrun3). }
    rewrite Hh3. split.
    { repeat constructor.
      - exists L'. simpl. rewrite lookup_insert_ne by lia. done.
      - exists N'. simpl. rewrite lookup_insert_ne by lia. done. }
    split.
    { simpl. rewrite Hh3, Hroot3, Hbrk3, Hbrk2. split; [|done].
      exists R. by rewrite lookup_insert_eq. }
    split; [|split].
    + intros q Hq1 Hq2 Hq3. rewrite lookup_insert_ne by lia.
      apply Hfr2; [done|lia].
    + intros q Hq. rewrite lookup_insert_ne by lia.
      destruct (decide (q = p)) as [->|Hne'].
      { rewrite HL', Hp. simpl. unfold links. congruence. }
      rewrite Hfr2; [done|done|lia].
    + rewrite Hbrk3, Hbrk2. intros q Hq. rewrite lookup_insert_ne by lia.
      rewrite Hfr2 by lia. apply Hfresh. lia.
Qed.

(** ** Children of a node *)

Lemma leaves_in_ptrs t l : l ∈ leaves t → l ∈ ptrs t.
Proof.
  induction t as [p ks es|p ks cs IH] using tree_ind'.
  - by rewrite ptrs_leaf.
  - rewrite ptrs_node. simpl. intros Hl. apply elem_of_flat_map in Hl as (c & Hc & Hl).
    rewrite Forall_forall in IH. apply elem_of_cons. right.
    apply elem_of_flat_map. exists c. split; [done|]. by apply IH.
Qed.

Lemma child_ptrs p ks cs (c : tree) q :
  c ∈ cs → q ∈ ptrs c → q ∈ ptrs (TNode p ks cs).
Proof.
  intros Hc Hq. rewrite ptrs_node. apply elem_of_cons. right.
  apply elem_of_flat_map. eauto.
Qed.

Lemma depth_child p ks cs (c : tree) : c ∈ cs → depth c < depth (TNode p ks cs).
Proof.
  simpl. induction 1 as [c cs|c c' cs Hc IH]; simpl; lia.
Qed.

Definition sib_ptrs (cs : list tree) (pos : nat) : list positive :=
  flat_map ptrs (take pos cs) ++ flat_map ptrs (drop (S pos) cs).

Lemma child_nodup p ks cs pos (c : tree) :
  cs !! pos = Some c → NoDup (ptrs (TNode p ks cs)) →
  NoDup (ptrs c) ∧ p ∉ flat_map ptrs cs
  ∧ (∀ q, q ∈ ptrs c → q ∉ sib_ptrs cs pos).
Proof.
  intros Hc. rewrite ptrs_node, NoDup_cons.
  rewrite (flat_map_middle ptrs cs pos c Hc) at 2.
  intros (Hp & Hnd). split; [|split; [done|]].
  - apply NoDup_app in Hnd as (_ & _ & Hnd). by apply NoDup_app in Hnd as (Hnd & _).
  - intros q Hq. unfold sib_ptrs. rewrite elem_of_app. intros [Hs|Hs].
    + apply NoDup_app in Hnd as (_ & Hd & _). apply (Hd q Hs). set_solver.
    + apply NoDup_app in Hnd as (_ & _ & Hnd).
      apply NoDup_app in Hnd as (_ & Hd & _). by apply (Hd q Hq).
Qed.

Lemma sib_ptrs_in cs pos q : q ∈ sib_ptrs cs pos → q ∈ flat_map ptrs cs.
Proof.
  unfold sib_ptrs. rewrite elem_of_app, !elem_of_flat_map.
  intros [(x & Hx & Hq)|(x & Hx & Hq)]; exists x; split; try done.
  - rewrite <- (take_drop pos cs). set_solver.
  - rewrite <- (take_drop (S pos) cs). set_solver.
Qed.

Lemma sib_leaves_in cs pos q :
  q ∈ flat_map leaves (take pos cs) ++ flat_map leaves (drop (S pos) cs) →
  q ∈ sib_ptrs cs pos.
Proof.
  unfold sib_ptrs. rewrite !elem_of_app, !elem_of_flat_map.
  intros [(x & Hx & Hq)|(x & Hx & Hq)]; [left|right]; exists x;
    (split; [done|by apply leaves_in_ptrs]).
Qed.

(** The pointers of the children after the child at [pos] was replaced by
    what the insertion left of it. *)
Lemma graft_ptrs pos rc ks cs ks' cs' (c : tree) b b1 :
  cs !! pos = Some c → graft pos rc ks cs = (ks', cs') →
  ptrs_grow (ptrs c) b (res_ptrs rc) b1 →
  ∀ q, q ∈ flat_map ptrs cs' →
       q ∈ sib_ptrs cs pos ∨ q ∈ res_ptrs rc.
Proof.
  intros Hc Hg [Hb IH] q Hq. unfold sib_ptrs.
  destruct rc as [c'|l u rr]; injection Hg as <- <-.
  - rewrite (flat_map_insert _ _ _ _ _ Hc) in Hq. rewrite res_ptrs_done.
    rewrite !elem_of_app in *. tauto.
  - rewrite (flat_map_graft_split _ _ _ _ _ _ Hc) in Hq. rewrite res_ptrs_split.
    rewrite !elem_of_app in *. tauto.
Qed.

Lemma graft_leaves pos rc ks cs ks' cs' (c : tree) :
  cs !! pos = Some c → graft pos rc ks cs = (ks', cs') →
  flat_map leaves cs'
  = flat_map leaves (take pos cs) ++ flat_map leaves (res_trees rc)
    ++ flat_map leaves (drop (S pos) cs).
Proof.
  intros Hc Hg. destruct rc as [c'|l u rr]; injection Hg as <- <-; simpl.
  - rewrite (flat_map_insert _ _ _ _ _ Hc). by rewrite app_nil_r.
  - rewrite (flat_map_graft_split _ _ _ _ _ _ Hc). by rewrite app_nil_r, <- !app_assoc.
Qed.

Lemma graft_elem pos rc ks cs ks' cs' (c x : tree) :
  cs !! pos = Some c → graft pos rc ks cs = (ks', cs') →
  x ∈ cs' → x ∈ res_trees rc ∨ x ∈ take pos cs ++ drop (S pos) cs.
Proof.
  intros Hc Hg Hx. pose proof (lookup_lt_Some _ _ _ Hc) as Hlt.
  destruct rc as [c'|l u rr]; injection Hg as <- <-; simpl.
  - rewrite <- (take_drop_middle cs pos c Hc) in Hx.
    rewrite insert_app_r_alt in Hx by (rewrite length_take; lia).
    rewrite length_take, Nat.min_l, Nat.sub_diag in Hx by lia. simpl in Hx.
    set_solver.
  - unfold linsert in Hx.
    rewrite (take_S_r _ _ l) in Hx by (by rewrite list_lookup_insert_eq).
    rewrite take_insert_ge in Hx by lia. rewrite drop_insert_lt in Hx by lia.
    set_solver.
Qed.

Lemma finish_node_leaves p b ks cs r b' :
  finish_node p b ks cs = (r, b') → flat_map leaves (res_trees r) = flat_map leaves cs.
Proof.
  unfold finish_node. case_decide; intros [= <- <-]; simpl.
  - by rewrite app_nil_r, flat_map_take_drop.
  - by rewrite app_nil_r.
Qed.

Lemma graft_tptr pos rc ks cs ks' cs' (c : tree) :
  cs !! pos = Some c → graft pos rc ks cs = (ks', cs') →
  tptr <$> head (res_trees rc) = Some (tptr c) →
  match rc with
  | IDone _ => ks' = ks ∧ tptr <$> cs' = tptr <$> cs
  | ISplit l u rr =>
      ks' = linsert pos u ks ∧ tptr <$> cs' = linsert (S pos) (tptr rr) (tptr <$> cs)
  end.
Proof.
  intros Hc Hg Hh.
  assert (Hid : ∀ x, tptr x = tptr c → tptr <$> <[pos := x]> cs = tptr <$> cs).
  { intros x Hx. rewrite list_fmap_insert, Hx. apply list_insert_id.
    by rewrite list_lookup_fmap, Hc. }
  destruct rc as [c'|l u rr]; injection Hg as <- <-; simpl in Hh;
    injection Hh as Hh; split; try done.
  - by apply Hid.
  - rewrite fmap_linsert. f_equal. by apply Hid.
Qed.

Lemma ir_pre_child db p ks cs parent ppos pks pcps A B k e new n pos (c : tree) :
  ir_pre db (TNode p ks cs) parent ppos pks pcps A B k e new →
  heap db !! p = Some n → node_repr n ks (tptr <$> cs) →
  pos ≤ length ks → cs !! pos = Some c →
  ir_pre db c (Some p) pos ks (tptr <$> cs)
    (A ++ flat_map leaves (take pos cs)) (flat_map leaves (drop (S pos) cs) ++ B) k e new.
Proof.
  intros Hpre Hn Hnr Hpos Hc.
  destruct Hpre as [Hrepr Hwf Hsorted Hnd Hbelow Hfresh Hent Hnew Hkey Hlen Hpar Hchain Hcnd Hdisj].
  pose proof (list_elem_of_lookup_2 _ _ _ Hc) as Hcin.
  apply repr_node in Hrepr as [_ Hreprs].
  apply wf_node in Hwf as [[Hwl Hwk] Hwfs].
  apply sorted_nodes_node in Hsorted as [_ Hsorteds].
  destruct (child_nodup _ _ _ _ _ Hc Hnd) as (Hndc & Hpcs & Hsib).
  rewrite Forall_forall in Hreprs, Hwfs, Hsorteds.
  assert (Hleaves : (A ++ flat_map leaves (take pos cs)) ++ leaves c
                      ++ flat_map leaves (drop (S pos) cs) ++ B
                    = A ++ leaves (TNode p ks cs) ++ B).
  { simpl. rewrite (flat_map_middle leaves cs pos c Hc). by rewrite <- !app_assoc. }
  constructor; auto.
  - intros q Hq. apply Hbelow. by eapply child_ptrs.
  - intros ke Hke. apply Hent. simpl. apply elem_of_flat_map. eauto.
  - simpl. split; [|split].
    + intros Hp. apply Hpcs. apply elem_of_flat_map. eauto.
    + intros Hp. rewrite <- app_assoc, elem_of_app, (assoc _), elem_of_app in Hp.
      rewrite elem_of_app in Hp.
      assert (p ∈ A ++ B ∨ p ∈ sib_ptrs cs pos) as [HAB|Hs].
      { destruct Hp as [?|[[Hp|Hp]|?]]; [left; set_solver| | |left; set_solver];
          right; apply sib_leaves_in; set_solver. }
      * apply (Hdisj p HAB). rewrite ptrs_node. set_solver.
      * apply Hpcs. by eapply sib_ptrs_in.
    + exists n. done.
  - by rewrite Hleaves.
  - by rewrite Hleaves.
  - intros q Hq Hqc.
    assert (q ∈ A ++ B ∨ q ∈ sib_ptrs cs pos) as [HAB|Hs].
    { rewrite <- app_assoc, elem_of_app, (assoc _), elem_of_app in Hq.
      rewrite elem_of_app in Hq.
      destruct Hq as [?|[[Hp|Hp]|?]]; [left; set_solver| | |left; set_solver];
        right; apply sib_leaves_in; set_solver. }
    + apply (Hdisj q HAB). by eapply child_ptrs.
    + by apply (Hsib q Hqc).
Qed.

Ltac res_split :=
  cbn [res_trees];
  match goal with
  | |- Forall ?P [?x; ?y] =>
      apply (proj2 (Forall_cons P x [y])); split; [|apply (proj2 (Forall_singleton P y))]
  | |- Forall ?P [?x] => apply (proj2 (Forall_singleton P x))
  end.

Ltac res_inv H :=
  cbn [res_trees] in H;
  match type of H with
  | Forall ?P [?x; ?y] =>
      let H1 := fresh H "l" in
      let H2 := fresh H "r" in
      apply (proj1 (Forall_cons P x [y])) in H as [H1 H2];
      apply (proj1 (Forall_singleton P y)) in H2
  | Forall ?P [?x] => apply (proj1 (Forall_singleton P x)) in H
  end.

Lemma sibling_in {A} (cs : list A) pos y :
  y ∈ take pos cs ++ drop (S pos) cs → y ∈ cs.
Proof.
  intros [H|H]%elem_of_app;
    [rewrite <- (take_drop pos cs)|rewrite <- (take_drop (S pos) cs)]; set_solver.
Qed.

Lemma node_repr_strip_eq n n' ks cps :
  strip n' = strip n → node_repr n ks cps → node_repr n' ks cps.
Proof.
  destruct n, n'. unfold strip, set_next, set_prev. simpl.
  intros [= -> -> -> -> -> ->]. done.
Qed.

(** ** The refinement *)

Lemma insert_recursive_refines fuel : ∀ t db parent ppos pks pcps A B k e new,
  depth t ≤ fuel →
  ir_pre db t parent ppos pks pcps A B k e new →
  ∃ added db',
    insert_recursive fuel (tptr t) parent ppos k (len k) e db = Some (added, db')
    ∧ ir_post db t parent ppos pks pcps A B k e new added db'.
Proof.
  induction fuel as [|fuel IH]; intros t db parent ppos pks pcps A B k e new Hd Hpre;
    (destruct t as [p ks es|p ks cs]; [by apply insert_leaf_refines|]).
  { simpl in Hd. lia. }
  pose proof Hpre as [Hrepr Hwf Hsorted Hnd Hbelow Hfresh Hent Hnew Hkey Hlen Hpar
                        Hchain Hcnd Hdisj].
  apply repr_node in Hrepr as [(n & Hn & Hnr) Hreprs]. simpl in Hn, Hnr.
  pose proof Hnr as (Hleaf & Harr & Hkr & Hcl & Hcp).
  apply wf_node in Hwf as [[Hwl Hwk] Hwfs].
  apply sorted_nodes_node in Hsorted as [Hks Hsorteds].
  destruct (internal_find_pos_spec n ks k Hkr Hks) as (pos & Hfind & Hub).
  pose proof Hub as (Hpos & _).
  destruct (lookup_lt_is_Some_2 cs pos) as [c Hc]; [lia|].
  pose proof (list_elem_of_lookup_2 _ _ _ Hc) as Hcin.
  assert (Hchild : children n !! pos = Some (Some (tptr c))).
  { apply Hcp. by rewrite !list_lookup_fmap, Hc. }
  destruct (child_nodup _ _ _ _ _ Hc Hnd) as (Hndc & Hpcs & Hsib).
  assert (Hp_below : (p < brk db)%positive).
  { apply Hbelow. rewrite ptrs_node. set_solver. }
  assert (Hpar_out : ∀ q, parent = Some q → q ∉ ptrs (TNode p ks cs) ∧ (q < brk db)%positive).
  { intros q ->. simpl in Hpar. destruct Hpar as (Hq & _ & P & HP & _).
    split; [done|]. eapply fresh_below; eauto. }
  pose proof (ir_pre_child _ _ _ _ _ _ _ _ _ _ _ _ _ _ _ _ Hpre Hn Hnr Hpos Hc) as Hprec.
  destruct (IH c db (Some p) pos ks (tptr <$> cs)
              (A ++ flat_map leaves (take pos cs))
              (flat_map leaves (drop (S pos) cs) ++ B) k e new)
    as (added & db1 & Hrun1 & Hpost1); [|exact Hprec|].
  { pose proof (depth_child p ks cs c Hcin). lia. }
  destruct Hpost1 as (rc & b1 & kd & Hadded & Hins & Hpool & Hres & Hpp1 & Hfr1
                      & Hfresh1 & Hchain1).
  simpl tptr. rewrite (insert_recursive_at_node _ _ _ _ _ _ _ _ _ Hn Hleaf).
  mmust. mrun get_child_run. mmust.
  erewrite bind_run; [|exact Hrun1].
  destruct (graft pos rc ks cs) as [ks' cs'] eqn:Hg.
  pose proof (ins_tptr _ _ _ _ _ _ _ _ Hins) as Hhead.
  pose proof (graft_tptr _ _ _ _ _ _ _ Hc Hg Hhead) as Hgt.
  pose proof (ins_ptrs _ _ _ _ _ _ _ _ Hins) as [Hb1 Hgrow].
  assert (Hbrk1 : brk db1 = b1 ∧ root db1 = root db).
  { destruct rc; simpl in Hpp1; tauto. }
  destruct Hbrk1 as [Hbrk1 Hroot1].
  assert (HPn : ∃ Pn, heap db1 !! p = Some Pn ∧ node_repr Pn ks' (tptr <$> cs')).
  { destruct rc as [c'|l u rr]; simpl in Hpp1; destruct Hgt as [-> ->].
    - destruct Hpp1 as (Hs & _). rewrite Hn in Hs.
      destruct (heap db1 !! p) as [Pn|]; [|done]. simpl in Hs.
      assert (Hs' : strip Pn = strip n) by congruence.
      exists Pn. split; [done|]. eapply node_repr_strip_eq; eauto.
    - destruct Hpp1 as ((P' & HP' & HP'r) & _). eauto. }
  destruct HPn as (Pn & HPn & HPnr).
  assert (Hready : parent_ready (heap db1) p parent ppos pks pcps).
  { destruct parent as [pp|]; [|done]. simpl in Hpar.
    destruct Hpar as (Hpp_t & Hpp_AB & P & HP & HPr & HPl & HPp).
    assert (pp ≠ p) by (intros ->; apply Hpp_t; rewrite ptrs_node; set_solver).
    split; [done|].
    assert (Hs : strip <$> heap db1 !! pp = strip <$> heap db !! pp).
    { apply Hfr1; [|congruence|eapply fresh_below; eauto].
      intros Hq. apply Hpp_t. by eapply child_ptrs. }
    rewrite HP in Hs. destruct (heap db1 !! pp) as [P1|]; [|done].
    simpl in Hs. assert (Hs' : strip P1 = strip P) by congruence.
    exists P1. split; [done|]. split; [eapply node_repr_strip_eq; eauto|done]. }
  destruct (finish_node p b1 ks' cs') as [r b'] eqn:Hfin.
  destruct (node_finish_run db1 p Pn ks' cs' parent ppos pks pcps added r b'
              HPn HPnr Hfresh1 Hready)
    as (db3 & Hrun3 & Hpool3 & Hok3 & Hpp3 & Hfr3 & Hlk3 & Hfresh3).
  { by rewrite Hbrk1. }
  rewrite Hrun3. exists added, db3. split; [done|].
  exists r, b', kd.
  assert (Hcs'q : ∀ x q, x ∈ cs' → q ∈ ptrs x →
                         q ≠ p ∧ parent ≠ Some q ∧ (q < brk db1)%positive).
  { intros x q Hx Hq.
    assert (Hq' : q ∈ flat_map ptrs cs') by (apply elem_of_flat_map; eauto).
    assert (q ∈ flat_map ptrs cs ∨ (brk db ≤ q < b1)%positive) as [Hold|Hnew'].
    { destruct (graft_ptrs _ _ _ _ _ _ _ _ _ Hc Hg (conj Hb1 Hgrow) q Hq') as [Hs|Hr].
      - left. by eapply sib_ptrs_in.
      - destruct (Hgrow q Hr) as [Hqc|?]; [left|by right].
        apply elem_of_flat_map. eauto. }
    - assert (Hqt : q ∈ ptrs (TNode p ks cs)) by (rewrite ptrs_node; set_solver).
      split; [by intros ->|]. split.
      + intros Hq2. by destruct (Hpar_out q Hq2).
      + specialize (Hbelow q Hqt). lia.
    - split; [lia|]. split; [|lia].
      intros Hq2. destruct (Hpar_out q Hq2). lia. }
  assert (Hcs1 : Forall (repr (heap db1)) cs').
  { apply Forall_forall. intros x Hx.
    destruct (graft_elem _ _ _ _ _ _ _ x Hc Hg Hx) as [Hr|Hs].
    - rewrite Forall_forall in Hres. by apply Hres.
    - assert (Hxcs : x ∈ cs) by (by eapply sibling_in).
      rewrite Forall_forall in Hreprs.
      eapply repr_frame; [|by apply Hreprs].
      intros q Hq.
      assert (Hqs : q ∈ sib_ptrs cs pos).
      { unfold sib_ptrs. rewrite <- flat_map_app. apply elem_of_flat_map. eauto. }
      apply Hfr1.
      + intros Hqc. by apply (Hsib q Hqc).
      + intros [= ->]. apply Hpcs. by eapply sib_ptrs_in.
      + apply Hbelow. rewrite ptrs_node. apply elem_of_cons. right.
        by eapply sib_ptrs_in. }
  assert (Hcs3 : Forall (repr (heap db3)) cs').
  { rewrite Forall_forall in *. intros x Hx.
    eapply repr_frame; [|by apply Hcs1].
    intros q Hq. destruct (Hcs'q x q Hx Hq) as (? & ? & ?). by rewrite Hfr3. }
  split; [done|]. split; [by eapply ins_node|].
  split; [by rewrite Hpool3|].
  split.
  { pose proof Hfin as Hfin'. unfold finish_node in Hfin'.
    case_decide; injection Hfin' as <- <-.
    - res_inv Hok3.
      res_split; apply repr_node; (split; [done|]).
      + by apply Forall_take.
      + by apply Forall_drop.
    - res_inv Hok3. res_split. by apply repr_node. }
  split.
  { destruct parent as [pp|], r as [t'|l u rr]; simpl in Hpp3 |- *.
    - destruct Hpp3 as (Hs & Hr & Hb). split; [|split; congruence].
      rewrite Hs. destruct (Hpar_out pp eq_refl) as [Hpp_t Hpp_b].
      apply Hfr1; [| |done].
      + intros Hq. apply Hpp_t. by eapply child_ptrs.
      + intros [= ->]. apply Hpp_t. rewrite ptrs_node. set_solver.
    - destruct Hpp3 as (HP' & Hr & Hb). split; [done|]. split; congruence.
    - destruct Hpp3. split; congruence.
    - done. }
  split.
  { intros q Hq1 Hq2 Hq3. rewrite Hfr3.
    - apply Hfr1; [| |done].
      + intros Hqc. apply Hq1. by eapply child_ptrs.
      + intros [= ->]. apply Hq1. rewrite ptrs_node. set_solver.
    - intros ->. apply Hq1. rewrite ptrs_node. set_solver.
    - done.
    - lia. }
  split; [done|].
  rewrite (finish_node_leaves _ _ _ _ _ _ Hfin), (graft_leaves _ _ _ _ _ _ _ Hc Hg).
  repeat rewrite <- app_assoc in Hchain1. repeat rewrite <- app_assoc.
  eapply chain_frame; [|exact Hchain1].
  intros l Hl. apply Hlk3. eapply chain_members_below; eauto.
Qed.

(** * The search-tree order *)

Lemma ksorted_nil : ksorted [].
Proof. intros i j x y Hx. by rewrite lookup_nil in Hx. Qed.

Lemma ksorted_take ks n : ksorted ks → ksorted (take n ks).
Proof.
  intros Hs i j x y Hx Hy Hij.
  apply lookup_take_Some in Hx as [Hx _]. apply lookup_take_Some in Hy as [Hy _].
  eauto.
Qed.

Lemma ksorted_drop ks n : ksorted ks → ksorted (drop n ks).
Proof.
  intros Hs i j x y Hx Hy Hij. rewrite lookup_drop in Hx, Hy.
  eapply Hs; eauto. lia.
Qed.

Lemma ksorted_linsert ks pos k :
  ksorted ks → pos ≤ length ks →
  (∀ j x, ks !! j = Some x → j < pos → klt x k) →
  (∀ j x, ks !! j = Some x → pos ≤ j → klt k x) →
  ksorted (linsert pos k ks).
Proof.
  intros Hs Hpos Hlt Hgt i j x y Hx Hy Hij.
  rewrite lookup_linsert in Hx, Hy by done.
  repeat case_decide; simplify_eq; try lia.
  - eauto.
  - eauto.
  - eapply Hs; eauto. lia.
  - eapply Hgt; eauto. lia.
  - eapply Hs; eauto. lia.
Qed.

Lemma ksorted_app l1 l2 :
  ksorted (l1 ++ l2) ↔
  ksorted l1 ∧ ksorted l2 ∧ ∀ x y, x ∈ l1 → y ∈ l2 → klt x y.
Proof.
  split.
  - intros Hs. split; [|split].
    + intros i j x y Hx Hy Hij. eapply Hs; [| |exact Hij]; by apply lookup_app_l_Some.
    + intros i j x y Hx Hy Hij.
      eapply (Hs (length l1 + i) (length l1 + j)); [| |lia];
        by rewrite lookup_app_r, Nat.add_comm, Nat.add_sub by lia.
    + intros x y [i Hx]%list_elem_of_lookup [j Hy]%list_elem_of_lookup.
      eapply (Hs i (length l1 + j)).
      * by apply lookup_app_l_Some.
      * by rewrite lookup_app_r, Nat.add_comm, Nat.add_sub by lia.
      * apply lookup_lt_Some in Hx. lia.
  - intros (H1 & H2 & H12) i j x y Hx Hy Hij.
    apply lookup_app_Some in Hx as [Hx|[Hi Hx]];
      apply lookup_app_Some in Hy as [Hy|[Hj Hy]].
    + eauto.
    + eapply H12; by eapply list_elem_of_lookup_2.
    + apply lookup_lt_Some in Hy. lia.
    + eapply H2; eauto. lia.
Qed.

Lemma ksorted_NoDup ks : ksorted ks → NoDup ks.
Proof.
  intros Hs. apply NoDup_alt. intros i j x Hi Hj.
  destruct (Nat.lt_trichotomy i j) as [Hlt|[->|Hlt]]; [|done|].
  - destruct (klt_irrefl x). by eapply (Hs i j).
  - destruct (klt_irrefl x). by eapply (Hs j i).
Qed.

(** Bounds of a subtree: its keys [x] satisfy [lo <= x < hi]. *)
Definition lo_ok (lo : option (list byte)) (x : list byte) : Prop :=
  match lo with None => True | Some l => kle l x end.

Definition hi_ok (hi : option (list byte)) (x : list byte) : Prop :=
  match hi with None => True | Some h => klt x h end.

Definition lo_lt (lo : option (list byte)) (x : list byte) : Prop :=
  match lo with None => True | Some l => klt l x end.

Definition in_range (lo hi : option (list byte)) (x : list byte) : Prop :=
  lo_ok lo x ∧ hi_ok hi x.

Definition child_lo (lo : option (list byte)) (ks : list (list byte)) (i : nat)
    : option (list byte) :=
  match i with 0 => lo | S j => ks !! j end.

Definition child_hi (hi : option (list byte)) (ks : list (list byte)) (i : nat)
    : option (list byte) :=
  match ks !! i with Some h => Some h | None => hi end.

Inductive bst : option (list byte) → option (list byte) → tree → Prop :=
  | bst_leaf lo hi p ks es :
      ksorted ks → Forall (in_range lo hi) ks → bst lo hi (TLeaf p ks es)
  | bst_node lo hi p ks cs :
      ksorted ks → Forall (in_range lo hi) ks →
      (∀ i c, cs !! i = Some c → bst (child_lo lo ks i) (child_hi hi ks i) c) →
      bst lo hi (TNode p ks cs).

Lemma lo_ok_lt lo a x : lo_ok lo a → klt a x → lo_lt lo x.
Proof. destruct lo; simpl; [|done]. apply kle_lt_trans. Qed.

Lemma lo_lt_ok lo x : lo_lt lo x → lo_ok lo x.
Proof. destruct lo; simpl; [|done]. apply klt_kle. Qed.

Lemma lo_ok_le lo a x : lo_ok lo a → kle a x → lo_ok lo x.
Proof. destruct lo; simpl; [|done]. apply kle_trans. Qed.

Lemma hi_ok_le hi a x : hi_ok hi a → kle x a → hi_ok hi x.
Proof. destruct hi; simpl; [|done]. intros. by eapply kle_lt_trans. Qed.

Lemma bst_sorted_nodes lo hi t : bst lo hi t → sorted_nodes t.
Proof.
  induction 1 as [lo hi p ks es Hs Hr|lo hi p ks cs Hs Hr Hc IH].
  - by apply sorted_nodes_leaf.
  - apply sorted_nodes_node. split; [done|].
    apply Forall_forall. intros c [i Hi]%list_elem_of_lookup. eauto.
Qed.

(** The bounds of the child the search for [k] descends into hold [k]. *)
Lemma upper_bound_child lo hi ks k pos :
  upper_bound ks k pos → lo_ok lo k → hi_ok hi k →
  lo_ok (child_lo lo ks pos) k ∧ hi_ok (child_hi hi ks pos) k.
Proof.
  intros (Hpos & Hle & Hgt) Hlo Hhi. split.
  - destruct pos as [|j]; simpl; [done|].
    destruct (ks !! j) as [x|] eqn:Hx; simpl; [|done]. eapply Hle; eauto.
  - unfold child_hi. destruct (ks !! pos) as [x|] eqn:Hx; simpl; [|done].
    eapply Hgt; eauto.
Qed.

Ltac fold_half :=
  repeat match goal with
  | |- context [fst (Nat.divmod ?n 1 0 1)] =>
      change (fst (Nat.divmod n 1 0 1)) with (n / 2)
  end.

Definition res_bst (lo hi : option (list byte)) (r : ires) : Prop :=
  match r with
  | IDone t' => bst lo hi t'
  | ISplit l u rr => bst lo (Some u) l ∧ bst (Some u) hi rr ∧ lo_lt lo u ∧ hi_ok hi u
  end.

(** The keys of a full node around the separator at [mid]. *)
Lemma split_keys_range lo hi ks mid u :
  ksorted ks → Forall (in_range lo hi) ks → 1 ≤ mid → ks !! mid = Some u →
  Forall (in_range lo (Some u)) (take mid ks)
  ∧ Forall (in_range (Some u) hi) (drop mid ks)
  ∧ Forall (in_range (Some u) hi) (drop (S mid) ks)
  ∧ lo_lt lo u ∧ hi_ok hi u.
Proof.
  intros Hs Hr Hmid Hu. rewrite Forall_forall in Hr.
  assert (Hdrop : ∀ n, mid ≤ n → Forall (in_range (Some u) hi) (drop n ks)).
  { intros n Hn. apply Forall_forall. intros x [j Hj]%list_elem_of_lookup.
    rewrite lookup_drop in Hj. split.
    - simpl. destruct (decide (n + j = mid)) as [Heq|Hne].
      + rewrite Heq in Hj. simplify_eq. apply kle_refl.
      + apply klt_kle. eapply (Hs mid (n + j)); eauto. lia.
    - apply Hr. by eapply list_elem_of_lookup_2. }
  split; [|split; [|split; [|split]]].
  - apply Forall_forall. intros x [j Hj]%list_elem_of_lookup.
    apply lookup_take_Some in Hj as [Hj Hlt]. split.
    + apply Hr. by eapply list_elem_of_lookup_2.
    + simpl. eapply (Hs j mid); eauto.
  - by apply Hdrop.
  - apply Hdrop. lia.
  - destruct (lookup_lt_is_Some_2 ks 0) as [x0 Hx0].
    { apply lookup_lt_Some in Hu. lia. }
    eapply (lo_ok_lt _ x0).
    + apply Hr. by eapply list_elem_of_lookup_2.
    + eapply (Hs 0 mid); eauto.
  - apply Hr. by eapply list_elem_of_lookup_2.
Qed.

Lemma in_range_linsert lo hi ks pos k :
  Forall (in_range lo hi) ks → in_range lo hi k → Forall (in_range lo hi) (linsert pos k ks).
Proof.
  intros Hr Hk. unfold linsert. apply Forall_app. split; [by apply Forall_take|].
  constructor; [done|by apply Forall_drop].
Qed.

Lemma finish_leaf_bst lo hi p b ks es r b' :
  ksorted ks → Forall (in_range lo hi) ks →
  finish_leaf p b ks es = (r, b') → res_bst lo hi r.
Proof.
  intros Hs Hr. unfold finish_leaf. case_decide as Hfull; intros [= <- <-]; cbn [res_bst]; fold_half.
  2: by constructor.
  rewrite ORDER_val in Hfull.
  destruct (lookup_lt_is_Some_2 ks (length ks / 2)) as [u Hu].
  { apply div2_lt. lia. }
  rewrite Hu. cbn [default from_option id].
  destruct (split_keys_range lo hi ks (length ks / 2) u Hs Hr) as (H1 & H2 & _ & H3 & H4);
    [apply div2_pos; lia|done|].
  split; [|split; [|done]].
  - constructor; [by apply ksorted_take|done].
  - constructor; [by apply ksorted_drop|done].
Qed.

Lemma graft_keys_bst lo hi ks cs pos rc ks' cs' :
  ksorted ks → Forall (in_range lo hi) ks → pos ≤ length ks →
  res_bst (child_lo lo ks pos) (child_hi hi ks pos) rc →
  graft pos rc ks cs = (ks', cs') →
  ksorted ks' ∧ Forall (in_range lo hi) ks'.
Proof.
  intros Hs Hr Hpos Hrc Hg.
  destruct rc as [c'|l u rr]; injection Hg as <- <-; [done|].
  destruct Hrc as (_ & _ & Hlo & Hhi). rewrite Forall_forall in Hr.
  assert (Hbelow : ∀ j x, ks !! j = Some x → j < pos → klt x u).
  { intros j x Hx Hj. destruct pos as [|q]; [lia|]. simpl in Hlo.
    destruct (lookup_lt_is_Some_2 ks q) as [y Hy]; [lia|]. rewrite Hy in Hlo. simpl in Hlo.
    destruct (decide (j = q)) as [->|]; [by simplify_eq|].
    eapply klt_trans; [|exact Hlo]. eapply (Hs j q); eauto. lia. }
  assert (Habove : ∀ j x, ks !! j = Some x → pos ≤ j → klt u x).
  { intros j x Hx Hj. unfold child_hi in Hhi.
    destruct (lookup_lt_is_Some_2 ks pos) as [y Hy]; [apply lookup_lt_Some in Hx; lia|].
    rewrite Hy in Hhi. simpl in Hhi.
    destruct (decide (j = pos)) as [->|]; [by simplify_eq|].
    eapply klt_trans; [exact Hhi|]. eapply (Hs pos j); eauto. lia. }
  split; [by apply ksorted_linsert|].
  apply in_range_linsert; [by apply Forall_forall|]. split.
  - destruct pos as [|q]; simpl in Hlo; [by apply lo_lt_ok|].
    destruct (lookup_lt_is_Some_2 ks q) as [y Hy]; [lia|].
    eapply (lo_ok_le _ y).
    + apply Hr. by eapply list_elem_of_lookup_2.
    + apply klt_kle. eapply Hbelow; eauto.
  - unfold child_hi in Hhi. destruct (ks !! pos) as [y|] eqn:Hy; [|done].
    eapply (hi_ok_le _ y).
    + apply Hr. by eapply list_elem_of_lookup_2.
    + by apply klt_kle.
Qed.

Lemma graft_children_bst lo hi ks cs pos (c : tree) rc ks' cs' :
  length cs = S (length ks) → pos ≤ length ks → cs !! pos = Some c →
  (∀ i c0, cs !! i = Some c0 → bst (child_lo lo ks i) (child_hi hi ks i) c0) →
  res_bst (child_lo lo ks pos) (child_hi hi ks pos) rc →
  graft pos rc ks cs = (ks', cs') →
  ∀ i c0, cs' !! i = Some c0 → bst (child_lo lo ks' i) (child_hi hi ks' i) c0.
Proof.
  intros Hlen Hpos Hc Hcs Hrc Hg i c0 Hi.
  destruct rc as [c'|l u rr]; injection Hg as <- <-.
  - destruct (decide (i = pos)) as [->|Hne].
    + rewrite list_lookup_insert_eq in Hi by (by eapply lookup_lt_Some).
      by simplify_eq.
    + rewrite list_lookup_insert_ne in Hi by done. eauto.
  - destruct Hrc as (Hl & Hrr & _).
    assert (Hlo : ∀ j, child_lo lo (linsert pos u ks) j
                       = if decide (j ≤ pos) then child_lo lo ks j
                         else if decide (j = S pos) then Some u
                         else child_lo lo ks (j - 1)).
    { intros [|j]; cbn [child_lo]; [destruct (decide (0 ≤ pos)); [done|lia]|].
      rewrite lookup_linsert by done.
      repeat case_decide; try lia; try done.
      all: destruct j; [lia|]; simpl; by rewrite Nat.sub_0_r. }
    assert (Hhi : ∀ j, child_hi hi (linsert pos u ks) j
                       = if decide (j < pos) then child_hi hi ks j
                         else if decide (j = pos) then Some u
                         else child_hi hi ks (j - 1)).
    { intros j. unfold child_hi. rewrite lookup_linsert by done.
      repeat case_decide; try lia; try done. }
    rewrite Hlo, Hhi. clear Hlo Hhi.
    rewrite lookup_linsert in Hi by (rewrite length_insert; lia).
    repeat case_decide; try lia.
    + rewrite list_lookup_insert_ne in Hi by lia. eauto.
    + subst i. rewrite list_lookup_insert_eq in Hi by (by eapply lookup_lt_Some).
      by simplify_eq.
    + subst i. simplify_eq. by rewrite Nat.sub_succ, Nat.sub_0_r.
    + rewrite list_lookup_insert_ne in Hi by lia. eauto.
Qed.

Lemma finish_node_bst lo hi p b ks cs r b' :
  ksorted ks → Forall (in_range lo hi) ks →
  (∀ i c0, cs !! i = Some c0 → bst (child_lo lo ks i) (child_hi hi ks i) c0) →
  finish_node p b ks cs = (r, b') → res_bst lo hi r.
Proof.
  intros Hs Hr Hcs. unfold finish_node.
  case_decide as Hfull; intros [= <- <-]; cbn [res_bst]; fold_half.
  2: by constructor.
  rewrite ORDER_val in Hfull.
  set (mid := length ks / 2).
  destruct (lookup_lt_is_Some_2 ks mid) as [u Hu].
  { apply div2_lt. lia. }
  rewrite Hu. cbn [default from_option id].
  destruct (split_keys_range lo hi ks mid u Hs Hr) as (H1 & _ & H2 & H3 & H4);
    [apply div2_pos; lia|done|].
  split; [|split; [|done]].
  - constructor; [by apply ksorted_take|done|].
    intros i c0 Hi. apply lookup_take_Some in Hi as [Hi Hlt].
    specialize (Hcs i c0 Hi).
    replace (child_lo lo (take mid ks) i) with (child_lo lo ks i).
    2: { destruct i as [|j]; simpl; [done|]. rewrite lookup_take_lt by lia; done. }
    replace (child_hi (Some u) (take mid ks) i) with (child_hi hi ks i); [done|].
    unfold child_hi. destruct (decide (i < mid)).
    + rewrite lookup_take_lt by lia.
      destruct (lookup_lt_is_Some_2 ks i) as [y ->]; [apply lookup_lt_Some in Hu; lia|done].
    + rewrite lookup_take_ge by lia. replace i with mid by lia. by rewrite Hu.
  - constructor; [by apply ksorted_drop|done|].
    intros i c0 Hi. rewrite lookup_drop in Hi.
    specialize (Hcs _ c0 Hi).
    replace (child_lo (Some u) (drop (S mid) ks) i) with (child_lo lo ks (S mid + i)).
    2: { destruct i as [|j]; simpl.
         - by rewrite Nat.add_0_r.
         - rewrite lookup_drop. f_equal. lia. }
    replace (child_hi hi (drop (S mid) ks) i) with (child_hi hi ks (S mid + i)); [done|].
    unfold child_hi. by rewrite lookup_drop.
Qed.

(** Insertion keeps the order. *)
Lemma ins_bst pl k e t b r b' kd :
  ins pl k e t b r b' kd →
  ∀ lo hi, bst lo hi t → wf t → lo_ok lo k → hi_ok hi k → res_bst lo hi r.
Proof.
  induction 1 as [p ks es b pos e0 x Hlb Hk He Hx Hd
                 |p ks es b pos e0 x Hlb Hk He Hx Hd
                 |p ks es b pos r b' Hlb Hne Hf
                 |p ks cs b pos c rc b1 kd ks' cs' r b' Hub Hc Hins IH Hg Hf];
    intros lo hi Hbst Hwf Hlo Hhi.
  - done.
  - inversion Hbst; subst. by constructor.
  - inversion Hbst as [? ? ? ? ? Hs Hr|]; subst.
    destruct Hlb as (Hpos & Hlt & Hge).
    eapply finish_leaf_bst; [| |exact Hf].
    + apply ksorted_linsert; [done|done|done|].
      intros j y Hy Hj.
      destruct (lookup_lt_is_Some_2 ks pos) as [z Hz]; [apply lookup_lt_Some in Hy; lia|].
      assert (klt k z).
      { destruct (decide (k = z)) as [->|Hkz]; [done|].
        pose proof (Hge pos z Hz ltac:(lia)) as Hle.
        destruct (decide (klt k z)) as [|Hn]; [done|].
        apply not_klt_kle in Hn. destruct Hkz. by apply kle_antisym. }
      destruct (decide (j = pos)) as [->|]; [by simplify_eq|].
      eapply klt_trans; [done|]. eapply (Hs pos j); eauto. lia.
    + by apply in_range_linsert.
  - inversion Hbst as [|? ? ? ? ? Hs Hr Hcs]; subst.
    apply wf_node in Hwf as [[Hlen Hcap] Hwfs].
    pose proof Hub as (Hpos & _).
    destruct (upper_bound_child lo hi ks k pos Hub Hlo Hhi) as [Hclo Hchi].
    assert (Hrc : res_bst (child_lo lo ks pos) (child_hi hi ks pos) rc).
    { apply IH; [by eapply Hcs| |done|done].
      rewrite Forall_forall in Hwfs. apply Hwfs. by eapply list_elem_of_lookup_2. }
    destruct (graft_keys_bst lo hi ks cs pos rc ks' cs' Hs Hr Hpos Hrc Hg) as [Hs' Hr'].
    eapply finish_node_bst; [done|done| |exact Hf].
    by eapply graft_children_bst.
Qed.

(** * What insertion does to the slots *)

Definition res_contents (r : ires) : list (list byte * Z) :=
  flat_map contents (res_trees r).

Lemma graft_flat_map {B} (f : tree → list B) pos rc ks cs ks' cs' (c : tree) :
  cs !! pos = Some c → graft pos rc ks cs = (ks', cs') →
  flat_map f cs'
  = flat_map f (take pos cs) ++ flat_map f (res_trees rc) ++ flat_map f (drop (S pos) cs).
Proof.
  intros Hc Hg. destruct rc as [c'|l u rr]; injection Hg as <- <-; simpl.
  - rewrite (flat_map_insert _ _ _ _ _ Hc). by rewrite app_nil_r.
  - rewrite (flat_map_graft_split _ _ _ _ _ _ Hc). by rewrite app_nil_r, <- !app_assoc.
Qed.

Lemma finish_leaf_contents p b ks es r b' :
  finish_leaf p b ks es = (r, b') → res_contents r = zip ks es.
Proof.
  unfold finish_leaf, res_contents. case_decide; intros [= <- <-]; simpl.
  - rewrite app_nil_r. rewrite <- zip_with_take, <- zip_with_drop. apply take_drop.
  - by rewrite app_nil_r.
Qed.

Lemma finish_node_contents p b ks cs r b' :
  finish_node p b ks cs = (r, b') → res_contents r = flat_map contents cs.
Proof.
  unfold finish_node, res_contents. case_decide; intros [= <- <-]; simpl.
  - by rewrite app_nil_r, flat_map_take_drop.
  - by rewrite app_nil_r.
Qed.

Definition slot_change (pl : gmap Z Entry) (k : list byte) (e : Z) (kd : kind)
    (old new : list (list byte * Z)) : Prop :=
  match kd with
  | Updated e0 =>
      new = old ∧ (k, e0) ∈ old ∧ ∃ x, pl !! e0 = Some x ∧ deleted x = false
  | Replaced e0 =>
      (∃ l1 l2, old = l1 ++ (k, e0) :: l2 ∧ new = l1 ++ (k, e) :: l2)
      ∧ ∃ x, pl !! e0 = Some x ∧ deleted x = true
  | Inserted =>
      ∃ l1 l2, old = l1 ++ l2 ∧ new = l1 ++ (k, e) :: l2
  end.

Lemma slot_change_frame pl k e kd old new l r :
  slot_change pl k e kd old new → slot_change pl k e kd (l ++ old ++ r) (l ++ new ++ r).
Proof.
  destruct kd as [e0|e0|]; simpl.
  - intros (-> & Hin & Hx). split; [done|]. split; [|done]. set_solver.
  - intros ((l1 & l2 & -> & ->) & Hx). split; [|done].
    exists (l ++ l1), (l2 ++ r). by rewrite <- !app_assoc.
  - intros (l1 & l2 & -> & ->). exists (l ++ l1), (l2 ++ r). by rewrite <- !app_assoc.
Qed.

Lemma ins_contents pl k e t b r b' kd :
  ins pl k e t b r b' kd → wf t →
  slot_change pl k e kd (contents t) (res_contents r).
Proof.
  induction 1 as [p ks es b pos e0 x Hlb Hk He Hx Hd
                 |p ks es b pos e0 x Hlb Hk He Hx Hd
                 |p ks es b pos r b' Hlb Hne Hf
                 |p ks cs b pos c rc b1 kd ks' cs' r b' Hub Hc Hins IH Hg Hf];
    intros Hwf.
  - simpl. unfold res_contents. simpl. rewrite app_nil_r. split; [done|].
    split; [by eapply leaf_contents_in|eauto].
  - simpl. unfold res_contents. simpl. rewrite app_nil_r. split; [|eauto].
    exists (take pos (zip ks es)), (drop (S pos) (zip ks es)).
    assert (Hz : zip ks es !! pos = Some (k, e0)).
    { rewrite lookup_zip_with, Hk. simpl. by rewrite He. }
    split; [by rewrite take_drop_middle|].
    rewrite <- (list_insert_id ks pos k Hk) at 1.
    rewrite <- (insert_zip_with pair). apply insert_take_drop.
    by eapply lookup_lt_Some.
  - simpl. rewrite (finish_leaf_contents _ _ _ _ _ _ Hf).
    exists (take pos (zip ks es)), (drop pos (zip ks es)).
    split; [by rewrite take_drop|].
    unfold linsert. rewrite zip_with_take, zip_with_drop.
    apply wf_leaf in Hwf as [Hlen _]. destruct Hlb as (Hpos & _).
    rewrite zip_with_app by (rewrite !length_take; lia). done.
  - rewrite (finish_node_contents _ _ _ _ _ _ Hf).
    rewrite (graft_flat_map contents _ _ _ _ _ _ _ Hc Hg). simpl.
    rewrite (flat_map_middle contents cs pos c Hc).
    apply slot_change_frame. apply IH.
    apply wf_node in Hwf as [_ Hwfs]. rewrite Forall_forall in Hwfs.
    apply Hwfs. by eapply list_elem_of_lookup_2.
Qed.

(** ** Shape *)

Lemma finish_leaf_wf p b ks es r b' :
  length es = length ks → length ks ≤ ORDER - 1 →
  finish_leaf p b ks es = (r, b') → Forall wf (res_trees r).
Proof.
  rewrite ORDER_val. intros Hlen Hcap. unfold finish_leaf.
  case_decide as Hfull; intros [= <- <-]; cbn [res_trees]; fold_half.
  - rewrite ORDER_val in Hfull.
    assert (length ks = 63) as Hl by lia.
    res_split; apply wf_leaf; unfold node_wf;
      rewrite ?length_take, ?length_drop, ?ORDER_val, Hlen, Hl;
      change (63 / 2) with 31; lia.
  - rewrite ORDER_val in Hfull.
    res_split. apply wf_leaf. unfold node_wf. rewrite ORDER_val. lia.
Qed.

Lemma finish_node_wf p b ks cs r b' :
  length cs = S (length ks) → length ks ≤ ORDER - 1 → Forall wf cs →
  finish_node p b ks cs = (r, b') → Forall wf (res_trees r).
Proof.
  rewrite ORDER_val. intros Hlen Hcap Hcs. unfold finish_node.
  case_decide as Hfull; intros [= <- <-]; cbn [res_trees]; fold_half.
  - rewrite ORDER_val in Hfull.
    assert (length ks = 63) as Hl by lia.
    res_split; apply wf_node; (split; [|by auto using Forall_take, Forall_drop]);
      unfold node_wf;
      rewrite ?length_take, ?length_drop, ?ORDER_val, Hlen, Hl;
      change (63 / 2) with 31; lia.
  - rewrite ORDER_val in Hfull.
    res_split. apply wf_node. split; [|done].
    unfold node_wf. rewrite ORDER_val. lia.
Qed.

Lemma ins_wf pl k e t b r b' kd :
  ins pl k e t b r b' kd → wf t → Forall wf (res_trees r).
Proof.
  induction 1 as [p ks es b pos e0 x Hlb Hk He Hx Hd
                 |p ks es b pos e0 x Hlb Hk He Hx Hd
                 |p ks es b pos r b' Hlb Hne Hf
                 |p ks cs b pos c rc b1 kd ks' cs' r b' Hub Hc Hins IH Hg Hf];
    intros Hwf.
  - by res_split.
  - res_split. apply wf_leaf in Hwf as [Hlen Hcap]. apply wf_leaf.
    split; [by rewrite length_insert|done].
  - apply wf_leaf in Hwf as [Hlen Hcap].
    eapply finish_leaf_wf; [| |exact Hf]; rewrite !length_linsert; lia.
  - apply wf_node in Hwf as [[Hlen Hcap] Hwfs].
    assert (Hwc : wf c).
    { rewrite Forall_forall in Hwfs. apply Hwfs. by eapply list_elem_of_lookup_2. }
    specialize (IH Hwc).
    assert (Hcs' : Forall wf cs').
    { apply Forall_forall. intros y Hy.
      destruct (graft_elem _ _ _ _ _ _ _ y Hc Hg Hy) as [Hr|Hs].
      - rewrite Forall_forall in IH. by apply IH.
      - rewrite Forall_forall in Hwfs. apply Hwfs. by eapply sibling_in. }
    eapply finish_node_wf; [| |done|exact Hf].
    + destruct rc; injection Hg as <- <-;
        rewrite ?length_linsert, ?length_insert; lia.
    + destruct rc; injection Hg as <- <-;
        rewrite ?length_linsert, ?length_insert; lia.
Qed.

(** ** Pointers stay distinct *)

Lemma ins_nodup pl k e t b r b' kd :
  ins pl k e t b r b' kd →
  NoDup (ptrs t) → (∀ q, q ∈ ptrs t → (q < b)%positive) → NoDup (res_ptrs r).
Proof.
  induction 1 as [p ks es b pos e0 x Hlb Hk He Hx Hd
                 |p ks es b pos e0 x Hlb Hk He Hx Hd
                 |p ks es b pos r b' Hlb Hne Hf
                 |p ks cs b pos c rc b1 kd ks' cs' r b' Hub Hc Hins IH Hg Hf];
    intros Hnd Hbelow.
  - by rewrite res_ptrs_done.
  - by rewrite res_ptrs_done, ptrs_leaf in *.
  - assert (p < b)%positive by (apply Hbelow; rewrite ptrs_leaf; set_solver).
    unfold finish_leaf in Hf. case_decide; injection Hf as <- <-.
    + rewrite res_ptrs_split, !ptrs_leaf. simpl.
      apply NoDup_cons. split; [|apply NoDup_singleton].
      intros Hq. apply list_elem_of_singleton in Hq. lia.
    + by rewrite res_ptrs_done, ptrs_leaf in *.
  - pose proof (ins_ptrs _ _ _ _ _ _ _ _ Hins) as [Hb1 Hgrow].
    pose proof (list_elem_of_lookup_2 _ _ _ Hc) as Hcin.
    destruct (child_nodup _ _ _ _ _ Hc Hnd) as (Hndc & Hpcs & Hsib).
    assert (Hp : (p < b)%positive) by (apply Hbelow; rewrite ptrs_node; set_solver).
    assert (Hbelow' : ∀ q, q ∈ flat_map ptrs cs → (q < b)%positive).
    { intros q Hq. apply Hbelow. rewrite ptrs_node. set_solver. }
    assert (IH' : NoDup (res_ptrs rc)).
    { apply IH; [done|]. intros q Hq. apply Hbelow'. apply elem_of_flat_map. eauto. }
    rewrite ptrs_node in Hnd. apply NoDup_cons in Hnd as [_ Hnd].
    rewrite (flat_map_middle ptrs cs pos c Hc) in Hnd.
    apply NoDup_app in Hnd as (Hnd1 & Hd1 & Hnd).
    apply NoDup_app in Hnd as (_ & Hd2 & Hnd2).
    assert (Hrc_sib : ∀ q, q ∈ res_ptrs rc → q ∉ sib_ptrs cs pos).
    { intros q Hq Hs. destruct (Hgrow q Hq) as [Hqc|Hqb].
      - by apply (Hsib q Hqc).
      - apply sib_ptrs_in in Hs. specialize (Hbelow' q Hs). lia. }
    assert (Hcs' : NoDup (flat_map ptrs cs')).
    { rewrite (graft_flat_map ptrs _ _ _ _ _ _ _ Hc Hg).
      apply NoDup_app. split; [done|]. split.
      - intros q Hq [Hq'|Hq']%elem_of_app.
        + apply (Hrc_sib q Hq'). unfold sib_ptrs. set_solver.
        + apply (Hd1 q Hq). set_solver.
      - apply NoDup_app. split; [done|]. split; [|done].
        intros q Hq Hq'. apply (Hrc_sib q Hq). unfold sib_ptrs. set_solver. }
    assert (Hcs'q : ∀ q, q ∈ flat_map ptrs cs' → q ≠ p ∧ (q < b1)%positive).
    { intros q Hq.
      destruct (graft_ptrs _ _ _ _ _ _ _ _ _ Hc Hg (conj Hb1 Hgrow) q Hq) as [Hs|Hr].
      - apply sib_ptrs_in in Hs. split; [by intros ->|].
        specialize (Hbelow' q Hs). lia.
      - destruct (Hgrow q Hr) as [Hqc|?]; [|split; lia].
        assert (q ∈ flat_map ptrs cs) by (apply elem_of_flat_map; eauto).
        split; [by intros ->|]. specialize (Hbelow' q H). lia. }
    unfold finish_node in Hf. case_decide; injection Hf as <- <-.
    + rewrite res_ptrs_split, !ptrs_node.
      eapply (NoDup_Permutation_proper _ (p :: b1 :: flat_map ptrs cs')).
      { fold_half. rewrite <- (flat_map_take_drop ptrs cs' (S (length ks' / 2))).
        set (m := length ks' / 2). simpl. constructor. symmetry. apply Permutation_middle. }
      apply NoDup_cons. split.
      * intros [->|Hq]%elem_of_cons; [lia|]. by destruct (Hcs'q p Hq).
      * apply NoDup_cons. split; [|done]. intros Hq. destruct (Hcs'q b1 Hq). lia.
    + rewrite res_ptrs_done, ptrs_node. apply NoDup_cons. split; [|done].
      intros Hq. by destruct (Hcs'q p Hq).
Qed.

(** ** The slots are sorted *)

(** ** The slots are sorted *)

Lemma child_range_sub lo hi ks i x :
  ksorted ks → Forall (in_range lo hi) ks → i ≤ length ks →
  in_range (child_lo lo ks i) (child_hi hi ks i) x → in_range lo hi x.
Proof.
  intros Hs Hr Hi [Hlo Hhi]. rewrite Forall_forall in Hr. split.
  - destruct i as [|j]; simpl in Hlo; [done|].
    destruct (lookup_lt_is_Some_2 ks j) as [y Hy]; [lia|]. rewrite Hy in Hlo.
    eapply lo_ok_le; [|exact Hlo]. apply Hr. by eapply list_elem_of_lookup_2.
  - unfold child_hi in Hhi. destruct (ks !! i) as [y|] eqn:Hy; [|done].
    eapply hi_ok_le; [|apply klt_kle; exact Hhi].
    apply Hr. by eapply list_elem_of_lookup_2.
Qed.

Lemma fmap_flat_map {A B C} (f : B → C) (g : A → list B) (l : list A) :
  f <$> flat_map g l = flat_map (λ x, f <$> g x) l.
Proof. induction l as [|x l IH]; simpl; [done|]. by rewrite fmap_app, IH. Qed.

Lemma bst_contents lo hi t :
  bst lo hi t → wf t →
  ksorted (contents t).*1 ∧ Forall (in_range lo hi) (contents t).*1.
Proof.
  induction 1 as [lo hi p ks es Hs Hr|lo hi p ks cs Hs Hr Hc IH]; intros Hwf.
  - apply wf_leaf in Hwf as [Hlen _]. simpl. rewrite fst_zip by lia. done.
  - apply wf_node in Hwf as [[Hlen _] Hwfs]. rewrite Forall_forall in Hwfs.
    simpl. rewrite fmap_flat_map.
    assert (Hch : ∀ i c, cs !! i = Some c →
              ksorted (contents c).*1
              ∧ Forall (in_range (child_lo lo ks i) (child_hi hi ks i)) (contents c).*1).
    { intros i c Hi. apply (IH i c Hi). apply Hwfs. by eapply list_elem_of_lookup_2. }
    split.
    + assert (Hsuf : ∀ n j, length cs - j = n → j ≤ length cs →
                ksorted (flat_map (λ x, (contents x).*1) (drop j cs))
                ∧ Forall (lo_ok (child_lo lo ks j))
                         (flat_map (λ x, (contents x).*1) (drop j cs))).
      { induction n as [|n IHn]; intros j Hn Hj.
        - rewrite drop_ge by lia. split; [apply ksorted_nil|constructor].
        - destruct (lookup_lt_is_Some_2 cs j) as [c Hcj]; [lia|].
          rewrite (drop_S _ _ _ Hcj). simpl.
          destruct (Hch j c Hcj) as [Hcs Hcr].
          destruct (IHn (S j)) as [Hss Hsl]; [lia|lia|].
          rewrite Forall_forall in Hcr, Hsl.
          assert (Hcross : ∀ x y, x ∈ (contents c).*1 →
                    y ∈ flat_map (λ x, (contents x).*1) (drop (S j) cs) → klt x y).
          { intros x y Hx Hy.
            destruct (decide (j < length ks)) as [Hlt|Hge].
            - destruct (lookup_lt_is_Some_2 ks j) as [m Hm]; [done|].
              destruct (Hcr x Hx) as [_ Hxh]. unfold child_hi in Hxh.
              rewrite Hm in Hxh. specialize (Hsl y Hy). simpl in Hsl.
              rewrite Hm in Hsl. by eapply klt_le_trans.
            - rewrite drop_ge in Hy by lia. by apply elem_of_nil in Hy. }
          split.
          + apply ksorted_app. done.
          + apply Forall_app. split.
            * apply Forall_forall. intros x Hx. by destruct (Hcr x Hx).
            * apply Forall_forall. intros y Hy. specialize (Hsl y Hy). simpl in Hsl.
              destruct (decide (j < length ks)) as [Hlt|Hge].
              2: { rewrite drop_ge in Hy by lia. by apply elem_of_nil in Hy. }
              destruct (lookup_lt_is_Some_2 ks j) as [m Hm]; [done|].
              rewrite Hm in Hsl. simpl in Hsl.
              destruct j as [|j']; simpl.
              -- eapply lo_ok_le; [|exact Hsl].
                 rewrite Forall_forall in Hr. apply Hr. by eapply list_elem_of_lookup_2.
              -- destruct (lookup_lt_is_Some_2 ks j') as [m' Hm']; [lia|].
                 rewrite Hm'. simpl. eapply kle_trans; [|exact Hsl].
                 apply klt_kle. eapply (Hs j' (S j')); eauto. }
      destruct (Hsuf (length cs) 0) as [H _]; [lia|lia|]. by rewrite drop_0 in H.
    + apply Forall_forall. intros x Hx.
      apply elem_of_flat_map in Hx as (c & [i Hi]%list_elem_of_lookup & Hx).
      destruct (Hch i c Hi) as [_ Hcr]. rewrite Forall_forall in Hcr.
      eapply (child_range_sub lo hi ks i); [done|done| |by apply Hcr].
      apply lookup_lt_Some in Hi. lia.
Qed.

(** * Searching *)

(** ** The search reads the key up to its length *)

Lemma memcmp_take_r a b n m : n ≤ m → memcmp a b n = memcmp a (take m b) n.
Proof.
  revert a b m. induction n as [|n IH]; intros a b m Hm; [by destruct a|].
  destruct m as [|m]; [lia|]. destruct a as [|x a], b as [|y b]; simpl; try done.
  rewrite (IH a b m) by lia. done.
Qed.

Lemma keycmp_take a la b m :
  keycmp a la b (Z.of_nat m) = keycmp a la (take m b) (Z.of_nat m).
Proof.
  unfold keycmp. rewrite <- memcmp_take_r; [done|].
  destruct (Z.ltb_spec la (Z.of_nat m)); lia.
Qed.

Lemma leaf_find_loop_take n k m fuel lo hi :
  leaf_find_loop n k (Z.of_nat m) fuel lo hi
  = leaf_find_loop n (take m k) (Z.of_nat m) fuel lo hi.
Proof.
  revert lo hi. induction fuel as [|fuel IH]; intros lo hi; simpl; [done|].
  destruct (lo <? hi)%nat; [|done].
  destruct (aget (keys n) _) as [km|]; simpl; [|done].
  destruct (aget (klens n) _) as [lm|]; simpl; [|done].
  by rewrite <- keycmp_take, !IH.
Qed.

Lemma internal_find_loop_take n k m fuel lo hi :
  internal_find_loop n k (Z.of_nat m) fuel lo hi
  = internal_find_loop n (take m k) (Z.of_nat m) fuel lo hi.
Proof.
  revert lo hi. induction fuel as [|fuel IH]; intros lo hi; simpl; [done|].
  destruct (lo <? hi)%nat; [|done].
  destruct (aget (keys n) _) as [km|]; simpl; [|done].
  destruct (aget (klens n) _) as [lm|]; simpl; [|done].
  by rewrite <- keycmp_take, !IH.
Qed.

Lemma find_leaf_loop_take fuel p k m db :
  find_leaf_loop fuel p k (Z.of_nat m) db
  = find_leaf_loop fuel p (take m k) (Z.of_nat m) db.
Proof.
  revert p db. induction fuel as [|fuel IH]; intros p db; simpl;
    unfold bind, load_node, must; (destruct (heap db !! p) as [nd|]; [|done]);
    (destruct (is_leaf nd); [done|]); [done|].
  unfold internal_find_pos. rewrite <- internal_find_loop_take.
  destruct (internal_find_loop _ _ _ _ _ _) as [pos|]; [|done].
  destruct (aget (children nd) pos) as [[c|]|]; done.
Qed.

Lemma find_leaf_take k m db :
  find_leaf k (Z.of_nat m) db = find_leaf (take m k) (Z.of_nat m) db.
Proof.
  unfold find_leaf, bind, gets. destruct (root db); [|done].
  by rewrite find_leaf_loop_take.
Qed.

Lemma bloom_maybe_take k m db : bloom_maybe k m db = bloom_maybe (take m k) m db.
Proof.
  unfold bloom_maybe, fnv1a, hash2, hash3. by rewrite !take_take, Nat.min_id.
Qed.

Lemma lookup_live_take k m db : lookup_live k m db = lookup_live (take m k) m db.
Proof.
  unfold lookup_live, bind. rewrite <- bloom_maybe_take.
  destruct (bloom_maybe k m db) as [[b db1]|]; [|done].
  destruct (negb b); [done|]. rewrite <- find_leaf_take.
  destruct (find_leaf k (Z.of_nat m) db1) as [[[leaf|] db2]|]; try done.
  destruct (load_node leaf db2) as [[n db3]|]; [|done].
  unfold leaf_find_pos. rewrite <- leaf_find_loop_take.
  destruct (must _ db3) as [[pos db4]|]; [|done].
  destruct (pos <? num_keys n)%nat; [|done].
  destruct (get_key leaf pos db4) as [[kp db5]|]; [|done].
  destruct (get_klen leaf pos db5) as [[lp db6]|]; [|done].
  by rewrite <- keycmp_take.
Qed.

Lemma strlen_le s : strlen s ≤ length s.
Proof. induction s as [|b s IH]; simpl; [done|]. destruct (u8 b =? 0)%Z; simpl; lia. Qed.

(** The bytes of a string before its terminator. *)
Definition cstr (s : list byte) : list byte := take (strlen s) s.

Lemma length_cstr s : length (cstr s) = strlen s.
Proof. unfold cstr. rewrite length_take. pose proof (strlen_le s). lia. Qed.

Lemma lookup_live_cstr s db :
  lookup_live s (strlen s) db = lookup_live (cstr s) (length (cstr s)) db.
Proof. rewrite length_cstr. apply lookup_live_take. Qed.

(** ** Descending to the leaf *)

Lemma subtrees_child p ks cs (c s : tree) :
  c ∈ cs → s ∈ subtrees c → s ∈ subtrees (TNode p ks cs).
Proof.
  intros Hc Hs. simpl. apply elem_of_cons. right. apply elem_of_flat_map. eauto.
Qed.

Lemma subtree_contents s t ke : s ∈ subtrees t → ke ∈ contents s → ke ∈ contents t.
Proof.
  induction t as [p ks es|p ks cs IH] using tree_ind'; simpl.
  - intros ->%list_elem_of_singleton. done.
  - intros [->|Hs]%elem_of_cons; [done|].
    apply elem_of_flat_map in Hs as (c & Hc & Hs). intros Hke.
    rewrite Forall_forall in IH. apply elem_of_flat_map. exists c. split; [done|].
    by apply IH.
Qed.

Lemma find_leaf_loop_spec fuel : ∀ t db lo hi k,
  repr (heap db) t → wf t → bst lo hi t → lo_ok lo k → hi_ok hi k →
  depth t ≤ fuel →
  ∃ p ks es,
    find_leaf_loop fuel (tptr t) k (len k) db = Some (p, db)
    ∧ TLeaf p ks es ∈ subtrees t
    ∧ ∀ e, (k, e) ∈ contents t → (k, e) ∈ zip ks es.
Proof.
  induction fuel as [|fuel IH]; intros t db lo hi k Hrepr Hwf Hbst Hlo Hhi Hd;
    destruct t as [p ks es|p ks cs].
  1,3: apply repr_leaf in Hrepr as (n & Hn & (Hleaf & _)); simpl in Hn;
       exists p, ks, es; simpl; mrun load_node_run; rewrite Hleaf;
       (split; [done|]); split; [set_solver|done].
  { simpl in Hd. lia. }
  apply repr_node in Hrepr as [(n & Hn & Hnr) Hreprs]. simpl in Hn, Hnr.
  pose proof Hnr as (Hleaf & Harr & Hkr & Hcl & Hcp).
  inversion Hbst as [|? ? ? ? ? Hs Hr Hcs]; subst.
  pose proof Hwf as Hwf0.
  apply wf_node in Hwf as [[Hwl Hwk] Hwfs].
  destruct (internal_find_pos_spec n ks k Hkr Hs) as (pos & Hfind & Hub).
  pose proof Hub as (Hpos & Hub1 & Hub2).
  destruct (lookup_lt_is_Some_2 cs pos) as [c Hc]; [lia|].
  pose proof (list_elem_of_lookup_2 _ _ _ Hc) as Hcin.
  assert (Hchild : aget (children n) pos = Some (Some (tptr c))).
  { apply Hcp. by rewrite !list_lookup_fmap, Hc. }
  destruct (upper_bound_child lo hi ks k pos Hub Hlo Hhi) as [Hclo Hchi].
  rewrite Forall_forall in Hreprs, Hwfs.
  destruct (IH c db _ _ k (Hreprs c Hcin) (Hwfs c Hcin) (Hcs pos c Hc) Hclo Hchi)
    as (q & lks & les & Hrun & Hsub & Hin).
  { pose proof (depth_child p ks cs c Hcin). lia. }
  exists q, lks, les. split; [|split].
  - simpl. mrun load_node_run. rewrite Hleaf. mmust. mmust. mmust. exact Hrun.
  - by eapply subtrees_child.
  - intros e He. apply Hin. simpl in He.
    apply elem_of_flat_map in He as (c' & [j Hj]%list_elem_of_lookup & He).
    assert (j = pos) as ->; [|by simplify_eq].
    assert (Hwc' : wf c') by (apply Hwfs; by eapply list_elem_of_lookup_2).
    destruct (bst_contents _ _ _ (Hcs j c' Hj) Hwc') as [_ Hrange].
    rewrite Forall_forall in Hrange.
    destruct (Hrange k) as [Hjlo Hjhi].
    { apply list_elem_of_fmap. by exists (k, e). }
    apply lookup_lt_Some in Hj.
    destruct (Nat.lt_trichotomy j pos) as [Hlt|[->|Hgt]]; [exfalso|done|exfalso].
    + destruct (lookup_lt_is_Some_2 ks j) as [x Hx]; [lia|].
      unfold child_hi in Hjhi. rewrite Hx in Hjhi. simpl in Hjhi.
      pose proof (Hub1 j x Hx Hlt) as Hle. by apply not_klt_kle in Hle.
    + destruct j as [|j']; [lia|]. simpl in Hjlo.
      destruct (lookup_lt_is_Some_2 ks j') as [x Hx]; [lia|].
      rewrite Hx in Hjlo. simpl in Hjlo.
      pose proof (Hub2 j' x Hx ltac:(lia)) as Hlt. by apply not_klt_kle in Hjlo.
Qed.

Lemma head_leaves_child cs (c : tree) p :
  cs !! 0 = Some c → head (leaves c) = Some p → head (flat_map leaves cs) = Some p.
Proof.
  destruct cs as [|c0 cs]; [done|]. intros [= ->]. simpl.
  destruct (leaves c); [done|]. done.
Qed.

Lemma leftmost_loop_spec fuel : ∀ t db,
  repr (heap db) t → wf t → depth t ≤ fuel →
  ∃ p, leftmost_loop fuel (tptr t) db = Some (p, db) ∧ head (leaves t) = Some p.
Proof.
  induction fuel as [|fuel IH]; intros t db Hrepr Hwf Hd;
    destruct t as [p ks es|p ks cs].
  1,3: apply repr_leaf in Hrepr as (n & Hn & (Hleaf & _)); simpl in Hn;
       exists p; simpl; mrun load_node_run; rewrite Hleaf; done.
  { simpl in Hd. lia. }
  apply repr_node in Hrepr as [(n & Hn & Hnr) Hreprs]. simpl in Hn, Hnr.
  pose proof Hnr as (Hleaf & Harr & Hkr & Hcl & Hcp).
  apply wf_node in Hwf as [[Hwl Hwk] Hwfs].
  destruct (lookup_lt_is_Some_2 cs 0) as [c Hc]; [lia|].
  pose proof (list_elem_of_lookup_2 _ _ _ Hc) as Hcin.
  assert (Hchild : aget (children n) 0 = Some (Some (tptr c))).
  { apply Hcp. by rewrite !list_lookup_fmap, Hc. }
  rewrite Forall_forall in Hreprs, Hwfs.
  destruct (IH c db (Hreprs c Hcin) (Hwfs c Hcin)) as (q & Hrun & Hhead).
  { pose proof (depth_child p ks cs c Hcin). lia. }
  exists q. split.
  - simpl. mrun load_node_run. rewrite Hleaf. mmust. mmust. exact Hrun.
  - simpl. by eapply head_leaves_child.
Qed.

(** ** Looking a key up in its leaf *)

Definition leaf_lookup (leaf : positive) (k : list byte) (kl : Z) : M (option Z) :=
  n <- load_node leaf ;;
  pos <- must (leaf_find_pos n k kl) ;;
  if (pos <? num_keys n)%nat then
    kp <- get_key leaf pos ;;
    lp <- get_klen leaf pos ;;
    if (keycmp kp lp k kl =? 0)%Z then
      e <- get_entry leaf pos ;;
      e <- must e ;;
      x <- load_entry e ;;
      if negb (deleted x) then ret (Some e) else ret None
    else ret None
  else ret None.

Lemma lookup_live_unfold k kl :
  lookup_live k kl =
  (b <- bloom_maybe k kl ;;
   if negb b then ret None
   else
     leaf <- find_leaf k (Z.of_nat kl) ;;
     match leaf with
     | None => ret None
     | Some leaf => leaf_lookup leaf k (Z.of_nat kl)
     end).
Proof. reflexivity. Qed.

Lemma lower_bound_hit ks k pos j :
  ksorted ks → lower_bound ks k pos → ks !! j = Some k → j = pos.
Proof.
  intros Hs (Hpos & Hlt & Hge) Hj.
  destruct (Nat.lt_trichotomy j pos) as [Hl|[->|Hg]]; [exfalso|done|exfalso].
  - by destruct (klt_irrefl k); eapply Hlt.
  - destruct (lookup_lt_is_Some_2 ks pos) as [x Hx]; [apply lookup_lt_Some in Hj; lia|].
    pose proof (Hge pos x Hx ltac:(lia)) as Hle.
    pose proof (Hs pos j x k Hx Hj Hg) as Hlt'. by apply not_klt_kle in Hle.
Qed.

Lemma zip_lookup_inv (ks : list (list byte)) (es : list Z) k e :
  (k, e) ∈ zip ks es → ∃ j, ks !! j = Some k ∧ es !! j = Some e.
Proof.
  intros [j Hj]%list_elem_of_lookup. exists j.
  rewrite lookup_zip_with in Hj.
  destruct (ks !! j) as [k'|]; simpl in Hj; [|done].
  destruct (es !! j) as [e'|]; simpl in Hj; [|done]. by simplify_eq.
Qed.

Lemma leaf_lookup_run db p n ks es k :
  heap db !! p = Some n → leaf_repr n ks es → ksorted ks →
  (∀ e, (k, e) ∈ zip ks es → is_Some (pool db !! e)) →
  ∃ r, leaf_lookup p k (len k) db = Some (r, db)
       ∧ match r with
         | Some e => (k, e) ∈ zip ks es ∧ ∃ x, pool db !! e = Some x ∧ deleted x = false
         | None => ∀ e x, (k, e) ∈ zip ks es → pool db !! e = Some x → deleted x = true
         end.
Proof.
  intros Hn Hrepr Hs Hpool.
  pose proof Hrepr as (Hleaf & Harr & Hkr & Hlen & Hes).
  pose proof Hkr as (Hnk & Hkp & Hlp).
  destruct (leaf_find_pos_spec n ks k Hkr Hs) as (pos & Hfind & Hlb).
  unfold leaf_lookup. mrun load_node_run. mmust. rewrite Hnk.
  assert (Hmiss : ks !! pos ≠ Some k →
            ∀ e x, (k, e) ∈ zip ks es → pool db !! e = Some x → deleted x = true).
  { intros Hne e x (j & Hj & _)%zip_lookup_inv _.
    destruct Hne. by rewrite <- (lower_bound_hit ks k pos j). }
  destruct (Nat.ltb_spec pos (length ks)) as [Hlt|Hge].
  2: { exists None. split; [done|]. apply Hmiss. by rewrite lookup_ge_None_2. }
  destruct (lookup_lt_is_Some_2 ks pos Hlt) as [kp Hkp'].
  destruct (keys_repr_lookup _ _ _ _ Hkr Hkp') as [Hk1 Hk2].
  mrun get_key_run. mrun get_klen_run.
  rewrite keycmp_eq. case_bool_decide as Heq.
  2: { exists None. split; [done|]. apply Hmiss. congruence. }
  subst kp.
  destruct (lookup_lt_is_Some_2 es pos) as [e0 He0]; [lia|].
  assert (He0' : entries n !! pos = Some (Some e0)).
  { apply Hes. by rewrite list_lookup_fmap, He0. }
  assert (Hin : (k, e0) ∈ zip ks es) by (by eapply leaf_contents_in).
  destruct (Hpool e0 Hin) as [old Hold].
  mrun get_entry_run. mmust. mrun load_entry_run.
  destruct (deleted old) eqn:Hdel; simpl.
  - exists None. split; [done|].
    intros e x (j & Hj & Hje)%zip_lookup_inv Hx.
    assert (j = pos) as -> by (by eapply lower_bound_hit). by simplify_eq.
  - exists (Some e0). split; [done|]. eauto.
Qed.

Local Open Scope Z_scope.

(** * The Bloom filter *)

Lemma land_bit b i :
  0 ≤ i → (Z.land b (Z.shiftl 1 i) =? 0) = negb (Z.testbit b i).
Proof.
  intros Hi. rewrite Z.shiftl_1_l.
  destruct (Z.testbit b i) eqn:Hb; simpl.
  - apply Z.eqb_neq. intros H0.
    assert (Ht : Z.testbit (Z.land b (2 ^ i)) i = true).
    { rewrite Z.land_spec, Hb, Z.pow2_bits_true; done. }
    rewrite H0, Z.bits_0 in Ht. done.
  - apply Z.eqb_eq. apply Z.bits_inj'. intros n Hn.
    rewrite Z.land_spec, Z.bits_0, Z.pow2_bits_eqb by done.
    destruct (Z.eqb_spec i n) as [->|]; [by rewrite Hb|by rewrite andb_false_r].
Qed.

(** The bit of the vector at position [q]. *)
Definition bit (bl : gmap Z Z) (q : Z) : bool :=
  Z.testbit (default 0 (bl !! Z.shiftr q 3)) (Z.land q 7).

Lemma land7 q : Z.land q 7 = q mod 8.
Proof. change 7 with (Z.ones 3). by rewrite Z.land_ones. Qed.

Lemma shiftr3 q : Z.shiftr q 3 = q / 8.
Proof. by rewrite Z.shiftr_div_pow2. Qed.

Lemma bloom_get_bit_bit db q : bloom_get_bit db q = bit (bloom db) q.
Proof.
  unfold bloom_get_bit, bit, bloom_byte. rewrite land_bit, negb_involutive; [done|].
  rewrite land7. apply Z.mod_pos_bound. lia.
Qed.

(** Only the Bloom vector and its population count differ. *)
Definition bloom_only (db db' : KVS) : Prop :=
  ∃ b s, db' = set_bloom_set_bits s (set_bloom b db).

Lemma bloom_only_refl db : bloom_only db db.
Proof. exists (bloom db), (bloom_set_bits db). by destruct db. Qed.


Lemma bloom_set_bit_spec pos db :
  ∃ db', bloom_set_bit pos db = Some (tt, db') ∧ bloom_only db db'
    ∧ (∀ q, bit (bloom db') q = bit (bloom db) q || bool_decide (q = pos))
    ∧ bloom_set_bits db'
      = if bit (bloom db) pos then bloom_set_bits db else wrap64 (bloom_set_bits db + 1).
Proof.
  unfold bloom_set_bit.
  assert (H07 : 0 ≤ Z.land pos 7) by (rewrite land7; apply Z.mod_pos_bound; lia).
  rewrite land_bit by done. fold (bit (bloom db) pos).
  unfold bloom_byte. fold (bit (bloom db) pos).
  destruct (bit (bloom db) pos) eqn:Hb; simpl.
  - exists db. split; [done|]. split; [apply bloom_only_refl|]. split; [|done].
    intros q. case_bool_decide as Hq; [subst; by rewrite Hb|by rewrite orb_false_r].
  - eexists. split; [done|]. split; [by eexists _, _|]. split; [|done].
    intros q. unfold bit at 1. simpl.
    destruct (decide (Z.shiftr q 3 = Z.shiftr pos 3)) as [Heq|Hne].
    + rewrite Heq, lookup_insert_eq. simpl.
      rewrite Z.lor_spec, Z.shiftl_1_l, Z.pow2_bits_eqb by done.
      unfold bit. rewrite Heq. f_equal.
      rewrite !shiftr3, !land7 in *.
      case_bool_decide as Hq.
      * subst. by apply Z.eqb_eq.
      * apply Z.eqb_neq. intros Hm. apply Hq.
        rewrite (Z.div_mod q 8), (Z.div_mod pos 8) by lia. congruence.
    + rewrite lookup_insert_ne by done.
      rewrite bool_decide_eq_false_2; [by rewrite orb_false_r|congruence].
Qed.

(** The three positions of a key in a vector of [bits] bits. *)
Definition positions (bits : Z) (k : list byte) : list Z :=
  [fnv1a k (length k) mod bits; hash2 k (length k) mod bits; hash3 k (length k) mod bits].


(** The key passes the filter. *)
Definition maybe (db : KVS) (k : list byte) : Prop :=
  ∀ q, q ∈ positions (bloom_bits db) k → bit (bloom db) q = true.

Lemma bloom_maybe_spec k db :
  bloom_bits db ≠ 0 →
  ∃ b, bloom_maybe k (length k) db = Some (b, db) ∧ (b = true ↔ maybe db k).
Proof.
  intros Hbits. unfold bloom_maybe, umod, maybe, positions.
  rewrite (bind_run _ _ _ _ _ (gets_run _ _)).
  rewrite (proj2 (Z.eqb_neq _ _) Hbits).
  erewrite bind_run; [|by apply must_run].
  rewrite (bind_run _ _ _ _ _ (gets_run _ _)). rewrite bloom_get_bit_bit.
  destruct (bit _ (fnv1a _ _ mod _)) eqn:H1.
  2: { exists false. split; [done|]. split; [done|]. intros H.
       rewrite H in H1; [done|set_solver]. }
  erewrite bind_run; [|by apply must_run].
  rewrite (bind_run _ _ _ _ _ (gets_run _ _)). rewrite bloom_get_bit_bit.
  destruct (bit _ (hash2 _ _ mod _)) eqn:H2.
  2: { exists false. split; [done|]. split; [done|]. intros H.
       rewrite H in H2; [done|set_solver]. }
  erewrite bind_run; [|by apply must_run].
  unfold gets. rewrite bloom_get_bit_bit.
  destruct (bit _ (hash3 _ _ mod _)) eqn:H3.
  2: { exists false. split; [done|]. split; [done|]. intros H.
       rewrite H in H3; [done|set_solver]. }
  exists true. split; [done|]. split; [|done]. intros _ q Hq.
  repeat (apply elem_of_cons in Hq as [->|Hq]; [done|]). by apply elem_of_nil in Hq.
Qed.

Lemma maybe_bloom_only db db' k :
  bloom_bits db' = bloom_bits db →
  (∀ q, bit (bloom db) q = true → bit (bloom db') q = true) →
  maybe db k → maybe db' k.
Proof. intros Hb Hm H q Hq. rewrite Hb in Hq. auto. Qed.

(** ** The filter as a value *)

(** The vector and its population count. *)
Definition filter : Type := gmap Z Z * Z.

Definition with_filter (f : filter) (db : KVS) : KVS :=
  set_bloom_set_bits f.2 (set_bloom f.1 db).

Definition filter_of (db : KVS) : filter := (bloom db, bloom_set_bits db).

Definition filter_set (pos : Z) (f : filter) : filter :=
  let idx := Z.shiftr pos 3 in
  let mask := Z.shiftl 1 (Z.land pos 7) in
  if Z.land (default 0 (f.1 !! idx)) mask =? 0
  then (<[idx := Z.lor (default 0 (f.1 !! idx)) mask]> f.1, wrap64 (f.2 + 1))
  else f.

Definition filter_add (bits : Z) (k : list byte) (f : filter) : filter :=
  filter_set (hash3 k (length k) mod bits)
    (filter_set (hash2 k (length k) mod bits)
       (filter_set (fnv1a k (length k) mod bits) f)).

Lemma with_filter_of db : with_filter (filter_of db) db = db.
Proof. by destruct db. Qed.

Lemma filter_of_with f db : filter_of (with_filter f db) = f.
Proof. by destruct f. Qed.

Lemma with_filter_twice f g db : with_filter f (with_filter g db) = with_filter f db.
Proof. done. Qed.

Lemma bloom_bits_with_filter f db : bloom_bits (with_filter f db) = bloom_bits db.
Proof. done. Qed.

Lemma bloom_set_bit_filter pos db :
  bloom_set_bit pos db = Some (tt, with_filter (filter_set pos (filter_of db)) db).
Proof.
  unfold bloom_set_bit, filter_set, filter_of, bloom_byte. simpl.
  destruct (Z.land _ _ =? 0); [done|]. by destruct db.
Qed.

Lemma bloom_add_filter k db :
  bloom_bits db ≠ 0 →
  bloom_add k (length k) db
  = Some (tt, with_filter (filter_add (bloom_bits db) k (filter_of db)) db).
Proof.
  intros Hbits. unfold bloom_add, umod, filter_add.
  rewrite (bind_run _ _ _ _ _ (gets_run _ _)).
  rewrite (proj2 (Z.eqb_neq _ _) Hbits).
  erewrite bind_run; [|by apply must_run].
  erewrite bind_run; [|apply bloom_set_bit_filter].
  erewrite bind_run; [|by apply must_run].
  erewrite bind_run; [|apply bloom_set_bit_filter].
  erewrite bind_run; [|by apply must_run].
  rewrite bloom_set_bit_filter.
  by rewrite !filter_of_with, !with_filter_twice.
Qed.

Lemma filter_set_bit pos f q :
  bit (filter_set pos f).1 q = bit f.1 q || bool_decide (q = pos).
Proof.
  destruct f as [b s].
  destruct (bloom_set_bit_spec pos (with_filter (b, s) (mkKVS ∅ 0 0 ∅ 1 None None 0 0 0 ∅ 0 0)))
    as (db' & Hrun & _ & Hbit & _).
  rewrite bloom_set_bit_filter in Hrun. injection Hrun as <-.
  specialize (Hbit q). simpl in Hbit. exact Hbit.
Qed.

Lemma filter_add_bit bits k f q :
  bit (filter_add bits k f).1 q = bit f.1 q || bool_decide (q ∈ positions bits k).
Proof.
  unfold filter_add, positions. rewrite !filter_set_bit.
  rewrite <- !orb_assoc. f_equal.
  repeat case_bool_decide; set_solver.
Qed.

(** Re-adding a list of keys. *)
Definition filter_add_all (bits : Z) (ks : list (list byte)) (f : filter) : filter :=
  foldl (λ f k, filter_add bits k f) f ks.

Lemma filter_add_all_bit bits ks f q :
  bit (filter_add_all bits ks f).1 q = true
  ↔ bit f.1 q = true ∨ ∃ k, k ∈ ks ∧ q ∈ positions bits k.
Proof.
  revert f. induction ks as [|k ks IH]; intros f; simpl.
  - split; [auto|]. intros [?|(k & Hk & _)]; [done|]. by apply elem_of_nil in Hk.
  - rewrite IH, filter_add_bit, orb_true_iff, bool_decide_eq_true.
    split.
    + intros [[?|?]|(k' & ? & ?)]; [by left|right; exists k|right; exists k']; set_solver.
    + intros [?|(k' & [->|?]%elem_of_cons & ?)]; [by left; left|by left; right|].
      right. by exists k'.
Qed.

Lemma bit_empty q : bit ∅ q = false.
Proof. unfold bit. rewrite lookup_empty. simpl. apply Z.bits_0. Qed.

Local Close Scope Z_scope.

Local Open Scope Z_scope.

(** * The invariant of the store *)

(** ** The arena *)

Definition align8 (z : Z) : Z := Z.land (wrap64 (z + 7)) (wrap64 (Z.lnot 7)).

Lemma align8_val z : 0 ≤ z < 2 ^ 63 → align8 z = 8 * ((z + 7) / 8).
Proof.
  intros Hz. unfold align8, wrap64.
  rewrite (Z.mod_small (z + 7)) by lia.
  apply Z.bits_inj'. intros n Hn.
  rewrite Z.land_spec.
  change 8 with (2 ^ 3) at 1. rewrite Z.mul_comm, <- Z.shiftl_mul_pow2 by lia.
  change 8 with (2 ^ 3). rewrite <- Z.shiftr_div_pow2 by lia.
  destruct (Z.ltb_spec n 3) as [Hlt|Hge].
  - rewrite Z.shiftl_spec_low by done.
    rewrite Z.mod_pow2_bits_low by lia.
    rewrite Z.lnot_spec by done. change 7 with (Z.ones 3).
    rewrite Z.ones_spec_low by lia. apply andb_false_r.
  - rewrite Z.shiftl_spec by done. rewrite Z.shiftr_spec by lia.
    replace (n - 3 + 3) with n by lia.
    destruct (Z.ltb_spec n 64) as [Hlt|Hge'].
    + rewrite Z.mod_pow2_bits_low by lia.
      rewrite Z.lnot_spec by done. change 7 with (Z.ones 3).
      rewrite Z.ones_spec_high by lia. apply andb_true_r.
    + rewrite Z.mod_pow2_bits_high by lia. rewrite andb_false_r.
      symmetry. apply Z.bits_above_log2; [lia|].
      apply Z.log2_lt_pow2; [lia|].
      eapply Z.lt_le_trans; [|apply Z.pow_le_mono_r with (b := 64); lia]. lia.
Qed.

Lemma align8_bounds z : 0 ≤ z < 2 ^ 63 → z ≤ align8 z < z + 8 ∧ align8 z mod 8 = 0.
Proof.
  intros Hz. rewrite align8_val by done.
  pose proof (Z.div_mod (z + 7) 8 ltac:(lia)).
  pose proof (Z.mod_pos_bound (z + 7) 8 ltac:(lia)).
  split; [lia|]. by rewrite Z.mul_comm, Z.mod_mul.
Qed.

(** What a put takes from the arena. *)
Definition cost (k v : list byte) : Z :=
  SIZEOF_ENTRY + align8 (len k + 1) + align8 (len v + 1).

(** A buffer of the program: no object is larger than [PTRDIFF_MAX]. *)
Definition buf_ok (s : list byte) : Prop := len s < 2 ^ 63 - 1.

Definition pool_ok (db : KVS) : Prop :=
  pool_size db = KVS_DEFAULT_POOL_SIZE ∧ 0 ≤ pool_pos db ≤ pool_size db.

Lemma pool_alloc_run db size :
  pool_ok db → 0 ≤ size < 2 ^ 63 →
  pool_alloc size db =
    if pool_pos db + align8 size >? pool_size db then Some (None, db)
    else Some (Some (pool_pos db), set_pool_pos (pool_pos db + align8 size) db).
Proof.
  intros [Hsz Hpos] Hsize. unfold pool_alloc. fold (align8 size).
  pose proof (align8_bounds size Hsize) as [Hb _].
  unfold KVS_DEFAULT_POOL_SIZE in Hsz.
  unfold wrap64. rewrite Z.mod_small; [done|]. lia.
Qed.

(** ** The live pairs *)

Definition slot_pair (pl : gmap Z Entry) (ke : list byte * Z)
    : option (list byte * list byte) :=
  match pl !! ke.2 with
  | Some x => if deleted x then None else Some (ke.1, value x)
  | None => None
  end.

(** The pairs of the slots that are not tombstoned, in key order. *)
Definition live_pairs (pl : gmap Z Entry) (cts : list (list byte * Z))
    : list (list byte * list byte) :=
  omap (slot_pair pl) cts.

Definition slot_ok (db : KVS) (ke : list byte * Z) : Prop :=
  ∃ x, pool db !! ke.2 = Some x ∧ key x = ke.1 ∧ klen x = len ke.1
       ∧ vlen x = len (value x)
       ∧ len ke.1 < 2 ^ 27 ∧ len (value x) < 2 ^ 27
       ∧ 0 ≤ ke.2 ∧ ke.2 + SIZEOF_ENTRY ≤ pool_pos db.

Definition total_cost (ps : list (list byte * list byte)) : Z :=
  foldr (λ kv s, cost kv.1 kv.2 + s) 0 ps.

Definition bloom_sizes : list Z := [2 ^ 20; 2 ^ 22; 2 ^ 24; 2 ^ 26].

Record Inv (db : KVS) (T : tree) : Prop := {
  inv_root : root db = Some (tptr T);
  inv_repr : repr (heap db) T;
  inv_wf : wf T;
  inv_bst : bst None None T;
  inv_nodup : NoDup (ptrs T);
  inv_fresh : fresh_from (heap db) (brk db);
  inv_chain : chain (heap db) None (leaves T) None;
  inv_first : first_leaf db = head (leaves T);
  inv_slots : Forall (slot_ok db) (contents T);
  inv_slots_nodup : NoDup (contents T).*2;
  inv_count : count db = Z.of_nat (length (live_pairs (pool db) (contents T)));
  inv_pool : pool_ok db;
  inv_cost : total_cost (live_pairs (pool db) (contents T)) ≤ pool_pos db;
  inv_bits : bloom_bits db ∈ bloom_sizes;
  inv_bloom : ∀ kv, kv ∈ live_pairs (pool db) (contents T) → maybe db kv.1
}.

Lemma live_pairs_app pl l1 l2 :
  live_pairs pl (l1 ++ l2) = live_pairs pl l1 ++ live_pairs pl l2.
Proof. apply omap_app. Qed.

Lemma live_pairs_ext pl pl' cts :
  (∀ ke, ke ∈ cts → pl' !! ke.2 = pl !! ke.2) →
  live_pairs pl' cts = live_pairs pl cts.
Proof.
  intros H. induction cts as [|ke cts IH]; [done|]. simpl.
  assert (slot_pair pl' ke = slot_pair pl ke) as ->.
  { unfold slot_pair. rewrite H; [done|set_solver]. }
  fold (live_pairs pl' cts). fold (live_pairs pl cts).
  rewrite IH; [done|]. intros. apply H. set_solver.
Qed.

Lemma live_pairs_keys pl cts kv :
  kv ∈ live_pairs pl cts →
  ∃ e x, (kv.1, e) ∈ cts ∧ pl !! e = Some x ∧ deleted x = false ∧ value x = kv.2.
Proof.
  intros (ke & Hke & Hs)%list_elem_of_omap. unfold slot_pair in Hs.
  destruct (pl !! ke.2) as [x|] eqn:Hx; [|done].
  destruct (deleted x) eqn:Hd; [done|]. injection Hs as <-.
  exists ke.2, x. by destruct ke.
Qed.

Lemma live_pairs_intro pl cts k e x :
  (k, e) ∈ cts → pl !! e = Some x → deleted x = false →
  (k, value x) ∈ live_pairs pl cts.
Proof.
  intros Hin Hx Hd. apply list_elem_of_omap. exists (k, e). split; [done|].
  unfold slot_pair. simpl. by rewrite Hx, Hd.
Qed.

Lemma live_pairs_fst_sub pl cts : sublist (live_pairs pl cts).*1 cts.*1.
Proof.
  induction cts as [|[k e] cts IH]; simpl; [done|].
  unfold slot_pair at 1. simpl. destruct (pl !! e) as [x|]; [|by constructor].
  destruct (deleted x); simpl; by constructor.
Qed.

Lemma total_cost_app l1 l2 : total_cost (l1 ++ l2) = total_cost l1 + total_cost l2.
Proof. induction l1 as [|kv l1 IH]; simpl; [done|]. rewrite IH. lia. Qed.

Lemma cost_nonneg k v : buf_ok k → buf_ok v → 0 ≤ cost k v.
Proof.
  unfold buf_ok, cost, SIZEOF_ENTRY, len. intros Hk Hv.
  pose proof (align8_bounds (Z.of_nat (length k) + 1) ltac:(lia)).
  pose proof (align8_bounds (Z.of_nat (length v) + 1) ltac:(lia)). lia.
Qed.

(** A list of distinct offsets below [n] has at most [n] members. *)
Lemma NoDup_bounded_length (l : list Z) n :
  0 ≤ n → NoDup l → (∀ x, x ∈ l → 0 ≤ x < n) → Z.of_nat (length l) ≤ n.
Proof.
  intros Hn Hnd Hb.
  assert (Hsub : l ⊆ seqZ 0 n).
  { intros x Hx. apply elem_of_seqZ. specialize (Hb x Hx). lia. }
  pose proof (submseteq_length _ _ (NoDup_submseteq _ _ Hnd Hsub)) as Hlen.
  rewrite length_seqZ in Hlen. lia.
Qed.

Local Close Scope Z_scope.

(** * Walking the leaf chain *)

Fixpoint leaf_trees (t : tree) : list tree :=
  match t with
  | TLeaf _ _ _ => [t]
  | TNode _ _ cs => flat_map leaf_trees cs
  end.

Lemma flat_map_ext_Forall {A B} (f g : A → list B) (l : list A) :
  Forall (λ x, f x = g x) l → flat_map f l = flat_map g l.
Proof. induction 1 as [|x l Hx _ IH]; simpl; [done|]. by rewrite Hx, IH. Qed.

Lemma flat_map_flat_map {A B C} (f : A → list B) (g : B → list C) (l : list A) :
  flat_map g (flat_map f l) = flat_map (λ x, flat_map g (f x)) l.
Proof. induction l as [|x l IH]; simpl; [done|]. by rewrite flat_map_app, IH. Qed.

Lemma leaves_leaf_trees t : leaves t = tptr <$> leaf_trees t.
Proof.
  induction t as [p ks es|p ks cs IH] using tree_ind'; simpl; [done|].
  rewrite fmap_flat_map. by apply flat_map_ext_Forall.
Qed.

Lemma contents_leaf_trees t : contents t = flat_map contents (leaf_trees t).
Proof.
  induction t as [p ks es|p ks cs IH] using tree_ind'; simpl; [by rewrite app_nil_r|].
  rewrite flat_map_flat_map. by apply flat_map_ext_Forall.
Qed.

Lemma leaf_trees_sub t s :
  s ∈ leaf_trees t → s ∈ subtrees t ∧ ∃ p ks es, s = TLeaf p ks es.
Proof.
  induction t as [p ks es|p ks cs IH] using tree_ind'; simpl.
  - intros ->%list_elem_of_singleton. split; [set_solver|eauto].
  - intros (c & Hc & Hs)%elem_of_flat_map. rewrite Forall_forall in IH.
    destruct (IH c Hc Hs) as [Hsub Hleaf]. split; [|done].
    apply elem_of_cons. right. apply elem_of_flat_map. eauto.
Qed.

(** The leaves a chain walk meets: their nodes are in the heap, hold the
    slots of the tree and are linked in order. *)
Definition walk_ok (h : gmap positive BPNode) (pl : gmap Z Entry) (ls : list tree) : Prop :=
  Forall (λ s, ∃ p ks es n, s = TLeaf p ks es ∧ h !! p = Some n ∧ leaf_repr n ks es
                            ∧ Forall (λ ke, is_Some (pl !! ke.2)) (zip ks es)) ls.

Lemma walk_ok_intro h pl t :
  repr h t → Forall (λ ke, is_Some (pl !! ke.2)) (contents t) →
  walk_ok h pl (leaf_trees t).
Proof.
  intros Hrepr Hsl. apply Forall_forall. intros s Hs.
  destruct (leaf_trees_sub t s Hs) as [Hsub (p & ks & es & ->)].
  unfold repr in Hrepr. rewrite Forall_forall in Hrepr.
  destruct (Hrepr _ Hsub) as (n & Hn & Hr). simpl in Hn, Hr.
  exists p, ks, es, n. split; [done|]. split; [done|]. split; [done|].
  rewrite Forall_forall in Hsl |- *. intros ke Hke. apply Hsl.
  by eapply (subtree_contents (TLeaf p ks es) t).
Qed.

Lemma chain_cons_inv h pv l ls nx :
  chain h pv (l :: ls) nx →
  ∃ n, h !! l = Some n ∧ next n = head_or ls nx ∧ chain h (Some l) ls nx.
Proof. simpl. intros (n & ? & ? & ? & ?). eauto. Qed.

(** ** [bloom_rebuild] *)

Lemma bloom_rebuild_leaf_run db l n ks es :
  heap db !! l = Some n → leaf_repr n ks es →
  Forall (λ ke, is_Some (pool db !! ke.2)) (zip ks es) →
  bloom_bits db ≠ 0%Z →
  ∀ cnt i f, (i + cnt = length ks)%nat →
    bloom_rebuild_leaf l i cnt (with_filter f db)
    = Some (tt, with_filter
                  (filter_add_all (bloom_bits db)
                     (live_pairs (pool db) (drop i (zip ks es))).*1 f) db).
Proof.
  intros Hn Hrepr Hsl Hbits.
  pose proof Hrepr as (Hleaf & Harr & Hkr & Hlen & Hes).
  induction cnt as [|cnt IH]; intros i f Hi.
  - simpl. rewrite drop_ge; [done|]. rewrite length_zip_with. lia.
  - destruct (lookup_lt_is_Some_2 ks i) as [k Hk]; [lia|].
    destruct (lookup_lt_is_Some_2 es i) as [e He]; [lia|].
    assert (Hz : zip ks es !! i = Some (k, e)).
    { rewrite lookup_zip_with, Hk. simpl. by rewrite He. }
    rewrite (drop_S _ _ _ Hz).
    rewrite Forall_forall in Hsl.
    destruct (Hsl (k, e)) as [x Hx]; [by eapply list_elem_of_lookup_2|]. simpl in Hx.
    destruct (keys_repr_lookup _ _ _ _ Hkr Hk) as [Hk1 Hk2].
    assert (He' : entries n !! i = Some (Some e)).
    { apply Hes. by rewrite list_lookup_fmap, He. }
    cbn [bloom_rebuild_leaf].
    erewrite bind_run; [|by eapply get_entry_run].
    erewrite bind_run; [|by apply must_run].
    erewrite bind_run; [|by eapply load_entry_run].
    cbn [live_pairs omap list_omap]. unfold slot_pair at 1. simpl. rewrite Hx.
    destruct (deleted x); simpl.
    + erewrite bind_run; [|reflexivity]. by rewrite IH by lia.
    + rewrite bind_assoc. erewrite bind_run; [|by eapply get_key_run].
      rewrite bind_assoc. erewrite bind_run; [|by eapply get_klen_run].
      unfold len. rewrite Nat2Z.id.
      erewrite bind_run; [|by apply bloom_add_filter].
      rewrite filter_of_with, with_filter_twice. by rewrite IH by lia.
Qed.

Lemma filter_add_all_app bits l1 l2 f :
  filter_add_all bits (l1 ++ l2) f = filter_add_all bits l2 (filter_add_all bits l1 f).
Proof. apply foldl_app. Qed.

Lemma walk_ok_cons_inv h pl s ls :
  walk_ok h pl (s :: ls) →
  (∃ p ks es n, s = TLeaf p ks es ∧ h !! p = Some n ∧ leaf_repr n ks es
                ∧ Forall (λ ke, is_Some (pl !! ke.2)) (zip ks es))
  ∧ walk_ok h pl ls.
Proof. intros H. by apply Forall_cons in H. Qed.

Lemma bloom_rebuild_loop_run db ls :
  walk_ok (heap db) (pool db) ls → bloom_bits db ≠ 0%Z →
  ∀ fuel pv f, chain (heap db) pv (tptr <$> ls) None → length ls ≤ fuel →
    bloom_rebuild_loop fuel (head_or (tptr <$> ls) None) (with_filter f db)
    = Some (tt, with_filter
                  (filter_add_all (bloom_bits db)
                     (live_pairs (pool db) (flat_map contents ls)).*1 f) db).
Proof.
  intros Hw Hbits. induction ls as [|s ls IH]; intros fuel pv f Hc Hfuel.
  - by destruct fuel.
  - apply walk_ok_cons_inv in Hw as [(p & ks & es & n & -> & Hn & Hrepr & Hsl) Hw].
    simpl in Hc. destruct Hc as (n' & Hn' & _ & Hnext & Hc).
    rewrite Hn in Hn'. injection Hn' as <-.
    destruct fuel as [|fuel]; [simpl in Hfuel; lia|].
    cbn [fmap list_fmap head_or tptr bloom_rebuild_loop].
    erewrite bind_run; [|by eapply load_node_run].
    pose proof Hrepr as (_ & _ & (Hnk & _) & _).
    erewrite bind_run;
      [|rewrite Hnk; by eapply (bloom_rebuild_leaf_run db p n ks es Hn Hrepr Hsl Hbits)].
    rewrite Hnext. rewrite (IH Hw fuel (Some p)); [|done|simpl in Hfuel; lia].
    cbn [flat_map contents]. rewrite drop_0.
    by rewrite live_pairs_app, fmap_app, filter_add_all_app.
Qed.

Lemma head_or_None {A} (l : list A) : head_or l None = head l.
Proof. by destruct l. Qed.

Lemma length_flat_map_le {A B C} (f : A → list B) (g : A → list C) (l : list A) :
  Forall (λ x, length (f x) ≤ length (g x)) l →
  length (flat_map f l) ≤ length (flat_map g l).
Proof.
  induction 1 as [|x l Hx _ IH]; simpl; [done|]. rewrite !length_app. lia.
Qed.

Lemma leaves_le_ptrs t : length (leaves t) ≤ length (ptrs t).
Proof.
  induction t as [p ks es|p ks cs IH] using tree_ind'; [done|].
  rewrite ptrs_node. simpl. pose proof (length_flat_map_le leaves ptrs cs IH). lia.
Qed.

Lemma depth_le_ptrs t : depth t ≤ length (ptrs t).
Proof.
  induction t as [p ks es|p ks cs IH] using tree_ind'; [simpl; lia|].
  rewrite ptrs_node. simpl.
  assert (foldr Nat.max 0 (map depth cs) ≤ length (flat_map ptrs cs)); [|lia].
  induction IH as [|c cs Hc _ IH']; simpl; [done|]. rewrite length_app. lia.
Qed.

Lemma repr_ptrs_some h t p : repr h t → p ∈ ptrs t → is_Some (h !! p).
Proof.
  unfold repr, ptrs. rewrite Forall_forall.
  intros Hr (s & -> & Hs)%list_elem_of_fmap.
  destruct (Hr s Hs) as (n & Hn & _). eauto.
Qed.

Lemma ptrs_le_size h t : repr h t → NoDup (ptrs t) → length (ptrs t) ≤ size h.
Proof.
  intros Hr Hnd.
  rewrite <- (size_dom (D := gset positive) h).
  rewrite <- (size_list_to_set (C := gset positive) (ptrs t) Hnd).
  apply subseteq_size. intros p Hp%elem_of_list_to_set.
  apply elem_of_dom. by eapply repr_ptrs_some.
Qed.

Lemma fuel_depth h t : repr h t → NoDup (ptrs t) → depth t ≤ size h.
Proof.
  intros Hr Hnd. pose proof (depth_le_ptrs t). pose proof (ptrs_le_size _ _ Hr Hnd). lia.
Qed.

Lemma fuel_leaves h t : repr h t → NoDup (ptrs t) → length (leaf_trees t) ≤ size h.
Proof.
  intros Hr Hnd. pose proof (leaves_le_ptrs t) as Hl.
  rewrite leaves_leaf_trees, length_fmap in Hl.
  pose proof (ptrs_le_size _ _ Hr Hnd). lia.
Qed.

Definition resolved (pl : gmap Z Entry) (t : tree) : Prop :=
  Forall (λ ke, is_Some (pl !! ke.2)) (contents t).

(** The tree as the walks over the leaf chain need it. *)
Record walkable (db : KVS) (T : tree) : Prop := {
  wk_repr : repr (heap db) T;
  wk_nodup : NoDup (ptrs T);
  wk_chain : chain (heap db) None (leaves T) None;
  wk_first : first_leaf db = head (leaves T);
  wk_resolved : resolved (pool db) T
}.

Lemma bloom_rebuild_run db T f :
  walkable db T → bloom_bits db ≠ 0%Z →
  bloom_rebuild (with_filter f db)
  = Some (tt, with_filter
                (filter_add_all (bloom_bits db) (live_pairs (pool db) (contents T)).*1 f) db).
Proof.
  intros [Hr Hnd Hc Hf Hres] Hbits. unfold bloom_rebuild.
  rewrite (bind_run _ _ _ _ _ (gets_run _ _)).
  rewrite (bind_run _ _ _ _ _ (gets_run _ _)).
  change (first_leaf (with_filter f db)) with (first_leaf db).
  rewrite Hf, <- head_or_None, leaves_leaf_trees.
  erewrite (bloom_rebuild_loop_run db (leaf_trees T)); [|by apply walk_ok_intro|done| |].
  - by rewrite <- contents_leaf_trees.
  - rewrite <- leaves_leaf_trees. exact Hc.
  - unfold walk_fuel. change (heap (with_filter f db)) with (heap db).
    by apply fuel_leaves.
Qed.

Lemma bloom_sizes_pos bits : bits ∈ bloom_sizes → (0 < bits ≤ KVS_BLOOM_MAX_BITS)%Z.
Proof.
  unfold bloom_sizes, KVS_BLOOM_MAX_BITS.
  intros H. repeat (apply elem_of_cons in H as [->|H]; [compute; split; congruence|]).
  by apply elem_of_nil in H.
Qed.

(** The size of the vector after a growth. *)
Definition grown (bits : Z) : Z := (4 * bits)%Z.

Lemma grown_sizes bits :
  bits ∈ bloom_sizes → (bits <? KVS_BLOOM_MAX_BITS)%Z = true → grown bits ∈ bloom_sizes.
Proof.
  unfold bloom_sizes, KVS_BLOOM_MAX_BITS, grown. intros H Hlt.
  repeat (apply elem_of_cons in H as [->|H];
          [first [discriminate Hlt | compute; set_solver]|]).
  by apply elem_of_nil in H.
Qed.

Lemma bloom_check_expand_run db T :
  walkable db T → bloom_bits db ∈ bloom_sizes →
  bloom_check_expand db
  = Some (tt,
      if fill_reached (bloom_set_bits db) (bloom_bits db)
         && (bloom_bits db <? KVS_BLOOM_MAX_BITS)%Z
      then with_filter
             (filter_add_all (grown (bloom_bits db))
                (live_pairs (pool db) (contents T)).*1 (∅, 0%Z))
             (set_bloom_bits (grown (bloom_bits db)) db)
      else db).
Proof.
  intros Hw Hbits. unfold bloom_check_expand.
  rewrite (bind_run _ _ _ _ _ (gets_run _ _)).
  rewrite (bind_run _ _ _ _ _ (gets_run _ _)).
  destruct (fill_reached _ _ && _) eqn:Hgrow; [|done].
  apply andb_true_iff in Hgrow as [_ Hlt].
  pose proof (bloom_sizes_pos _ Hbits) as Hpos.
  pose proof (bloom_sizes_pos _ (grown_sizes _ Hbits Hlt)) as Hpos'.
  unfold grown in *. apply Z.ltb_lt in Hlt.
  assert (HMAX : KVS_BLOOM_MAX_BITS = 67108864%Z) by reflexivity.
  rewrite HMAX in *.
  unfold bloom_expand.
  rewrite (bind_run _ _ _ _ _ (gets_run _ _)).
  unfold wrap64. rewrite (Z.mul_comm (bloom_bits db) 4).
  rewrite Z.mod_small by lia. rewrite HMAX.
  rewrite Z.gtb_ltb. rewrite (proj2 (Z.ltb_ge _ _)) by lia.
  rewrite (proj2 (Z.eqb_neq _ _)) by lia.
  rewrite (bind_run _ _ _ _ _ (modify_run _ _)).
  rewrite (bind_run _ _ _ _ _ (modify_run _ _)).
  rewrite (bind_run _ _ _ _ _ (modify_run _ _)).
  change (set_bloom_set_bits 0 (set_bloom_bits (4 * bloom_bits db) (set_bloom ∅ db)))
    with (with_filter (∅, 0%Z) (set_bloom_bits (4 * bloom_bits db) db)).
  apply (bloom_rebuild_run (set_bloom_bits (4 * bloom_bits db) db) T).
  - by destruct Hw.
  - simpl. lia.
Qed.

(** ** [kvs_foreach] *)

Definition slot_visit (pl : gmap Z Entry) (ke : list byte * Z) : option visit :=
  match pl !! ke.2 with
  | Some x => if deleted x then None else Some (key x, klen x, value x, vlen x)
  | None => None
  end.

Definition visits (pl : gmap Z Entry) (cts : list (list byte * Z)) : list visit :=
  omap (slot_visit pl) cts.

Lemma length_visits pl cts : length (visits pl cts) = length (live_pairs pl cts).
Proof.
  induction cts as [|ke cts IH]; [done|]. simpl.
  unfold slot_visit, slot_pair. destruct (pl !! ke.2) as [x|]; [|done].
  destruct (deleted x); simpl; [done|]. by f_equal.
Qed.

Lemma foreach_leaf_run db l n ks es :
  heap db !! l = Some n → leaf_repr n ks es →
  Forall (λ ke, is_Some (pool db !! ke.2)) (zip ks es) →
  ∀ cnt i acc, (i + cnt = length ks)%nat →
    foreach_leaf l i cnt acc db
    = Some (rev (visits (pool db) (drop i (zip ks es))) ++ acc, db).
Proof.
  intros Hn Hrepr Hsl.
  pose proof Hrepr as (Hleaf & Harr & Hkr & Hlen & Hes).
  induction cnt as [|cnt IH]; intros i acc Hi.
  - simpl. rewrite drop_ge; [done|]. rewrite length_zip_with. lia.
  - destruct (lookup_lt_is_Some_2 ks i) as [k Hk]; [lia|].
    destruct (lookup_lt_is_Some_2 es i) as [e He]; [lia|].
    assert (Hz : zip ks es !! i = Some (k, e)).
    { rewrite lookup_zip_with, Hk. simpl. by rewrite He. }
    rewrite (drop_S _ _ _ Hz).
    rewrite Forall_forall in Hsl.
    destruct (Hsl (k, e)) as [x Hx]; [by eapply list_elem_of_lookup_2|]. simpl in Hx.
    assert (He' : entries n !! i = Some (Some e)).
    { apply Hes. by rewrite list_lookup_fmap, He. }
    cbn [foreach_leaf].
    erewrite bind_run; [|by eapply get_entry_run].
    erewrite bind_run; [|by apply must_run].
    erewrite bind_run; [|by eapply load_entry_run].
    rewrite IH by lia.
    unfold visits at 2. cbn [omap list_omap]. unfold slot_visit at 1. simpl. rewrite Hx.
    fold (visits (pool db) (drop (S i) (zip ks es))).
    destruct (deleted x); simpl; [done|]. by rewrite <- app_assoc.
Qed.

Lemma foreach_loop_run db ls :
  walk_ok (heap db) (pool db) ls →
  ∀ fuel pv acc, chain (heap db) pv (tptr <$> ls) None → length ls ≤ fuel →
    foreach_loop fuel (head_or (tptr <$> ls) None) acc db
    = Some (rev (visits (pool db) (flat_map contents ls)) ++ acc, db).
Proof.
  intros Hw. induction ls as [|s ls IH]; intros fuel pv acc Hc Hfuel.
  - by destruct fuel.
  - apply walk_ok_cons_inv in Hw as [(p & ks & es & n & -> & Hn & Hrepr & Hsl) Hw].
    simpl in Hc. destruct Hc as (n' & Hn' & _ & Hnext & Hc).
    rewrite Hn in Hn'. injection Hn' as <-.
    destruct fuel as [|fuel]; [simpl in Hfuel; lia|].
    cbn [fmap list_fmap head_or tptr foreach_loop].
    erewrite bind_run; [|by eapply load_node_run].
    pose proof Hrepr as (_ & _ & (Hnk & _) & _).
    erewrite bind_run;
      [|rewrite Hnk; by eapply (foreach_leaf_run db p n ks es Hn Hrepr Hsl)].
    rewrite Hnext. rewrite (IH Hw fuel (Some p)); [|done|simpl in Hfuel; lia].
    cbn [flat_map contents]. rewrite drop_0.
    unfold visits. rewrite omap_app, rev_app_distr, <- app_assoc. done.
Qed.

Lemma kvs_foreach_run db T :
  walkable db T →
  kvs_foreach db
  = Some ((visits (pool db) (contents T),
           wrap64 (Z.of_nat (length (visits (pool db) (contents T))))), db).
Proof.
  intros [Hr Hnd Hc Hf Hres]. unfold kvs_foreach.
  rewrite (bind_run _ _ _ _ _ (gets_run _ _)).
  rewrite (bind_run _ _ _ _ _ (gets_run _ _)).
  rewrite Hf, <- head_or_None, leaves_leaf_trees.
  erewrite bind_run.
  2: { apply (foreach_loop_run db (leaf_trees T)) with (pv := None);
         [by apply walk_ok_intro| |].
       - rewrite <- leaves_leaf_trees. exact Hc.
       - by apply fuel_leaves. }
  rewrite <- contents_leaf_trees, app_nil_r, rev_involutive, length_rev. done.
Qed.

(** * Insertion at the root *)

(** The part of the invariant that is about the nodes. *)
Record tree_inv (db : KVS) (T : tree) : Prop := {
  ti_root : root db = Some (tptr T);
  ti_repr : repr (heap db) T;
  ti_wf : wf T;
  ti_bst : bst None None T;
  ti_nodup : NoDup (ptrs T);
  ti_fresh : fresh_from (heap db) (brk db);
  ti_chain : chain (heap db) None (leaves T) None
}.

Lemma Inv_tree_inv db T : Inv db T → tree_inv db T.
Proof. intros []. by constructor. Qed.

Lemma leaves_sublist t : sublist (leaves t) (ptrs t).
Proof.
  induction t as [p ks es|p ks cs IH] using tree_ind'; [done|].
  rewrite ptrs_node. simpl. apply sublist_cons.
  induction IH as [|c cs Hc _ IH']; simpl; [done|]. by apply sublist_app.
Qed.

Lemma tree_inv_ir_pre db T k e new :
  tree_inv db T → resolved (pool db) T →
  pool db !! e = Some new → key new = k → (len k < 2 ^ 32)%Z →
  ir_pre db T None 0 [] [] [] [] k e new.
Proof.
  intros [Hroot Hrepr Hwf Hbst Hnd Hfresh Hchain] Hres Hnew Hkey Hlen.
  constructor; try done.
  - by eapply bst_sorted_nodes.
  - intros p Hp. eapply fresh_below; [done|]. by eapply repr_ptrs_some.
  - intros ke Hke. unfold resolved in Hres. rewrite Forall_forall in Hres. by apply Hres.
  - simpl. by rewrite app_nil_r.
  - simpl. rewrite app_nil_r. eapply sublist_NoDup; [done|apply leaves_sublist].
  - intros q Hq. by apply elem_of_nil in Hq.
Qed.

(** The tree an insertion at the root leaves. *)
Definition new_tree (r : ires) (b' : positive) : tree :=
  match r with
  | IDone t => t
  | ISplit l u rr => TNode b' [u] [l; rr]
  end.

Lemma ksorted_singleton u : ksorted [u].
Proof.
  intros i j x y Hx Hy Hij. apply lookup_lt_Some in Hx, Hy. simpl in *. lia.
Qed.

Lemma insert_top db T k e new :
  tree_inv db T → resolved (pool db) T →
  pool db !! e = Some new → key new = k → (len k < 2 ^ 32)%Z →
  ∃ added db' T' kd,
    insert_recursive (size (heap db)) (tptr T) None 0 k (len k) e db = Some (added, db')
    ∧ tree_inv db' T'
    ∧ added = (if kd is Updated _ then 0 else 1)%Z
    ∧ pool_post (pool db) (pool db') kd new
    ∧ slot_change (pool db) k e kd (contents T) (contents T').
Proof.
  intros HT Hres Hnew Hkey Hlen.
  pose proof (tree_inv_ir_pre db T k e new HT Hres Hnew Hkey Hlen) as Hpre.
  destruct HT as [Hroot Hrepr Hwf Hbst Hnd Hfresh Hchain].
  destruct (insert_recursive_refines (size (heap db)) T db None 0 [] [] [] [] k e new)
    as (added & db' & Hrun & r & b' & kd & Hadded & Hins & Hpool & Hreprs & Hpp & Hfr
        & Hfresh' & Hchain'); [by apply fuel_depth|done|].
  exists added, db', (new_tree r b'), kd.
  split; [done|]. split; [|split; [done|split; [done|]]].
  2: { pose proof (ins_contents _ _ _ _ _ _ _ _ Hins Hwf) as Hsc.
       destruct r; unfold res_contents in Hsc; simpl in Hsc |- *.
       - by rewrite app_nil_r in Hsc.
       - exact Hsc. }
  pose proof (ins_wf _ _ _ _ _ _ _ _ Hins Hwf) as Hwf'.
  pose proof (ins_bst _ _ _ _ _ _ _ _ Hins None None Hbst Hwf I I) as Hbst'.
  assert (Hbelow : ∀ q, q ∈ ptrs T → (q < brk db)%positive).
  { intros q Hq. eapply fresh_below; [done|]. by eapply repr_ptrs_some. }
  pose proof (ins_nodup _ _ _ _ _ _ _ _ Hins Hnd Hbelow) as Hnd'.
  pose proof (ins_ptrs _ _ _ _ _ _ _ _ Hins) as [Hb Hgrow].
  simpl in Hchain'. rewrite app_nil_r in Hchain'.
  destruct r as [t'|l u rr]; simpl in *.
  - destruct Hpp as [Hroot' Hbrk'].
    res_inv Hreprs. res_inv Hwf'.
    rewrite app_nil_r in Hchain'. rewrite res_ptrs_done in Hnd'.
    constructor; try done.
    rewrite Hroot', Hroot. f_equal. symmetry. by eapply ins_tptr_done.
  - destruct Hpp as ((R & HR & HRr) & Hroot' & Hbrk').
    res_inv Hreprs. res_inv Hwf'.
    destruct Hbst' as (Hbl & Hbr & _ & _).
    rewrite app_nil_r in Hchain'. rewrite res_ptrs_split in Hnd', Hgrow.
    constructor; try done.
    + apply repr_node. split; [by exists R|]. by res_split.
    + apply wf_node. split; [|by res_split].
      unfold node_wf. rewrite ORDER_val. simpl. lia.
    + constructor; [apply ksorted_singleton|by repeat constructor|].
      intros [|[|i]] c Hc; simpl in Hc; simplify_eq; done.
    + rewrite ptrs_node. simpl. rewrite app_nil_r. apply NoDup_cons. split; [|done].
      intros Hq. destruct (Hgrow b' Hq) as [Hold|?]; [|lia].
      specialize (Hbelow b' Hold). lia.
    + simpl. by rewrite app_nil_r.
Qed.

Local Open Scope Z_scope.

(** * [kvs_put_raw] *)

(** What a put does to the live pairs: the pair of [k] is overwritten
    ([upd]) or a pair is added. *)
Definition put_change (k v : list byte) (upd : bool)
    (old new : list (list byte * list byte)) : Prop :=
  ∃ l1 l2, new = l1 ++ (k, v) :: l2
           ∧ if upd then ∃ v0, old = l1 ++ (k, v0) :: l2 else old = l1 ++ l2.

Definition is_update (kd : kind) : bool :=
  match kd with Updated _ => true | _ => false end.

Lemma slot_pair_live pl k e x :
  pl !! e = Some x → deleted x = false → slot_pair pl (k, e) = Some (k, value x).
Proof. intros Hx Hd. unfold slot_pair. simpl. by rewrite Hx, Hd. Qed.

Lemma slot_pair_dead pl k e x :
  pl !! e = Some x → deleted x = true → slot_pair pl (k, e) = None.
Proof. intros Hx Hd. unfold slot_pair. simpl. by rewrite Hx, Hd. Qed.

Lemma live_pairs_cons pl ke cts :
  live_pairs pl (ke :: cts)
  = match slot_pair pl ke with Some kv => kv :: live_pairs pl cts | None => live_pairs pl cts end.
Proof. done. Qed.

Lemma live_change pl0 pl6 e new k v kd cts cts' :
  deleted new = false → value new = v →
  (∀ ke, ke ∈ cts → ke.2 ≠ e) → NoDup cts.*2 →
  slot_change (<[e := new]> pl0) k e kd cts cts' →
  pool_post (<[e := new]> pl0) pl6 kd new →
  put_change k v (is_update kd) (live_pairs pl0 cts) (live_pairs pl6 cts').
Proof.
  intros Hd Hv Hfresh Hnd Hsc Hpp.
  assert (Hext : ∀ l, l ⊆ cts → live_pairs (<[e := new]> pl0) l = live_pairs pl0 l).
  { intros l Hl. apply live_pairs_ext. intros ke Hke.
    rewrite lookup_insert_ne; [done|]. intros Heq. by apply (Hfresh ke (Hl _ Hke)). }
  destruct kd as [e0|e0|]; simpl in Hsc, Hpp |- *.
  - destruct Hsc as (-> & Hin & x & Hx & Hxd).
    destruct Hpp as (old & Hold & ->). rewrite Hx in Hold. injection Hold as <-.
    apply list_elem_of_split in Hin as (l1 & l2 & ->).
    assert (He0 : e0 ≠ e) by (apply (Hfresh (k, e0)); set_solver).
    rewrite lookup_insert_ne in Hx by done.
    rewrite fmap_app, fmap_cons in Hnd. simpl in Hnd.
    apply NoDup_app in Hnd as (_ & Hd1 & Hnd2). apply NoDup_cons in Hnd2 as [Hd2 _].
    assert (Hside : ∀ l, l ⊆ l1 ++ l2 →
              live_pairs (<[e0 := set_vlen (vlen new) (set_value (value new) x)]>
                            (<[e := new]> pl0)) l = live_pairs pl0 l).
    { intros l Hl. apply live_pairs_ext. intros ke Hke.
      assert (Hke' : ke ∈ l1 ++ l2) by (by apply Hl).
      rewrite lookup_insert_ne.
      - rewrite lookup_insert_ne; [done|]. intros Heq.
        apply (Hfresh ke); [set_solver|done].
      - intros Heq. apply elem_of_app in Hke' as [Hk1|Hk2].
        + apply (Hd1 e0); [|set_solver]. apply list_elem_of_fmap. by exists ke.
        + apply Hd2. apply list_elem_of_fmap. by exists ke. }
    exists (live_pairs pl0 l1), (live_pairs pl0 l2). split.
    + rewrite live_pairs_app, live_pairs_cons.
      erewrite slot_pair_live; [|by rewrite lookup_insert_eq|done]. simpl.
      rewrite !Hside by set_solver. by rewrite Hv.
    + exists (value x). rewrite live_pairs_app, live_pairs_cons.
      by erewrite slot_pair_live.
  - destruct Hsc as ((l1 & l2 & -> & ->) & x & Hx & Hxd). subst pl6.
    assert (He0 : e0 ≠ e) by (apply (Hfresh (k, e0)); set_solver).
    rewrite lookup_insert_ne in Hx by done.
    exists (live_pairs pl0 l1), (live_pairs pl0 l2). split.
    + rewrite live_pairs_app, live_pairs_cons.
      erewrite slot_pair_live; [|by rewrite lookup_insert_eq|done].
      rewrite !Hext by set_solver. by rewrite Hv.
    + rewrite live_pairs_app, live_pairs_cons. by erewrite slot_pair_dead.
  - destruct Hsc as (l1 & l2 & -> & ->). subst pl6.
    exists (live_pairs pl0 l1), (live_pairs pl0 l2). split.
    + rewrite live_pairs_app, live_pairs_cons.
      erewrite slot_pair_live; [|by rewrite lookup_insert_eq|done].
      rewrite !Hext by set_solver. by rewrite Hv.
    + by rewrite live_pairs_app.
Qed.

Lemma put_change_length k v upd old new :
  put_change k v upd old new →
  Z.of_nat (length new) = Z.of_nat (length old) + (if upd then 0 else 1).
Proof.
  intros (l1 & l2 & -> & Hold). destruct upd.
  - destruct Hold as (v0 & ->). rewrite !length_app. simpl. lia.
  - subst old. rewrite !length_app. simpl. lia.
Qed.

Lemma put_change_cost k v upd old new :
  buf_ok k → (∀ v0, (k, v0) ∈ old → buf_ok v0) →
  put_change k v upd old new → total_cost new ≤ total_cost old + cost k v.
Proof.
  intros Hk Hold (l1 & l2 & -> & Ho). destruct upd.
  - destruct Ho as (v0 & ->). rewrite !total_cost_app. simpl.
    pose proof (cost_nonneg k v0 Hk (Hold v0 ltac:(set_solver))). lia.
  - subst old. rewrite !total_cost_app. simpl. lia.
Qed.

Lemma put_change_elem k v upd old new kv :
  put_change k v upd old new → kv ∈ new → kv = (k, v) ∨ kv ∈ old.
Proof.
  intros (l1 & l2 & -> & Ho) Hkv. destruct upd.
  - destruct Ho as (v0 & ->). set_solver.
  - subst old. set_solver.
Qed.

(** What follows the insertion in [kvs_put_raw]. *)
Definition put_tail (added : Z) : M KVSError :=
  (if negb (added =? 0)
   then modify (λ db, set_count (wrap64 (count db + 1)) db) else ret tt) ;;
  r <- gets root ;;
  r <- must r ;;
  fuel <- gets walk_fuel ;;
  n <- leftmost_loop fuel r ;;
  modify (set_first_leaf (Some n)) ;;
  c <- gets count ;;
  (if c mod 1000 =? 0 then bloom_check_expand else ret tt) ;;
  ret KVS_OK.

(** The filter after the growth check of a put. *)
Definition checked (db : KVS) (live : list (list byte)) : KVS :=
  if (count db mod 1000 =? 0)
     && (fill_reached (bloom_set_bits db) (bloom_bits db)
         && (bloom_bits db <? KVS_BLOOM_MAX_BITS))
  then with_filter (filter_add_all (grown (bloom_bits db)) live (∅, 0))
                   (set_bloom_bits (grown (bloom_bits db)) db)
  else db.

Lemma set_count_id db : set_count (count db) db = db.
Proof. by destruct db. Qed.

Lemma put_tail_run db6 T' (upd : bool) :
  tree_inv db6 T' → resolved (pool db6) T' → bloom_bits db6 ∈ bloom_sizes →
  put_tail (if upd then 0 else 1) db6
  = Some (KVS_OK,
      checked (set_first_leaf (head (leaves T'))
                 (set_count (if upd then count db6 else wrap64 (count db6 + 1)) db6))
              (live_pairs (pool db6) (contents T')).*1).
Proof.
  intros HT Hres Hbits. pose proof HT as [Hroot Hrepr Hwf Hbst Hnd Hfresh Hchain].
  unfold put_tail.
  set (c' := if upd then count db6 else wrap64 (count db6 + 1)).
  assert (Hstep : (if negb ((if upd then 0 else 1) =? 0)
                   then modify (λ db, set_count (wrap64 (count db + 1)) db) else ret tt) db6
                  = Some (tt, set_count c' db6)).
  { unfold c'. destruct upd; simpl; [by rewrite set_count_id|done]. }
  erewrite bind_run; [|exact Hstep].
  rewrite (bind_run _ _ _ _ _ (gets_run _ _)).
  erewrite bind_run; [|apply must_run; exact Hroot].
  rewrite (bind_run _ _ _ _ _ (gets_run _ _)).
  destruct (leftmost_loop_spec (walk_fuel (set_count c' db6)) T' (set_count c' db6))
    as (n & Hrun & Hhead); [done|done|by apply fuel_depth|].
  erewrite bind_run; [|exact Hrun].
  rewrite (bind_run _ _ _ _ _ (modify_run _ _)).
  rewrite (bind_run _ _ _ _ _ (gets_run _ _)).
  rewrite Hhead. unfold checked.
  change (count (set_first_leaf (Some n) (set_count c' db6))) with c'.
  destruct (c' mod 1000 =? 0); [|done].
  erewrite bind_run.
  2: { apply (bloom_check_expand_run _ T'); [|done].
       constructor; try done. }
  simpl. by destruct (fill_reached _ _ && _).
Qed.

Lemma kvs_put_raw_unfold k v :
  kvs_put_raw k v =
  (e <- pool_alloc SIZEOF_ENTRY ;;
   kp <- pool_alloc (wrap64 (len k + 1)) ;;
   vp <- pool_alloc (wrap64 (len v + 1)) ;;
   match e, kp, vp with
   | Some e, Some _, Some _ =>
       store_entry e (mkEntry k v (wrap32 (len k)) (wrap32 (len v)) false) ;;
       bloom_add k (length k) ;;
       r <- gets root ;;
       r <- must r ;;
       fuel <- gets walk_fuel ;;
       added <- insert_recursive fuel r None 0 k (len k) e ;;
       put_tail added
   | _, _, _ => ret KVS_ERR_NOMEM
   end).
Proof. reflexivity. Qed.

Lemma align8_entry : align8 SIZEOF_ENTRY = 32.
Proof. reflexivity. Qed.

Lemma tree_inv_ext db db' T :
  heap db' = heap db → brk db' = brk db → root db' = root db →
  tree_inv db T → tree_inv db' T.
Proof. intros Hh Hb Hr []. constructor; rewrite ?Hh, ?Hb, ?Hr; done. Qed.

(** The three allocations of a put that has room. *)
Lemma put_allocs {A} db k v (K : option Z → option Z → option Z → M A) :
  pool_ok db → buf_ok k → buf_ok v → pool_pos db + cost k v ≤ pool_size db →
  (e <- pool_alloc SIZEOF_ENTRY ;;
   kp <- pool_alloc (wrap64 (len k + 1)) ;;
   vp <- pool_alloc (wrap64 (len v + 1)) ;;
   K e kp vp) db
  = K (Some (pool_pos db)) (Some (pool_pos db + 32))
      (Some (pool_pos db + 32 + align8 (len k + 1)))
      (set_pool_pos (pool_pos db + cost k v) db).
Proof.
  intros [Hsz Hpos] Hk Hv Hroom. unfold buf_ok, cost, SIZEOF_ENTRY in *.
  unfold len in *.
  pose proof (align8_bounds (Z.of_nat (length k) + 1) ltac:(lia)) as [Hak _].
  pose proof (align8_bounds (Z.of_nat (length v) + 1) ltac:(lia)) as [Hav _].
  unfold wrap64. rewrite !Z.mod_small by lia.
  erewrite bind_run.
  2: { rewrite pool_alloc_run; [|done|split; [done|reflexivity]].
       change (align8 32) with 32.
       rewrite Z.gtb_ltb, (proj2 (Z.ltb_ge _ _)) by lia. reflexivity. }
  erewrite bind_run.
  2: { rewrite pool_alloc_run; [|split; simpl; lia|lia]. simpl.
       rewrite Z.gtb_ltb, (proj2 (Z.ltb_ge _ _)) by lia. reflexivity. }
  erewrite bind_run.
  2: { rewrite pool_alloc_run; [|split; simpl; lia|lia]. simpl.
       rewrite Z.gtb_ltb, (proj2 (Z.ltb_ge _ _)) by lia. reflexivity. }
  f_equal. unfold set_pool_pos. simpl. f_equal. lia.
Qed.

Lemma checked_fields db live :
  heap (checked db live) = heap db ∧ brk (checked db live) = brk db
  ∧ root (checked db live) = root db ∧ pool (checked db live) = pool db
  ∧ pool_pos (checked db live) = pool_pos db ∧ pool_size (checked db live) = pool_size db
  ∧ first_leaf (checked db live) = first_leaf db ∧ count (checked db live) = count db.
Proof. unfold checked. by destruct (_ && _). Qed.

Lemma slots_count_bound db T :
  Forall (slot_ok db) (contents T) → NoDup (contents T).*2 → pool_ok db →
  Z.of_nat (length (live_pairs (pool db) (contents T))) ≤ 2 ^ 27.
Proof.
  intros Hsl Hnd [Hsz Hpos].
  pose proof (sublist_length _ _ (live_pairs_fst_sub (pool db) (contents T))) as Hl.
  rewrite !length_fmap in Hl.
  assert (Z.of_nat (length (contents T).*2) ≤ 2 ^ 27); [|rewrite length_fmap in *; lia].
  apply NoDup_bounded_length; [done|done|].
  intros e (ke & -> & Hke)%list_elem_of_fmap.
  rewrite Forall_forall in Hsl. destruct (Hsl ke Hke) as (x & _ & _ & _ & _ & _ & _ & H0 & H1).
  unfold SIZEOF_ENTRY, KVS_DEFAULT_POOL_SIZE in *. lia.
Qed.

Lemma slot_change_elem pl k e kd old new ke :
  slot_change pl k e kd old new → ke ∈ new → ke = (k, e) ∨ ke ∈ old.
Proof.
  destruct kd as [e0|e0|]; simpl.
  - intros (-> & _). auto.
  - intros ((l1 & l2 & -> & ->) & _). set_solver.
  - intros (l1 & l2 & -> & ->). set_solver.
Qed.

Lemma slot_change_nodup pl k e kd old new :
  slot_change pl k e kd old new → NoDup old.*2 → e ∉ old.*2 → NoDup new.*2.
Proof.
  destruct kd as [e0|e0|]; simpl.
  - by intros (-> & _).
  - intros ((l1 & l2 & -> & ->) & _). rewrite !fmap_app, !fmap_cons. simpl.
    rewrite !NoDup_app, !NoDup_cons. set_solver.
  - intros (l1 & l2 & -> & ->). rewrite !fmap_app, !fmap_cons. simpl.
    rewrite !NoDup_app, !NoDup_cons. set_solver.
Qed.

(** The filter after a put: the key is added; when the count of live keys
    has become a multiple of 1000 and half of the bits or more are counted
    as set, the vector is replaced by one of four times the size that holds
    the live keys. *)
Definition put_filter (db : KVS) (k : list byte) (db' : KVS) (live' : list (list byte))
    : Prop :=
  let f1 := filter_add (bloom_bits db) k (filter_of db) in
  if (count db' mod 1000 =? 0)
     && (fill_reached f1.2 (bloom_bits db) && (bloom_bits db <? KVS_BLOOM_MAX_BITS))
  then bloom_bits db' = grown (bloom_bits db)
       ∧ filter_of db' = filter_add_all (grown (bloom_bits db)) live' (∅, 0)
  else bloom_bits db' = bloom_bits db ∧ filter_of db' = f1.

Lemma kvs_put_raw_ok db T k v :
  Inv db T → buf_ok k → buf_ok v → pool_pos db + cost k v ≤ pool_size db →
  ∃ db' T' upd,
    kvs_put_raw k v db = Some (KVS_OK, db') ∧ Inv db' T'
    ∧ put_change k v upd (live_pairs (pool db) (contents T))
                         (live_pairs (pool db') (contents T'))
    ∧ pool_pos db' = pool_pos db + cost k v
    ∧ put_filter db k db' (live_pairs (pool db') (contents T')).*1.
Proof.
  intros HI Hk Hv Hroom.
  pose proof HI as [Hroot Hrepr Hwf Hbst Hnd Hfresh Hchain Hfirst Hslots Hsnd Hcount
                      Hpool Hcost Hbits Hbloom].
  pose proof Hpool as [Hsz Hpos].
  pose proof (bloom_sizes_pos _ Hbits) as Hbpos.
  set (e := pool_pos db).
  set (new := mkEntry k v (wrap32 (len k)) (wrap32 (len v)) false).
  set (f1 := filter_add (bloom_bits db) k (filter_of db)).
  set (db5 := with_filter f1 (set_pool (<[e := new]> (pool db))
                                (set_pool_pos (pool_pos db + cost k v) db))).
  (* lengths *)
  assert (Hlens : len k < 2 ^ 27 ∧ len v < 2 ^ 27).
  { unfold buf_ok, cost, SIZEOF_ENTRY, KVS_DEFAULT_POOL_SIZE in *.
    pose proof (align8_bounds (len k + 1) ltac:(unfold len in *; lia)) as [Hak _].
    pose proof (align8_bounds (len v + 1) ltac:(unfold len in *; lia)) as [Hav _].
    unfold len in *. lia. }
  destruct Hlens as [Hlk Hlv].
  assert (Hw32 : wrap32 (len k) = len k ∧ wrap32 (len v) = len v).
  { unfold len in *. split; apply wrap32_small; lia. }
  destruct Hw32 as [Hwk Hwv].
  (* the slots are older than the new entry *)
  rewrite Forall_forall in Hslots.
  assert (Hold : ∀ ke, ke ∈ contents T → ke.2 ≠ e).
  { intros ke Hke. destruct (Hslots ke Hke) as (x & _ & _ & _ & _ & _ & _ & _ & Hlt).
    unfold e, SIZEOF_ENTRY in *. lia. }
  assert (HT5 : tree_inv db5 T) by (by constructor).
  assert (Hres5 : resolved (pool db5) T).
  { apply Forall_forall. intros ke Hke.
    destruct (Hslots ke Hke) as (x & Hx & _).
    exists x. simpl. rewrite lookup_insert_ne; [done|]. intros Heq. by apply (Hold ke). }
  destruct (insert_top db5 T k e new HT5 Hres5) as
    (added & db6 & T' & kd & Hrun & HT6 & Hadded & Hpp & Hsc).
  { simpl. by rewrite lookup_insert_eq. }
  { done. }
  { lia. }
  change (size (heap db5)) with (walk_fuel db5) in Hrun.
  assert (Hkeep : pool_pos db6 = pool_pos db + cost k v ∧ pool_size db6 = pool_size db
                  ∧ count db6 = count db ∧ bloom db6 = f1.1
                  ∧ bloom_bits db6 = bloom_bits db ∧ bloom_set_bits db6 = f1.2).
  { repeat split.
    - apply (keeps_insert_recursive pool_pos _ _ _ _ _ _ _ _ _ _ Hrun).
    - apply (keeps_insert_recursive pool_size _ _ _ _ _ _ _ _ _ _ Hrun).
    - apply (keeps_insert_recursive count _ _ _ _ _ _ _ _ _ _ Hrun).
    - apply (keeps_insert_recursive bloom _ _ _ _ _ _ _ _ _ _ Hrun).
    - apply (keeps_insert_recursive bloom_bits _ _ _ _ _ _ _ _ _ _ Hrun).
    - apply (keeps_insert_recursive bloom_set_bits _ _ _ _ _ _ _ _ _ _ Hrun). }
  destruct Hkeep as (Hpp6 & Hps6 & Hc6 & Hb6 & Hbb6 & Hbs6).
  (* the live pairs *)
  assert (Hlive : put_change k v (is_update kd) (live_pairs (pool db) (contents T))
                             (live_pairs (pool db6) (contents T'))).
  { eapply (live_change (pool db) (pool db6) e new); done. }
  assert (Hres6 : resolved (pool db6) T').
  { apply Forall_forall. intros ke Hke.
    assert (is_Some (pool db5 !! ke.2)) as [x Hx].
    { destruct (slot_change_elem _ _ _ _ _ _ ke Hsc Hke) as [->|Hin].
      - simpl. rewrite lookup_insert_eq. eauto.
      - unfold resolved in Hres5. rewrite Forall_forall in Hres5. by apply Hres5. }
    destruct kd as [e0|e0|]; simpl in Hpp.
    - destruct Hpp as (old & _ & ->).
      destruct (decide (ke.2 = e0)) as [->|Hne].
      + rewrite lookup_insert_eq. eauto.
      + rewrite lookup_insert_ne by done. eauto.
    - rewrite Hpp. eauto.
    - rewrite Hpp. eauto. }
  exists (checked (set_first_leaf (head (leaves T'))
                     (set_count (if is_update kd then count db6
                                 else wrap64 (count db6 + 1)) db6))
                  (live_pairs (pool db6) (contents T')).*1), T', (is_update kd).
  split.
  { rewrite kvs_put_raw_unfold. rewrite put_allocs by done.
    unfold store_entry. rewrite (bind_run _ _ _ _ _ (modify_run _ _)).
    erewrite bind_run; [|apply bloom_add_filter; simpl; lia].
    rewrite (bind_run _ _ _ _ _ (gets_run _ _)).
    erewrite bind_run; [|apply must_run; exact Hroot].
    rewrite (bind_run _ _ _ _ _ (gets_run _ _)).
    erewrite bind_run; [|exact Hrun].
    rewrite Hadded.
    replace (if kd is Updated _ then 0 else 1) with (if is_update kd then 0 else 1)
      by (by destruct kd).
    apply put_tail_run; [done|done|]. by rewrite Hbb6. }
  set (c' := if is_update kd then count db6 else wrap64 (count db6 + 1)).
  set (db8 := set_first_leaf (head (leaves T')) (set_count c' db6)).
  set (live' := live_pairs (pool db6) (contents T')).
  destruct (checked_fields db8 live'.*1) as (Hh & Hbk & Hrt & Hpl & Hpo & Hpsz & Hfl & Hcn).
  rewrite Hpl. fold live'.
  assert (Hc' : c' = Z.of_nat (length live')).
  { pose proof (put_change_length _ _ _ _ _ Hlive) as Hlen. fold live' in Hlen.
    pose proof (slots_count_bound db T ltac:(by apply Forall_forall) Hsnd Hpool).
    unfold c'. rewrite Hc6, Hcount. destruct (is_update kd); [lia|].
    unfold wrap64. rewrite Z.mod_small; lia. }
  split; [|split; [done|split; [by rewrite Hpo|]]].
  2: { unfold put_filter. rewrite Hcn. unfold checked. simpl.
       rewrite Hbb6, Hbs6. fold f1.
       destruct (_ && _).
       - split; [done|]. apply filter_of_with.
       - split; [done|]. unfold filter_of. simpl. rewrite Hb6, Hbs6. by destruct f1. }
  constructor.
  - by rewrite Hrt; destruct HT6.
  - by rewrite Hh; destruct HT6.
  - by destruct HT6.
  - by destruct HT6.
  - by destruct HT6.
  - by rewrite Hh, Hbk; destruct HT6.
  - by rewrite Hh; destruct HT6.
  - by rewrite Hfl.
  - (* the slots *)
    apply Forall_forall. intros ke Hke. unfold slot_ok. rewrite Hpl, Hpo. simpl.
    rewrite Hpp6.
    assert (Hnew_ok : ∃ x, <[e := new]> (pool db) !! ke.2 = Some x ∧ key x = ke.1
              ∧ klen x = len ke.1 ∧ vlen x = len (value x)
              ∧ len ke.1 < 2 ^ 27 ∧ len (value x) < 2 ^ 27
              ∧ 0 ≤ ke.2 ∧ ke.2 + SIZEOF_ENTRY ≤ pool_pos db + cost k v).
    { pose proof (cost_nonneg k v Hk Hv).
      destruct (slot_change_elem _ _ _ _ _ _ ke Hsc Hke) as [->|Hin].
      - exists new. simpl. rewrite lookup_insert_eq.
        unfold e, cost, SIZEOF_ENTRY in *.
        pose proof (align8_bounds (len k + 1) ltac:(unfold len in *; lia)) as [Hak _].
        pose proof (align8_bounds (len v + 1) ltac:(unfold len in *; lia)) as [Hav _].
        repeat split; try done; unfold len in *; lia.
      - destruct (Hslots ke Hin) as (x & Hx & H1 & H2 & H3 & H4 & H5 & H6 & H7).
        exists x. rewrite lookup_insert_ne by (intros Heq; by apply (Hold ke)).
        repeat split; try done; lia. }
    destruct Hnew_ok as (x & Hx & H1 & H2 & H3 & H4 & H5 & H6 & H7).
    destruct kd as [e0|e0|]; simpl in Hpp.
    + destruct Hpp as (old & Hold0 & ->).
      destruct (decide (ke.2 = e0)) as [Heq|Hne].
      * rewrite Heq, lookup_insert_eq. rewrite Heq in Hx. simpl in Hx, Hold0.
        rewrite Hold0 in Hx. injection Hx as ->.
        eexists. split; [done|]. simpl. rewrite Hwv. rewrite Heq in *.
        repeat split; try done; lia.
      * rewrite lookup_insert_ne by done. exists x. simpl. repeat split; try done; lia.
    + rewrite Hpp. exists x. simpl. repeat split; try done; lia.
    + rewrite Hpp. exists x. simpl. repeat split; try done; lia.
  - eapply slot_change_nodup; [exact Hsc|exact Hsnd|].
    intros (ke & Heq & Hke)%list_elem_of_fmap. by apply (Hold ke).
  - rewrite Hcn, Hpl. exact Hc'.
  - split; rewrite ?Hpo, Hpsz; simpl; rewrite ?Hpp6, Hps6; [done|].
    pose proof (cost_nonneg k v Hk Hv). lia.
  - rewrite Hpo, Hpl. simpl. rewrite Hpp6.
    assert (Hpc : total_cost live' ≤ total_cost (live_pairs (pool db) (contents T))
                                     + cost k v); [|unfold live' in Hpc; lia].
    eapply put_change_cost; [done| |exact Hlive].
    intros v0 Hv0. destruct (live_pairs_keys _ _ _ Hv0) as (e0 & x & Hin & Hx & _ & Hval).
    destruct (Hslots _ Hin) as (x' & Hx' & _ & _ & _ & _ & Hl & _).
    simpl in *. rewrite Hx in Hx'. injection Hx' as <-. rewrite Hval in Hl.
    unfold buf_ok. lia.
  - unfold checked. destruct (_ && _) eqn:Hg; simpl; rewrite ?Hbb6; [|done].
    apply andb_true_iff in Hg as [_ [_ Hlt]%andb_true_iff]. simpl in Hlt.
    rewrite Hbb6 in Hlt. by apply grown_sizes.
  - rewrite Hpl. intros kv Hkv. unfold checked. destruct (_ && _) eqn:Hg; simpl.
    + intros q Hq. simpl in Hq. apply filter_add_all_bit. right.
      exists kv.1. split; [|done]. apply list_elem_of_fmap. by exists kv.
    + intros q Hq. simpl in Hq. simpl. rewrite Hb6. unfold f1.
      rewrite filter_add_bit. rewrite Hbb6 in Hq.
      destruct (put_change_elem _ _ _ _ _ kv Hlive Hkv) as [->|Hin].
      * simpl in Hq. rewrite bool_decide_eq_true_2 by done. apply orb_true_r.
      * unfold filter_of. simpl. rewrite (Hbloom kv Hin q Hq). done.
Qed.

Local Close Scope Z_scope.

Local Open Scope Z_scope.

(** * Lookup, deletion and failing puts *)

Lemma Inv_resolved db T : Inv db T → resolved (pool db) T.
Proof.
  intros HI. pose proof (inv_slots _ _ HI) as Hs.
  unfold resolved. rewrite Forall_forall in *. intros ke Hke.
  destruct (Hs ke Hke) as (x & Hx & _). eauto.
Qed.

Lemma Inv_walkable db T : Inv db T → walkable db T.
Proof. intros HI. pose proof (Inv_resolved _ _ HI). destruct HI. by constructor. Qed.

Lemma Inv_keys_sorted db T : Inv db T → ksorted (contents T).*1.
Proof. intros HI. by destruct (bst_contents _ _ _ (inv_bst _ _ HI) (inv_wf _ _ HI)). Qed.

Lemma live_keys_nodup db T : Inv db T → NoDup (live_pairs (pool db) (contents T)).*1.
Proof.
  intros HI. eapply sublist_NoDup; [|apply live_pairs_fst_sub].
  apply ksorted_NoDup. by eapply Inv_keys_sorted.
Qed.

(** The slot of a key is unique. *)
Lemma slot_unique db T k e1 e2 :
  Inv db T → (k, e1) ∈ contents T → (k, e2) ∈ contents T → e1 = e2.
Proof.
  intros HI H1 H2. pose proof (ksorted_NoDup _ (Inv_keys_sorted _ _ HI)) as Hnd.
  apply list_elem_of_lookup in H1 as [i Hi]. apply list_elem_of_lookup in H2 as [j Hj].
  assert (i = j) as ->; [|congruence].
  eapply (NoDup_lookup _ i j k Hnd); rewrite list_lookup_fmap; [by rewrite Hi|by rewrite Hj].
Qed.

Lemma lookup_live_spec db T k :
  Inv db T →
  ∃ r, lookup_live k (length k) db = Some (r, db)
       ∧ match r with
         | Some e => (k, e) ∈ contents T
                     ∧ ∃ x, pool db !! e = Some x ∧ deleted x = false
         | None => k ∉ (live_pairs (pool db) (contents T)).*1
         end.
Proof.
  intros HI. pose proof (bloom_sizes_pos _ (inv_bits _ _ HI)) as Hbits.
  rewrite lookup_live_unfold.
  destruct (bloom_maybe_spec k db) as (b & Hrun & Hb); [lia|].
  erewrite bind_run; [|exact Hrun].
  destruct b; simpl.
  2: { exists None. split; [done|].
       intros (kv & -> & Hkv)%list_elem_of_fmap.
       pose proof (inv_bloom _ _ HI kv Hkv) as Hm. apply Hb in Hm. done. }
  destruct (find_leaf_loop_spec (walk_fuel db) T db None None k)
    as (p & ks & es & Hfl & Hsub & Hin);
    [by destruct HI|by destruct HI|by destruct HI|done|done| |].
  { apply fuel_depth; by destruct HI. }
  assert (Hfind : find_leaf k (len k) db = Some (Some p, db)).
  { unfold find_leaf. rewrite (bind_run _ _ _ _ _ (gets_run _ _)).
    rewrite (inv_root _ _ HI).
    rewrite (bind_run _ _ _ _ _ (gets_run _ _)).
    erewrite bind_run; [|exact Hfl]. done. }
  fold (len k). erewrite bind_run; [|exact Hfind].
  pose proof (inv_repr _ _ HI) as Hrepr. unfold repr in Hrepr.
  rewrite Forall_forall in Hrepr.
  destruct (Hrepr _ Hsub) as (n & Hn & Hnr). simpl in Hn, Hnr.
  assert (Hls : ksorted ks).
  { pose proof (bst_sorted_nodes _ _ _ (inv_bst _ _ HI)) as Hsn.
    unfold sorted_nodes in Hsn. rewrite Forall_forall in Hsn. by apply (Hsn _ Hsub). }
  pose proof (Inv_resolved _ _ HI) as Hres. unfold resolved in Hres.
  rewrite Forall_forall in Hres.
  destruct (leaf_lookup_run db p n ks es k Hn Hnr Hls) as (r & Hrun' & Hr).
  { intros e He. apply (Hres (k, e)). by eapply (subtree_contents (TLeaf p ks es)). }
  exists r. split; [done|]. destruct r as [e|].
  - destruct Hr as [He Hx]. split; [|done]. by eapply (subtree_contents (TLeaf p ks es)).
  - intros (kv & -> & Hkv)%list_elem_of_fmap.
    destruct (live_pairs_keys _ _ _ Hkv) as (e & x & Hin' & Hx & Hd & _).
    rewrite (Hr e x (Hin e Hin') Hx) in Hd. done.
Qed.

(** The live pairs when the entry of a live slot is tombstoned. *)
Lemma live_pairs_tombstone pl cts k e x :
  NoDup cts.*2 → (k, e) ∈ cts → pl !! e = Some x → deleted x = false →
  ∃ l1 l2, live_pairs pl cts = l1 ++ (k, value x) :: l2
           ∧ live_pairs (<[e := set_deleted true x]> pl) cts = l1 ++ l2.
Proof.
  intros Hnd Hin Hx Hd.
  apply list_elem_of_split in Hin as (c1 & c2 & ->).
  rewrite fmap_app, fmap_cons in Hnd. simpl in Hnd.
  apply NoDup_app in Hnd as (_ & Hd1 & Hnd2). apply NoDup_cons in Hnd2 as [Hd2 _].
  assert (Hside : ∀ l, l ⊆ c1 ++ c2 →
            live_pairs (<[e := set_deleted true x]> pl) l = live_pairs pl l).
  { intros l Hl. apply live_pairs_ext. intros ke Hke.
    rewrite lookup_insert_ne; [done|]. intros Heq.
    assert (Hke' : ke ∈ c1 ++ c2) by (by apply Hl).
    apply elem_of_app in Hke' as [Hk1|Hk2].
    - apply (Hd1 e); [|set_solver]. apply list_elem_of_fmap. by exists ke.
    - apply Hd2. apply list_elem_of_fmap. by exists ke. }
  exists (live_pairs pl c1), (live_pairs pl c2). split.
  - rewrite live_pairs_app, live_pairs_cons. by erewrite slot_pair_live.
  - rewrite live_pairs_app, live_pairs_cons.
    erewrite slot_pair_dead; [|by rewrite lookup_insert_eq|done].
    by rewrite !Hside by set_solver.
Qed.

Lemma kvs_delete_found db T k e x :
  Inv db T → (cstr k, e) ∈ contents T → pool db !! e = Some x → deleted x = false →
  lookup_live (cstr k) (length (cstr k)) db = Some (Some e, db) →
  ∃ db' l1 l2,
    kvs_delete k db = Some (KVS_OK, db') ∧ Inv db' T
    ∧ live_pairs (pool db) (contents T) = l1 ++ (cstr k, value x) :: l2
    ∧ live_pairs (pool db') (contents T) = l1 ++ l2
    ∧ db' = set_count (count db - 1) (set_pool (<[e := set_deleted true x]> (pool db)) db).
Proof.
  intros HI Hin Hx Hd Hlook.
  pose proof HI as [Hroot Hrepr Hwf Hbst Hnd Hfresh Hchain Hfirst Hslots Hsnd Hcount
                      Hpool Hcost Hbits Hbloom].
  destruct (live_pairs_tombstone (pool db) (contents T) (cstr k) e x Hsnd Hin Hx Hd)
    as (l1 & l2 & Hl & Hl').
  assert (Hc1 : 1 ≤ count db).
  { rewrite Hcount, Hl, length_app. simpl. lia. }
  assert (Hcb : count db ≤ 2 ^ 27).
  { rewrite Hcount. by apply slots_count_bound. }
  exists (set_count (count db - 1) (set_pool (<[e := set_deleted true x]> (pool db)) db)),
    l1, l2.
  split.
  { unfold kvs_delete. erewrite bind_run; [|rewrite lookup_live_cstr; exact Hlook].
    cbv beta iota. erewrite bind_run; [|by apply upd_entry_run].
    rewrite (bind_run _ _ _ _ _ (modify_run _ _)). simpl.
    unfold wrap64. rewrite Z.mod_small by lia. done. }
  split; [|done].
  rewrite Forall_forall in Hslots.
  constructor; simpl; try done.
  - apply Forall_forall. intros ke Hke.
    destruct (Hslots ke Hke) as (y & Hy & H1 & H2 & H3 & H4 & H5 & H6 & H7).
    unfold slot_ok. simpl. destruct (decide (ke.2 = e)) as [Heq|Hne].
    + rewrite Heq, lookup_insert_eq. rewrite Heq in Hy. rewrite Hx in Hy. injection Hy as <-.
      eexists. split; [done|]. simpl. rewrite Heq in *. done.
    + rewrite lookup_insert_ne by done. exists y. done.
  - rewrite Hl'. rewrite Hcount, Hl, !length_app. simpl. lia.
  - rewrite Hl'. rewrite Hl in Hcost. rewrite total_cost_app in *. simpl in Hcost.
    assert (0 ≤ cost (cstr k) (value x)); [|lia].
    destruct (Hslots _ Hin) as (y & Hy & H1 & H2 & H3 & H4 & H5 & H6 & H7).
    simpl in *. rewrite Hx in Hy. injection Hy as <-.
    apply cost_nonneg; unfold buf_ok; lia.
  - intros kv Hkv. rewrite Hl' in Hkv. apply (Hbloom kv). rewrite Hl. set_solver.
Qed.

(** * The store as a map *)

Definition live_map (db : KVS) (T : tree) : gmap (list byte) (list byte) :=
  list_to_map (live_pairs (pool db) (contents T)).

(** [m] is what the store holds: the live keys and their values. *)
Definition holds (db : KVS) (m : gmap (list byte) (list byte)) : Prop :=
  ∃ T, Inv db T ∧ m = live_map db T.

Lemma list_to_map_put (k v : list byte) upd old new :
  put_change k v upd old new → NoDup new.*1 →
  (list_to_map new : gmap (list byte) (list byte)) = <[k := v]> (list_to_map old).
Proof.
  intros (l1 & l2 & -> & Hold) Hnd.
  rewrite fmap_app, fmap_cons in Hnd. simpl in Hnd.
  apply NoDup_app in Hnd as (_ & Hd1 & _).
  assert (Hk1 : (list_to_map l1 : gmap (list byte) (list byte)) !! k = None).
  { apply not_elem_of_list_to_map_1. intros Hk. apply (Hd1 k Hk). set_solver. }
  rewrite list_to_map_app, list_to_map_cons.
  destruct upd.
  - destruct Hold as (v0 & ->). rewrite list_to_map_app, list_to_map_cons.
    rewrite insert_union_r by done. by rewrite insert_insert_eq.
  - subst old. rewrite list_to_map_app. by rewrite insert_union_r.
Qed.

Lemma list_to_map_del (k v0 : list byte) (l1 l2 : list (list byte * list byte)) :
  NoDup (l1 ++ (k, v0) :: l2).*1 →
  (list_to_map (l1 ++ l2) : gmap (list byte) (list byte))
  = delete k (list_to_map (l1 ++ (k, v0) :: l2))
  ∧ (list_to_map (l1 ++ (k, v0) :: l2) : gmap (list byte) (list byte)) !! k = Some v0.
Proof.
  intros Hnd. split; [|apply elem_of_list_to_map_1; [done|set_solver]].
  rewrite fmap_app, fmap_cons in Hnd. simpl in Hnd.
  apply NoDup_app in Hnd as (_ & Hd1 & Hnd2). apply NoDup_cons in Hnd2 as [Hd2 _].
  assert (Hk1 : (list_to_map l1 : gmap (list byte) (list byte)) !! k = None).
  { apply not_elem_of_list_to_map_1. intros Hk. apply (Hd1 k Hk). set_solver. }
  assert (Hk2 : (list_to_map l2 : gmap (list byte) (list byte)) !! k = None).
  { by apply not_elem_of_list_to_map_1. }
  rewrite !list_to_map_app, list_to_map_cons, delete_union, delete_insert_eq.
  by rewrite !delete_id.
Qed.

Lemma holds_count db m : holds db m → count db = Z.of_nat (size m).
Proof.
  intros (T & HI & ->). unfold live_map.
  rewrite map_size_list_to_map by (by apply live_keys_nodup).
  by destruct HI.
Qed.


(** ** [kvs_put_raw] *)

Lemma kvs_put_raw_holds db m k v :
  holds db m → buf_ok k → buf_ok v → pool_pos db + cost k v ≤ pool_size db →
  ∃ db', kvs_put_raw k v db = Some (KVS_OK, db')
         ∧ holds db' (<[k := v]> m)
         ∧ pool_pos db' = pool_pos db + cost k v.
Proof.
  intros (T & HI & ->) Hk Hv Hroom.
  destruct (kvs_put_raw_ok db T k v HI Hk Hv Hroom)
    as (db' & T' & upd & Hrun & HI' & Hch & Hpos & _).
  exists db'. split; [done|]. split; [|done].
  exists T'. split; [done|]. unfold live_map. symmetry.
  eapply list_to_map_put; [done|]. by apply live_keys_nodup.
Qed.

Lemma Inv_pool_pos db T p :
  Inv db T → pool_pos db ≤ p ≤ pool_size db → Inv (set_pool_pos p db) T.
Proof.
  intros [Hroot Hrepr Hwf Hbst Hnd Hfresh Hchain Hfirst Hslots Hsnd Hcount
            [Hsz Hpos] Hcost Hbits Hbloom] Hp.
  constructor; simpl; try done.
  - rewrite Forall_forall in *. intros ke Hke.
    destruct (Hslots ke Hke) as (x & Hx & H1 & H2 & H3 & H4 & H5 & H6 & H7).
    exists x. simpl. repeat split; try done. lia.
  - split; simpl; [done|lia].
  - lia.
Qed.

Lemma pool_alloc_cases db size :
  pool_ok db → 0 ≤ size < 2 ^ 63 →
  ∃ r p, pool_alloc size db = Some (r, set_pool_pos p db)
         ∧ pool_ok (set_pool_pos p db)
         ∧ (r = None → p = pool_pos db ∧ pool_size db < pool_pos db + align8 size)
         ∧ (is_Some r → p = pool_pos db + align8 size).
Proof.
  intros Hpool Hsize. pose proof Hpool as [Hsz Hpos].
  pose proof (align8_bounds size Hsize) as [Ha _].
  rewrite pool_alloc_run by done. rewrite Z.gtb_ltb.
  destruct (Z.ltb_spec (pool_size db) (pool_pos db + align8 size)) as [H|H].
  - exists None, (pool_pos db). split; [by destruct db|].
    split; [split; simpl; [done|lia]|]. split; [done|]. by intros [? ?].
  - eexists _, _. split; [done|]. split; [split; simpl; [done|lia]|]. split; done.
Qed.

(** A put that finds no room: the allocations that succeeded stay taken. *)
Lemma kvs_put_raw_nomem db k v :
  pool_ok db → buf_ok k → buf_ok v → pool_size db < pool_pos db + cost k v →
  ∃ p, kvs_put_raw k v db = Some (KVS_ERR_NOMEM, set_pool_pos p db)
       ∧ pool_pos db ≤ p ≤ pool_size db
       ∧ (pool_pos db + SIZEOF_ENTRY ≤ pool_size db → pool_pos db + SIZEOF_ENTRY ≤ p).
Proof.
  intros Hpool Hk Hv Hroom. pose proof Hpool as [Hsz Hpos].
  unfold buf_ok, cost in *.
  pose proof (align8_bounds (len k + 1) ltac:(unfold len in *; lia)) as [Hak _].
  pose proof (align8_bounds (len v + 1) ltac:(unfold len in *; lia)) as [Hav _].
  assert (Hnn : 0 ≤ len k ∧ 0 ≤ len v) by (unfold len; lia).
  rewrite kvs_put_raw_unfold. unfold wrap64.
  rewrite !Z.mod_small by (unfold len in *; lia).
  destruct (pool_alloc_cases db SIZEOF_ENTRY Hpool) as (r1 & p1 & Hr1 & Hp1 & Hn1 & Hs1);
    [split; [done|reflexivity]|].
  destruct (pool_alloc_cases _ (len k + 1) Hp1) as (r2 & p2 & Hr2 & Hp2 & Hn2 & Hs2);
    [unfold len in *; lia|].
  destruct (pool_alloc_cases _ (len v + 1) Hp2) as (r3 & p3 & Hr3 & Hp3 & Hn3 & Hs3);
    [unfold len in *; lia|].
  change (align8 SIZEOF_ENTRY) with 32 in *. unfold SIZEOF_ENTRY in *.
  simpl in Hn2, Hs2, Hn3, Hs3.
  erewrite bind_run; [|exact Hr1]. erewrite bind_run; [|exact Hr2].
  erewrite bind_run; [|exact Hr3].
  change (set_pool_pos p3 (set_pool_pos p2 (set_pool_pos p1 db)))
    with (set_pool_pos p3 db).
  destruct Hp3 as [_ Hp3]. simpl in Hp3.
  assert (Hmono : pool_pos db ≤ p1 ≤ p2 ∧ p2 ≤ p3).
  { destruct r1; [specialize (Hs1 ltac:(eauto))|destruct (Hn1 eq_refl)];
    (destruct r2; [specialize (Hs2 ltac:(eauto))|destruct (Hn2 eq_refl)]);
    (destruct r3; [specialize (Hs3 ltac:(eauto))|destruct (Hn3 eq_refl)]); lia. }
  exists p3. split; [|split; [lia|]].
  - destruct r1 as [e|]; [|done]. destruct r2 as [kp|]; [|done].
    destruct r3 as [vp|]; [|done].
    specialize (Hs1 ltac:(eauto)). specialize (Hs2 ltac:(eauto)).
    specialize (Hs3 ltac:(eauto)). lia.
  - intros Hfit. destruct r1 as [e|]; [specialize (Hs1 ltac:(eauto)); lia|].
    destruct (Hn1 eq_refl). lia.
Qed.

(** ** [kvs_delete], [kvs_get] and [kvs_exists] *)

Lemma lookup_live_holds db T k :
  Inv db T →
  ∃ r, lookup_live k (strlen k) db = Some (r, db)
       ∧ match r with
         | Some e => (cstr k, e) ∈ contents T
                     ∧ ∃ x, pool db !! e = Some x ∧ deleted x = false
                            ∧ live_map db T !! cstr k = Some (value x)
                            ∧ vlen x = len (value x)
         | None => live_map db T !! cstr k = None
         end.
Proof.
  intros HI. rewrite lookup_live_cstr.
  destruct (lookup_live_spec db T (cstr k) HI) as (r & Hrun & Hr).
  exists r. split; [done|]. destruct r as [e|].
  - destruct Hr as (Hin & x & Hx & Hd). split; [done|]. exists x.
    split; [done|]. split; [done|]. split.
    + apply elem_of_list_to_map_1; [by apply live_keys_nodup|].
      by eapply live_pairs_intro.
    + pose proof (inv_slots _ _ HI) as Hs. rewrite Forall_forall in Hs.
      destruct (Hs _ Hin) as (y & Hy & _ & _ & Hv & _). simpl in Hy. congruence.
  - by apply not_elem_of_list_to_map_1.
Qed.

Lemma kvs_delete_holds db m k :
  holds db m →
  ∃ db', kvs_delete k db
         = Some (if decide (is_Some (m !! cstr k)) then KVS_OK else KVS_ERR_NOTFOUND, db')
         ∧ holds db' (delete (cstr k) m)
         ∧ pool_pos db' = pool_pos db
         ∧ bloom_bits db' = bloom_bits db ∧ filter_of db' = filter_of db.
Proof.
  intros (T & HI & ->).
  destruct (lookup_live_holds db T k HI) as (r & Hrun & Hr).
  destruct r as [e|].
  - destruct Hr as (Hin & x & Hx & Hd & Hm & _).
    rewrite lookup_live_cstr in Hrun.
    destruct (kvs_delete_found db T k e x HI Hin Hx Hd Hrun)
      as (db' & l1 & l2 & Hdel & HI' & Hl & Hl' & ->).
    eexists. rewrite decide_True by (rewrite Hm; eauto).
    split; [exact Hdel|]. split; [|done].
    exists T. split; [done|]. unfold live_map. rewrite Hl', Hl. symmetry.
    apply list_to_map_del. rewrite <- Hl. by apply live_keys_nodup.
  - exists db. rewrite decide_False by (rewrite Hr; by intros [? ?]).
    split.
    { unfold kvs_delete. erewrite bind_run; [|exact Hrun]. done. }
    split; [|done]. exists T. split; [done|]. by rewrite delete_id.
Qed.

Lemma kvs_get_holds db m k : holds db m → kvs_get k db = Some (m !! cstr k, db).
Proof.
  intros (T & HI & ->).
  destruct (lookup_live_holds db T k HI) as (r & Hrun & Hr).
  unfold kvs_get, kvs_get_raw. rewrite bind_assoc. erewrite bind_run; [|exact Hrun].
  destruct r as [e|].
  - destruct Hr as (Hin & x & Hx & Hd & Hm & Hv).
    rewrite bind_assoc. erewrite bind_run; [|by apply load_entry_run].
    rewrite Hm, Hv. unfold len. rewrite Nat2Z.id, firstn_all. done.
  - by rewrite Hr.
Qed.

Lemma kvs_exists_holds db m k :
  holds db m → kvs_exists k db = Some (bool_decide (is_Some (m !! cstr k)), db).
Proof.
  intros (T & HI & ->).
  destruct (lookup_live_holds db T k HI) as (r & Hrun & Hr).
  unfold kvs_exists. erewrite bind_run; [|exact Hrun].
  destruct r as [e|].
  - destruct Hr as (Hin & x & Hx & Hd & Hm & Hv).
    rewrite Hm. by rewrite !bool_decide_eq_true_2 by eauto.
  - rewrite Hr. rewrite !bool_decide_eq_false_2; [done| |]; by intros [? ?].
Qed.

(** ** The fresh store *)

Lemma keys_repr_nil n : num_keys n = 0%nat → keys_repr n [].
Proof. intros Hn. split; [done|]. split; intros j x Hx; done. Qed.

Lemma Inv_open : Inv kvs_open (TLeaf 1 [] []).
Proof.
  constructor; try done.
  - apply repr_leaf. eexists. split; [reflexivity|].
    split; [done|]. split; [by repeat split|]. split; [by apply keys_repr_nil|].
    split; [done|]. intros j x Hx. done.
  - apply wf_leaf. split; [done|]. rewrite ORDER_val. simpl. lia.
  - constructor; [apply ksorted_nil|constructor].
  - rewrite ptrs_leaf. apply NoDup_singleton.
  - intros p Hp. change (brk kvs_open) with 2%positive in Hp. simpl.
    rewrite lookup_insert_ne; [done|]. lia.
  - simpl. eexists. split; [reflexivity|]. done.
  - constructor.
  - unfold bloom_sizes. change (bloom_bits kvs_open) with (2 ^ 20). set_solver.
  - intros kv Hkv. by apply elem_of_nil in Hkv.
Qed.

Lemma holds_open : holds kvs_open ∅.
Proof. exists (TLeaf 1 [] []). split; [apply Inv_open|done]. Qed.

Local Close Scope Z_scope.

Local Open Scope Z_scope.

(** * Runs of operations *)

(** The buffers a caller passes are objects of the program. *)
Definition valid_op (o : op) : Prop :=
  match o with
  | Put k v => buf_ok k ∧ buf_ok v
  | _ => True
  end.

Lemma kvs_put_raw_total db m k v :
  holds db m → buf_ok k → buf_ok v →
  ∃ r db' m', kvs_put_raw k v db = Some (r, db') ∧ holds db' m'
              ∧ pool_pos db ≤ pool_pos db'
              ∧ (r = KVS_OK → m' = <[k := v]> m ∧ pool_pos db' = pool_pos db + cost k v)
              ∧ (r ≠ KVS_OK → r = KVS_ERR_NOMEM ∧ m' = m
                              ∧ pool_size db < pool_pos db + cost k v).
Proof.
  intros Hm Hk Hv.
  destruct (decide (pool_pos db + cost k v ≤ pool_size db)) as [Hroom|Hroom].
  - destruct (kvs_put_raw_holds db m k v Hm Hk Hv Hroom) as (db' & Hrun & Hm' & Hpos).
    exists KVS_OK, db', (<[k := v]> m). split; [done|]. split; [done|].
    pose proof (cost_nonneg k v Hk Hv). split; [lia|]. split; [done|]. done.
  - destruct Hm as (T & HI & ->).
    destruct (kvs_put_raw_nomem db k v (inv_pool _ _ HI) Hk Hv ltac:(lia))
      as (p & Hrun & Hp & _).
    exists KVS_ERR_NOMEM, (set_pool_pos p db), (live_map db T).
    split; [done|]. split.
    { exists T. split; [by apply Inv_pool_pos|done]. }
    split; [simpl; lia|]. split; [done|]. intros _. split; [done|]. split; [done|lia].
Qed.

Lemma run_op_holds db m o :
  holds db m → valid_op o →
  ∃ db' m', run_op o db = Some (tt, db') ∧ holds db' m' ∧ pool_pos db ≤ pool_pos db'.
Proof.
  intros Hm Hv. destruct o as [k v|k|k]; simpl in *.
  - destruct Hv as [Hk Hv].
    destruct (kvs_put_raw_total db m k v Hm Hk Hv) as (r & db' & m' & Hrun & Hm' & Hp & _).
    exists db', m'. split; [|done]. erewrite bind_run; [|exact Hrun]. done.
  - destruct (kvs_delete_holds db m k Hm) as (db' & Hrun & Hm' & Hp & _).
    exists db', (delete (cstr k) m). split; [|split; [done|lia]].
    erewrite bind_run; [|exact Hrun]. done.
  - exists db, m. split; [|split; [done|lia]].
    erewrite bind_run; [|by apply kvs_get_holds]. done.
Qed.

Lemma run_holds ops : ∀ db m,
  holds db m → Forall valid_op ops →
  ∃ db' m', run ops db = Some (tt, db') ∧ holds db' m' ∧ pool_pos db ≤ pool_pos db'.
Proof.
  induction ops as [|o ops IH]; intros db m Hm Hv.
  - exists db, m. split; [done|]. split; [done|lia].
  - apply Forall_cons in Hv as [Ho Hv].
    destruct (run_op_holds db m o Hm Ho) as (db1 & m1 & Hrun1 & Hm1 & Hp1).
    destruct (IH db1 m1 Hm1 Hv) as (db2 & m2 & Hrun2 & Hm2 & Hp2).
    exists db2, m2. split; [|split; [done|lia]].
    simpl. erewrite bind_run; [|exact Hrun1]. exact Hrun2.
Qed.

(** Every run from the fresh store ends, in a state the invariant holds in. *)
Lemma run_open ops :
  Forall valid_op ops → ∃ db m, run ops kvs_open = Some (tt, db) ∧ holds db m.
Proof.
  intros Hv. destruct (run_holds ops kvs_open ∅ holds_open Hv) as (db & m & ? & ? & _).
  eauto.
Qed.

Lemma run_open_inv ops db :
  Forall valid_op ops → run ops kvs_open = Some (tt, db) → ∃ m, holds db m.
Proof.
  intros Hv Hrun. destruct (run_open ops Hv) as (db' & m & Hrun' & Hm).
  rewrite Hrun in Hrun'. injection Hrun' as <-. eauto.
Qed.

(** ** The nodes of the tree *)

(** The nodes the root leads to through the child pointers in use. *)
Inductive reach (db : KVS) : positive → Prop :=
  | reach_root p : root db = Some p → reach db p
  | reach_child p n i c :
      reach db p → heap db !! p = Some n → is_leaf n = false →
      (i ≤ num_keys n)%nat → children n !! i = Some (Some c) → reach db c.

Lemma reach_subtree db T p :
  Inv db T → reach db p → ∃ s, s ∈ subtrees T ∧ tptr s = p.
Proof.
  intros HI. induction 1 as [p Hroot|p n i c Hp IH Hn Hleaf Hi Hc].
  - rewrite (inv_root _ _ HI) in Hroot. injection Hroot as <-.
    exists T. split; [|done]. destruct T; simpl; set_solver.
  - destruct IH as (s & Hs & <-).
    pose proof (inv_repr _ _ HI) as Hrepr. unfold repr in Hrepr.
    rewrite Forall_forall in Hrepr. destruct (Hrepr s Hs) as (n' & Hn' & Hr).
    rewrite Hn in Hn'. injection Hn' as <-.
    destruct s as [q ks es|q ks cs]; simpl in Hr.
    { destruct Hr as (Hl & _). congruence. }
    destruct Hr as (_ & _ & (Hnk & _) & Hlen & Hpre).
    rewrite length_fmap in Hlen.
    destruct (lookup_lt_is_Some_2 cs i) as [c' Hc']; [lia|].
    assert (Hc'' : children n !! i = Some (Some (tptr c'))).
    { apply Hpre. by rewrite !list_lookup_fmap, Hc'. }
    rewrite Hc in Hc''. injection Hc'' as ->.
    exists c'. split; [|done].
    assert (Hsub : ∀ s t u : tree, s ∈ subtrees t → t ∈ subtrees u → s ∈ subtrees u).
    { clear. intros s t u Hs. induction u as [p ks es|p ks cs IH] using tree_ind'; simpl.
      - intros ->%list_elem_of_singleton. done.
      - intros [->|Ht]%elem_of_cons; [done|].
        apply elem_of_flat_map in Ht as (c & Hc & Ht). rewrite Forall_forall in IH.
        apply elem_of_cons. right. apply elem_of_flat_map. exists c. split; [done|].
        by apply IH. }
    apply (Hsub c' (TNode q ks cs) T); [|done].
    eapply subtrees_child; [by eapply list_elem_of_lookup_2|].
    destruct c'; simpl; set_solver.
Qed.

(** The keys in use in a node are in strictly increasing order of
    [keycmp]. *)
Definition node_sorted (n : BPNode) : Prop :=
  ∀ i j ki li kj lj, (i < j < num_keys n)%nat →
    keys n !! i = Some ki → klens n !! i = Some li →
    keys n !! j = Some kj → klens n !! j = Some lj →
    keycmp ki li kj lj < 0.

Lemma keys_repr_sorted n ks : keys_repr n ks → ksorted ks → node_sorted n.
Proof.
  intros Hkr Hs i j ki li kj lj Hij Hki Hli Hkj Hlj.
  pose proof Hkr as (Hnk & _).
  destruct (lookup_lt_is_Some_2 ks i) as [x Hx]; [lia|].
  destruct (lookup_lt_is_Some_2 ks j) as [y Hy]; [lia|].
  destruct (keys_repr_lookup _ _ _ _ Hkr Hx) as [Hx1 Hx2].
  destruct (keys_repr_lookup _ _ _ _ Hkr Hy) as [Hy1 Hy2].
  unfold aget in *. simplify_eq.
  apply Z.ltb_lt. rewrite keycmp_lt. apply bool_decide_eq_true.
  eapply (Hs i j); eauto. lia.
Qed.

Lemma Inv_node_sorted db T p n :
  Inv db T → reach db p → heap db !! p = Some n → node_sorted n.
Proof.
  intros HI Hp Hn. destruct (reach_subtree db T p HI Hp) as (s & Hs & <-).
  pose proof (inv_repr _ _ HI) as Hrepr. unfold repr in Hrepr.
  rewrite Forall_forall in Hrepr. destruct (Hrepr s Hs) as (n' & Hn' & Hr).
  rewrite Hn in Hn'. injection Hn' as <-.
  pose proof (bst_sorted_nodes _ _ _ (inv_bst _ _ HI)) as Hsn.
  unfold sorted_nodes in Hsn. rewrite Forall_forall in Hsn. specialize (Hsn s Hs).
  destruct s as [q ks es|q ks cs]; simpl in *.
  - destruct Hr as (_ & _ & Hkr & _). by eapply keys_repr_sorted.
  - destruct Hr as (_ & _ & Hkr & _). by eapply keys_repr_sorted.
Qed.

Local Close Scope Z_scope.

Local Open Scope Z_scope.

(** * A put on a tombstoned key *)

(** ** What the end of a put leaves alone *)

Section keeps_bloom.
Context {B} (f : KVS → B) `{!OffBloom f}.

Lemma keeps_bloom_set_bit pos : keeps f (bloom_set_bit pos).
Proof.
  intros db a db'. unfold bloom_set_bit. destruct (_ =? 0); intros [= _ <-]; [|done].
  by rewrite off_bloom_set_bits, off_bloom.
Qed.

Lemma keeps_bloom_add k l : keeps f (bloom_add k l).
Proof. unfold bloom_add. keeps_tac; apply keeps_bloom_set_bit. Qed.

Lemma keeps_bloom_rebuild_leaf leaf cnt : ∀ i, keeps f (bloom_rebuild_leaf leaf i cnt).
Proof.
  induction cnt as [|cnt IH]; intros i; simpl; [apply keeps_ret|].
  unfold get_entry, get_key, get_klen. keeps_tac; apply keeps_bloom_add.
Qed.

Lemma keeps_bloom_rebuild_loop fuel : ∀ leaf, keeps f (bloom_rebuild_loop fuel leaf).
Proof.
  induction fuel as [|fuel IH]; intros [l|]; simpl;
    try apply keeps_ret; try apply keeps_crash.
  keeps_tac. apply keeps_bloom_rebuild_leaf.
Qed.

Lemma keeps_bloom_check_expand : keeps f bloom_check_expand.
Proof.
  unfold bloom_check_expand, bloom_expand, bloom_rebuild. keeps_tac.
  apply keeps_bloom_rebuild_loop.
Qed.

Lemma keeps_put_tail added :
  (∀ c db, f (set_count c db) = f db) →
  (∀ x db, f (set_first_leaf x db) = f db) →
  keeps f (put_tail added).
Proof.
  intros Hc Hfl. unfold put_tail.
  apply keeps_bind; [destruct (negb _); [by apply keeps_modify|apply keeps_ret]|intros _].
  apply keeps_bind; [apply keeps_gets|intros r].
  apply keeps_bind; [apply keeps_must|intros r'].
  apply keeps_bind; [apply keeps_gets|intros fuel].
  apply keeps_bind; [apply keeps_leftmost_loop|intros n].
  apply keeps_bind; [by apply keeps_modify|intros _].
  apply keeps_bind; [apply keeps_gets|intros c].
  apply keeps_bind; [|intros _; apply keeps_ret].
  destruct (_ =? 0); [apply keeps_bloom_check_expand|apply keeps_ret].
Qed.
End keeps_bloom.

(** ** The descent of the insertion to a tombstoned slot *)

(** When the key is in the leaf that [find_leaf_loop] reaches and its entry
    is tombstoned, [insert_recursive] stores the new entry in the cell of
    the old one and changes nothing else. *)
Lemma insert_recursive_reuse fuel : ∀ t db parent ppos k e leaf n pos e0 x,
  repr (heap db) t → wf t → sorted_nodes t → (depth t ≤ fuel)%nat →
  find_leaf_loop fuel (tptr t) k (len k) db = Some (leaf, db) →
  heap db !! leaf = Some n → is_leaf n = true →
  leaf_find_pos n k (len k) = Some pos → (pos < num_keys n)%nat →
  (pos < length (entries n))%nat →
  keys n !! pos = Some k → klens n !! pos = Some (len k) →
  entries n !! pos = Some (Some e0) →
  pool db !! e0 = Some x → deleted x = true →
  insert_recursive fuel (tptr t) parent ppos k (len k) e db
  = Some (1, set_heap (<[leaf := set_entries (<[pos := Some e]> (entries n)) n]> (heap db)) db).
Proof.
  induction fuel as [|fuel IH];
    intros t db parent ppos k e leaf n pos e0 x Hrepr Hwf Hsn Hd Hfl Hn Hleaf Hpos Hlt Hlen
           Hkey Hklen Hent Hx Hdel;
    destruct t as [p ks es|p ks cs].
  1,3: apply repr_leaf in Hrepr as (n' & Hn' & (Hleaf' & _)); simpl in Hn';
       simpl in Hfl; rewrite (bind_run _ _ _ _ _ (load_node_run _ _ _ Hn')) in Hfl;
       rewrite Hleaf' in Hfl; injection Hfl as <-;
       rewrite Hn in Hn'; injection Hn' as <-;
       cbn [insert_recursive tptr];
       rewrite (bind_run _ _ _ _ _ (load_node_run _ _ _ Hn)); rewrite Hleaf;
       rewrite (bind_run _ _ _ _ _ (must_run _ _ _ Hpos));
       rewrite (proj2 (Nat.ltb_lt _ _) Hlt); rewrite bind_assoc;
       rewrite (bind_run _ _ _ _ _ (get_key_run _ _ _ Hn _ _ Hkey)); rewrite bind_assoc;
       rewrite (bind_run _ _ _ _ _ (get_klen_run _ _ _ Hn _ _ Hklen));
       rewrite (bind_run _ _ _ _ _ (ret_run _ _));
       rewrite keycmp_eq, bool_decide_eq_true_2 by done;
       rewrite (bind_run _ _ _ _ _ (get_entry_run _ _ _ Hn _ _ Hent));
       rewrite (bind_run _ _ _ _ _ (must_run _ _ _ eq_refl));
       rewrite (bind_run _ _ _ _ _ (load_entry_run _ _ _ Hx));
       rewrite Hdel; cbn [negb];
       rewrite (bind_run _ _ _ _ _ (put_entry_run _ _ _ Hn _ _ Hlen)); reflexivity.
  { simpl in Hd. lia. }
  apply repr_node in Hrepr as [(np & Hnp & Hnr) Hreprs]. simpl in Hnp, Hnr.
  pose proof Hnr as (Hleafp & Harr & Hkr & Hcl & Hcp).
  apply wf_node in Hwf as [[Hwl Hwk] Hwfs].
  apply sorted_nodes_node in Hsn as [Hs Hsns].
  destruct (internal_find_pos_spec np ks k Hkr Hs) as (ipos & Hfind & Hub).
  pose proof Hub as (Hipos & _).
  destruct (lookup_lt_is_Some_2 cs ipos) as [c Hc]; [lia|].
  pose proof (list_elem_of_lookup_2 _ _ _ Hc) as Hcin.
  assert (Hchild : children np !! ipos = Some (Some (tptr c))).
  { apply Hcp. by rewrite !list_lookup_fmap, Hc. }
  rewrite Forall_forall in Hreprs, Hwfs, Hsns.
  cbn [find_leaf_loop tptr] in Hfl.
  rewrite (bind_run _ _ _ _ _ (load_node_run _ _ _ Hnp)) in Hfl. rewrite Hleafp in Hfl.
  rewrite (bind_run _ _ _ _ _ (must_run _ _ _ Hfind)) in Hfl.
  rewrite (bind_run _ _ _ _ _ (must_run _ _ _ Hchild)) in Hfl.
  rewrite (bind_run _ _ _ _ _ (must_run _ _ _ eq_refl)) in Hfl.
  assert (Hne : leaf ≠ p) by (intros ->; congruence).
  cbn [insert_recursive tptr].
  rewrite (bind_run _ _ _ _ _ (load_node_run _ _ _ Hnp)). rewrite Hleafp.
  rewrite (bind_run _ _ _ _ _ (must_run _ _ _ Hfind)).
  rewrite (bind_run _ _ _ _ _ (get_child_run _ _ _ Hnp _ _ Hchild)).
  rewrite (bind_run _ _ _ _ _ (must_run _ _ _ eq_refl)).
  erewrite bind_run.
  2: { eapply (IH c db (Some p) ipos k e leaf n pos e0 x); eauto.
       pose proof (depth_child p ks cs c Hcin). lia. }
  erewrite bind_run.
  2: { apply load_node_run. simpl. rewrite lookup_insert_ne by done. exact Hnp. }
  destruct Hkr as (Hnk & _).
  rewrite (proj2 (Nat.leb_gt _ _)) by (rewrite Hnk; exact Hwk).
  rewrite (bind_run _ _ _ _ _ (ret_run _ _)). reflexivity.
Qed.

Lemma find_leaf_loop_heap fuel : ∀ p k kl db db' l,
  heap db' = heap db →
  find_leaf_loop fuel p k kl db = Some (l, db) →
  find_leaf_loop fuel p k kl db' = Some (l, db').
Proof.
  induction fuel as [|fuel IH]; intros p k kl db db' l Hh; simpl;
    unfold bind, load_node, must; rewrite Hh;
    destruct (heap db !! p) as [n|]; try done;
    destruct (is_leaf n); try (by intros [= ->]); try done.
  destruct (internal_find_pos n k kl) as [pos|]; [|done].
  destruct (aget (children n) pos) as [[c|]|]; try done.
  by apply IH.
Qed.

(** The cell of a slot of the tree, as the descent and the search in the
    leaf find it. *)
Lemma slot_located db T k e :
  repr (heap db) T → wf T → bst None None T → NoDup (ptrs T) →
  (k, e) ∈ contents T →
  ∃ leaf n pos,
    find_leaf_loop (walk_fuel db) (tptr T) k (len k) db = Some (leaf, db)
    ∧ heap db !! leaf = Some n ∧ is_leaf n = true
    ∧ leaf_find_pos n k (len k) = Some pos
    ∧ (pos < num_keys n)%nat ∧ (pos < length (entries n))%nat
    ∧ keys n !! pos = Some k ∧ klens n !! pos = Some (len k)
    ∧ entries n !! pos = Some (Some e).
Proof.
  intros Hrepr Hwf Hbst Hnd Hin.
  destruct (find_leaf_loop_spec (walk_fuel db) T db None None k Hrepr Hwf Hbst I I)
    as (p & ks & es & Hfl & Hsub & Hall); [by apply fuel_depth|].
  destruct (zip_lookup_inv ks es k e (Hall e Hin)) as (j & Hj & Hje).
  pose proof Hrepr as Hrepr'. unfold repr in Hrepr'. rewrite Forall_forall in Hrepr'.
  destruct (Hrepr' _ Hsub) as (n & Hn & Hnr). simpl in Hn, Hnr.
  pose proof Hnr as (Hleaf & (_ & _ & _ & Hlen) & Hkr & Hes_len & Hes).
  pose proof (bst_sorted_nodes _ _ _ Hbst) as Hsn.
  unfold sorted_nodes in Hsn. rewrite Forall_forall in Hsn.
  pose proof (Hsn _ Hsub) as Hs. simpl in Hs.
  unfold wf in Hwf. rewrite Forall_forall in Hwf. destruct (Hwf _ Hsub) as [_ Hcap].
  destruct (leaf_find_pos_spec n ks k Hkr Hs) as (pos & Hfind & Hlb).
  assert (j = pos) as -> by (by eapply lower_bound_hit).
  destruct (keys_repr_lookup _ _ _ _ Hkr Hj) as [Hk1 Hk2].
  pose proof Hkr as (Hnk & _). pose proof (lookup_lt_Some _ _ _ Hj) as Hlt.
  exists p, n, pos. split; [done|]. split; [done|]. split; [done|]. split; [done|].
  split; [lia|]. split; [rewrite Hlen; lia|]. split; [done|]. split; [done|].
  apply Hes. by rewrite list_lookup_fmap, Hje.
Qed.

(** A put that returns OK on a store whose tree has the key in a
    tombstoned slot changes, of the nodes, the entry cell of that slot
    only. *)
Lemma put_on_tombstone db T k v e x db' :
  Inv db T → (k, e) ∈ contents T → pool db !! e = Some x → deleted x = true →
  buf_ok k → buf_ok v →
  kvs_put_raw k v db = Some (KVS_OK, db') →
  ∃ leaf n pos,
    find_leaf k (len k) db = Some (Some leaf, db)
    ∧ heap db !! leaf = Some n ∧ is_leaf n = true
    ∧ leaf_find_pos n k (len k) = Some pos ∧ (pos < num_keys n)%nat
    ∧ keys n !! pos = Some k ∧ entries n !! pos = Some (Some e)
    ∧ heap db' = <[leaf := set_entries (<[pos := Some (pool_pos db)]> (entries n)) n]> (heap db)
    ∧ pool db' = <[pool_pos db := mkEntry k v (wrap32 (len k)) (wrap32 (len v)) false]> (pool db)
    ∧ node_count db' = node_count db.
Proof.
  intros HI Hin Hx Hdel Hk Hv Hput.
  pose proof (inv_pool _ _ HI) as Hpool.
  assert (Hroom : pool_pos db + cost k v ≤ pool_size db).
  { destruct (decide (pool_pos db + cost k v ≤ pool_size db)) as [|Hno]; [done|].
    destruct (kvs_put_raw_nomem db k v Hpool Hk Hv ltac:(lia)) as (p & Hput' & _).
    rewrite Hput in Hput'. discriminate. }
  pose proof (bloom_sizes_pos _ (inv_bits _ _ HI)) as Hbits.
  destruct (slot_located db T k e (inv_repr _ _ HI) (inv_wf _ _ HI) (inv_bst _ _ HI)
              (inv_nodup _ _ HI) Hin)
    as (leaf & n & pos & Hfl & Hn & Hleaf & Hpos & Hlt & Hlen & Hkey & Hklen & Hent).
  exists leaf, n, pos.
  split.
  { unfold find_leaf. rewrite (bind_run _ _ _ _ _ (gets_run _ _)).
    rewrite (inv_root _ _ HI). rewrite (bind_run _ _ _ _ _ (gets_run _ _)).
    erewrite bind_run; [|exact Hfl]. done. }
  split; [done|]. split; [done|]. split; [done|]. split; [done|].
  split; [done|]. split; [done|].
  rewrite kvs_put_raw_unfold, put_allocs in Hput by done.
  unfold store_entry in Hput. rewrite (bind_run _ _ _ _ _ (modify_run _ _)) in Hput.
  erewrite bind_run in Hput; [|by apply bloom_add_filter; simpl; lia].
  rewrite (bind_run _ _ _ _ _ (gets_run _ _)) in Hput.
  set (dbc := with_filter _ _) in Hput.
  assert (Hroot : root dbc = Some (tptr T)) by apply (inv_root _ _ HI).
  rewrite Hroot in Hput.
  rewrite (bind_run _ _ _ _ _ (must_run _ _ _ eq_refl)) in Hput.
  rewrite (bind_run _ _ _ _ _ (gets_run _ _)) in Hput.
  assert (Hne : e ≠ pool_pos db).
  { pose proof (inv_slots _ _ HI) as Hs. rewrite Forall_forall in Hs.
    destruct (Hs _ Hin) as (y & _ & _ & _ & _ & _ & _ & _ & Hb). simpl in Hb.
    unfold SIZEOF_ENTRY in Hb. lia. }
  erewrite bind_run in Hput.
  2: { apply (insert_recursive_reuse (walk_fuel dbc) T dbc None 0 k (pool_pos db)
                leaf n pos e x).
       - apply (inv_repr _ _ HI).
       - apply (inv_wf _ _ HI).
       - apply bst_sorted_nodes with None None. apply (inv_bst _ _ HI).
       - apply (fuel_depth (heap db)); [apply (inv_repr _ _ HI)|apply (inv_nodup _ _ HI)].
       - apply (find_leaf_loop_heap _ _ _ _ db dbc); [done|exact Hfl].
       - exact Hn.
       - exact Hleaf.
       - exact Hpos.
       - exact Hlt.
       - exact Hlen.
       - exact Hkey.
       - exact Hklen.
       - exact Hent.
       - unfold dbc. simpl. rewrite lookup_insert_ne by done. exact Hx.
       - exact Hdel. }
  split; [|split].
  - apply (keeps_put_tail heap 1 ltac:(done) ltac:(done)) in Hput. exact Hput.
  - apply (keeps_put_tail pool 1 ltac:(done) ltac:(done)) in Hput. exact Hput.
  - apply (keeps_put_tail node_count 1 ltac:(done) ltac:(done)) in Hput. exact Hput.
Qed.

Local Close Scope Z_scope.

Local Open Scope Z_scope.

(** * Out-of-memory puts *)

(** Everything of the store but the arena position. *)
Definition same_but_pool_pos (db db' : KVS) : Prop :=
  db' = set_pool_pos (pool_pos db') db.

Lemma pool_alloc_same db size r db' :
  pool_alloc size db = Some (r, db') → same_but_pool_pos db db'.
Proof.
  unfold pool_alloc, same_but_pool_pos. destruct db; simpl. intros H.
  destruct (_ >? _); inversion H; reflexivity.
Qed.

Lemma same_but_pool_pos_trans a b c :
  same_but_pool_pos a b → same_but_pool_pos b c → same_but_pool_pos a c.
Proof. unfold same_but_pool_pos. intros -> ->. reflexivity. Qed.

(** C4: when one of the three arena allocations of a put fails, the put
    returns the out-of-memory error and leaves the count, the nodes (their
    keys, children and entries), the entry records and the Bloom filter as
    they were. *)
Theorem put_nomem_tree_untouched (db : KVS) (k v : list byte) e kp vp db1 db2 db3 :
  pool_alloc SIZEOF_ENTRY db = Some (e, db1) →
  pool_alloc (wrap64 (Z.of_nat (length k) + 1)) db1 = Some (kp, db2) →
  pool_alloc (wrap64 (Z.of_nat (length v) + 1)) db2 = Some (vp, db3) →
  e = None ∨ kp = None ∨ vp = None →
  kvs_put_raw k v db = Some (KVS_ERR_NOMEM, db3)
  ∧ count db3 = count db
  ∧ heap db3 = heap db ∧ root db3 = root db ∧ first_leaf db3 = first_leaf db
  ∧ height db3 = height db ∧ node_count db3 = node_count db
  ∧ pool db3 = pool db
  ∧ bloom db3 = bloom db ∧ bloom_bits db3 = bloom_bits db
  ∧ bloom_set_bits db3 = bloom_set_bits db.
Proof.
  intros H1 H2 H3 Hfail.
  assert (Hs : same_but_pool_pos db db3).
  { eapply same_but_pool_pos_trans; [|eapply pool_alloc_same, H3].
    eapply same_but_pool_pos_trans; eapply pool_alloc_same; eassumption. }
  split.
  - unfold kvs_put_raw, bind. rewrite H1, H2, H3.
    destruct e, kp, vp; try reflexivity; naive_solver.
  - rewrite Hs. repeat split.
Qed.

Lemma put_nomem_tree_untouched_witness :
  let db := set_pool_pos KVS_DEFAULT_POOL_SIZE kvs_open in
  kvs_put_raw [] [] db = Some (KVS_ERR_NOMEM, db) ∧ count db = count db.
Proof.
  pose proof (put_nomem_tree_untouched (set_pool_pos KVS_DEFAULT_POOL_SIZE kvs_open)
    [] [] None None None _ _ _ eq_refl eq_refl eq_refl (or_introl eq_refl)) as H.
  split; [exact (proj1 H) | exact (proj1 (proj2 H))].
Defined.

(** * Seeking onto a tombstone *)

Definition key_a : list byte := ["a"%byte].
Definition val_1 : list byte := ["1"%byte].
Definition tombstone_run : list op := [Put key_a val_1; Delete key_a].

(** C1: after [put("a","1")] and [delete("a")], [get("a")] finds nothing,
    but [seek("a")] leaves the cursor valid on the tombstoned entry, whose
    key and value the accessors return, and [range("a","a")] calls the
    callback on it. *)
Theorem seek_and_range_surface_tombstone :
  ∃ db cur,
    run tombstone_run kvs_open = Some (tt, db)
    ∧ kvs_get key_a db = Some (None, db)
    ∧ kvs_cursor_seek kvs_cursor_new key_a db = Some ((cur, true), db)
    ∧ kvs_cursor_key cur db = Some (Some (key_a, 1), db)
    ∧ kvs_cursor_value cur db = Some (Some (val_1, 1), db)
    ∧ kvs_range key_a key_a db = Some (([(key_a, 1, val_1, 1)], 1), db).
Proof.
  eexists _, _. split; [vm_compute; reflexivity|].
  repeat split; vm_compute; reflexivity.
Qed.

(** * Loading damaged files *)

Definition zero_junk : nat → nat → byte := λ _ _, x00.

(** A header cut after the count field. *)
Definition short_header_file : list byte :=
  le_bytes 4 KVS_MAGIC ++ le_bytes SIZEOF_SIZE_T 0.

(** A complete header announcing one entry, a Bloom vector of eight bytes,
    and no entry. *)
Definition short_body_file : list byte :=
  le_bytes 4 KVS_MAGIC ++ le_bytes SIZEOF_SIZE_T 1 ++ le_bytes SIZEOF_SIZE_T 64
  ++ replicate 8 x00.

(** C2, as stated, fails: files with the right magic whose header or whose
    entries are cut short are loaded into a store. *)
Lemma load_accepts_truncated_files :
  (∃ db, kvs_load zero_junk short_header_file = Some (Some db))
  ∧ (∃ db, kvs_load zero_junk short_body_file = Some (Some db) ∧ count db = 1).
Proof.
  split.
  - eexists. reflexivity.
  - eexists. split; [vm_compute; reflexivity|reflexivity].
Qed.

Lemma fread_full dst (n : nat) (f : list byte) :
  (n ≤ length f)%nat → fread dst n f = (take n f ++ drop n dst, drop n f).
Proof.
  intros H. unfold fread. rewrite length_take. by rewrite Nat.min_l.
Qed.

(** C2, amended: a file that has its four magic bytes, and they differ from
    [0x54504253], is refused. *)
Theorem load_refuses_wrong_magic (junk : nat → nat → byte) (f : list byte) :
  (4 ≤ length f)%nat →
  le_value (take 4 f) ≠ KVS_MAGIC →
  kvs_load junk f = Some None.
Proof.
  intros Hlen Hm. unfold kvs_load.
  rewrite fread_full by done.
  assert (Hd : drop 4 (uninit (junk 0%nat) 4) = []) by reflexivity.
  rewrite Hd, app_nil_r.
  destruct (Z.eqb_spec (le_value (take 4 f)) KVS_MAGIC) as [Heq|Hne]; [done|].
  reflexivity.
Qed.

Lemma load_refuses_wrong_magic_witness :
  kvs_load zero_junk (replicate 4 x00) = Some None.
Proof.
  apply load_refuses_wrong_magic; [simpl; lia | vm_compute; discriminate].
Defined.

Local Close Scope Z_scope.

Local Open Scope Z_scope.

(** * The order of the keys in the nodes *)

Definition key_b : list byte := ["b"%byte].
Definition val_2 : list byte := ["2"%byte].

Definition sample_run : list op :=
  [Put key_b val_1; Put key_a val_2; Delete key_a; Get key_b; Put key_a val_1].

Lemma sample_run_valid : Forall valid_op sample_run.
Proof. repeat constructor; vm_compute; reflexivity. Qed.

(** C9: every run of puts, deletes and gets from the fresh store ends, and
    in the state it ends in the keys in use of every node of the tree, leaf
    or internal, are in strictly increasing order of [keycmp], the
    comparison of the bytes with the shorter key first among keys that
    agree on their common length. *)
Theorem node_keys_strictly_increasing (ops : list op) :
  Forall valid_op ops →
  ∃ db, run ops kvs_open = Some (tt, db)
        ∧ ∀ p n, reach db p → heap db !! p = Some n → node_sorted n.
Proof.
  intros Hv. destruct (run_open ops Hv) as (db & m & Hrun & T & HI & _).
  exists db. split; [done|]. intros p n Hp Hn. by eapply Inv_node_sorted.
Qed.

Lemma node_keys_strictly_increasing_witness :
  ∃ db, run sample_run kvs_open = Some (tt, db)
        ∧ ∀ p n, reach db p → heap db !! p = Some n → node_sorted n.
Proof. exact (node_keys_strictly_increasing sample_run sample_run_valid). Defined.

(** * The count *)

(** C8: every run of puts and deletes (and gets) from the fresh store ends
    in a state whose [count] is the number of entries [kvs_foreach] visits,
    the entries of the leaves that are not tombstoned; [kvs_foreach] returns
    that number. *)
Theorem count_is_number_of_live_entries (ops : list op) :
  Forall valid_op ops →
  ∃ db vs, run ops kvs_open = Some (tt, db)
           ∧ kvs_foreach db = Some ((vs, count db), db)
           ∧ count db = Z.of_nat (length vs).
Proof.
  intros Hv. destruct (run_open ops Hv) as (db & m & Hrun & T & HI & _).
  exists db, (visits (pool db) (contents T)). split; [done|].
  assert (Hc : count db = Z.of_nat (length (visits (pool db) (contents T)))).
  { rewrite length_visits. by destruct HI. }
  split; [|done].
  rewrite (kvs_foreach_run db T (Inv_walkable _ _ HI)). rewrite <- Hc.
  pose proof (slots_count_bound db T (inv_slots _ _ HI) (inv_slots_nodup _ _ HI)
                (inv_pool _ _ HI)) as Hb.
  rewrite <- (inv_count _ _ HI) in Hb.
  unfold wrap64. rewrite Z.mod_small; [done|]. rewrite Hc in *. lia.
Qed.

Lemma count_is_number_of_live_entries_witness :
  ∃ db vs, run sample_run kvs_open = Some (tt, db)
           ∧ kvs_foreach db = Some ((vs, count db), db)
           ∧ count db = Z.of_nat (length vs).
Proof. exact (count_is_number_of_live_entries sample_run sample_run_valid). Defined.

(** * Put, delete, put *)

(** The state after the operations [pre] and then [ops] on the fresh store. *)
Definition run_state (pre ops : list op) : KVS :=
  match run (pre ++ ops) kvs_open with
  | Some (_, db) => db
  | None => kvs_open
  end.

Lemma buf_ok_cstr s : buf_ok s → buf_ok (cstr s).
Proof.
  unfold buf_ok, len. rewrite length_cstr. pose proof (strlen_le s). lia.
Qed.

Lemma cstr_idem s : cstr (cstr s) = cstr s.
Proof.
  unfold cstr. induction s as [|b s IH]; simpl; [done|].
  destruct (u8 b =? 0) eqn:Hb; simpl; [done|]. rewrite Hb. simpl. by rewrite IH.
Qed.

Lemma kvs_put_ok_inv db m k v db' :
  holds db m → buf_ok k → buf_ok v →
  kvs_put k v db = Some (KVS_OK, db') → holds db' (<[cstr k := cstr v]> m).
Proof.
  intros Hm Hk Hv Hput. unfold kvs_put in Hput. fold (cstr k) (cstr v) in Hput.
  destruct (kvs_put_raw_total db m (cstr k) (cstr v) Hm
              (buf_ok_cstr _ Hk) (buf_ok_cstr _ Hv))
    as (r & db1 & m' & Hrun & Hm' & _ & Hok & _).
  rewrite Hput in Hrun. injection Hrun as <- <-.
  by destruct (Hok eq_refl) as [-> _].
Qed.

(** C7: in a state a run from the fresh store ends in, when [put(K, v1)]
    succeeds, then [delete(K)], then [put(K, v2)] succeeds: the delete
    succeeds; it changes nothing but the [deleted] flag of the entry record
    of [K] and the count, which is one less, so that [K] stays in its cell
    of the leaf (the cell [find_leaf] and [leaf_find_pos] find) as a
    tombstone and [get(K)] finds nothing; the second put stores its entry
    record, a new one with the value [v2], in that same cell and changes no
    other cell of any node and allocates no node, and it increments the
    count once; then [get(K)] returns [v2] and [count] is what it was after
    the first put. *)
Theorem put_delete_put_get (ops : list op) (db db1 db2 db3 : KVS)
    (K v1 v2 : list byte) (r : KVSError) :
  Forall valid_op ops → run ops kvs_open = Some (tt, db) →
  buf_ok K → buf_ok v1 → buf_ok v2 →
  kvs_put K v1 db = Some (KVS_OK, db1) →
  kvs_delete K db1 = Some (r, db2) →
  kvs_put K v2 db2 = Some (KVS_OK, db3) →
  r = KVS_OK
  ∧ kvs_get K db3 = Some (Some (cstr v2), db3)
  ∧ count db3 = count db1
  ∧ kvs_get K db2 = Some (None, db2)
  ∧ count db2 = count db1 - 1
  ∧ count db3 = count db2 + 1
  ∧ ∃ leaf n pos e x,
      find_leaf (cstr K) (len (cstr K)) db2 = Some (Some leaf, db2)
      ∧ heap db2 !! leaf = Some n ∧ is_leaf n = true
      ∧ leaf_find_pos n (cstr K) (len (cstr K)) = Some pos
      ∧ (pos < num_keys n)%nat
      ∧ keys n !! pos = Some (cstr K)
      ∧ entries n !! pos = Some (Some e)
      ∧ pool db1 !! e = Some x ∧ deleted x = false ∧ value x = cstr v1
      ∧ db2 = set_count (count db1 - 1)
                (set_pool (<[e := set_deleted true x]> (pool db1)) db1)
      ∧ heap db3
        = <[leaf := set_entries (<[pos := Some (pool_pos db2)]> (entries n)) n]> (heap db2)
      ∧ pool db3
        = <[pool_pos db2 := mkEntry (cstr K) (cstr v2) (wrap32 (len (cstr K)))
                              (wrap32 (len (cstr v2))) false]> (pool db2)
      ∧ node_count db3 = node_count db2.
Proof.
  intros Hv Hrun HK Hv1 Hv2 Hp1 Hdel Hp2.
  destruct (run_open_inv ops db Hv Hrun) as [m Hm].
  pose proof (kvs_put_ok_inv _ _ _ _ _ Hm HK Hv1 Hp1) as Hm1.
  destruct (kvs_delete_holds db1 _ K Hm1) as (db2' & Hdel' & Hm2 & _).
  rewrite Hdel in Hdel'. injection Hdel' as Hr <-.
  rewrite decide_True in Hr by (rewrite lookup_insert_eq; eauto).
  pose proof (kvs_put_ok_inv _ _ _ _ _ Hm2 HK Hv2 Hp2) as Hm3.
  assert (Hsz : size (<[cstr K:=cstr v1]> m) ≠ 0%nat).
  { apply map_size_ne_0_lookup_2 with (cstr K). rewrite lookup_insert_eq. eauto. }
  assert (Hc2 : count db2 = count db1 - 1).
  { rewrite (holds_count _ _ Hm2), (holds_count _ _ Hm1).
    rewrite map_size_delete_Some by (rewrite lookup_insert_eq; eauto). lia. }
  assert (Hc3 : count db3 = count db2 + 1).
  { rewrite (holds_count _ _ Hm3), (holds_count _ _ Hm2).
    rewrite map_size_insert_None by apply lookup_delete_eq. lia. }
  split; [done|]. split.
  { rewrite (kvs_get_holds _ _ K Hm3). by rewrite lookup_insert_eq. }
  split; [lia|]. split.
  { rewrite (kvs_get_holds _ _ K Hm2). by rewrite lookup_delete_eq. }
  split; [done|]. split; [done|].
  destruct Hm1 as (T1 & HI1 & HmT1).
  destruct (lookup_live_holds db1 T1 K HI1) as (r0 & Hlook & Hr0).
  destruct r0 as [e|].
  2: { rewrite <- HmT1, lookup_insert_eq in Hr0. done. }
  destruct Hr0 as (Hin & x & Hx & Hd & Hval & _).
  rewrite <- HmT1, lookup_insert_eq in Hval. injection Hval as Hval.
  rewrite lookup_live_cstr in Hlook.
  destruct (kvs_delete_found db1 T1 K e x HI1 Hin Hx Hd Hlook)
    as (db2' & l1 & l2 & Hdel' & HI2 & _ & _ & Hdb2).
  rewrite Hdel in Hdel'. injection Hdel' as _ <-.
  assert (Hx2 : pool db2 !! e = Some (set_deleted true x)).
  { rewrite Hdb2. simpl. apply lookup_insert_eq. }
  unfold kvs_put in Hp2. fold (cstr K) (cstr v2) in Hp2.
  destruct (put_on_tombstone db2 T1 (cstr K) (cstr v2) e (set_deleted true x) db3
              HI2 Hin Hx2 eq_refl (buf_ok_cstr _ HK) (buf_ok_cstr _ Hv2) Hp2)
    as (leaf & n & pos & Hfl & Hn & Hleaf & Hpos & Hlt & Hkey & Hent & Hh3 & Hp3 & Hnc).
  exists leaf, n, pos, e, x. repeat (split; [done|]). done.
Qed.

Definition c7_before : KVS := run_state [] [Put key_b val_1].
Definition c7_put : KVS := run_state [Put key_b val_1] [Put key_a val_1].
Definition c7_deleted : KVS := run_state [Put key_b val_1] [Put key_a val_1; Delete key_a].
Definition c7_put_again : KVS :=
  run_state [Put key_b val_1] [Put key_a val_1; Delete key_a; Put key_a val_2].

Lemma put_delete_put_get_witness :
  KVS_OK = KVS_OK
  ∧ kvs_get key_a c7_put_again = Some (Some (cstr val_2), c7_put_again)
  ∧ count c7_put_again = count c7_put
  ∧ kvs_get key_a c7_deleted = Some (None, c7_deleted)
  ∧ count c7_deleted = count c7_put - 1
  ∧ count c7_put_again = count c7_deleted + 1
  ∧ ∃ leaf n pos e x,
      find_leaf (cstr key_a) (len (cstr key_a)) c7_deleted = Some (Some leaf, c7_deleted)
      ∧ heap c7_deleted !! leaf = Some n ∧ is_leaf n = true
      ∧ leaf_find_pos n (cstr key_a) (len (cstr key_a)) = Some pos
      ∧ (pos < num_keys n)%nat
      ∧ keys n !! pos = Some (cstr key_a)
      ∧ entries n !! pos = Some (Some e)
      ∧ pool c7_put !! e = Some x ∧ deleted x = false ∧ value x = cstr val_1
      ∧ c7_deleted = set_count (count c7_put - 1)
                       (set_pool (<[e := set_deleted true x]> (pool c7_put)) c7_put)
      ∧ heap c7_put_again
        = <[leaf := set_entries (<[pos := Some (pool_pos c7_deleted)]> (entries n)) n]>
            (heap c7_deleted)
      ∧ pool c7_put_again
        = <[pool_pos c7_deleted := mkEntry (cstr key_a) (cstr val_2) (wrap32 (len (cstr key_a)))
                                     (wrap32 (len (cstr val_2))) false]> (pool c7_deleted)
      ∧ node_count c7_put_again = node_count c7_deleted.
Proof.
  apply (put_delete_put_get [Put key_b val_1] c7_before c7_put c7_deleted c7_put_again
           key_a val_1 val_2 KVS_OK).
  - repeat constructor; vm_compute; reflexivity.
  - vm_compute; reflexivity.
  - vm_compute; reflexivity.
  - vm_compute; reflexivity.
  - vm_compute; reflexivity.
  - vm_compute; reflexivity.
  - vm_compute; reflexivity.
  - vm_compute; reflexivity.
Defined.

(** * The arena after a failed put *)

(** A store whose arena has room for an entry record and one copy of a
    one-byte string, but not for two copies. *)
Definition nearly_full : KVS := set_pool_pos (KVS_DEFAULT_POOL_SIZE - 40) kvs_open.

(** C10: a put whose entry record fits in the arena while the record, the
    key copy and the value copy together do not returns the out-of-memory
    error and leaves the store as it was but for the arena position, which
    is (as [kvs_stats] reports it in [memory_used]) at least the size of an
    entry record further; no later run of operations on a store of the
    invariant brings it back. *)
Theorem failed_put_consumes_arena (db : KVS) (k v : list byte) :
  pool_ok db → buf_ok k → buf_ok v →
  pool_pos db + SIZEOF_ENTRY ≤ pool_size db →
  pool_size db < pool_pos db + cost k v →
  ∃ db', kvs_put_raw k v db = Some (KVS_ERR_NOMEM, db')
         ∧ same_but_pool_pos db db'
         ∧ st_memory_used (kvs_stats db) + SIZEOF_ENTRY ≤ st_memory_used (kvs_stats db')
         ∧ ∀ m ops, holds db m → Forall valid_op ops →
             ∃ db'', run ops db' = Some (tt, db'')
                     ∧ st_memory_used (kvs_stats db') ≤ st_memory_used (kvs_stats db'').
Proof.
  intros Hpool Hk Hv Hent Hroom.
  destruct (kvs_put_raw_nomem db k v Hpool Hk Hv Hroom) as (p & Hrun & Hp & Hadv).
  exists (set_pool_pos p db). split; [done|]. split; [done|].
  split; [simpl; auto|].
  intros m ops (T & HI & ->) Hops.
  assert (Hm : holds (set_pool_pos p db) (live_map (set_pool_pos p db) T)).
  { exists T. split; [|done]. by apply Inv_pool_pos. }
  destruct (run_holds ops _ _ Hm Hops) as (db'' & m'' & Hr & _ & Hle).
  exists db''. split; [done|]. exact Hle.
Qed.

Lemma failed_put_consumes_arena_witness :
  ∃ db', kvs_put_raw key_a val_1 nearly_full = Some (KVS_ERR_NOMEM, db')
         ∧ same_but_pool_pos nearly_full db'
         ∧ st_memory_used (kvs_stats nearly_full) + SIZEOF_ENTRY
           ≤ st_memory_used (kvs_stats db')
         ∧ ∀ m ops, holds nearly_full m → Forall valid_op ops →
             ∃ db'', run ops db' = Some (tt, db'')
                     ∧ st_memory_used (kvs_stats db') ≤ st_memory_used (kvs_stats db'').
Proof.
  apply (failed_put_consumes_arena nearly_full key_a val_1).
  - split; [reflexivity|]. split; vm_compute; congruence.
  - vm_compute; reflexivity.
  - vm_compute; reflexivity.
  - vm_compute; congruence.
  - vm_compute; reflexivity.
Defined.

Local Close Scope Z_scope.

Local Open Scope Z_scope.

(** * The snapshot codec *)

(** ** Integers in the file *)

Lemma u8_byte_of z : u8 (byte_of z) = z mod 256.
Proof.
  unfold byte_of, u8.
  pose proof (Z.mod_pos_bound z 256 ltac:(lia)) as Hb.
  destruct (Byte.of_N (Z.to_N (z mod 256))) as [b|] eqn:Hof.
  - apply Byte.to_of_N in Hof. simpl. rewrite Hof. lia.
  - apply Byte.of_N_None_iff in Hof. lia.
Qed.

Lemma length_le_bytes n z : length (le_bytes n z) = n.
Proof. revert z. induction n as [|n IH]; intros z; simpl; [done|]. by rewrite IH. Qed.

Lemma le_value_le_bytes n z : 0 ≤ z < 256 ^ Z.of_nat n → le_value (le_bytes n z) = z.
Proof.
  revert z. induction n as [|n IH]; intros z Hz.
  - simpl in *. lia.
  - cbn [le_bytes le_value]. rewrite u8_byte_of, IH.
    + pose proof (Z.div_mod z 256 ltac:(lia)). lia.
    + rewrite Nat2Z.inj_succ, Z.pow_succ_r in Hz by lia.
      split; [apply Z.div_pos; lia|]. apply Z.div_lt_upper_bound; lia.
Qed.

(** ** [fread] *)

Lemma fread_exact junk (bs rest : list byte) :
  fread (uninit junk (length bs)) (length bs) (bs ++ rest) = (bs, rest).
Proof.
  unfold fread. rewrite take_app_length, drop_app_length.
  rewrite drop_ge; [by rewrite app_nil_r|]. unfold uninit. by rewrite length_map, length_seq.
Qed.

Lemma fread_over dst (bs rest : list byte) :
  length dst = length bs → fread dst (length bs) (bs ++ rest) = (bs, rest).
Proof.
  intros H. unfold fread. rewrite take_app_length, drop_app_length.
  rewrite drop_ge by lia. by rewrite app_nil_r.
Qed.

(** ** What [kvs_save] writes *)

(** The four fields of a pair in the file. *)
Definition pair_bytes (kv : list byte * list byte) : list byte :=
  le_bytes 4 (len kv.1) ++ le_bytes 4 (len kv.2) ++ kv.1 ++ kv.2.

Definition header_bytes (db : KVS) : list byte :=
  le_bytes 4 KVS_MAGIC ++ le_bytes SIZEOF_SIZE_T (count db)
  ++ le_bytes SIZEOF_SIZE_T (bloom_bits db) ++ bloom_bytes db.

Definition slot_bytes (pl : gmap Z Entry) (ke : list byte * Z) : list byte :=
  match pl !! ke.2 with
  | Some x => if deleted x then [] else entry_bytes x
  | None => []
  end.

Lemma slot_bytes_pairs db cts :
  Forall (slot_ok db) cts →
  flat_map (slot_bytes (pool db)) cts = flat_map pair_bytes (live_pairs (pool db) cts).
Proof.
  induction 1 as [|ke cts (x & Hx & Hk & Hkl & Hvl & _) _ IH]; [done|].
  cbn [flat_map live_pairs omap list_omap]. fold (live_pairs (pool db) cts).
  unfold slot_bytes at 1, slot_pair at 1. rewrite Hx.
  destruct (deleted x); [done|]. cbn [flat_map]. rewrite IH. f_equal.
  unfold entry_bytes, pair_bytes. simpl. rewrite Hkl, Hvl, Hk. unfold len.
  by rewrite !Nat2Z.id, !firstn_all.
Qed.

Lemma save_leaf_run db l n ks es :
  heap db !! l = Some n → leaf_repr n ks es →
  Forall (λ ke, is_Some (pool db !! ke.2)) (zip ks es) →
  ∀ cnt i out, (i + cnt = length ks)%nat →
    save_leaf l i cnt out db
    = Some (out ++ flat_map (slot_bytes (pool db)) (drop i (zip ks es)), db).
Proof.
  intros Hn Hrepr Hsl.
  pose proof Hrepr as (Hleaf & Harr & Hkr & Hlen & Hes).
  induction cnt as [|cnt IH]; intros i out Hi.
  - simpl. rewrite drop_ge; [by rewrite app_nil_r|]. rewrite length_zip_with. lia.
  - destruct (lookup_lt_is_Some_2 ks i) as [k Hk]; [lia|].
    destruct (lookup_lt_is_Some_2 es i) as [e He]; [lia|].
    assert (Hz : zip ks es !! i = Some (k, e)).
    { rewrite lookup_zip_with, Hk. simpl. by rewrite He. }
    rewrite (drop_S _ _ _ Hz).
    rewrite Forall_forall in Hsl.
    destruct (Hsl (k, e)) as [x Hx]; [by eapply list_elem_of_lookup_2|]. simpl in Hx.
    assert (He' : entries n !! i = Some (Some e)).
    { apply Hes. by rewrite list_lookup_fmap, He. }
    cbn [save_leaf].
    erewrite bind_run; [|by eapply get_entry_run].
    erewrite bind_run; [|by apply must_run].
    erewrite bind_run; [|by eapply load_entry_run].
    rewrite IH by lia.
    cbn [flat_map]. unfold slot_bytes at 2. simpl. rewrite Hx.
    destruct (deleted x); simpl; [done|]. by rewrite <- app_assoc.
Qed.

Lemma save_loop_run db ls :
  walk_ok (heap db) (pool db) ls →
  ∀ fuel pv out, chain (heap db) pv (tptr <$> ls) None → (length ls ≤ fuel)%nat →
    save_loop fuel (head_or (tptr <$> ls) None) out db
    = Some (out ++ flat_map (slot_bytes (pool db)) (flat_map contents ls), db).
Proof.
  intros Hw. induction ls as [|s ls IH]; intros fuel pv out Hc Hfuel.
  - destruct fuel; simpl; by rewrite app_nil_r.
  - apply walk_ok_cons_inv in Hw as [(p & ks & es & n & -> & Hn & Hrepr & Hsl) Hw].
    simpl in Hc. destruct Hc as (n' & Hn' & _ & Hnext & Hc).
    rewrite Hn in Hn'. injection Hn' as <-.
    destruct fuel as [|fuel]; [simpl in Hfuel; lia|].
    cbn [fmap list_fmap head_or tptr save_loop].
    erewrite bind_run; [|by eapply load_node_run].
    pose proof Hrepr as (_ & _ & (Hnk & _) & _).
    erewrite bind_run;
      [|rewrite Hnk; by eapply (save_leaf_run db p n ks es Hn Hrepr Hsl)].
    rewrite Hnext. rewrite (IH Hw fuel (Some p)); [|done|simpl in Hfuel; lia].
    cbn [flat_map contents]. rewrite drop_0, flat_map_app, <- app_assoc. done.
Qed.

Lemma kvs_save_run db T :
  Inv db T →
  kvs_save db
  = Some (header_bytes db ++ flat_map pair_bytes (live_pairs (pool db) (contents T)), db).
Proof.
  intros HI. pose proof (Inv_walkable _ _ HI) as [Hr Hnd Hc Hf Hres].
  unfold kvs_save.
  do 4 rewrite (bind_run _ _ _ _ _ (gets_run _ _)).
  rewrite (bind_run _ _ _ _ _ (gets_run _ _)).
  rewrite Hf, <- head_or_None, leaves_leaf_trees.
  rewrite (save_loop_run db (leaf_trees T)) with (pv := None).
  - rewrite <- contents_leaf_trees, (slot_bytes_pairs db) by apply (inv_slots _ _ HI).
    unfold header_bytes. by rewrite <- !app_assoc.
  - by apply walk_ok_intro.
  - rewrite <- leaves_leaf_trees. exact Hc.
  - by apply fuel_leaves.
Qed.

(** ** What [kvs_load] reads back *)

Lemma length_bloom_read db i n : length (bloom_read db i n) = n.
Proof. revert i. induction n as [|n IH]; intros i; simpl; [done|]. by rewrite IH. Qed.

Lemma Inv_set_filter db bits bl :
  Inv db (TLeaf 1 [] []) → bits ∈ bloom_sizes →
  Inv (set_bloom bl (set_bloom_bits bits db)) (TLeaf 1 [] []).
Proof.
  intros [Hroot Hrepr Hwf Hbst Hnd Hfresh Hchain Hfirst Hslots Hsnd Hcount
            Hpool Hcost Hbits Hbloom] Hb.
  constructor; simpl; try done.
  intros kv Hkv. by apply elem_of_nil in Hkv.
Qed.

Definition small_pair (kv : list byte * list byte) : Prop :=
  len kv.1 < 2 ^ 27 ∧ len kv.2 < 2 ^ 27.

Lemma load_entries_run junk ps : ∀ i db m rest,
  holds db m → Forall small_pair ps →
  pool_pos db + total_cost ps ≤ pool_size db →
  ∃ db', load_entries junk i (length ps) (flat_map pair_bytes ps ++ rest) db = Some (tt, db')
         ∧ holds db' (foldl (λ m kv, <[kv.1 := kv.2]> m) m ps).
Proof.
  induction ps as [|[k v] ps IH]; intros i db m rest Hm Hsm Hroom.
  - exists db. done.
  - apply Forall_cons in Hsm as [[Hk Hv] Hsm]. simpl in Hk, Hv.
    cbn [total_cost foldr fst snd] in Hroom. fold (total_cost ps) in Hroom.
    assert (Hps : 0 ≤ total_cost ps).
    { clear -Hsm. induction Hsm as [|[k v] ps [Hk Hv] _ IH]; simpl; [done|].
      fold (total_cost ps). simpl in *.
      pose proof (cost_nonneg k v ltac:(unfold buf_ok; lia) ltac:(unfold buf_ok; lia)). lia. }
    assert (Hbk : buf_ok k) by (unfold buf_ok; lia).
    assert (Hbv : buf_ok v) by (unfold buf_ok; lia).
    destruct (kvs_put_raw_holds db m k v Hm Hbk Hbv ltac:(lia)) as (db1 & Hput & Hm1 & Hpos1).
    destruct (IH (S i) db1 (<[k := v]> m) rest Hm1 Hsm) as (db' & Hload & Hm').
    { destruct Hm as (T & HI & _). destruct Hm1 as (T1 & HI1 & _).
      destruct (inv_pool _ _ HI) as [Hs _]. destruct (inv_pool _ _ HI1) as [Hs1 _]. lia. }
    exists db'. split; [|exact Hm'].
    cbn [length load_entries flat_map]. unfold pair_bytes at 1. cbn [fst snd].
    repeat rewrite <- app_assoc.
    assert (H4 : ∀ z, length (le_bytes 4 z) = 4%nat) by (intros; apply length_le_bytes).
    pose proof (fread_over (uninit (junk (klen_object i)) 4) (le_bytes 4 (len k))) as F1.
    rewrite H4 in F1. rewrite F1 by done.
    pose proof (fread_over (uninit (junk (vlen_object i)) 4) (le_bytes 4 (len v))) as F2.
    rewrite H4 in F2. rewrite F2 by done.
    assert (Hnk : 0 ≤ len k) by (unfold len; lia).
    assert (Hnv : 0 ≤ len v) by (unfold len; lia).
    rewrite !le_value_le_bytes by (change (256 ^ Z.of_nat 4) with (2 ^ 32); lia).
    unfold wrap32. rewrite !Z.mod_small by lia.
    destruct (Z.eqb_spec (len k + 1) 0) as [?|_]; [lia|].
    destruct (Z.eqb_spec (len v + 1) 0) as [?|_]; [lia|].
    cbn [orb]. unfold len. rewrite !Nat2Z.id.
    rewrite !fread_exact.
    erewrite bind_run; [|exact Hput]. exact Hload.
Qed.

Lemma foldl_insert_list_to_map (ps : list (list byte * list byte)) :
  NoDup ps.*1 →
  foldl (λ m kv, <[kv.1 := kv.2]> m) (∅ : gmap (list byte) (list byte)) ps = list_to_map ps.
Proof.
  intros Hnd.
  assert (G : ∀ m : gmap (list byte) (list byte),
            foldl (λ m kv, <[kv.1 := kv.2]> m) m ps = list_to_map ps ∪ m).
  { induction ps as [|[k v] ps IH]; intros m; simpl.
    - by rewrite (left_id_L ∅ (∪)).
    - apply NoDup_cons in Hnd as [Hk Hnd]. rewrite IH by done.
      rewrite <- insert_union_l. rewrite <- insert_union_r; [done|].
      by apply not_elem_of_list_to_map_1. }
  rewrite G. by rewrite (right_id_L ∅ (∪)).
Qed.

Lemma small_live_pairs db cts :
  Forall (slot_ok db) cts → Forall small_pair (live_pairs (pool db) cts).
Proof.
  intros H. apply Forall_forall. intros kv (ke & Hke & Hs)%list_elem_of_omap.
  rewrite Forall_forall in H. destruct (H ke Hke) as (x & Hx & _ & _ & _ & Hk & Hv & _).
  unfold slot_pair in Hs. rewrite Hx in Hs. destruct (deleted x); [done|].
  injection Hs as <-. done.
Qed.

Lemma bloom_sizes_bound bits : bits ∈ bloom_sizes → 0 ≤ bits < 2 ^ 27.
Proof.
  unfold bloom_sizes. rewrite !elem_of_cons, elem_of_nil.
  intros [->|[->|[->|[->|[]]]]]; lia.
Qed.

(** Saving a store of the invariant and loading the file gives a store of
    the invariant that holds the same pairs. *)
Lemma save_load_holds junk db m :
  holds db m →
  ∃ f db', kvs_save db = Some (f, db) ∧ kvs_load junk f = Some (Some db') ∧ holds db' m.
Proof.
  intros (T & HI & ->).
  set (ps := live_pairs (pool db) (contents T)).
  exists (header_bytes db ++ flat_map pair_bytes ps).
  set (db0 := set_bloom (bloom_of_bytes 0 (bloom_bytes db))
                (set_bloom_bits (bloom_bits db) kvs_open)).
  assert (H0 : holds db0 ∅).
  { exists (TLeaf 1 [] []). split; [|done].
    apply Inv_set_filter; [apply Inv_open|apply (inv_bits _ _ HI)]. }
  destruct (load_entries_run junk ps 0%nat db0 ∅ [] H0) as (db' & Hload & Hm').
  { apply small_live_pairs, (inv_slots _ _ HI). }
  { pose proof (inv_cost _ _ HI). destruct (inv_pool _ _ HI) as [Hs Hp].
    change (pool_pos db0) with 0. change (pool_size db0) with KVS_DEFAULT_POOL_SIZE.
    fold ps in H. lia. }
  rewrite foldl_insert_list_to_map in Hm' by apply (live_keys_nodup _ _ HI).
  exists db'. split; [by apply kvs_save_run|]. split; [|exact Hm'].
  rewrite app_nil_r in Hload.
  pose proof (bloom_sizes_bound _ (inv_bits _ _ HI)) as Hbits.
  assert (Hcnt : 0 ≤ count db < 2 ^ 28).
  { rewrite (inv_count _ _ HI).
    pose proof (slots_count_bound db T (inv_slots _ _ HI) (inv_slots_nodup _ _ HI)
                  (inv_pool _ _ HI)). lia. }
  unfold kvs_load, header_bytes. repeat rewrite <- app_assoc.
  pose proof (fread_over (uninit (junk 0%nat) 4) (le_bytes 4 KVS_MAGIC)) as F1.
  rewrite length_le_bytes in F1. rewrite F1 by done.
  rewrite le_value_le_bytes by (compute; split; congruence). rewrite Z.eqb_refl. cbn [negb].
  pose proof (fread_over (uninit (junk 1%nat) SIZEOF_SIZE_T) (le_bytes SIZEOF_SIZE_T (count db))) as F2.
  rewrite length_le_bytes in F2. rewrite F2 by done.
  pose proof (fread_over (le_bytes SIZEOF_SIZE_T (bloom_bits kvs_open))
                (le_bytes SIZEOF_SIZE_T (bloom_bits db))) as F3.
  rewrite length_le_bytes in F3. rewrite F3 by by rewrite length_le_bytes.
  rewrite !le_value_le_bytes by (change (256 ^ Z.of_nat SIZEOF_SIZE_T) with (2 ^ 64); lia).
  change (bloom_bits (set_bloom_bits (bloom_bits db) kvs_open)) with (bloom_bits db).
  pose proof (fread_exact (junk 2%nat) (bloom_bytes db)) as F4.
  unfold bloom_bytes at 1 2 in F4. rewrite length_bloom_read in F4. rewrite F4.
  fold db0. rewrite (inv_count _ _ HI), Nat2Z.id. fold ps. by rewrite Hload.
Qed.

(** ** The pairs of two stores that hold the same map *)

Lemma ksorted_cons k ks : ksorted (k :: ks) ↔ Forall (klt k) ks ∧ ksorted ks.
Proof.
  split.
  - intros H. split.
    + apply Forall_forall. intros x Hx. apply list_elem_of_lookup in Hx as [j Hj].
      apply (H 0%nat (S j)); [done|done|lia].
    + intros i j x y Hi Hj Hij. apply (H (S i) (S j)); [done|done|lia].
  - intros [Hk Hs] i j x y Hi Hj Hij. destruct j as [|j]; [lia|]. simpl in Hj.
    destruct i as [|i].
    + injection Hi as <-. rewrite Forall_forall in Hk. apply Hk.
      by eapply list_elem_of_lookup_2.
    + simpl in Hi. apply (Hs i j); [done|done|lia].
Qed.

Lemma ksorted_sublist l' l : sublist l' l → ksorted l → ksorted l'.
Proof.
  induction 1 as [|x l1 l2 Hsub IH|x l1 l2 Hsub IH]; [done| |].
  - rewrite !ksorted_cons. intros [Hx Hs]. split; [|by apply IH].
    rewrite Forall_forall in Hx |- *. intros y Hy. apply Hx. by eapply elem_of_sublist.
  - rewrite ksorted_cons. intros [_ Hs]. by apply IH.
Qed.

Lemma live_keys_sorted db T : Inv db T → ksorted (live_pairs (pool db) (contents T)).*1.
Proof.
  intros HI. eapply ksorted_sublist; [apply live_pairs_fst_sub|by eapply Inv_keys_sorted].
Qed.

Lemma sorted_pairs_unique (l1 : list (list byte * list byte)) : ∀ l2,
  ksorted l1.*1 → ksorted l2.*1 →
  (list_to_map l1 : gmap (list byte) (list byte)) = list_to_map l2 → l1 = l2.
Proof.
  induction l1 as [|[k1 v1] l1 IH]; intros [|[k2 v2] l2] H1 H2 Hm.
  - done.
  - simpl in Hm. exfalso. symmetry in Hm. by apply insert_non_empty in Hm.
  - simpl in Hm. exfalso. by apply insert_non_empty in Hm.
  - simpl in H1, H2, Hm. apply ksorted_cons in H1 as [Hk1 Hs1].
    apply ksorted_cons in H2 as [Hk2 Hs2].
    assert (Hn1 : k1 ∉ l1.*1).
    { intros Hin. rewrite Forall_forall in Hk1. by apply (klt_irrefl k1), Hk1. }
    assert (Hn2 : k2 ∉ l2.*1).
    { intros Hin. rewrite Forall_forall in Hk2. by apply (klt_irrefl k2), Hk2. }
    assert (Hk : k1 = k2).
    { destruct (decide (k1 = k2)) as [|Hne]; [done|]. exfalso.
      assert (Hin2 : k1 ∈ l2.*1).
      { pose proof (lookup_insert_eq (list_to_map l1 : gmap _ _) k1 v1) as Hl.
        rewrite Hm, lookup_insert_ne in Hl by done.
        apply elem_of_list_to_map_2 in Hl. apply list_elem_of_fmap. by exists (k1, v1). }
      assert (Hin1 : k2 ∈ l1.*1).
      { pose proof (lookup_insert_eq (list_to_map l2 : gmap _ _) k2 v2) as Hl.
        rewrite <- Hm, lookup_insert_ne in Hl by done.
        apply elem_of_list_to_map_2 in Hl. apply list_elem_of_fmap. by exists (k2, v2). }
      rewrite Forall_forall in Hk1, Hk2.
      apply (klt_irrefl k1). eapply klt_trans; [by apply Hk1|by apply Hk2]. }
    subst k2.
    assert (Hv : v1 = v2).
    { pose proof (lookup_insert_eq (list_to_map l1 : gmap _ _) k1 v1) as Hl.
      rewrite Hm, lookup_insert_eq in Hl. congruence. }
    subst v2. f_equal. apply IH; [done|done|].
    apply (f_equal (delete k1)) in Hm.
    rewrite !delete_insert_id in Hm by by apply not_elem_of_list_to_map_1. done.
Qed.

Lemma holds_pairs_unique db T db' T' :
  Inv db T → Inv db' T' → live_map db T = live_map db' T' →
  live_pairs (pool db) (contents T) = live_pairs (pool db') (contents T').
Proof.
  intros HI HI' Hm. apply sorted_pairs_unique; [by apply live_keys_sorted..|done].
Qed.

(** What [kvs_foreach] passes to the callback for a pair. *)
Definition pair_visit (kv : list byte * list byte) : visit :=
  (kv.1, len kv.1, kv.2, len kv.2).

Lemma visits_pairs db cts :
  Forall (slot_ok db) cts →
  visits (pool db) cts = pair_visit <$> live_pairs (pool db) cts.
Proof.
  induction 1 as [|ke cts (x & Hx & Hk & Hkl & Hvl & _) _ IH]; [done|].
  unfold visits, live_pairs in *. cbn [omap list_omap].
  unfold slot_visit at 1, slot_pair at 1. rewrite Hx.
  destruct (deleted x); [done|]. cbn [fmap list_fmap]. rewrite IH. f_equal.
  unfold pair_visit. simpl. by rewrite Hk, Hkl, Hvl.
Qed.

Lemma kvs_foreach_holds db T :
  Inv db T →
  kvs_foreach db
  = Some ((pair_visit <$> live_pairs (pool db) (contents T), count db), db).
Proof.
  intros HI. rewrite (kvs_foreach_run db T (Inv_walkable _ _ HI)).
  rewrite length_visits, <- (inv_count _ _ HI).
  rewrite (visits_pairs db) by apply (inv_slots _ _ HI).
  pose proof (slots_count_bound db T (inv_slots _ _ HI) (inv_slots_nodup _ _ HI)
                (inv_pool _ _ HI)) as Hb.
  rewrite <- (inv_count _ _ HI) in Hb.
  unfold wrap64. rewrite Z.mod_small; [done|].
  rewrite (inv_count _ _ HI) in *. lia.
Qed.

(** C5: a store a run from the fresh store ends in is saved, the file is
    loaded into a store, and the loaded store holds the live pairs of the
    saved one: [kvs_foreach] calls the callback on the same pairs in the
    same order in both, and [kvs_get] gives the same answer for every key
    in both. *)
Theorem save_load_keeps_live_pairs (junk : nat → nat → byte) (ops : list op) (db : KVS) :
  Forall valid_op ops → run ops kvs_open = Some (tt, db) →
  ∃ f db' vs,
    kvs_save db = Some (f, db)
    ∧ kvs_load junk f = Some (Some db')
    ∧ kvs_foreach db = Some ((vs, count db), db)
    ∧ kvs_foreach db' = Some ((vs, count db'), db')
    ∧ ∀ k, ∃ r, kvs_get k db = Some (r, db) ∧ kvs_get k db' = Some (r, db').
Proof.
  intros Hv Hrun. destruct (run_open_inv ops db Hv Hrun) as [m Hm].
  destruct (save_load_holds junk db m Hm) as (f & db' & Hsave & Hload & Hm').
  pose proof Hm as (T & HI & HmT). pose proof Hm' as (T' & HI' & HmT').
  exists f, db', (pair_visit <$> live_pairs (pool db) (contents T)).
  split; [done|]. split; [done|]. split; [by apply kvs_foreach_holds|]. split.
  - rewrite (holds_pairs_unique db T db' T' HI HI') by congruence.
    by apply kvs_foreach_holds.
  - intros k. exists (m !! cstr k). split; by apply kvs_get_holds.
Qed.

Lemma save_load_keeps_live_pairs_witness :
  ∃ f db' vs,
    kvs_save (run_state [] sample_run) = Some (f, run_state [] sample_run)
    ∧ kvs_load zero_junk f = Some (Some db')
    ∧ kvs_foreach (run_state [] sample_run)
      = Some ((vs, count (run_state [] sample_run)), run_state [] sample_run)
    ∧ kvs_foreach db' = Some ((vs, count db'), db')
    ∧ ∀ k, ∃ r, kvs_get k (run_state [] sample_run) = Some (r, run_state [] sample_run)
                ∧ kvs_get k db' = Some (r, db').
Proof.
  apply (save_load_keeps_live_pairs zero_junk sample_run (run_state [] sample_run)).
  - exact sample_run_valid.
  - vm_compute; reflexivity.
Defined.

Local Close Scope Z_scope.

Local Open Scope Z_scope.

(** * Growth of the Bloom filter *)

(** ** The count of the set bits *)

(** [S] is the set of the positions whose bit is set in the vector of [f],
    all below [bits], and the counter of [f] is their number. *)
Definition exact (bits : Z) (f : filter) (S : gset Z) : Prop :=
  (∀ q, q ∈ S ↔ bit f.1 q = true)
  ∧ f.2 = Z.of_nat (size S)
  ∧ ∀ q, q ∈ S → 0 ≤ q < bits.

Lemma exact_empty bits : exact bits (∅, 0) ∅.
Proof.
  split; [|split; [done|set_solver]].
  intros q. simpl. rewrite bit_empty. set_solver.
Qed.

Lemma exact_size bits f S : 0 ≤ bits → exact bits f S → Z.of_nat (size S) ≤ bits.
Proof.
  intros Hb (_ & _ & Hr).
  assert (HS : S ⊆ list_to_set (seqZ 0 bits)).
  { intros q Hq. apply elem_of_list_to_set, elem_of_seqZ. specialize (Hr q Hq). lia. }
  apply subseteq_size in HS.
  rewrite size_list_to_set in HS by apply NoDup_seqZ.
  rewrite length_seqZ in HS. lia.
Qed.

Lemma filter_set_count pos f :
  (filter_set pos f).2 = if bit f.1 pos then f.2 else wrap64 (f.2 + 1).
Proof.
  destruct f as [b s].
  destruct (bloom_set_bit_spec pos (with_filter (b, s) (mkKVS ∅ 0 0 ∅ 1 None None 0 0 0 ∅ 0 0)))
    as (db' & Hrun & _ & _ & Hcnt).
  rewrite bloom_set_bit_filter in Hrun. injection Hrun as <-. exact Hcnt.
Qed.

Lemma filter_set_exact bits pos f S :
  0 ≤ pos < bits → bits < 2 ^ 63 → exact bits f S →
  exact bits (filter_set pos f) ({[pos]} ∪ S)
  ∧ f.2 ≤ (filter_set pos f).2 ≤ f.2 + 1.
Proof.
  intros Hpos Hbits Hex. pose proof (exact_size bits f S ltac:(lia) Hex) as Hsz.
  destruct Hex as (Hbit & Hcnt & Hr).
  assert (Hc := filter_set_count pos f).
  destruct (bit f.1 pos) eqn:Hb.
  - apply Hbit in Hb. assert (HS : {[pos]} ∪ S = S) by set_solver.
    rewrite HS. split; [|lia]. split; [|split; [congruence|done]].
    intros q. rewrite filter_set_bit, orb_true_iff, bool_decide_eq_true, <- Hbit.
    set_solver.
  - assert (Hn : pos ∉ S) by (rewrite Hbit; congruence).
    unfold wrap64 in Hc. rewrite Z.mod_small in Hc by lia.
    split; [|lia]. split; [|split].
    + intros q. rewrite filter_set_bit, orb_true_iff, bool_decide_eq_true, <- Hbit.
      set_solver.
    + rewrite size_union by set_solver. rewrite size_singleton. lia.
    + intros q [->%elem_of_singleton|Hq]%elem_of_union; [lia|by apply Hr].
Qed.

Lemma positions_range bits k q : 0 < bits → q ∈ positions bits k → 0 ≤ q < bits.
Proof.
  intros Hb. unfold positions. rewrite !elem_of_cons, elem_of_nil.
  intros [->|[->|[->|[]]]]; by apply Z.mod_pos_bound.
Qed.

Lemma filter_add_exact bits k f S :
  0 < bits < 2 ^ 63 → exact bits f S →
  exact bits (filter_add bits k f) (list_to_set (positions bits k) ∪ S)
  ∧ f.2 ≤ (filter_add bits k f).2 ≤ f.2 + 3.
Proof.
  intros Hb Hex. unfold filter_add.
  assert (Hp : ∀ q, q ∈ positions bits k → 0 ≤ q < bits)
    by (intros q; apply positions_range; lia).
  unfold positions in *.
  destruct (filter_set_exact bits (fnv1a k (length k) mod bits) f S) as [H1 B1];
    [apply Hp; set_solver|lia|done|].
  destruct (filter_set_exact bits (hash2 k (length k) mod bits) _ _
              ltac:(apply Hp; set_solver) ltac:(lia) H1) as [H2 B2].
  destruct (filter_set_exact bits (hash3 k (length k) mod bits) _ _
              ltac:(apply Hp; set_solver) ltac:(lia) H2) as [H3 B3].
  split; [|lia].
  replace (list_to_set _ ∪ S) with
    ({[hash3 k (length k) mod bits]} ∪ ({[hash2 k (length k) mod bits]}
       ∪ ({[fnv1a k (length k) mod bits]} ∪ S)) : gset Z); [done|].
  apply set_eq. intros q. simpl. rewrite !elem_of_union, !elem_of_singleton.
  rewrite elem_of_empty. tauto.
Qed.

(** ** A family of keys *)

(** The key of number [i]: the four digits of [i] in base 31, each plus
    one, the most significant first. *)
Definition key_of (i : Z) : list byte :=
  [byte_of (1 + i / 31 / 31 / 31 mod 31); byte_of (1 + i / 31 / 31 mod 31);
   byte_of (1 + i / 31 mod 31); byte_of (1 + i mod 31)].

Definition hash3_base : Z := 0x811c9dc5 * 31 ^ 4 + 30784.

Lemma schar_digit d : 0 ≤ d < 31 → schar (byte_of (1 + d)) = 1 + d.
Proof.
  intros Hd. unfold schar. rewrite u8_byte_of, Z.mod_small by lia.
  destruct (Z.ltb_spec (1 + d) 128); [done|lia].
Qed.

Lemma u8_digit d : 0 ≤ d < 31 → u8 (byte_of (1 + d)) = 1 + d.
Proof. intros Hd. rewrite u8_byte_of, Z.mod_small; lia. Qed.

Lemma hash3_step x d : wrap32 (wrap32 (x mod 2 ^ 32 * 31) + d) = (x * 31 + d) mod 2 ^ 32.
Proof.
  unfold wrap32. rewrite Zmult_mod_idemp_l. by rewrite Zplus_mod_idemp_l.
Qed.

Lemma hash3_key_of i :
  0 ≤ i < 31 ^ 4 → hash3 (key_of i) 4 = (hash3_base + i) mod 2 ^ 32.
Proof.
  intros Hi. unfold hash3, key_of. cbn [take fold_left].
  pose proof (Z.mod_pos_bound i 31 ltac:(lia)).
  pose proof (Z.mod_pos_bound (i / 31) 31 ltac:(lia)).
  pose proof (Z.mod_pos_bound (i / 31 / 31) 31 ltac:(lia)).
  pose proof (Z.mod_pos_bound (i / 31 / 31 / 31) 31 ltac:(lia)).
  rewrite !schar_digit by done.
  change 2166136261 with (2166136261 mod 2 ^ 32) at 1.
  rewrite !hash3_step. f_equal. unfold hash3_base.
  pose proof (Z.div_mod i 31 ltac:(lia)).
  pose proof (Z.div_mod (i / 31) 31 ltac:(lia)).
  pose proof (Z.div_mod (i / 31 / 31) 31 ltac:(lia)).
  assert (i / 31 / 31 / 31 mod 31 = i / 31 / 31 / 31).
  { apply Z.mod_small. split; [repeat apply Z.div_pos; lia|].
    repeat (apply Z.div_lt_upper_bound; [lia|]). lia. }
  lia.
Qed.

(** The position of the third hash of the key of number [i] in a vector of
    [2 ^ 20] bits. *)
Definition pos3 (i : Z) : Z := (hash3_base + i) mod 2 ^ 20.

Lemma pos3_key_of i : 0 ≤ i < 31 ^ 4 → hash3 (key_of i) 4 mod 2 ^ 20 = pos3 i.
Proof.
  intros Hi. rewrite hash3_key_of by done. unfold pos3.
  apply Z.mod_mod_divide. exists (2 ^ 12). lia.
Qed.

Lemma pos3_inj i j : 0 ≤ i < 2 ^ 20 → 0 ≤ j < 2 ^ 20 → pos3 i = pos3 j → i = j.
Proof.
  unfold pos3. intros Hi Hj Heq.
  pose proof (Z.div_mod (hash3_base + i) (2 ^ 20) ltac:(lia)) as Di.
  pose proof (Z.div_mod (hash3_base + j) (2 ^ 20) ltac:(lia)) as Dj.
  rewrite Heq in Di. lia.
Qed.

Lemma key_of_inj i j : 0 ≤ i < 31 ^ 4 → 0 ≤ j < 31 ^ 4 → key_of i = key_of j → i = j.
Proof.
  intros Hi Hj Heq. apply pos3_inj; [lia|lia|].
  rewrite <- !pos3_key_of by done. by rewrite Heq.
Qed.

Lemma key_of_cstr i : cstr (key_of i) = key_of i.
Proof.
  pose proof (Z.mod_pos_bound i 31 ltac:(lia)).
  pose proof (Z.mod_pos_bound (i / 31) 31 ltac:(lia)).
  pose proof (Z.mod_pos_bound (i / 31 / 31) 31 ltac:(lia)).
  pose proof (Z.mod_pos_bound (i / 31 / 31 / 31) 31 ltac:(lia)).
  unfold cstr, key_of. cbn [strlen]. rewrite !u8_digit by done.
  rewrite !(proj2 (Z.eqb_neq _ 0)) by lia. done.
Qed.

Lemma key_of_cost i : cost (key_of i) val_1 = 48.
Proof. reflexivity. Qed.

Lemma key_of_ok i : buf_ok (key_of i).
Proof. unfold buf_ok, len, key_of. simpl. lia. Qed.

Lemma val_1_ok : buf_ok val_1.
Proof. unfold buf_ok, len, val_1. simpl. lia. Qed.

(** ** What a put does to the filter *)

Lemma kvs_put_raw_filter db m k v :
  holds db m → buf_ok k → buf_ok v → pool_pos db + cost k v ≤ pool_size db →
  ∃ db' live', kvs_put_raw k v db = Some (KVS_OK, db')
    ∧ holds db' (<[k := v]> m)
    ∧ pool_pos db' = pool_pos db + cost k v
    ∧ (∀ x, x ∈ live' ↔ is_Some (<[k := v]> m !! x))
    ∧ put_filter db k db' live'.
Proof.
  intros (T & HI & ->) Hk Hv Hroom.
  destruct (kvs_put_raw_ok db T k v HI Hk Hv Hroom)
    as (db' & T' & upd & Hrun & HI' & Hch & Hpos & Hf).
  exists db', (live_pairs (pool db') (contents T')).*1.
  assert (Hm : live_map db' T' = <[k := v]> (live_map db T)).
  { unfold live_map. eapply list_to_map_put; [done|]. by apply live_keys_nodup. }
  split; [done|]. split; [by exists T'|]. split; [done|]. split; [|done].
  intros x. rewrite <- Hm. unfold live_map.
  rewrite <- not_eq_None_Some, <- not_elem_of_list_to_map.
  destruct (decide (x ∈ (live_pairs (pool db') (contents T')).*1)); tauto.
Qed.

Lemma run_app l1 l2 db db1 :
  run l1 db = Some (tt, db1) → run (l1 ++ l2) db = run l2 db1.
Proof.
  revert db. induction l1 as [|o l1 IH]; intros db H.
  - by injection H as ->.
  - simpl in *. apply bind_inv in H as ([] & db0 & Ho & H).
    erewrite bind_run; [|exact Ho]. by apply IH.
Qed.

Lemma run_put k v l db r db' :
  kvs_put_raw k v db = Some (r, db') → run (Put k v :: l) db = run l db'.
Proof.
  intros H. cbn [run run_op]. erewrite bind_run; [done|].
  erewrite bind_run; [|exact H]. done.
Qed.

Lemma run_delete k l db r db' :
  kvs_delete k db = Some (r, db') → run (Delete k :: l) db = run l db'.
Proof.
  intros H. cbn [run run_op]. erewrite bind_run; [done|].
  erewrite bind_run; [|exact H]. done.
Qed.

(** ** Filling, churning and replacing *)

(** The store filled with the keys of the numbers below [n]. *)
Fixpoint filled (n : nat) : gmap (list byte) (list byte) :=
  match n with
  | O => ∅
  | S n' => <[key_of (Z.of_nat n') := val_1]> (filled n')
  end.

Lemma filled_lookup n k :
  is_Some (filled n !! k) ↔ ∃ i, (i < n)%nat ∧ k = key_of (Z.of_nat i).
Proof.
  induction n as [|n IH]; simpl.
  - rewrite lookup_empty. split; [by intros []|]. intros (i & ? & _). lia.
  - destruct (decide (k = key_of (Z.of_nat n))) as [->|Hne].
    + rewrite lookup_insert_eq. split; [|eauto]. intros _. exists n. split; [lia|done].
    + rewrite lookup_insert_ne by done. rewrite IH. split.
      * intros (i & ? & ?). exists i. split; [lia|done].
      * intros (i & Hi & ?). exists i. split; [|done].
        destruct (decide (i = n)) as [->|]; [done|lia].
Qed.

Lemma filled_fresh n i :
  (n ≤ i)%nat → Z.of_nat i < 31 ^ 4 → filled n !! key_of (Z.of_nat i) = None.
Proof.
  intros Hn Hi. apply eq_None_not_Some. rewrite filled_lookup.
  intros (j & Hj & Heq). apply key_of_inj in Heq; lia.
Qed.

Lemma filled_size n : Z.of_nat n ≤ 31 ^ 4 → size (filled n) = n.
Proof.
  induction n as [|n IH]; intros Hn; simpl; [done|].
  rewrite map_size_insert_None by (apply filled_fresh; lia). rewrite IH; lia.
Qed.

Definition put_number (i : nat) : op := Put (key_of (Z.of_nat i)) val_1.

Definition fill (n : nat) : list op := put_number <$> seq 0 n.

(** [n] rounds of putting and deleting a key, from the key of number [a]. *)
Definition churn (a n : nat) : list op :=
  flat_map (λ i, [put_number i; Delete (key_of (Z.of_nat i))]) (seq a n).

Definition filling (n : nat) (db : KVS) : Prop :=
  holds db (filled n) ∧ bloom_bits db = 2 ^ 20 ∧ pool_pos db = 48 * Z.of_nat n
  ∧ ∃ S, exact (2 ^ 20) (filter_of db) S ∧ (filter_of db).2 ≤ 3 * Z.of_nat n.

Lemma holds_pool_size db m : holds db m → pool_size db = KVS_DEFAULT_POOL_SIZE.
Proof. intros (T & HI & _). by destruct (inv_pool _ _ HI). Qed.

Lemma put_filter_low db k db' live' :
  bloom_bits db = 2 ^ 20 → 2 * (filter_add (2 ^ 20) k (filter_of db)).2 < 2 ^ 20 →
  put_filter db k db' live' →
  bloom_bits db' = 2 ^ 20 ∧ filter_of db' = filter_add (2 ^ 20) k (filter_of db).
Proof.
  intros Hb Hlow. unfold put_filter. rewrite Hb. unfold fill_reached.
  change (2 ^ 20 =? 0) with false. cbv iota.
  destruct (Z.leb_spec (2 ^ 20) (2 * (filter_add (2 ^ 20) k (filter_of db)).2)); [lia|].
  by rewrite andb_false_r.
Qed.

Lemma put_filter_off db k db' live' :
  bloom_bits db = 2 ^ 20 → count db' mod 1000 ≠ 0 →
  put_filter db k db' live' →
  bloom_bits db' = 2 ^ 20 ∧ filter_of db' = filter_add (2 ^ 20) k (filter_of db).
Proof.
  intros Hb Hc. unfold put_filter. rewrite Hb.
  by rewrite (proj2 (Z.eqb_neq _ _) Hc).
Qed.

Lemma put_filter_grow db k db' live' :
  bloom_bits db = 2 ^ 20 → count db' mod 1000 = 0 →
  2 ^ 20 ≤ 2 * (filter_add (2 ^ 20) k (filter_of db)).2 →
  put_filter db k db' live' →
  bloom_bits db' = 2 ^ 22 ∧ filter_of db' = filter_add_all (2 ^ 22) live' (∅, 0).
Proof.
  intros Hb Hc Hfill. unfold put_filter. rewrite Hb, Hc. unfold fill_reached.
  change (2 ^ 20 =? 0) with false. cbv iota.
  rewrite (proj2 (Z.leb_le _ _) Hfill). done.
Qed.

Lemma fill_step n db :
  (n < 1000)%nat → filling n db →
  ∃ db', kvs_put_raw (key_of (Z.of_nat n)) val_1 db = Some (KVS_OK, db') ∧ filling (S n) db'.
Proof.
  intros Hn (Hm & Hb & Hp & S & Hex & Hlow).
  pose proof (holds_pool_size _ _ Hm) as Hsz.
  destruct (kvs_put_raw_filter db _ (key_of (Z.of_nat n)) val_1 Hm
              (key_of_ok _) val_1_ok) as (db' & live' & Hrun & Hm' & Hp' & _ & Hf).
  { rewrite key_of_cost, Hsz, Hp. unfold KVS_DEFAULT_POOL_SIZE. lia. }
  destruct (filter_add_exact (2 ^ 20) (key_of (Z.of_nat n)) _ S ltac:(lia) Hex)
    as [Hex' Hcnt].
  apply put_filter_low in Hf as [Hb' Hf']; [|done|lia].
  exists db'. split; [done|]. split; [exact Hm'|]. split; [done|].
  split; [rewrite Hp', key_of_cost, Hp; lia|].
  eexists. rewrite Hf'. split; [exact Hex'|lia].
Qed.

Lemma fill_run n :
  (n ≤ 1000)%nat → ∃ db, run (fill n) kvs_open = Some (tt, db) ∧ filling n db.
Proof.
  induction n as [|n IH]; intros Hn.
  - exists kvs_open. split; [done|]. split; [apply holds_open|].
    split; [done|]. split; [done|]. exists ∅. split; [apply exact_empty|done].
  - destruct IH as (db & Hrun & Hfl); [lia|].
    destruct (fill_step n db ltac:(lia) Hfl) as (db' & Hput & Hfl').
    exists db'. split; [|done]. unfold fill. rewrite seq_S, fmap_app.
    rewrite (run_app _ _ _ _ Hrun). cbn [fmap list_fmap]. unfold put_number.
    by rewrite (run_put _ _ _ _ _ _ Hput).
Qed.

(** The positions of the third hash of the keys of the numbers
    [1000 .. 1000 + n - 1]. *)
Fixpoint marks (n : nat) : gset Z :=
  match n with
  | O => ∅
  | S n' => {[pos3 (1000 + Z.of_nat n')]} ∪ marks n'
  end.

Lemma marks_elem n q : q ∈ marks n → ∃ i, (i < n)%nat ∧ q = pos3 (1000 + Z.of_nat i).
Proof.
  induction n as [|n IH]; simpl; [set_solver|].
  intros [->%elem_of_singleton|Hq]%elem_of_union.
  - exists n. split; [lia|done].
  - destruct (IH Hq) as (i & ? & ?). exists i. split; [lia|done].
Qed.

Lemma marks_size n : 1000 + Z.of_nat n ≤ 2 ^ 20 → size (marks n) = n.
Proof.
  induction n as [|n IH]; intros Hn; simpl; [done|].
  rewrite size_union.
  - rewrite size_singleton, IH; lia.
  - intros q ->%elem_of_singleton (i & Hi & Heq)%marks_elem.
    apply pos3_inj in Heq; lia.
Qed.

Definition churning (n : nat) (db : KVS) : Prop :=
  holds db (filled 1000) ∧ bloom_bits db = 2 ^ 20
  ∧ pool_pos db = 48 * (1000 + Z.of_nat n)
  ∧ ∃ S, exact (2 ^ 20) (filter_of db) S ∧ marks n ⊆ S.

Lemma filling_churning db : filling 1000 db → churning 0 db.
Proof.
  intros (Hm & Hb & Hp & S & Hex & _).
  split; [exact Hm|].
  split; [exact Hb|].
  split; [lia|].
  exists S.
  split; [exact Hex|].
  apply empty_subseteq.
Qed.

(** The number of rounds of the runs below. *)
Definition ROUNDS : Z := 524288.

Lemma churn_step n db :
  Z.of_nat n < ROUNDS → churning n db →
  ∃ db1 db2,
    kvs_put_raw (key_of (Z.of_nat (1000 + n))) val_1 db = Some (KVS_OK, db1)
    ∧ kvs_delete (key_of (Z.of_nat (1000 + n))) db1 = Some (KVS_OK, db2)
    ∧ churning (S n) db2.
Proof.
  unfold ROUNDS. intros Hn (Hm & Hb & Hp & S & Hex & Hmk).
  set (k := key_of (Z.of_nat (1000 + n))).
  pose proof (holds_pool_size _ _ Hm) as Hsz.
  assert (Hfresh : filled 1000 !! k = None) by (apply filled_fresh; lia).
  destruct (kvs_put_raw_filter db _ k val_1 Hm (key_of_ok _) val_1_ok)
    as (db1 & live' & Hrun & Hm1 & Hp1 & _ & Hf).
  { unfold k. rewrite key_of_cost, Hsz, Hp. unfold KVS_DEFAULT_POOL_SIZE. lia. }
  destruct (filter_add_exact (2 ^ 20) k _ S ltac:(lia) Hex) as [Hex1 _].
  apply put_filter_off in Hf as [Hb1 Hf1]; [|done|].
  2: { rewrite (holds_count _ _ Hm1), map_size_insert_None by done.
       rewrite filled_size by lia. done. }
  destruct (kvs_delete_holds db1 _ k Hm1) as (db2 & Hdel & Hm2 & Hp2 & Hb2 & Hf2).
  unfold k in Hdel, Hm2. rewrite key_of_cstr in Hdel, Hm2. fold k in Hdel, Hm2.
  rewrite decide_True in Hdel by (rewrite lookup_insert_eq; eauto).
  rewrite delete_insert_id in Hm2 by done.
  exists db1, db2. split; [done|]. split; [done|].
  split; [done|]. split; [congruence|].
  split; [rewrite Hp2, Hp1; unfold k; rewrite key_of_cost, Hp; lia|].
  eexists. rewrite Hf2, Hf1. split; [exact Hex1|].
  cbn [marks]. apply union_mono; [|exact Hmk].
  apply singleton_subseteq_l, elem_of_list_to_set.
  rewrite <- pos3_key_of by lia.
  replace (1000 + Z.of_nat n) with (Z.of_nat (1000 + n)) by lia.
  fold k. unfold positions. change (length k) with 4%nat.
  rewrite !elem_of_cons. auto.
Qed.

Lemma churn_run k : ∀ n db,
  Z.of_nat (n + k) ≤ ROUNDS → churning n db →
  ∃ db', run (churn (1000 + n) k) db = Some (tt, db') ∧ churning (n + k) db'.
Proof.
  induction k as [|k IH]; intros n db Hn Hch.
  - exists db. rewrite Nat.add_0_r. done.
  - destruct (churn_step n db ltac:(lia) Hch) as (db1 & db2 & Hput & Hdel & Hch2).
    destruct (IH (S n) db2 ltac:(lia) Hch2) as (db' & Hrun & Hch').
    exists db'. replace (n + S k)%nat with (S n + k)%nat by lia. split; [|done].
    unfold churn. cbn [seq flat_map app]. unfold put_number at 1.
    rewrite (run_put _ _ _ _ _ _ Hput), (run_delete _ _ _ _ _ Hdel).
    replace (S (1000 + n)) with (1000 + S n)%nat by lia. exact Hrun.
Qed.

Lemma filled_value n i :
  (i < n)%nat → filled n !! key_of (Z.of_nat i) = Some val_1.
Proof.
  induction n as [|n IH]; intros Hi; [lia|]. cbn [filled].
  destruct (decide (key_of (Z.of_nat i) = key_of (Z.of_nat n))) as [->|Hne].
  - apply lookup_insert_eq.
  - rewrite lookup_insert_ne by done. apply IH.
    destruct (decide (i = n)) as [->|]; [done|lia].
Qed.

(** The state after the filling and [ROUNDS] rounds: replacing the value of
    the key of number 0 makes the filter grow, and the new vector holds the
    keys of the numbers below 1000. *)
Lemma replace_grows db :
  churning (Z.to_nat ROUNDS) db →
  kvs_get (key_of 0) db = Some (Some val_1, db)
  ∧ ∃ db', kvs_put_raw (key_of 0) val_2 db = Some (KVS_OK, db')
      ∧ count db' = count db ∧ bloom_bits db = 2 ^ 20 ∧ bloom_bits db' = 2 ^ 22
      ∧ ∀ q, bit (bloom db') q = true
             → ∃ i, (i < 1000)%nat ∧ q ∈ positions (2 ^ 22) (key_of (Z.of_nat i)).
Proof.
  intros (Hm & Hb & Hp & X & Hex & Hmk).
  pose proof (holds_pool_size _ _ Hm) as Hsz.
  assert (HR : Z.of_nat (Z.to_nat ROUNDS) = ROUNDS) by (apply Z2Nat.id; by compute).
  assert (Hk0 : filled 1000 !! key_of 0 = Some val_1).
  { apply (filled_value 1000 0). lia. }
  split.
  { rewrite (kvs_get_holds _ _ _ Hm), key_of_cstr. by rewrite Hk0. }
  destruct (kvs_put_raw_filter db _ (key_of 0) val_2 Hm (key_of_ok _))
    as (db' & live' & Hrun & Hm' & Hp' & Hlive & Hf).
  { unfold buf_ok, len, val_2. simpl. lia. }
  { change (cost (key_of 0) val_2) with 48. rewrite Hsz, Hp, HR.
    unfold KVS_DEFAULT_POOL_SIZE, ROUNDS. lia. }
  assert (Hc' : count db' = 1000).
  { rewrite (holds_count _ _ Hm'), map_size_insert_Some by eauto.
    rewrite filled_size; lia. }
  assert (Hc : count db = 1000).
  { rewrite (holds_count _ _ Hm), filled_size; lia. }
  destruct (filter_add_exact (2 ^ 20) (key_of 0) _ X ltac:(lia) Hex) as [_ Hcnt].
  assert (HX : ROUNDS ≤ (filter_of db).2).
  { destruct Hex as (_ & -> & _). apply subseteq_size in Hmk.
    rewrite marks_size in Hmk by (rewrite HR; unfold ROUNDS; lia). lia. }
  apply put_filter_grow in Hf as [Hb' Hf']; [|exact Hb|by rewrite Hc'|unfold ROUNDS in HX; lia].
  exists db'. split; [exact Hrun|]. split; [congruence|]. split; [exact Hb|].
  split; [exact Hb'|].
  intros q Hq. change (bloom db') with (filter_of db').1 in Hq.
  rewrite Hf' in Hq. apply filter_add_all_bit in Hq as [Hq|(k & Hk & Hq)].
  { simpl in Hq. by rewrite bit_empty in Hq. }
  apply Hlive in Hk.
  assert (Hk' : is_Some (filled 1000 !! k)).
  { destruct (decide (k = key_of 0)) as [->|Hne]; [by rewrite Hk0|].
    by rewrite lookup_insert_ne in Hk. }
  apply filled_lookup in Hk' as (i & Hi & ->). eauto.
Qed.

(** ** A deleted key after a growth *)



Definition growth_run : list op := fill 1000 ++ churn 1000 (Z.to_nat ROUNDS).

Lemma growth_run_churning :
  ∃ db, run growth_run kvs_open = Some (tt, db) ∧ churning (Z.to_nat ROUNDS) db.
Proof.
  destruct (fill_run 1000 ltac:(lia)) as (db0 & Hfill & Hfl).
  destruct (churn_run (Z.to_nat ROUNDS) 0 db0) as (db & Hrun & Hch).
  { rewrite Nat.add_0_l, Z2Nat.id; [lia|by compute]. }
  { by apply filling_churning. }
  rewrite Nat.add_0_l in Hch. rewrite Nat.add_0_r in Hrun.
  exists db. split; [|exact Hch].
  unfold growth_run. rewrite (run_app _ _ _ _ Hfill). exact Hrun.
Qed.


(** C6, as stated, fails: after the filling and the rounds the key of
    number 0 is in the store; the put that replaces its value inserts
    nothing (the count of the store stays what it was), and the filter grows
    from [2 ^ 20] to [2 ^ 22] bits during it. *)
Lemma filter_grows_on_replace :
  ∃ db db',
    run growth_run kvs_open = Some (tt, db)
    ∧ kvs_get (key_of 0) db = Some (Some val_1, db)
    ∧ kvs_put_raw (key_of 0) val_2 db = Some (KVS_OK, db')
    ∧ count db' = count db
    ∧ bloom_bits db = 2 ^ 20 ∧ bloom_bits db' = 2 ^ 22.
Proof.
  destruct growth_run_churning as (db & Hrun & Hch).
  destruct (replace_grows db Hch) as (Hget & db' & Hrep & Hc & Hb & Hb' & _).
  exists db, db'. split; [exact Hrun|]. split; [exact Hget|]. split; [exact Hrep|].
  split; [exact Hc|]. split; [exact Hb|exact Hb'].
Qed.

Local Close Scope Z_scope.

Local Open Scope Z_scope.

(** * The filter and the live keys *)




(** * The points at which the filter grows *)

Definition visit_key (x : visit) : list byte := x.1.1.1.

Lemma visit_key_pairs (ps : list (list byte * list byte)) :
  visit_key <$> (pair_visit <$> ps) = ps.*1.
Proof. rewrite <- list_fmap_compose. by apply list_fmap_ext. Qed.

(** C6, amended: in a state a run from the fresh store ends in, a put that
    returns OK and leaves a count of live entries that is a multiple of
    1000, whether it has inserted a key or replaced a value, compares the
    fill of the filter (the new key added) with one half, and exactly when
    the fill has reached it and the vector has fewer than [2 ^ 26] bits the
    vector is replaced by one of four times the size to which the keys of
    the live entries, those [kvs_foreach] visits, are added; after any other
    put that returns OK the filter is the old one with the key added; a put
    that fails, a delete and a get leave the filter as it is. *)
Theorem filter_grows_after_put_at_count_multiple (ops : list op) (db : KVS) (k v : list byte) :
  Forall valid_op ops → run ops kvs_open = Some (tt, db) → buf_ok k → buf_ok v →
  (∃ r db', kvs_put_raw k v db = Some (r, db')
     ∧ match r with
       | KVS_OK => ∃ vs, kvs_foreach db' = Some ((vs, count db'), db')
                         ∧ put_filter db k db' (visit_key <$> vs)
       | _ => bloom_bits db' = bloom_bits db ∧ filter_of db' = filter_of db
       end)
  ∧ (∃ r db', kvs_delete k db = Some (r, db')
       ∧ bloom_bits db' = bloom_bits db ∧ filter_of db' = filter_of db)
  ∧ (∃ r, kvs_get k db = Some (r, db)).
Proof.
  intros Hops Hrun Hk Hv. destruct (run_open_inv ops db Hops Hrun) as [m Hm].
  split; [|split].
  - pose proof Hm as (T & HI & _).
    destruct (decide (pool_pos db + cost k v ≤ pool_size db)) as [Hroom|Hroom].
    + destruct (kvs_put_raw_ok db T k v HI Hk Hv Hroom)
        as (db' & T' & upd & Hput & HI' & _ & _ & Hf).
      exists KVS_OK, db'. split; [done|].
      exists (pair_visit <$> live_pairs (pool db') (contents T')).
      split; [by apply kvs_foreach_holds|]. by rewrite visit_key_pairs.
    + destruct (kvs_put_raw_nomem db k v (inv_pool _ _ HI) Hk Hv ltac:(lia))
        as (p & Hput & _).
      exists KVS_ERR_NOMEM, (set_pool_pos p db). split; [done|]. by destruct db.
  - destruct (kvs_delete_holds db m k Hm) as (db' & Hdel & _ & _ & Hb & Hf). eauto.
  - exists (m !! cstr k). by apply kvs_get_holds.
Qed.

Lemma filter_grows_after_put_at_count_multiple_witness :
  (∃ r db', kvs_put_raw key_a val_2 (run_state [] sample_run) = Some (r, db')
     ∧ match r with
       | KVS_OK => ∃ vs, kvs_foreach db' = Some ((vs, count db'), db')
                         ∧ put_filter (run_state [] sample_run) key_a db' (visit_key <$> vs)
       | _ => bloom_bits db' = bloom_bits (run_state [] sample_run)
              ∧ filter_of db' = filter_of (run_state [] sample_run)
       end)
  ∧ (∃ r db', kvs_delete key_a (run_state [] sample_run) = Some (r, db')
       ∧ bloom_bits db' = bloom_bits (run_state [] sample_run)
       ∧ filter_of db' = filter_of (run_state [] sample_run))
  ∧ (∃ r, kvs_get key_a (run_state [] sample_run) = Some (r, run_state [] sample_run)).
Proof.
  apply (filter_grows_after_put_at_count_multiple sample_run (run_state [] sample_run)
           key_a val_2).
  - exact sample_run_valid.
  - vm_compute; reflexivity.
  - vm_compute; reflexivity.
  - vm_compute; reflexivity.
Defined.

Local Close Scope Z_scope.

Local Open Scope Z_scope.

(** * Further properties of the store *)

(** ** Key comparison *)

(** [keycmp] on two keys with their lengths is a strict total order: it
    returns zero for equal keys only, its sign is reversed when the
    arguments are exchanged, and "negative" is transitive. *)
Theorem keycmp_strict_total_order (a b c : list byte) :
  (keycmp a (len a) b (len b) = 0 ↔ a = b)
  ∧ (keycmp a (len a) b (len b) < 0 ↔ 0 < keycmp b (len b) a (len a))
  ∧ (keycmp a (len a) b (len b) < 0 → keycmp b (len b) c (len c) < 0
     → keycmp a (len a) c (len c) < 0).
Proof.
  split; [|split].
  - rewrite <- Z.eqb_eq, keycmp_eq. apply bool_decide_eq_true.
  - rewrite <- Z.ltb_lt, keycmp_lt, bool_decide_eq_true.
    rewrite <- Z.gt_lt_iff, <- Z.gtb_gt, keycmp_gt, bool_decide_eq_true. done.
  - rewrite <- !Z.ltb_lt, !keycmp_lt, !bool_decide_eq_true. apply klt_trans.
Qed.

(** A key that is a proper prefix of another is the smaller one. *)
Theorem keycmp_prefix_smaller (a b : list byte) :
  b ≠ [] → keycmp a (len a) (a ++ b) (len (a ++ b)) < 0.
Proof.
  intros Hb. apply Z.ltb_lt. rewrite keycmp_lt. apply bool_decide_eq_true.
  unfold klt. induction a as [|x a IH]; simpl.
  - by destruct b.
  - by rewrite Z.compare_refl.
Qed.

Lemma keycmp_prefix_smaller_witness :
  keycmp key_a (len key_a) (key_a ++ key_b) (len (key_a ++ key_b)) < 0.
Proof. apply (keycmp_prefix_smaller key_a key_b). discriminate. Defined.

(** ** The nodes of the tree *)

Lemma reach_node db T p n :
  Inv db T → reach db p → heap db !! p = Some n →
  ∃ s, s ∈ subtrees T ∧ tptr s = p ∧ tree_repr n s ∧ node_wf s ∧ ksorted (tkeys s).
Proof.
  intros HI Hp Hn. destruct (reach_subtree db T p HI Hp) as (s & Hs & <-).
  pose proof (inv_repr _ _ HI) as Hrepr. unfold repr in Hrepr.
  rewrite Forall_forall in Hrepr. destruct (Hrepr s Hs) as (n' & Hn' & Hr).
  rewrite Hn in Hn'. injection Hn' as <-.
  pose proof (bst_sorted_nodes _ _ _ (inv_bst _ _ HI)) as Hsn.
  unfold sorted_nodes in Hsn. rewrite Forall_forall in Hsn.
  pose proof (inv_wf _ _ HI) as Hwf. unfold wf in Hwf. rewrite Forall_forall in Hwf.
  exists s. split; [done|]. split; [done|]. split; [done|]. split; [by apply Hwf|by apply Hsn].
Qed.

Lemma tree_repr_keys n s : tree_repr n s → keys_repr n (tkeys s).
Proof. destruct s; simpl; by intros (_ & _ & ? & _). Qed.

(** The comparison of the key in cell [j] of a node with [k]. *)
Definition cell_cmp (n : BPNode) (j : nat) (k : list byte) : option Z :=
  kj ← keys n !! j; lj ← klens n !! j; Some (keycmp kj lj k (len k)).

Lemma cell_cmp_repr n ks j x k :
  keys_repr n ks → ks !! j = Some x → cell_cmp n j k = Some (keycmp x (len x) k (len k)).
Proof.
  intros Hkr Hx. destruct (keys_repr_lookup _ _ _ _ Hkr Hx) as [H1 H2].
  unfold cell_cmp, aget in *. by rewrite H1, H2.
Qed.

(** In a state a run from the fresh store ends in, [leaf_find_pos] on a
    node of the tree returns the position of the first key in use that is
    not smaller than the key looked for ([num_keys] when there is none):
    the keys before it compare negative, those from it on do not. *)
Theorem leaf_find_pos_first_not_smaller (ops : list op) (db : KVS) (p : positive)
    (n : BPNode) (k : list byte) :
  Forall valid_op ops → run ops kvs_open = Some (tt, db) →
  reach db p → heap db !! p = Some n →
  ∃ pos, leaf_find_pos n k (len k) = Some pos
    ∧ (pos ≤ num_keys n)%nat
    ∧ (∀ j, (j < pos)%nat → ∃ c, cell_cmp n j k = Some c ∧ c < 0)
    ∧ (∀ j, (pos ≤ j < num_keys n)%nat → ∃ c, cell_cmp n j k = Some c ∧ 0 ≤ c).
Proof.
  intros Hops Hrun Hp Hn. destruct (run_open_inv ops db Hops Hrun) as (m & T & HI & _).
  destruct (reach_node db T p n HI Hp Hn) as (s & _ & _ & Hr & _ & Hs).
  apply tree_repr_keys in Hr. pose proof Hr as (Hnk & _).
  destruct (leaf_find_pos_spec n (tkeys s) k Hr Hs) as (pos & Hrun' & Hle & Hlo & Hhi).
  exists pos. split; [done|]. split; [lia|]. split.
  - intros j Hj. destruct (lookup_lt_is_Some_2 (tkeys s) j) as [x Hx]; [lia|].
    eexists. split; [by eapply cell_cmp_repr|].
    apply Z.ltb_lt. rewrite keycmp_lt. apply bool_decide_eq_true. by eapply Hlo.
  - intros j Hj. destruct (lookup_lt_is_Some_2 (tkeys s) j) as [x Hx]; [lia|].
    eexists. split; [by eapply cell_cmp_repr|].
    specialize (Hhi j x Hx ltac:(lia)).
    destruct (Z.ltb_spec (keycmp x (len x) k (len k)) 0) as [Hlt|]; [|done].
    apply Z.ltb_lt in Hlt. rewrite keycmp_lt in Hlt. apply bool_decide_eq_true in Hlt.
    unfold kle, klt in *. rewrite (kcompare_antisym x k), Hlt in Hhi. done.
Qed.

(** The root node of a store, or an empty node. *)
Definition root_node (db : KVS) : BPNode :=
  default zero_node (r ← root db; heap db !! r).

Lemma leaf_find_pos_first_not_smaller_witness :
  ∃ pos, leaf_find_pos (root_node (run_state [] sample_run)) key_b (len key_b) = Some pos
    ∧ (pos ≤ num_keys (root_node (run_state [] sample_run)))%nat
    ∧ (∀ j, (j < pos)%nat
        → ∃ c, cell_cmp (root_node (run_state [] sample_run)) j key_b = Some c ∧ c < 0)
    ∧ (∀ j, (pos ≤ j < num_keys (root_node (run_state [] sample_run)))%nat
        → ∃ c, cell_cmp (root_node (run_state [] sample_run)) j key_b = Some c ∧ 0 ≤ c).
Proof.
  apply (leaf_find_pos_first_not_smaller sample_run (run_state [] sample_run) 1%positive).
  - exact sample_run_valid.
  - vm_compute; reflexivity.
  - apply reach_root. vm_compute; reflexivity.
  - vm_compute; reflexivity.
Defined.

(** In such a state [internal_find_pos] on a node of the tree returns the
    position of the first key in use that is greater than the key looked
    for: the keys before it compare negative or zero, those from it on
    positive.  This is the index of the child to descend into. *)
Theorem internal_find_pos_first_greater (ops : list op) (db : KVS) (p : positive)
    (n : BPNode) (k : list byte) :
  Forall valid_op ops → run ops kvs_open = Some (tt, db) →
  reach db p → heap db !! p = Some n →
  ∃ pos, internal_find_pos n k (len k) = Some pos
    ∧ (pos ≤ num_keys n)%nat
    ∧ (∀ j, (j < pos)%nat → ∃ c, cell_cmp n j k = Some c ∧ c ≤ 0)
    ∧ (∀ j, (pos ≤ j < num_keys n)%nat → ∃ c, cell_cmp n j k = Some c ∧ 0 < c).
Proof.
  intros Hops Hrun Hp Hn. destruct (run_open_inv ops db Hops Hrun) as (m & T & HI & _).
  destruct (reach_node db T p n HI Hp Hn) as (s & _ & _ & Hr & _ & Hs).
  apply tree_repr_keys in Hr. pose proof Hr as (Hnk & _).
  destruct (internal_find_pos_spec n (tkeys s) k Hr Hs) as (pos & Hrun' & Hle & Hlo & Hhi).
  exists pos. split; [done|]. split; [lia|]. split.
  - intros j Hj. destruct (lookup_lt_is_Some_2 (tkeys s) j) as [x Hx]; [lia|].
    eexists. split; [by eapply cell_cmp_repr|].
    apply Z.leb_le. rewrite keycmp_le. apply bool_decide_eq_true. by eapply Hlo.
  - intros j Hj. destruct (lookup_lt_is_Some_2 (tkeys s) j) as [x Hx]; [lia|].
    eexists. split; [by eapply cell_cmp_repr|].
    specialize (Hhi j x Hx ltac:(lia)).
    apply Z.gt_lt, Z.gtb_gt. rewrite keycmp_gt. by apply bool_decide_eq_true.
Qed.

Lemma internal_find_pos_first_greater_witness :
  ∃ pos, internal_find_pos (root_node (run_state [] sample_run)) key_b (len key_b) = Some pos
    ∧ (pos ≤ num_keys (root_node (run_state [] sample_run)))%nat
    ∧ (∀ j, (j < pos)%nat
        → ∃ c, cell_cmp (root_node (run_state [] sample_run)) j key_b = Some c ∧ c ≤ 0)
    ∧ (∀ j, (pos ≤ j < num_keys (root_node (run_state [] sample_run)))%nat
        → ∃ c, cell_cmp (root_node (run_state [] sample_run)) j key_b = Some c ∧ 0 < c).
Proof.
  apply (internal_find_pos_first_greater sample_run (run_state [] sample_run) 1%positive).
  - exact sample_run_valid.
  - vm_compute; reflexivity.
  - apply reach_root. vm_compute; reflexivity.
  - vm_compute; reflexivity.
Defined.

(** In such a state every node of the tree has fewer than [ORDER - 1] keys
    in use, so that one more fits before the split; a leaf has an entry in
    each cell in use, an internal node a child in each cell in use and in
    the one after the last key. *)
Theorem node_never_full (ops : list op) (db : KVS) (p : positive) (n : BPNode) :
  Forall valid_op ops → run ops kvs_open = Some (tt, db) →
  reach db p → heap db !! p = Some n →
  (num_keys n < ORDER - 1)%nat
  ∧ (num_keys n ≤ length (keys n))%nat
  ∧ if is_leaf n
    then ∀ j, (j < num_keys n)%nat → ∃ e, entries n !! j = Some (Some e)
    else ∀ j, (j ≤ num_keys n)%nat
           → ∃ c nc, children n !! j = Some (Some c) ∧ heap db !! c = Some nc.
Proof.
  intros Hops Hrun Hp Hn. destruct (run_open_inv ops db Hops Hrun) as (m & T & HI & _).
  destruct (reach_node db T p n HI Hp Hn) as (s & Hsub & _ & Hr & Hwf & _).
  destruct s as [q ks es|q ks cs]; simpl in Hr, Hwf.
  - destruct Hr as (-> & (Hlk & _) & (Hnk & _) & Hlen & Hes). destruct Hwf as [_ Hw].
    change (ORDER - 1)%nat with 63%nat in *.
    split; [lia|]. split; [lia|].
    intros j Hj. destruct (lookup_lt_is_Some_2 es j) as [e He]; [lia|].
    exists e. apply Hes. by rewrite list_lookup_fmap, He.
  - destruct Hr as (-> & (Hlk & _) & (Hnk & _) & Hlen & Hcs). destruct Hwf as [Hl Hw].
    change (ORDER - 1)%nat with 63%nat in *.
    split; [lia|]. split; [lia|].
    intros j Hj. rewrite length_fmap in Hlen.
    destruct (lookup_lt_is_Some_2 cs j) as [c Hc]; [lia|].
    assert (Hcsub : c ∈ subtrees T).
    { apply list_elem_of_lookup_2 in Hc.
      assert (Hsub' : ∀ s t u : tree, s ∈ subtrees t → t ∈ subtrees u → s ∈ subtrees u).
      { clear. intros s t u Hs. induction u as [p ks es|p ks cs IH] using tree_ind'; simpl.
        - intros ->%list_elem_of_singleton. done.
        - intros [->|Ht]%elem_of_cons; [done|].
          apply elem_of_flat_map in Ht as (c & Hc & Ht). rewrite Forall_forall in IH.
          apply elem_of_cons. right. apply elem_of_flat_map. exists c. split; [done|].
          by apply IH. }
      apply (Hsub' c (TNode q ks cs) T); [|done].
      eapply subtrees_child; [done|]. destruct c; simpl; set_solver. }
    pose proof (inv_repr _ _ HI) as Hrepr. unfold repr in Hrepr.
    rewrite Forall_forall in Hrepr. destruct (Hrepr c Hcsub) as (nc & Hnc & _).
    exists (tptr c), nc. split; [|done].
    apply Hcs. by rewrite !list_lookup_fmap, Hc.
Qed.

Lemma node_never_full_witness :
  (num_keys (root_node (run_state [] sample_run)) < ORDER - 1)%nat
  ∧ (num_keys (root_node (run_state [] sample_run))
     ≤ length (keys (root_node (run_state [] sample_run))))%nat
  ∧ if is_leaf (root_node (run_state [] sample_run))
    then ∀ j, (j < num_keys (root_node (run_state [] sample_run)))%nat
           → ∃ e, entries (root_node (run_state [] sample_run)) !! j = Some (Some e)
    else ∀ j, (j ≤ num_keys (root_node (run_state [] sample_run)))%nat
           → ∃ c nc, children (root_node (run_state [] sample_run)) !! j = Some (Some c)
                     ∧ heap (run_state [] sample_run) !! c = Some nc.
Proof.
  apply (node_never_full sample_run (run_state [] sample_run) 1%positive).
  - exact sample_run_valid.
  - vm_compute; reflexivity.
  - apply reach_root. vm_compute; reflexivity.
  - vm_compute; reflexivity.
Defined.

(** ** The Bloom filter *)




Definition counted (db : KVS) : Prop := ∃ S, exact (bloom_bits db) (filter_of db) S.

Lemma filter_add_all_exact bits ks : ∀ f S,
  0 < bits < 2 ^ 63 → exact bits f S → ∃ S', exact bits (filter_add_all bits ks f) S'.
Proof.
  induction ks as [|k ks IH]; intros f S Hb Hex; simpl; [eauto|].
  destruct (filter_add_exact bits k f S Hb Hex) as [Hex' _]. by eapply IH.
Qed.

Lemma put_counted db T k v db' :
  Inv db T → counted db → buf_ok k → buf_ok v →
  kvs_put_raw k v db = Some (KVS_OK, db') → counted db'.
Proof.
  intros HI [S Hex] Hk Hv Hput.
  pose proof (bloom_sizes_pos _ (inv_bits _ _ HI)) as Hbits.
  assert (HM : KVS_BLOOM_MAX_BITS = 2 ^ 26) by reflexivity.
  destruct (decide (pool_pos db + cost k v ≤ pool_size db)) as [Hroom|Hroom].
  - destruct (kvs_put_raw_ok db T k v HI Hk Hv Hroom)
      as (db1 & T' & upd & Hput' & HI' & _ & _ & Hf).
    rewrite Hput in Hput'. injection Hput' as <-.
    unfold put_filter in Hf.
    destruct (_ && _) eqn:Hc.
    + destruct Hf as [Hb' Hf']. unfold counted. rewrite Hb', Hf'.
      apply andb_true_iff in Hc as [_ [_ Hlt%Z.ltb_lt]%andb_true_iff].
      eapply (filter_add_all_exact (grown (bloom_bits db)));
        [unfold grown; lia|apply exact_empty].
    + destruct Hf as [Hb' Hf']. unfold counted. rewrite Hb', Hf'.
      eexists. apply (filter_add_exact _ k _ S); [lia|done].
  - destruct (kvs_put_raw_nomem db k v (inv_pool _ _ HI) Hk Hv ltac:(lia)) as (p & Hput' & _).
    rewrite Hput in Hput'. discriminate.
Qed.

Lemma run_counted ops : ∀ db m db',
  holds db m → counted db → Forall valid_op ops →
  run ops db = Some (tt, db') → counted db'.
Proof.
  induction ops as [|o ops IH]; intros db m db' Hm Hc Hv Hrun.
  - by injection Hrun as <-.
  - apply Forall_cons in Hv as [Ho Hv]. destruct o as [k v|k|k].
    + destruct Ho as [Hk Hvv].
      destruct (kvs_put_raw_total db m k v Hm Hk Hvv)
        as (r & db1 & m1 & Hput & Hm1 & _ & _ & Hno).
      rewrite (run_put _ _ _ _ _ _ Hput) in Hrun.
      apply (IH db1 m1 db' Hm1); [|done|done].
      destruct Hm as (T & HI & _).
      destruct r; [exact (put_counted db T k v db1 HI Hc Hk Hvv Hput)|..].
      all: destruct (Hno ltac:(discriminate)) as (_ & _ & Hroom);
        destruct (kvs_put_raw_nomem db k v (inv_pool _ _ HI) Hk Hvv Hroom) as (p & Hput' & _);
        rewrite Hput in Hput'; simplify_eq; destruct Hc as [S HS]; exists S; by destruct db.
    + destruct (kvs_delete_holds db m k Hm) as (db1 & Hdel & Hm1 & _ & Hb & Hf).
      rewrite (run_delete _ _ _ _ _ Hdel) in Hrun.
      apply (IH db1 _ db' Hm1); [|done|done].
      unfold counted. by rewrite Hb, Hf.
    + cbn [run run_op] in Hrun.
      erewrite bind_run in Hrun; [|erewrite bind_run; [|by apply kvs_get_holds]; done].
      by apply (IH db m db' Hm).
Qed.

(** In a state a run from the fresh store ends in, the counter
    [bloom_set_bits] is the number of the bits that are set in the vector,
    all of them at positions below [bloom_bits], which is one of the four
    sizes [2 ^ 20], [2 ^ 22], [2 ^ 24] and [2 ^ 26]. *)
Theorem set_bits_counts_the_bits (ops : list op) (db : KVS) :
  Forall valid_op ops → run ops kvs_open = Some (tt, db) →
  bloom_bits db ∈ [2 ^ 20; 2 ^ 22; 2 ^ 24; 2 ^ 26]
  ∧ ∃ S : gset Z,
      (∀ q, q ∈ S ↔ bloom_get_bit db q = true)
      ∧ (∀ q, q ∈ S → 0 ≤ q < bloom_bits db)
      ∧ bloom_set_bits db = Z.of_nat (size S)
      ∧ bloom_set_bits db ≤ bloom_bits db.
Proof.
  intros Hops Hrun.
  destruct (run_open_inv ops db Hops Hrun) as (m & T & HI & _).
  split; [apply (inv_bits _ _ HI)|].
  pose proof (bloom_sizes_pos _ (inv_bits _ _ HI)) as Hbits.
  destruct (run_counted ops kvs_open ∅ db holds_open) as [S Hex]; [|done|done|].
  { exists ∅. apply exact_empty. }
  pose proof (exact_size (bloom_bits db) (filter_of db) S ltac:(lia) Hex) as Hsz.
  destruct Hex as (Hbit & Hcnt & Hr).
  exists S. split; [|split; [done|split; [done|simpl in Hcnt; lia]]].
  intros q. rewrite bloom_get_bit_bit. apply Hbit.
Qed.

Lemma set_bits_counts_the_bits_witness :
  bloom_bits (run_state [] sample_run) ∈ [2 ^ 20; 2 ^ 22; 2 ^ 24; 2 ^ 26]
  ∧ ∃ S : gset Z,
      (∀ q, q ∈ S ↔ bloom_get_bit (run_state [] sample_run) q = true)
      ∧ (∀ q, q ∈ S → 0 ≤ q < bloom_bits (run_state [] sample_run))
      ∧ bloom_set_bits (run_state [] sample_run) = Z.of_nat (size S)
      ∧ bloom_set_bits (run_state [] sample_run) ≤ bloom_bits (run_state [] sample_run).
Proof.
  apply (set_bits_counts_the_bits sample_run (run_state [] sample_run)).
  - exact sample_run_valid.
  - vm_compute; reflexivity.
Defined.

(** ** Put, get, exists and delete *)

Lemma reachable_holds ops db :
  Forall valid_op ops → run ops kvs_open = Some (tt, db) → ∃ m, holds db m.
Proof. apply run_open_inv. Qed.

(** In a state a run from the fresh store ends in, after a put that
    returns OK a get of the key returns the value put; the answer of get
    for any other key is what it was before; the count has grown by one
    when get did not find the key before, and is unchanged when the put has
    replaced a value. *)
Theorem put_then_get (ops : list op) (db db' : KVS) (k v : list byte) :
  Forall valid_op ops → run ops kvs_open = Some (tt, db) →
  buf_ok k → buf_ok v →
  kvs_put k v db = Some (KVS_OK, db') →
  kvs_get k db' = Some (Some (cstr v), db')
  ∧ (∀ k', cstr k' ≠ cstr k
       → ∃ r, kvs_get k' db = Some (r, db) ∧ kvs_get k' db' = Some (r, db'))
  ∧ ∃ r, kvs_get k db = Some (r, db)
         ∧ count db' = count db + (if r then 0 else 1).
Proof.
  intros Hops Hrun Hk Hv Hput. destruct (reachable_holds ops db Hops Hrun) as [m Hm].
  pose proof (kvs_put_ok_inv _ _ _ _ _ Hm Hk Hv Hput) as Hm'.
  split; [|split].
  - rewrite (kvs_get_holds _ _ k Hm'). by rewrite lookup_insert_eq.
  - intros k' Hne. exists (m !! cstr k'). split; [by apply kvs_get_holds|].
    rewrite (kvs_get_holds _ _ k' Hm'). by rewrite lookup_insert_ne.
  - exists (m !! cstr k). split; [by apply kvs_get_holds|].
    rewrite (holds_count _ _ Hm'), (holds_count _ _ Hm), map_size_insert.
    destruct (m !! cstr k); simpl; lia.
Qed.

Lemma put_then_get_witness :
  kvs_get key_a (run_state sample_run [Put key_a val_2])
  = Some (Some (cstr val_2), run_state sample_run [Put key_a val_2])
  ∧ (∀ k', cstr k' ≠ cstr key_a
       → ∃ r, kvs_get k' (run_state [] sample_run) = Some (r, run_state [] sample_run)
              ∧ kvs_get k' (run_state sample_run [Put key_a val_2])
                = Some (r, run_state sample_run [Put key_a val_2]))
  ∧ ∃ r, kvs_get key_a (run_state [] sample_run) = Some (r, run_state [] sample_run)
         ∧ count (run_state sample_run [Put key_a val_2])
           = count (run_state [] sample_run) + (if r then 0 else 1).
Proof.
  apply (put_then_get sample_run (run_state [] sample_run)
           (run_state sample_run [Put key_a val_2]) key_a val_2).
  - exact sample_run_valid.
  - vm_compute; reflexivity.
  - vm_compute; reflexivity.
  - vm_compute; reflexivity.
  - vm_compute; reflexivity.
Defined.

(** In such a state a delete returns OK when get finds the key and
    NOTFOUND when it does not; afterwards get does not find the key, the
    count is one less when the key was found, the answer of get for any
    other key and the arena position are what they were; a delete that
    returns NOTFOUND leaves the whole store as it was. *)
Theorem delete_then_get (ops : list op) (db : KVS) (k : list byte) :
  Forall valid_op ops → run ops kvs_open = Some (tt, db) →
  ∃ r db',
    kvs_get k db = Some (r, db)
    ∧ kvs_delete k db = Some (if r then KVS_OK else KVS_ERR_NOTFOUND, db')
    ∧ kvs_get k db' = Some (None, db')
    ∧ count db' = count db - (if r then 1 else 0)
    ∧ pool_pos db' = pool_pos db
    ∧ (r = None → db' = db)
    ∧ ∀ k', cstr k' ≠ cstr k
        → ∃ r', kvs_get k' db = Some (r', db) ∧ kvs_get k' db' = Some (r', db').
Proof.
  intros Hops Hrun. destruct (reachable_holds ops db Hops Hrun) as [m Hm].
  destruct (kvs_delete_holds db m k Hm) as (db' & Hdel & Hm' & Hp & _).
  exists (m !! cstr k), db'. split; [by apply kvs_get_holds|]. split.
  { rewrite Hdel. f_equal. f_equal. destruct (m !! cstr k) eqn:E.
    - rewrite decide_True; eauto.
    - rewrite decide_False; [done|]. by intros []. }
  split; [|split; [|split; [done|split]]].
  - rewrite (kvs_get_holds _ _ k Hm'). by rewrite lookup_delete_eq.
  - rewrite (holds_count _ _ Hm'), (holds_count _ _ Hm), map_size_delete.
    destruct (m !! cstr k) eqn:E; simpl; [|lia].
    assert (size m ≠ 0%nat); [|lia].
    apply map_size_ne_0_lookup_2 with (cstr k). eauto.
  - intros Hnone. pose proof Hm as (T & HI & ->).
    destruct (lookup_live_holds db T k HI) as (r0 & Hl & Hr0).
    destruct r0 as [e|].
    { destruct Hr0 as (_ & x & _ & _ & Hsome & _). congruence. }
    unfold kvs_delete in Hdel. erewrite bind_run in Hdel; [|exact Hl].
    by injection Hdel as _ <-.
  - intros k' Hne. exists (m !! cstr k'). split; [by apply kvs_get_holds|].
    rewrite (kvs_get_holds _ _ k' Hm'). by rewrite lookup_delete_ne.
Qed.

Lemma delete_then_get_witness :
  ∃ r db',
    kvs_get key_b (run_state [] sample_run) = Some (r, run_state [] sample_run)
    ∧ kvs_delete key_b (run_state [] sample_run)
      = Some (if r then KVS_OK else KVS_ERR_NOTFOUND, db')
    ∧ kvs_get key_b db' = Some (None, db')
    ∧ count db' = count (run_state [] sample_run) - (if r then 1 else 0)
    ∧ pool_pos db' = pool_pos (run_state [] sample_run)
    ∧ (r = None → db' = run_state [] sample_run)
    ∧ ∀ k', cstr k' ≠ cstr key_b
        → ∃ r', kvs_get k' (run_state [] sample_run) = Some (r', run_state [] sample_run)
                ∧ kvs_get k' db' = Some (r', db').
Proof.
  apply (delete_then_get sample_run (run_state [] sample_run) key_b).
  - exact sample_run_valid.
  - vm_compute; reflexivity.
Defined.

(** In such a state [kvs_exists] answers true exactly for the keys get
    finds, and changes nothing. *)
Theorem exists_agrees_with_get (ops : list op) (db : KVS) (k : list byte) :
  Forall valid_op ops → run ops kvs_open = Some (tt, db) →
  ∃ r, kvs_get k db = Some (r, db)
       ∧ kvs_exists k db = Some (if r then true else false, db).
Proof.
  intros Hops Hrun. destruct (reachable_holds ops db Hops Hrun) as [m Hm].
  exists (m !! cstr k). split; [by apply kvs_get_holds|].
  rewrite (kvs_exists_holds _ _ k Hm). f_equal. f_equal.
  destruct (m !! cstr k); [by rewrite bool_decide_eq_true_2|].
  rewrite bool_decide_eq_false_2; [done|]. by intros [].
Qed.

Lemma exists_agrees_with_get_witness :
  ∃ r, kvs_get key_b (run_state [] sample_run) = Some (r, run_state [] sample_run)
       ∧ kvs_exists key_b (run_state [] sample_run)
         = Some (if r then true else false, run_state [] sample_run).
Proof.
  apply (exists_agrees_with_get sample_run (run_state [] sample_run) key_b).
  - exact sample_run_valid.
  - vm_compute; reflexivity.
Defined.

(** ** The arena *)

(** In such a state a put returns OK exactly when the arena has room for
    the entry record and the copies of the key and of the value with their
    terminators, each rounded up to a multiple of eight, and
    [KVS_ERR_NOMEM] otherwise; a put that returns OK moves the arena
    position by exactly that much, whether it inserts a key or replaces a
    value. *)
Theorem put_needs_and_takes_room (ops : list op) (db : KVS) (k v : list byte) :
  Forall valid_op ops → run ops kvs_open = Some (tt, db) →
  buf_ok k → buf_ok v →
  ∃ r db', kvs_put_raw k v db = Some (r, db')
    ∧ r = (if decide (pool_pos db + (SIZEOF_ENTRY + 8 * ((len k + 8) / 8)
                                     + 8 * ((len v + 8) / 8)) ≤ pool_size db)
           then KVS_OK else KVS_ERR_NOMEM)
    ∧ (r = KVS_OK
       → pool_pos db' = pool_pos db + (SIZEOF_ENTRY + 8 * ((len k + 8) / 8)
                                       + 8 * ((len v + 8) / 8)))
    ∧ pool_pos db ≤ pool_pos db' ≤ pool_size db'
    ∧ pool_size db' = KVS_DEFAULT_POOL_SIZE.
Proof.
  intros Hops Hrun Hk Hv. destruct (reachable_holds ops db Hops Hrun) as [m Hm].
  assert (Hcost : cost k v = SIZEOF_ENTRY + 8 * ((len k + 8) / 8) + 8 * ((len v + 8) / 8)).
  { unfold cost. unfold buf_ok in *.
    rewrite !align8_val by (unfold len in *; lia).
    by replace (len k + 1 + 7) with (len k + 8) by lia;
       replace (len v + 1 + 7) with (len v + 8) by lia. }
  rewrite <- Hcost.
  destruct (kvs_put_raw_total db m k v Hm Hk Hv)
    as (r & db' & m' & Hput & (T' & HI' & _) & Hle & Hok & Hno).
  destruct (inv_pool _ _ HI') as [Hsz Hpos].
  exists r, db'. split; [done|]. split; [|split; [|split; [lia|done]]].
  - pose proof Hm as (T & HI & _). destruct (inv_pool _ _ HI) as [Hsz0 _].
    destruct (decide (pool_pos db + cost k v ≤ pool_size db)) as [Hroom|Hroom].
    + destruct r; try done; destruct (Hno ltac:(discriminate)) as (_ & _ & ?); lia.
    + destruct r; try (by destruct (Hno ltac:(discriminate)) as (? & _)).
      destruct (Hok eq_refl) as [_ Hp]. lia.
  - intros ->. by destruct (Hok eq_refl).
Qed.

Lemma put_needs_and_takes_room_witness :
  ∃ r db', kvs_put_raw key_a val_2 (run_state [] sample_run) = Some (r, db')
    ∧ r = (if decide (pool_pos (run_state [] sample_run)
                      + (SIZEOF_ENTRY + 8 * ((len key_a + 8) / 8) + 8 * ((len val_2 + 8) / 8))
                      ≤ pool_size (run_state [] sample_run))
           then KVS_OK else KVS_ERR_NOMEM)
    ∧ (r = KVS_OK
       → pool_pos db' = pool_pos (run_state [] sample_run)
                        + (SIZEOF_ENTRY + 8 * ((len key_a + 8) / 8)
                           + 8 * ((len val_2 + 8) / 8)))
    ∧ pool_pos (run_state [] sample_run) ≤ pool_pos db' ≤ pool_size db'
    ∧ pool_size db' = KVS_DEFAULT_POOL_SIZE.
Proof.
  apply (put_needs_and_takes_room sample_run (run_state [] sample_run) key_a val_2).
  - exact sample_run_valid.
  - vm_compute; reflexivity.
  - vm_compute; reflexivity.
  - vm_compute; reflexivity.
Defined.

(** ** Iteration *)

Lemma lookup_live_raw db T k :
  Inv db T →
  ∃ r, lookup_live k (length k) db = Some (r, db)
       ∧ match r with
         | Some e => ∃ x, pool db !! e = Some x ∧ deleted x = false
                          ∧ live_map db T !! k = Some (value x)
                          ∧ vlen x = len (value x)
         | None => live_map db T !! k = None
         end.
Proof.
  intros HI. destruct (lookup_live_spec db T k HI) as (r & Hrun & Hr).
  exists r. split; [done|]. destruct r as [e|].
  - destruct Hr as (Hin & x & Hx & Hd). exists x.
    split; [done|]. split; [done|]. split.
    + apply elem_of_list_to_map_1; [by apply live_keys_nodup|].
      by eapply live_pairs_intro.
    + pose proof (inv_slots _ _ HI) as Hs. rewrite Forall_forall in Hs.
      destruct (Hs _ Hin) as (y & Hy & _ & _ & Hv & _). simpl in Hy. congruence.
  - by apply not_elem_of_list_to_map_1.
Qed.

Lemma kvs_get_raw_holds db m k :
  holds db m →
  kvs_get_raw k (length k) db = Some ((λ v, (v, len v)) <$> m !! k, db).
Proof.
  intros (T & HI & ->). destruct (lookup_live_raw db T k HI) as (r & Hrun & Hr).
  unfold kvs_get_raw. erewrite bind_run; [|exact Hrun]. destruct r as [e|].
  - destruct Hr as (x & Hx & Hd & Hm & Hv).
    erewrite bind_run; [|by apply load_entry_run].
    rewrite Hm, Hv. unfold len. rewrite Nat2Z.id, firstn_all. done.
  - by rewrite Hr.
Qed.

(** In a state a run from the fresh store ends in, [kvs_foreach] calls the
    callback on keys in strictly increasing order of [keycmp], each with
    its length and with the value and the length [kvs_get_raw] returns for
    it, and on every key for which [kvs_get_raw] returns a value; it
    returns the count and changes nothing. *)
Theorem foreach_visits_in_key_order (ops : list op) (db : KVS) :
  Forall valid_op ops → run ops kvs_open = Some (tt, db) →
  ∃ vs, kvs_foreach db = Some ((vs, count db), db)
    ∧ (∀ i j ki li vi wi kj lj vj wj, (i < j)%nat →
         vs !! i = Some (ki, li, vi, wi) → vs !! j = Some (kj, lj, vj, wj) →
         keycmp ki li kj lj < 0)
    ∧ (∀ k kl v vl, (k, kl, v, vl) ∈ vs
         ↔ kl = len k ∧ kvs_get_raw k (length k) db = Some (Some (v, vl), db)).
Proof.
  intros Hops Hrun. destruct (reachable_holds ops db Hops Hrun) as [m Hm].
  pose proof Hm as (T & HI & HmT).
  exists (pair_visit <$> live_pairs (pool db) (contents T)).
  split; [by apply kvs_foreach_holds|]. split.
  - intros i j ki li vi wi kj lj vj wj Hij Hi Hj.
    apply list_lookup_fmap_Some in Hi as ([a b] & [= -> -> -> ->] & Hi).
    apply list_lookup_fmap_Some in Hj as ([c d] & [= -> -> -> ->] & Hj).
    apply Z.ltb_lt. rewrite keycmp_lt. apply bool_decide_eq_true.
    apply (live_keys_sorted db T HI i j); [| |done].
    + by rewrite list_lookup_fmap, Hi.
    + by rewrite list_lookup_fmap, Hj.
  - intros k kl v vl. rewrite (kvs_get_raw_holds _ _ k Hm), HmT. unfold live_map.
    rewrite list_elem_of_fmap. split.
    + intros ([a b] & [= -> -> -> ->] & Hin). split; [done|].
      rewrite (elem_of_list_to_map_1 _ _ _ (live_keys_nodup _ _ HI) Hin). done.
    + intros [-> Hget]. exists (k, v).
      destruct (list_to_map _ !! k) as [v'|] eqn:E; [|done].
      injection Hget as -> <-. split; [done|]. by apply elem_of_list_to_map_2.
Qed.

Lemma foreach_visits_in_key_order_witness :
  ∃ vs, kvs_foreach (run_state [] sample_run)
        = Some ((vs, count (run_state [] sample_run)), run_state [] sample_run)
    ∧ (∀ i j ki li vi wi kj lj vj wj, (i < j)%nat →
         vs !! i = Some (ki, li, vi, wi) → vs !! j = Some (kj, lj, vj, wj) →
         keycmp ki li kj lj < 0)
    ∧ (∀ k kl v vl, (k, kl, v, vl) ∈ vs
         ↔ kl = len k
           ∧ kvs_get_raw k (length k) (run_state [] sample_run)
             = Some (Some (v, vl), run_state [] sample_run)).
Proof.
  apply (foreach_visits_in_key_order sample_run (run_state [] sample_run)).
  - exact sample_run_valid.
  - vm_compute; reflexivity.
Defined.

(** ** The snapshot *)

(** The four fields [kvs_save] writes for a call of the callback. *)
Definition visit_bytes (x : visit) : list byte :=
  le_bytes 4 x.1.1.2 ++ le_bytes 4 x.2 ++ x.1.1.1 ++ x.1.2.

Lemma visit_bytes_pairs (ps : list (list byte * list byte)) :
  flat_map visit_bytes (pair_visit <$> ps) = flat_map pair_bytes ps.
Proof.
  induction ps as [|[k v] ps IH]; [done|].
  rewrite fmap_cons. cbn [flat_map]. by rewrite IH.
Qed.

(** In a state a run from the fresh store ends in, [kvs_save] writes the
    magic number, the count and the size of the filter in bits (eight
    bytes each), the bytes of the filter, and then for each entry that
    [kvs_foreach] visits, in that order, the two lengths (four bytes each),
    the key and the value; all integers little endian; it changes
    nothing. *)
Theorem save_writes_the_live_pairs (ops : list op) (db : KVS) :
  Forall valid_op ops → run ops kvs_open = Some (tt, db) →
  ∃ vs, kvs_foreach db = Some ((vs, count db), db)
    ∧ kvs_save db
      = Some (le_bytes 4 KVS_MAGIC ++ le_bytes 8 (count db) ++ le_bytes 8 (bloom_bits db)
              ++ bloom_bytes db ++ flat_map visit_bytes vs, db)
    ∧ length (bloom_bytes db) = Z.to_nat (bloom_bits db / 8).
Proof.
  intros Hops Hrun. destruct (reachable_holds ops db Hops Hrun) as (m & T & HI & _).
  exists (pair_visit <$> live_pairs (pool db) (contents T)).
  split; [by apply kvs_foreach_holds|]. split.
  - rewrite (kvs_save_run db T HI), visit_bytes_pairs. unfold header_bytes.
    by rewrite <- !app_assoc.
  - apply length_bloom_read.
Qed.

Lemma save_writes_the_live_pairs_witness :
  ∃ vs, kvs_foreach (run_state [] sample_run)
        = Some ((vs, count (run_state [] sample_run)), run_state [] sample_run)
    ∧ kvs_save (run_state [] sample_run)
      = Some (le_bytes 4 KVS_MAGIC ++ le_bytes 8 (count (run_state [] sample_run))
              ++ le_bytes 8 (bloom_bits (run_state [] sample_run))
              ++ bloom_bytes (run_state [] sample_run) ++ flat_map visit_bytes vs,
              run_state [] sample_run)
    ∧ length (bloom_bytes (run_state [] sample_run))
      = Z.to_nat (bloom_bits (run_state [] sample_run) / 8).
Proof.
  apply (save_writes_the_live_pairs sample_run (run_state [] sample_run)).
  - exact sample_run_valid.
  - vm_compute; reflexivity.
Defined.

(** ** The filter of a loaded store *)

Lemma filter_set_id pos f : bit f.1 pos = true → filter_set pos f = f.
Proof.
  intros Hb. unfold filter_set.
  assert (H07 : 0 ≤ Z.land pos 7) by (rewrite land7; apply Z.mod_pos_bound; lia).
  rewrite land_bit by done. fold (bit f.1 pos). by rewrite Hb.
Qed.

Lemma filter_add_id bits k f :
  (∀ q, q ∈ positions bits k → bit f.1 q = true) → filter_add bits k f = f.
Proof.
  intros H. unfold filter_add, positions in *.
  rewrite (filter_set_id (fnv1a _ _ mod _)) by (apply H; set_solver).
  rewrite (filter_set_id (hash2 _ _ mod _)) by (apply H; set_solver).
  rewrite (filter_set_id (hash3 _ _ mod _)) by (apply H; set_solver). done.
Qed.

Lemma lookup_bloom_of_bytes bs : ∀ i j,
  bloom_of_bytes i bs !! j
  = if decide (i ≤ j < i + len bs) then u8 <$> bs !! Z.to_nat (j - i) else None.
Proof.
  unfold len. induction bs as [|b bs IH]; intros i j; simpl.
  - rewrite lookup_empty. destruct (decide _); [lia|done].
  - destruct (decide (j = i)) as [->|Hne].
    + rewrite lookup_insert_eq, decide_True by lia. by rewrite Z.sub_diag.
    + rewrite lookup_insert_ne by done. rewrite IH.
      destruct (decide (i + 1 ≤ j < i + 1 + Z.of_nat (length bs))).
      * rewrite decide_True by lia.
        replace (Z.to_nat (j - i)) with (S (Z.to_nat (j - (i + 1)))) by lia. done.
      * rewrite decide_False by lia. done.
Qed.

Lemma lookup_bloom_read db n : ∀ i j,
  (j < n)%nat → bloom_read db i n !! j = Some (byte_of (bloom_byte db (i + Z.of_nat j))).
Proof.
  induction n as [|n IH]; intros i j Hj; [lia|]. destruct j as [|j]; simpl.
  - by rewrite Z.add_0_r.
  - rewrite IH by lia. do 3 f_equal. lia.
Qed.

Lemma bit_loaded db q :
  0 ≤ q < 8 * (bloom_bits db / 8) →
  bit (bloom_of_bytes 0 (bloom_bytes db)) q = bit (bloom db) q.
Proof.
  intros Hq. unfold bit. rewrite lookup_bloom_of_bytes, shiftr3, land7.
  unfold len, bloom_bytes. rewrite length_bloom_read.
  pose proof (Z.mod_pos_bound q 8 ltac:(lia)).
  assert (0 ≤ q / 8 < bloom_bits db / 8).
  { split; [apply Z.div_pos; lia|]. apply Z.div_lt_upper_bound; lia. }
  rewrite decide_True by lia.
  rewrite lookup_bloom_read by lia. simpl.
  rewrite u8_byte_of. unfold bloom_byte.
  replace (0 + Z.of_nat (Z.to_nat (q / 8 - 0))) with (q / 8) by lia.
  change 256 with (2 ^ 8). apply Z.mod_pow2_bits_low. lia.
Qed.

Lemma load_entries_filter junk ps : ∀ i db m rest,
  holds db m → Forall small_pair ps →
  pool_pos db + total_cost ps ≤ pool_size db →
  (∀ kv, kv ∈ ps → maybe db kv.1) → bloom_set_bits db = 0 →
  ∃ db', load_entries junk i (length ps) (flat_map pair_bytes ps ++ rest) db = Some (tt, db')
         ∧ holds db' (foldl (λ m kv, <[kv.1 := kv.2]> m) m ps)
         ∧ pool_pos db' = pool_pos db + total_cost ps
         ∧ bloom_bits db' = bloom_bits db ∧ filter_of db' = filter_of db.
Proof.
  induction ps as [|[k v] ps IH]; intros i db m rest Hm Hsm Hroom Hmay Hsb.
  - exists db. simpl. split; [done|]. split; [done|]. split; [lia|done].
  - apply Forall_cons in Hsm as [[Hk Hv] Hsm]. simpl in Hk, Hv.
    cbn [total_cost foldr fst snd] in Hroom |- *. fold (total_cost ps) in Hroom |- *.
    assert (Hps : 0 ≤ total_cost ps).
    { clear -Hsm. induction Hsm as [|[k v] ps [Hk Hv] _ IH]; simpl; [done|].
      fold (total_cost ps). simpl in *.
      pose proof (cost_nonneg k v ltac:(unfold buf_ok; lia) ltac:(unfold buf_ok; lia)). lia. }
    assert (Hbk : buf_ok k) by (unfold buf_ok; lia).
    assert (Hbv : buf_ok v) by (unfold buf_ok; lia).
    pose proof Hm as (T & HI & _).
    pose proof (bloom_sizes_pos _ (inv_bits _ _ HI)) as Hbits.
    destruct (kvs_put_raw_filter db m k v Hm Hbk Hbv ltac:(lia))
      as (db1 & live' & Hput & Hm1 & Hpos1 & _ & Hf).
    assert (Hid : filter_add (bloom_bits db) k (filter_of db) = filter_of db).
    { apply filter_add_id. intros q Hq. apply (Hmay (k, v)); [set_solver|done]. }
    unfold put_filter in Hf. rewrite Hid in Hf.
    assert (Hnf : fill_reached (filter_of db).2 (bloom_bits db) = false).
    { unfold fill_reached. simpl. rewrite Hsb.
      destruct (Z.eqb_spec (bloom_bits db) 0); [lia|]. apply Z.leb_gt. lia. }
    rewrite Hnf, andb_false_r in Hf. destruct Hf as [Hb1 Hf1].
    destruct (IH (S i) db1 (<[k := v]> m) rest Hm1 Hsm) as (db' & Hload & Hm' & Hp' & Hb' & Hf').
    { rewrite (holds_pool_size _ _ Hm1). rewrite (holds_pool_size _ _ Hm) in Hroom. lia. }
    { intros kv Hkv q Hq. rewrite Hb1 in Hq.
      change (bloom db1) with (filter_of db1).1. rewrite Hf1.
      apply (Hmay kv); [set_solver|done]. }
    { change (bloom_set_bits db1) with (filter_of db1).2. by rewrite Hf1. }
    exists db'. split; [|split; [exact Hm'|split; [lia|split; congruence]]].
    cbn [length load_entries flat_map]. unfold pair_bytes at 1. cbn [fst snd].
    repeat rewrite <- app_assoc.
    assert (H4 : ∀ z, length (le_bytes 4 z) = 4%nat) by (intros; apply length_le_bytes).
    pose proof (fread_over (uninit (junk (klen_object i)) 4) (le_bytes 4 (len k))) as F1.
    rewrite H4 in F1. rewrite F1 by done.
    pose proof (fread_over (uninit (junk (vlen_object i)) 4) (le_bytes 4 (len v))) as F2.
    rewrite H4 in F2. rewrite F2 by done.
    assert (Hnk : 0 ≤ len k) by (unfold len; lia).
    assert (Hnv : 0 ≤ len v) by (unfold len; lia).
    rewrite !le_value_le_bytes by (change (256 ^ Z.of_nat 4) with (2 ^ 32); lia).
    unfold wrap32. rewrite !Z.mod_small by lia.
    destruct (Z.eqb_spec (len k + 1) 0) as [?|_]; [lia|].
    destruct (Z.eqb_spec (len v + 1) 0) as [?|_]; [lia|].
    cbn [orb]. unfold len. rewrite !Nat2Z.id.
    rewrite !fread_exact.
    erewrite bind_run; [|exact Hput]. exact Hload.
Qed.

Lemma bloom_sizes_div8 bits : bits ∈ bloom_sizes → 8 * (bits / 8) = bits.
Proof.
  unfold bloom_sizes. rewrite !elem_of_cons, elem_of_nil.
  intros [->|[->|[->|[->|[]]]]]; reflexivity.
Qed.

(** The pair of a call of the callback. *)
Definition visit_pair (x : visit) : list byte * list byte := (x.1.1.1, x.1.2).

Lemma visit_pair_pairs (ps : list (list byte * list byte)) :
  visit_pair <$> (pair_visit <$> ps) = ps.
Proof.
  rewrite <- list_fmap_compose. rewrite <- (list_fmap_id ps) at 2.
  apply list_fmap_ext. by intros _ [k v] _.
Qed.

(** A store a run from the fresh store ends in is saved and loaded: the
    loaded store has the count and the filter size of the saved one and
    the same bits set in the filter, but its counter of set bits is zero;
    its arena holds one record, key and value for each live pair and
    nothing else, which is no more than the arena of the saved store
    held. *)
Theorem load_compacts_and_restarts_the_bit_counter (junk : nat → nat → byte) (ops : list op)
    (db : KVS) :
  Forall valid_op ops → run ops kvs_open = Some (tt, db) →
  ∃ f db' vs,
    kvs_save db = Some (f, db) ∧ kvs_load junk f = Some (Some db')
    ∧ kvs_foreach db = Some ((vs, count db), db)
    ∧ count db' = count db
    ∧ bloom_bits db' = bloom_bits db
    ∧ (∀ q, 0 ≤ q < bloom_bits db → bloom_get_bit db' q = bloom_get_bit db q)
    ∧ bloom_set_bits db' = 0
    ∧ pool_pos db' = total_cost (visit_pair <$> vs)
    ∧ pool_pos db' ≤ pool_pos db.
Proof.
  intros Hops Hrun. destruct (reachable_holds ops db Hops Hrun) as (m & T & HI & ->).
  set (ps := live_pairs (pool db) (contents T)).
  set (db0 := set_bloom (bloom_of_bytes 0 (bloom_bytes db))
                (set_bloom_bits (bloom_bits db) kvs_open)).
  assert (H0 : holds db0 ∅).
  { exists (TLeaf 1 [] []). split; [|done].
    apply Inv_set_filter; [apply Inv_open|apply (inv_bits _ _ HI)]. }
  pose proof (bloom_sizes_pos _ (inv_bits _ _ HI)) as Hpos.
  pose proof (bloom_sizes_div8 _ (inv_bits _ _ HI)) as Hdiv.
  destruct (load_entries_filter junk ps 0%nat db0 ∅ [] H0)
    as (db' & Hload & Hm' & Hp' & Hb' & Hf').
  { apply small_live_pairs, (inv_slots _ _ HI). }
  { pose proof (inv_cost _ _ HI). destruct (inv_pool _ _ HI) as [Hs Hp].
    change (pool_pos db0) with 0. change (pool_size db0) with KVS_DEFAULT_POOL_SIZE.
    fold ps in H. lia. }
  { intros kv Hkv q Hq. change (bloom db0) with (bloom_of_bytes 0 (bloom_bytes db)).
    change (bloom_bits db0) with (bloom_bits db) in Hq.
    rewrite bit_loaded by (rewrite Hdiv; apply (positions_range _ kv.1); [lia|done]).
    by apply (inv_bloom _ _ HI kv). }
  { done. }
  rewrite foldl_insert_list_to_map in Hm' by apply (live_keys_nodup _ _ HI).
  exists (header_bytes db ++ flat_map pair_bytes ps), db', (pair_visit <$> ps).
  split; [by apply kvs_save_run|]. split.
  { rewrite app_nil_r in Hload.
    pose proof (bloom_sizes_bound _ (inv_bits _ _ HI)) as Hbits.
    assert (Hcnt : 0 ≤ count db < 2 ^ 28).
    { rewrite (inv_count _ _ HI).
      pose proof (slots_count_bound db T (inv_slots _ _ HI) (inv_slots_nodup _ _ HI)
                    (inv_pool _ _ HI)). lia. }
    unfold kvs_load, header_bytes. repeat rewrite <- app_assoc.
    pose proof (fread_over (uninit (junk 0%nat) 4) (le_bytes 4 KVS_MAGIC)) as F1.
    rewrite length_le_bytes in F1. rewrite F1 by done.
    rewrite le_value_le_bytes by (compute; split; congruence).
    rewrite Z.eqb_refl. cbn [negb].
    pose proof (fread_over (uninit (junk 1%nat) SIZEOF_SIZE_T) (le_bytes SIZEOF_SIZE_T (count db)))
      as F2.
    rewrite length_le_bytes in F2. rewrite F2 by done.
    pose proof (fread_over (le_bytes SIZEOF_SIZE_T (bloom_bits kvs_open))
                  (le_bytes SIZEOF_SIZE_T (bloom_bits db))) as F3.
    rewrite length_le_bytes in F3. rewrite F3 by by rewrite length_le_bytes.
    rewrite !le_value_le_bytes by (change (256 ^ Z.of_nat SIZEOF_SIZE_T) with (2 ^ 64); lia).
    change (bloom_bits (set_bloom_bits (bloom_bits db) kvs_open)) with (bloom_bits db).
    pose proof (fread_exact (junk 2%nat) (bloom_bytes db)) as F4.
    unfold bloom_bytes at 1 2 in F4. rewrite length_bloom_read in F4. rewrite F4.
    fold db0. rewrite (inv_count _ _ HI), Nat2Z.id. fold ps. by rewrite Hload. }
  split; [by apply kvs_foreach_holds|].
  split.
  { rewrite (holds_count _ _ Hm').
    rewrite map_size_list_to_map by apply (live_keys_nodup _ _ HI).
    by rewrite (inv_count _ _ HI). }
  split; [exact Hb'|]. split.
  { intros q Hq. rewrite !bloom_get_bit_bit.
    change (bloom db') with (filter_of db').1. rewrite Hf'. simpl.
    apply bit_loaded. lia. }
  split; [change (bloom_set_bits db') with (filter_of db').2; by rewrite Hf'|].
  rewrite visit_pair_pairs. change (pool_pos db0) with 0 in Hp'.
  split; [lia|]. pose proof (inv_cost _ _ HI) as Hc. fold ps in Hc. lia.
Qed.

Lemma load_compacts_and_restarts_the_bit_counter_witness :
  ∃ f db' vs,
    kvs_save (run_state [] sample_run) = Some (f, run_state [] sample_run)
    ∧ kvs_load zero_junk f = Some (Some db')
    ∧ kvs_foreach (run_state [] sample_run)
      = Some ((vs, count (run_state [] sample_run)), run_state [] sample_run)
    ∧ count db' = count (run_state [] sample_run)
    ∧ bloom_bits db' = bloom_bits (run_state [] sample_run)
    ∧ (∀ q, 0 ≤ q < bloom_bits (run_state [] sample_run)
         → bloom_get_bit db' q = bloom_get_bit (run_state [] sample_run) q)
    ∧ bloom_set_bits db' = 0
    ∧ pool_pos db' = total_cost (visit_pair <$> vs)
    ∧ pool_pos db' ≤ pool_pos (run_state [] sample_run).
Proof.
  apply (load_compacts_and_restarts_the_bit_counter zero_junk sample_run
           (run_state [] sample_run)).
  - exact sample_run_valid.
  - vm_compute; reflexivity.
Defined.

Local Close Scope Z_scope.
